(** * Katana runtime clients: a shallow embedding of ParallelSTL.h,
      NumaMem.cpp and PropertyCache.h, with the properties stated about them.

    Iterators into a range are modelled as offsets from [first]; an array is
    a [list] read with [!!] and written with [<[ _ := _ ]>] / [list_inserts];
    [size_t] and [unsigned] values are [Z] with the wrap-around written out. *)

From Stdlib Require Import ZArith Lia Permutation.
From stdpp Require Import base numbers option list strings relations.

(** ** Machine integers *)

Module SizeT.
Local Open Scope Z_scope.

(** [size_t] on the 64-bit targets the runtime supports. *)
Definition modulus : Z := 2 ^ 64.
Definition wrap (z : Z) : Z := z mod modulus.

(** [unsigned] (32 bit), as used for [BS] in partition_helper_state. *)
Definition umodulus : Z := 2 ^ 32.
Definition uwrap (z : Z) : Z := z mod umodulus.

Lemma wrap_small z : 0 <= z < modulus -> wrap z = z.
Proof. intros H. unfold wrap. now apply Z.mod_small. Qed.

Lemma uwrap_small z : 0 <= z < umodulus -> uwrap z = z.
Proof. intros H. unfold uwrap. now apply Z.mod_small. Qed.

End SizeT.

(** ** The block decomposition of partial_sum (ParallelSTL.h, 336-349) *)

Module Blocks.
Import SizeT.
Local Open Scope Z_scope.

(** [const size_t blockSize = (sizeOfVector + numBlocks - 1) / numBlocks;] *)
Definition blockSize (sizeOfVector numBlocks : Z) : Z :=
  wrap (sizeOfVector + numBlocks - 1) / numBlocks.

(** [size_t blockStart = std::min(block * blockSize, sizeOfVector);] *)
Definition blockStart (sizeOfVector numBlocks block : Z) : Z :=
  Z.min (wrap (block * blockSize sizeOfVector numBlocks)) sizeOfVector.

(** [size_t blockEnd = std::min((block + 1) * blockSize, sizeOfVector);] *)
Definition blockEnd (sizeOfVector numBlocks block : Z) : Z :=
  Z.min (wrap (wrap (block + 1) * blockSize sizeOfVector numBlocks))
        sizeOfVector.

(** The operands the code can see: a non-negative length, a block count
    that is a positive [size_t], and a rounded-up sum that [size_t] holds. *)
Definition in_range (N T : Z) : Prop :=
  0 <= N /\ 0 < T < modulus /\ N + T <= modulus.

Section Facts.
Variables N T : Z.
Hypothesis HR : in_range N T.

Let bs := blockSize N T.

Lemma blockSize_eq : bs = (N + T - 1) / T.
Proof.
  destruct HR as (HN & [HT HT'] & HS). subst bs. unfold blockSize.
  rewrite wrap_small by lia. reflexivity.
Qed.

Lemma blockSize_ceil : N <= T * bs /\ T * bs <= N + T - 1.
Proof.
  destruct HR as (HN & [HT HT'] & HS). rewrite blockSize_eq.
  pose proof (Z.div_mod (N + T - 1) T ltac:(lia)) as Hd.
  pose proof (Z.mod_pos_bound (N + T - 1) T HT) as Hm.
  split; lia.
Qed.

Lemma blockSize_nonneg : 0 <= bs.
Proof.
  destruct HR as (HN & [HT HT'] & HS). rewrite blockSize_eq.
  apply Z.div_pos; lia.
Qed.

Lemma blockSize_pos : 0 < N -> 0 < bs.
Proof.
  intros HN'. pose proof blockSize_ceil. pose proof blockSize_nonneg.
  destruct HR as (HN & [HT HT'] & HS). nia.
Qed.

Lemma mul_bound b : 0 <= b <= T -> 0 <= b * bs <= N + T - 1.
Proof.
  intros Hb. pose proof blockSize_ceil. pose proof blockSize_nonneg. nia.
Qed.

Lemma blockStart_eq b : 0 <= b <= T -> blockStart N T b = Z.min (b * bs) N.
Proof.
  intros Hb. unfold blockStart. fold bs.
  destruct HR as (HN & [HT HT'] & HS). pose proof (mul_bound b Hb).
  rewrite wrap_small by lia. reflexivity.
Qed.

Lemma blockEnd_eq b : 0 <= b < T -> blockEnd N T b = Z.min ((b + 1) * bs) N.
Proof.
  intros Hb. unfold blockEnd. fold bs.
  destruct HR as (HN & [HT HT'] & HS). pose proof (mul_bound (b + 1) ltac:(lia)).
  rewrite (wrap_small (b + 1)) by lia.
  rewrite wrap_small by lia. reflexivity.
Qed.

Lemma blockEnd_next b : 0 <= b < T -> blockEnd N T b = blockStart N T (b + 1).
Proof.
  intros Hb. rewrite blockEnd_eq, blockStart_eq by lia. reflexivity.
Qed.

Lemma blockStart_0 : blockStart N T 0 = 0.
Proof.
  destruct HR as (HN & [HT HT'] & HS). rewrite blockStart_eq by lia. lia.
Qed.

Lemma blockEnd_last : blockEnd N T (T - 1) = N.
Proof.
  destruct HR as (HN & [HT HT'] & HS). rewrite blockEnd_eq by lia.
  pose proof blockSize_ceil. replace (T - 1 + 1) with T by lia. lia.
Qed.

Lemma block_bounds b :
  0 <= b < T -> 0 <= blockStart N T b <= blockEnd N T b /\ blockEnd N T b <= N.
Proof.
  intros Hb. rewrite blockStart_eq, blockEnd_eq by lia.
  destruct HR as (HN & [HT HT'] & HS). pose proof blockSize_nonneg. nia.
Qed.

Lemma block_size_le b :
  0 <= b < T -> blockEnd N T b - blockStart N T b <= bs.
Proof.
  intros Hb. rewrite blockStart_eq, blockEnd_eq by lia.
  pose proof blockSize_nonneg. nia.
Qed.

Lemma block_size_full b :
  0 <= b < T -> (b + 1) * bs <= N -> blockEnd N T b - blockStart N T b = bs.
Proof.
  intros Hb Hf. rewrite blockStart_eq, blockEnd_eq by lia.
  pose proof blockSize_nonneg. nia.
Qed.

Lemma block_of_index i :
  0 <= i < N ->
  let b := i / bs in
  0 <= b < T /\ blockStart N T b <= i < blockEnd N T b.
Proof.
  intros Hi b. pose proof (blockSize_pos ltac:(lia)) as Hbs.
  pose proof blockSize_ceil as Hc.
  pose proof (Z.div_mod i bs ltac:(lia)) as Hd.
  pose proof (Z.mod_pos_bound i bs Hbs) as Hm. fold b in Hd.
  assert (0 <= b) by (apply Z.div_pos; lia).
  assert (b < T) by nia.
  split; [lia|]. rewrite blockStart_eq, blockEnd_eq by lia. nia.
Qed.

Lemma block_of_index_unique i b :
  0 <= b < T -> blockStart N T b <= i < blockEnd N T b -> b = i / bs.
Proof.
  intros Hb. rewrite blockStart_eq, blockEnd_eq by lia. intros Hi.
  pose proof blockSize_nonneg as Hn.
  assert (0 < bs) by nia.
  apply (Z.div_unique_pos i bs b (i - b * bs)); nia.
Qed.

(** A block that holds an index is preceded by full blocks only. *)
Lemma block_before_nonempty b k :
  0 <= k < b -> b < T -> blockStart N T b < blockEnd N T b ->
  blockStart N T k < blockEnd N T k.
Proof.
  intros Hk Hb. rewrite !blockStart_eq, !blockEnd_eq by lia. intros Hne.
  pose proof blockSize_nonneg. nia.
Qed.
End Facts.

(** C3, as stated, fails: with 1025 items and 64 blocks the block size is 17,
    block 60 is not the last one and yet holds only 5 items (blocks 61 to 63
    are empty). *)
Lemma blocks_not_all_full :
  ~ (forall b, 0 <= b < 64 - 1 ->
       blockEnd 1025 64 b - blockStart 1025 64 b = blockSize 1025 64).
Proof.
  intros H. specialize (H 60 ltac:(lia)). vm_compute in H. discriminate.
Qed.

(** C3 (amended): for N items and T blocks the size is ceil(N/T); block b is
    the contiguous range from min(b*size, N) to min((b+1)*size, N), so it
    starts where the previous one ends, block 0 starts at 0, the last block
    ends at N, no block is longer than the block size, a block that fits
    before N is full, and every index below N lies in exactly one block. *)
Theorem blocks_partition_range (N T : Z) :
  in_range N T ->
  (blockSize N T = (N + T - 1) / T /\
   N <= T * blockSize N T <= N + T - 1) /\
  blockStart N T 0 = 0 /\
  blockEnd N T (T - 1) = N /\
  (forall b, 0 <= b < T ->
     0 <= blockStart N T b <= blockEnd N T b /\
     blockEnd N T b <= N /\
     blockEnd N T b = blockStart N T (b + 1) /\
     blockEnd N T b - blockStart N T b <= blockSize N T /\
     ((b + 1) * blockSize N T <= N ->
      blockEnd N T b - blockStart N T b = blockSize N T)) /\
  (forall i, 0 <= i < N ->
     exists b, (0 <= b < T /\ blockStart N T b <= i < blockEnd N T b) /\
       forall b', 0 <= b' < T ->
         blockStart N T b' <= i < blockEnd N T b' -> b' = b).
Proof.
  intros HR. repeat split.
  - apply (blockSize_eq N T HR).
  - apply (blockSize_ceil N T HR).
  - apply (blockSize_ceil N T HR).
  - apply (blockStart_0 N T HR).
  - apply (blockEnd_last N T HR).
  - apply (block_bounds N T HR b); assumption.
  - apply (block_bounds N T HR b); assumption.
  - apply (block_bounds N T HR b); assumption.
  - apply (blockEnd_next N T HR b); assumption.
  - apply (block_size_le N T HR b); assumption.
  - intros Hf. apply (block_size_full N T HR b); assumption.
  - intros i Hi. exists (i / blockSize N T).
    split; [apply (block_of_index N T HR i Hi)|].
    intros b' Hb' Hin. apply (block_of_index_unique N T HR i b' Hb' Hin).
Qed.

Lemma blocks_partition_range_witness :
  in_range 1025 64 /\
  blockEnd 1025 64 (64 - 1) = 1025.
Proof.
  assert (HR : in_range 1025 64) by (unfold in_range, modulus; lia).
  split; [exact HR|].
  pose proof (blocks_partition_range 1025 64 HR) as (_ & _ & H & _).
  exact H.
Defined.

End Blocks.

(** ** NumaMem.cpp: large allocations *)

Module NumaMem.
Local Open Scope Z_scope.

(** What a call does to the process: it hands a pointer back or it ends the
    process in [abort()]. Pointers are addresses, 0 is the null pointer. *)
Inductive outcome : Type :=
| Returned (p : Z)
| Aborted.

(** The three ways the file is built. *)
Inductive build : Type :=
| UseNumaOld      (* GALOIS_USE_NUMA_OLD *)
| UseNuma         (* GALOIS_USE_NUMA *)
| NoNuma.         (* neither macro defined *)

(** [for (unsigned y = 0; y < num; ++y) numa_bitmask_setbit(nm, y/4);]
    starting from the empty mask. *)
Definition nodemask (num : Z) : Z :=
  foldl (fun nm y => Z.setbit nm (y / 4)) 0 (seqZ 0 num).

Section Allocators.
(** The C library and libnuma, which the file only calls. *)
Variable malloc : Z -> Z.
Variable numa_alloc_interleaved_subset : Z -> Z -> Z.

(** [void* largeAlloc(size_t len) { return malloc(len); }] *)
Definition largeAlloc (len : Z) : outcome :=
  Returned (malloc len).

Definition largeInterleavedAlloc (cfg : build) (activeThreads len : Z)
  : outcome :=
  let data :=
    match cfg with
    | UseNumaOld | UseNuma =>
        let nm := nodemask activeThreads in
        numa_alloc_interleaved_subset len nm
    | NoNuma => malloc len
    end in
  if data =? 0 then Aborted else Returned data.
End Allocators.

(** A heap with [cap] bytes left: a model of [malloc] to run the code on. *)
Definition bounded_malloc (cap base : Z) (len : Z) : Z :=
  if len <=? cap then base else 0.

Lemma setbit_loop_testbit (ys : list Z) (nm n : Z) :
  Forall (fun y => 0 <= y) ys -> 0 <= n ->
  Z.testbit (foldl (fun nm y => Z.setbit nm (y / 4)) nm ys) n = true <->
  Z.testbit nm n = true \/ exists y, y ∈ ys /\ n = y / 4.
Proof.
  intros Hys Hn. revert nm. induction Hys as [|y ys Hy Hys IH]; intros nm.
  - simpl. split; [auto|]. intros [H|(y & Hin & _)]; [exact H|].
    inversion Hin.
  - simpl. rewrite IH. rewrite Z.setbit_eqb by (apply Z.div_pos; lia).
    rewrite orb_true_iff, Z.eqb_eq. split.
    + intros [[Heq|Hb]|(z & Hz & Hq)].
      * right. exists y. split; [left|]. congruence.
      * left. exact Hb.
      * right. exists z. split; [now right|exact Hq].
    + intros [Hb|(z & Hz & Hq)].
      * left. right. exact Hb.
      * apply elem_of_cons in Hz as [->|Hz].
        -- left. left. congruence.
        -- right. exists z. split; assumption.
Qed.

Lemma nodemask_testbit (num n : Z) :
  0 <= n ->
  Z.testbit (nodemask num) n = true <-> exists w, 0 <= w < num /\ n = w / 4.
Proof.
  intros Hn. unfold nodemask. rewrite setbit_loop_testbit.
  - rewrite Z.bits_0. split.
    + intros [H|(y & Hy & Hq)]; [discriminate|].
      apply elem_of_seqZ in Hy. exists y. split; [lia|exact Hq].
    + intros (w & Hw & Hq). right. exists w. split; [|exact Hq].
      apply elem_of_seqZ. lia.
  - apply Forall_seqZ. intros; lia.
  - exact Hn.
Qed.

(** C4 is violated by the code: whatever [malloc] answers is returned, the
    null pointer of a failed request included; only the interleaved sibling
    tests the pointer and aborts. *)
Theorem largeAlloc_returns_null (malloc : Z -> Z) (len : Z) :
  malloc len = 0 -> largeAlloc malloc len = Returned 0.
Proof. intros H. unfold largeAlloc. now rewrite H. Qed.

Lemma largeAlloc_returns_null_witness :
  bounded_malloc 4096 65536 8192 = 0 /\
  largeAlloc (bounded_malloc 4096 65536) 8192 = Returned 0.
Proof.
  split; [reflexivity|].
  apply (largeAlloc_returns_null (bounded_malloc 4096 65536) 8192).
  reflexivity.
Defined.

(** C5: with NUMA support the request goes to the interleaving allocator
    with a node mask whose set bits are exactly the nodes floor(w/4) of the
    workers w below activeThreads; without it the request goes to malloc;
    in every build a null pointer ends in abort and is never returned. *)
Theorem largeInterleavedAlloc_spec
    (malloc : Z -> Z) (numa_alloc_interleaved_subset : Z -> Z -> Z)
    (cfg : build) (activeThreads len : Z) :
  let run := largeInterleavedAlloc malloc numa_alloc_interleaved_subset in
  let guard p := if p =? 0 then Aborted else Returned p in
  (forall n, 0 <= n ->
     Z.testbit (nodemask activeThreads) n = true <->
     exists w, 0 <= w < activeThreads /\ n = w / 4) /\
  run UseNumaOld activeThreads len =
    guard (numa_alloc_interleaved_subset len (nodemask activeThreads)) /\
  run UseNuma activeThreads len =
    guard (numa_alloc_interleaved_subset len (nodemask activeThreads)) /\
  run NoNuma activeThreads len = guard (malloc len) /\
  run cfg activeThreads len <> Returned 0.
Proof.
  intros run guard. split; [|split; [|split; [|split]]].
  - intros n Hn. apply nodemask_testbit. exact Hn.
  - reflexivity.
  - reflexivity.
  - reflexivity.
  - subst run. unfold largeInterleavedAlloc.
    destruct cfg;
      match goal with |- context [ if ?d =? 0 then _ else _ ] =>
        destruct (Z.eqb_spec d 0) as [He|He] end;
      try discriminate; intros [= Hp]; contradiction.
Qed.

Example nodemask_9_threads : nodemask 9 = 7.
Proof. reflexivity. Qed.

End NumaMem.

(** ** PropertyCache.h: the cache key *)

Module PropertyCache.
Import SizeT.
Local Open Scope Z_scope.

(** [enum class NodeEdge { kNode = 10, kEdge, kNeitherNodeNorEdge };] *)
Inductive NodeEdge : Type :=
| kNode
| kEdge
| kNeitherNodeNorEdge.

Definition NodeEdge_value (e : NodeEdge) : Z :=
  match e with
  | kNode => 10
  | kEdge => 11
  | kNeitherNodeNorEdge => 12
  end.

Record PropertyCacheKey : Type := mkKey {
  node_edge_ : NodeEdge;
  rdg_dir_ : string;
  prop_name_ : string
}.

(** [operator==]: the three fields, in declaration order. *)
Definition key_eqb (a o : PropertyCacheKey) : bool :=
  (NodeEdge_value (node_edge_ a) =? NodeEdge_value (node_edge_ o))
  && String.eqb (rdg_dir_ a) (rdg_dir_ o)
  && String.eqb (prop_name_ a) (prop_name_ o).

Definition TypeAsConstChar (k : PropertyCacheKey) : string :=
  match node_edge_ k with
  | kNode => "node"
  | _ => "edge"
  end.

Section Hash.
(** Boost's [hash_value] overloads and [hash_combine], which the header
    only calls. *)
Variable hash_value_enum : Z -> Z.
Variable hash_value_string : string -> Z.
Variable hash_combine : Z -> Z -> Z.

(** [PropertyCacheKey::Hash::operator()] *)
Definition Hash (k : PropertyCacheKey) : Z :=
  let seed := 0 in
  let seed := hash_combine seed (hash_value_enum (NodeEdge_value (node_edge_ k))) in
  let seed := hash_combine seed (hash_value_string (rdg_dir_ k)) in
  let seed := hash_combine seed (hash_value_string (prop_name_ k)) in
  seed.
End Hash.

(** Boost's classic combiner, on a 64-bit [size_t], to run [Hash] on. *)
Definition boost_hash_combine (seed v : Z) : Z :=
  Z.lxor seed (wrap (v + 2654435769 + wrap (Z.shiftl seed 6) + Z.shiftr seed 2)).

Lemma NodeEdge_value_inj (a b : NodeEdge) :
  NodeEdge_value a = NodeEdge_value b -> a = b.
Proof. destruct a, b; simpl; intros H; try reflexivity; discriminate. Qed.

Lemma key_eqb_fields (a b : PropertyCacheKey) :
  key_eqb a b = true <->
  node_edge_ a = node_edge_ b /\ rdg_dir_ a = rdg_dir_ b /\
  prop_name_ a = prop_name_ b.
Proof.
  unfold key_eqb. rewrite !andb_true_iff, Z.eqb_eq, !String.eqb_eq.
  split.
  - intros [[H1 H2] H3]. auto using NodeEdge_value_inj.
  - intros (H1 & H2 & H3). rewrite H1. auto.
Qed.

Lemma key_eqb_eq (a b : PropertyCacheKey) : key_eqb a b = true <-> a = b.
Proof.
  rewrite key_eqb_fields. split.
  - destruct a, b; simpl. intros (-> & -> & ->). reflexivity.
  - intros ->. auto.
Qed.

(** C10: operator== holds exactly when all three fields agree, it is
    reflexive, symmetric and transitive, and keys it equates have the same
    hash, whatever hash_value and hash_combine compute. *)
Theorem PropertyCacheKey_eq_hash
    (hash_value_enum : Z -> Z) (hash_value_string : string -> Z)
    (hash_combine : Z -> Z -> Z) :
  let H := Hash hash_value_enum hash_value_string hash_combine in
  (forall a b, key_eqb a b = true <->
     node_edge_ a = node_edge_ b /\ rdg_dir_ a = rdg_dir_ b /\
     prop_name_ a = prop_name_ b) /\
  (forall a, key_eqb a a = true) /\
  (forall a b, key_eqb a b = key_eqb b a) /\
  (forall a b c, key_eqb a b = true -> key_eqb b c = true ->
     key_eqb a c = true) /\
  (forall a b, key_eqb a b = true -> H a = H b).
Proof.
  intros H. split; [|split; [|split; [|split]]].
  - apply key_eqb_fields.
  - intros a. now apply key_eqb_eq.
  - intros a b. destruct (key_eqb a b) eqn:Hab.
    + symmetry. apply key_eqb_eq. symmetry. now apply key_eqb_eq.
    + destruct (key_eqb b a) eqn:Hba; [|reflexivity].
      apply key_eqb_eq in Hba. subst b.
      rewrite (proj2 (key_eqb_eq a a) eq_refl) in Hab. discriminate.
  - intros a b c Hab Hbc. apply key_eqb_eq in Hab, Hbc. subst.
    now apply key_eqb_eq.
  - intros a b Hab. apply key_eqb_eq in Hab. now subst.
Qed.

Example Hash_runs :
  Hash (fun v => v) (fun s => Z.of_nat (String.length s)) boost_hash_combine
       (mkKey kEdge "rdg" "weight")
  = 11093822689488.
Proof. vm_compute. reflexivity. Qed.

Example key_eqb_differs :
  key_eqb (mkKey kNode "rdg" "rank") (mkKey kEdge "rdg" "rank") = false.
Proof. reflexivity. Qed.

End PropertyCache.

(** ** The runtime the algorithms are written against *)

Module Runtime.

Abbreviation WorkerId := nat (only parsing).

(** Modelled from the spec: PerThreadStorage<T> (PerThreadStorage.h is not
    part of the sources at hand). It owns exactly ActiveThreads() instances
    of T, one per worker, indexed by WorkerId. *)
Abbreviation PerThreadStorage T := (list T) (only parsing).

Definition getRemote {T : Type} (s : PerThreadStorage T) (id : WorkerId)
  : option T := s !! id.

Definition size {T : Type} (s : PerThreadStorage T) : nat := length s.

(** Modelled from the spec: Reducible<T, Merge, Identity> (Reduction.h is not
    part of the sources at hand). Every slot starts as Identity();
    update(v) merges v into the calling worker's slot; reduce() folds the
    slots left-to-right in WorkerId order with Merge. *)
Section Reducible.
Context {T : Type}.
Variable merge : T -> T -> T.
Variable identity : T.

Definition make_reducible (threads : nat) : PerThreadStorage T :=
  replicate threads identity.

Definition update (tid : WorkerId) (v : T) (r : PerThreadStorage T)
  : PerThreadStorage T :=
  alter (fun slot => merge slot v) tid r.

Definition reduce (r : PerThreadStorage T) : T :=
  match r with
  | [] => identity
  | slot0 :: rest => foldl merge slot0 rest
  end.
End Reducible.

(** Modelled from the spec: do_all (Loops.h is not part of the sources at
    hand). One execution is the sequence of body invocations, each tagged
    with the worker that ran it; every item of the range is run exactly once,
    by a worker below ActiveThreads(), with no order promised. *)
Abbreviation trace A := (list (WorkerId * A)) (only parsing).

Definition run_trace {A S : Type} (body : WorkerId -> A -> S -> S)
    (tr : trace A) (s : S) : S :=
  foldl (fun s e => body e.1 e.2 s) s tr.

Definition do_all_trace {A : Type} (threads : nat) (items : list A)
    (tr : trace A) : Prop :=
  Forall (fun e => e.1 < threads) tr /\ tr.*2 ≡ₚ items.

(** The static schedule the spec describes: contiguous blocks of
    ceil(N/threads) items, block w run by worker w. *)
Definition static_trace {A : Type} (threads : nat) (items : list A)
  : trace A :=
  let bs := (length items + threads - 1) / threads in
  imap (fun i x => (i / bs, x)) items.

(** What one worker fed in, in the order it did. *)
Definition contrib {A : Type} (w : WorkerId) (tr : trace A) : list A :=
  (filter (fun e => e.1 = w) tr).*2.

(** All contributions, worker by worker. *)
Definition by_worker {A : Type} (threads : nat) (tr : trace A) : list A :=
  concat (map (fun w => contrib w tr) (seq 0 threads)).

(** Modelled from the spec: for_each with no_pushes and parallel_break.
    Any worker takes any pending item (its own chunk or a stolen one) and
    runs the body on it; the body may call ctx.breakLoop(), which raises the
    shared flag. Bodies already in flight when the flag goes up still
    complete, so a step is possible whatever the flag says; the dispatch
    ends when nothing is pending or the flag is up. *)
Record fe_state (A S : Type) : Type := FeState {
  fe_pending : list A;
  fe_break : bool;
  fe_user : S
}.
Arguments FeState {A S} _ _ _.
Arguments fe_pending {A S} _.
Arguments fe_break {A S} _.
Arguments fe_user {A S} _.

Section ForEach.
Context {A S : Type}.
Variable threads : nat.
(** The body returns the new user state and whether it called breakLoop. *)
Variable body : WorkerId -> A -> S -> S * bool.

Inductive for_each_step : fe_state A S -> fe_state A S -> Prop :=
| fe_run pre x post brk u tid u' b :
    tid < threads ->
    body tid x u = (u', b) ->
    for_each_step (FeState (pre ++ x :: post) brk u)
                  (FeState (pre ++ post) (brk || b) u').

Definition for_each_done (st : fe_state A S) : Prop :=
  fe_pending st = [] \/ fe_break st = true.

Definition for_each_runs (items : list A) (u : S) (st : fe_state A S) : Prop :=
  rtc for_each_step (FeState items false u) st /\ for_each_done st.

(** One concrete schedule: worker 0 takes the items in order. *)
Fixpoint for_each_seq (items : list A) (u : S) : fe_state A S :=
  match items with
  | [] => FeState [] false u
  | x :: rest =>
      let '(u', b) := body 0%nat x u in
      if b then FeState rest true u' else for_each_seq rest u'
  end.
End ForEach.

(** *** Facts about Reducible *)

Section ReducibleFacts.
Context {T : Type}.
Variable merge : T -> T -> T.
Variable identity : T.

Lemma update_length tid v (r : PerThreadStorage T) :
  length (update merge tid v r) = length r.
Proof. unfold update. apply length_alter. Qed.

Lemma contrib_cons {A : Type} (w w' : WorkerId) (x : A) (tr : trace A) :
  contrib w ((w', x) :: tr) =
  if decide (w' = w) then x :: contrib w tr else contrib w tr.
Proof.
  unfold contrib. rewrite filter_cons. simpl.
  destruct (decide (w' = w)); reflexivity.
Qed.

(** After a trace, slot w holds its old content merged with what w fed in. *)
Lemma run_trace_update_lookup (tr : trace T) (r : PerThreadStorage T) w :
  run_trace (fun tid v r => update merge tid v r) tr r !! w =
  (fun s => foldl merge s (contrib w tr)) <$> r !! w.
Proof.
  revert r. induction tr as [|[w' x] tr IH]; intros r.
  - simpl. now destruct (r !! w).
  - unfold run_trace in *. simpl. rewrite IH, contrib_cons. unfold update.
    destruct (decide (w' = w)) as [->|Hne].
    + rewrite list_lookup_alter_eq. now destruct (r !! w).
    + now rewrite list_lookup_alter_ne.
Qed.

Lemma run_trace_update_slots (threads : nat) (tr : trace T) :
  run_trace (fun tid v r => update merge tid v r) tr
            (make_reducible identity threads) =
  map (fun w => foldl merge identity (contrib w tr)) (seq 0 threads).
Proof.
  apply list_eq. intros w. rewrite run_trace_update_lookup.
  unfold make_reducible.
  change (map ?f ?l) with (f <$> l). rewrite list_lookup_fmap.
  destruct (decide (w < threads)) as [Hlt|Hge].
  - rewrite lookup_replicate_2, lookup_seq_lt by lia. reflexivity.
  - rewrite (proj1 (lookup_replicate_None _ _ _)) by lia.
    rewrite lookup_seq_ge by lia. reflexivity.
Qed.

Hypothesis merge_assoc : forall a b c, merge a (merge b c) = merge (merge a b) c.
Hypothesis merge_id_l : forall a, merge identity a = a.
Hypothesis merge_id_r : forall a, merge a identity = a.

Lemma foldl_merge_from (a : T) (l : list T) :
  foldl merge a l = merge a (foldl merge identity l).
Proof.
  revert a. induction l as [|x l IH]; intros a; simpl.
  - now rewrite merge_id_r.
  - rewrite IH, (IH (merge identity x)), merge_id_l, merge_assoc. reflexivity.
Qed.

Lemma reduce_from_identity (r : PerThreadStorage T) :
  reduce merge identity r = foldl merge identity r.
Proof. destruct r as [|s r]; simpl; [reflexivity|]. now rewrite merge_id_l. Qed.

Lemma foldl_merge_concat {W : Type} (c : W -> list T) (ws : list W) (a : T) :
  foldl merge a (map (fun w => foldl merge identity (c w)) ws) =
  foldl merge a (concat (map c ws)).
Proof.
  revert a. induction ws as [|w ws IH]; intros a; simpl; [reflexivity|].
  rewrite foldl_app, IH, <- foldl_merge_from. reflexivity.
Qed.
End ReducibleFacts.

(** *** Facts about do_all traces *)

Lemma concat_mark_absent {A : Type} (f : nat -> list A) (w : nat) (x : A)
    (ws : list nat) :
  w ∉ ws ->
  concat (map (fun w' => if decide (w = w') then x :: f w' else f w') ws) =
  concat (map f ws).
Proof.
  induction ws as [|v ws IH]; intros Hn; simpl; [reflexivity|].
  apply not_elem_of_cons in Hn as [Hv Hn].
  destruct (decide (w = v)); [contradiction|]. now rewrite IH.
Qed.

Lemma concat_mark_present {A : Type} (f : nat -> list A) (w : nat) (x : A)
    (ws : list nat) :
  NoDup ws -> w ∈ ws ->
  concat (map (fun w' => if decide (w = w') then x :: f w' else f w') ws) ≡ₚ
  x :: concat (map f ws).
Proof.
  induction 1 as [|v ws Hv Hnd IH]; intros Hin; [inversion Hin|].
  simpl. destruct (decide (w = v)) as [->|Hne].
  - rewrite concat_mark_absent by assumption. reflexivity.
  - apply elem_of_cons in Hin as [?|Hin]; [contradiction|].
    rewrite IH by assumption. symmetry. apply Permutation_middle.
Qed.

Lemma by_worker_perm {A : Type} (threads : nat) (tr : trace A) :
  Forall (fun e => e.1 < threads) tr -> by_worker threads tr ≡ₚ tr.*2.
Proof.
  unfold by_worker. induction 1 as [|[w x] tr Hw Htr IH]; simpl in *.
  - induction (seq 0 threads) as [|v ws IHw]; simpl; [reflexivity|exact IHw].
  - rewrite <- IH.
    rewrite (map_ext _ (fun w' => if decide (w = w') then x :: contrib w' tr
                                  else contrib w' tr))
      by (intros w'; apply contrib_cons).
    apply concat_mark_present; [apply NoDup_seq|].
    apply elem_of_seq. lia.
Qed.

Lemma static_trace_snd {A : Type} (threads : nat) (items : list A) :
  (static_trace threads items).*2 = items.
Proof.
  unfold static_trace. generalize ((length items + threads - 1) / threads).
  intros bs. apply list_eq. intros i.
  rewrite list_lookup_fmap, list_lookup_imap. now destruct (items !! i).
Qed.

Lemma static_trace_valid {A : Type} (threads : nat) (items : list A) :
  0 < threads -> do_all_trace threads items (static_trace threads items).
Proof.
  intros Ht. split; [|now rewrite static_trace_snd].
  apply Forall_lookup. intros i [w x] Hi. simpl.
  unfold static_trace in Hi. rewrite list_lookup_imap in Hi.
  destruct (items !! i) as [y|] eqn:Hy; [|discriminate].
  simpl in Hi. injection Hi as <- <-.
  apply lookup_lt_Some in Hy.
  set (n := length items) in *. set (bs := (n + threads - 1) / threads).
  assert (Hbs : n <= threads * bs).
  { pose proof (Nat.div_mod (n + threads - 1) threads ltac:(lia)) as Hd.
    pose proof (Nat.mod_upper_bound (n + threads - 1) threads ltac:(lia)).
    fold bs in Hd. lia. }
  assert (0 < bs) by nia.
  apply Nat.Div0.div_lt_upper_bound. nia.
Qed.

End Runtime.

(** ** ParallelSTL.h: accumulate, count_if, find_if *)

Module ParallelSTL.
Import Runtime SizeT.

(** [accumulate(first, last, identity, binary_op)]: the items are the values
    of the range; [tr] is the execution of the do_all. *)
Definition accumulate {T : Type} (threads : nat) (tr : trace T)
    (identity : T) (binary_op : T -> T -> T) : T :=
  let r := make_reducible identity threads in
  let r := run_trace (fun tid v r => update binary_op tid v r) tr r in
  reduce binary_op identity r.

Lemma accumulate_slots {T : Type} (threads : nat) (tr : trace T)
    (identity : T) (op : T -> T -> T) :
  accumulate threads tr identity op =
  reduce op identity
    (map (fun w => foldl op identity (contrib w tr)) (seq 0 threads)).
Proof. unfold accumulate. now rewrite run_trace_update_slots. Qed.

(** C1: for an associative merge with its identity, whatever the execution
    of the do_all, reduce() returns the left fold of the updated values
    taken worker by worker in WorkerId order (each worker's values in the
    order it fed them), which is a rearrangement of all the values; two
    executions in which every worker contributed the same values give the
    same result. *)
Theorem accumulate_folds_by_worker {T : Type} (op : T -> T -> T)
    (identity : T) (threads : nat) (items : list T) (tr : trace T) :
  (forall a b c, op a (op b c) = op (op a b) c) ->
  (forall a, op identity a = a) ->
  (forall a, op a identity = a) ->
  do_all_trace threads items tr ->
  accumulate threads tr identity op = foldl op identity (by_worker threads tr)
  /\ by_worker threads tr ≡ₚ items
  /\ (forall tr', do_all_trace threads items tr' ->
        (forall w, w < threads -> contrib w tr' = contrib w tr) ->
        accumulate threads tr' identity op = accumulate threads tr identity op).
Proof.
  intros Hassoc Hidl Hidr [Hw Hperm]. split; [|split].
  - rewrite accumulate_slots, (reduce_from_identity op identity Hidl).
    apply (foldl_merge_concat op identity Hassoc Hidl Hidr).
  - rewrite <- Hperm. now apply by_worker_perm.
  - intros tr' _ Hsame. rewrite !accumulate_slots. f_equal.
    apply map_ext_in. intros w Hin. apply in_seq in Hin.
    now rewrite Hsame by lia.
Qed.

(** String concatenation order shows: worker 0's value comes first although
    it arrived second. *)
Lemma accumulate_folds_by_worker_witness :
  accumulate 2 [(1, [1]); (0, [2]); (1, [3])]%nat [] (@app nat) = [2; 1; 3]%nat.
Proof.
  pose proof (accumulate_folds_by_worker (@app nat) [] 2
                [[1]; [2]; [3]]%nat [(1, [1]); (0, [2]); (1, [3])]%nat
                (fun a b c => app_assoc a b c)
                (fun a => eq_refl)
                (fun a => app_nil_r a)) as H.
  destruct H as [H _].
  - split; [repeat constructor|reflexivity].
  - rewrite H. reflexivity.
Defined.

(** *** Counting with GAccumulator *)

Local Open Scope Z_scope.

(** 32-bit [int], two's complement. *)
Definition int_wrap (z : Z) : Z := (z + 2 ^ 31) mod 2 ^ 32 - 2 ^ 31.
Definition int_add (a b : Z) : Z := int_wrap (a + b).

(** [size_t] addition. *)
Definition size_add (a b : Z) : Z := wrap (a + b).

(** Modelled from the spec: GAccumulator<T> (Reduction.h is not part of the
    sources at hand) is the Reducible for operator+= with T() as identity. *)
Definition GAccumulator (threads : nat) : PerThreadStorage Z :=
  make_reducible 0 threads.

(** [test_accum] of reduction.cpp: [accum += 1] for each item of
    [iterate(0, num)], then [accum.reduce()]. *)
Definition test_accum (threads : nat) (tr : trace Z) : Z :=
  let accum := GAccumulator threads in
  let accum := run_trace (fun tid _ acc => update int_add tid 1 acc) tr accum in
  reduce int_add 0 accum.

(** [count_if(first, last, pred)] *)
Definition count_if {A : Type} (threads : nat) (tr : trace A)
    (pred : A -> bool) : Z :=
  let count := GAccumulator threads in
  let count :=
    run_trace (fun tid v acc => if pred v then update size_add tid 1 acc
                                else acc) tr count in
  reduce size_add 0 count.

(** The sum of the slots, without wrap-around. *)
Definition total (r : list Z) : Z := foldr Z.add 0 r.

Lemma total_alter (f : Z -> Z) (r : list Z) (i : nat) (s : Z) :
  r !! i = Some s -> total (alter f i r) = total r - s + f s.
Proof.
  unfold total. revert i. induction r as [|x r IH]; intros i Hi; [discriminate|].
  destruct i as [|i]; simpl in *.
  - injection Hi as ->. lia.
  - specialize (IH i Hi). unfold alter in IH. lia.
Qed.

Section ModularSum.
(** An addition that reduces modulo [M] into some window. *)
Variable M : Z.
Variable norm : Z -> Z.
Hypothesis norm_congr : forall z z', z mod M = z' mod M -> norm z = norm z'.
Hypothesis norm_mod : forall z, norm z mod M = z mod M.
Hypothesis norm_0 : norm 0 = 0.

Let add (a b : Z) : Z := norm (a + b).

Lemma norm_add_l (a b : Z) : norm (norm a + b) = norm (a + b).
Proof. apply norm_congr. now rewrite Zplus_mod, norm_mod, <- Zplus_mod. Qed.

Lemma foldl_add_total (a : Z) (rest : list Z) :
  norm a = a -> foldl add a rest = norm (a + total rest).
Proof.
  revert a. induction rest as [|x rest IH]; intros a Ha; simpl.
  - now rewrite Z.add_0_r.
  - rewrite IH.
    + subst add. simpl. rewrite norm_add_l. f_equal. lia.
    + subst add. simpl. apply norm_congr. apply norm_mod.
Qed.

Lemma reduce_total (r : list Z) :
  Forall (fun s => norm s = s) r -> reduce add 0 r = norm (total r).
Proof.
  intros Hr. destruct Hr as [|s r Hs Hr]; simpl; [now rewrite norm_0|].
  now apply foldl_add_total.
Qed.

Lemma count_trace_total {A : Type} (hit : A -> bool) (tr : trace A)
    (r : list Z) :
  Forall (fun e => (e.1 < length r)%nat) tr ->
  Forall (fun s => norm s = s) r ->
  let r' := run_trace (fun tid v acc => if hit v then update add tid 1 acc
                                        else acc) tr r in
  Forall (fun s => norm s = s) r' /\
  total r' mod M = (total r + Z.of_nat (length (filter hit tr.*2))) mod M.
Proof.
  intros Htr. revert r Htr.
  induction tr as [|[w x] tr IH]; intros r Htr Hr; simpl.
  - split; [exact Hr|]. f_equal. lia.
  - apply Forall_cons in Htr as [Hw Htr]. simpl in Hw.
    destruct (lookup_lt_is_Some_2 r w Hw) as [s Hs].
    rewrite filter_cons. simpl. unfold run_trace in *. simpl.
    destruct (hit x) eqn:Hx; simpl.
    + destruct (decide (Is_true true)) as [_|Hf]; [|now destruct Hf].
      assert (Hr' : Forall (fun s => norm s = s) (update add w 1 r)).
      { unfold update. apply Forall_alter; [exact Hr|].
        intros y _ _. subst add. simpl. apply norm_congr, norm_mod. }
      destruct (IH (update add w 1 r)) as [IH1 IH2].
      * rewrite update_length. exact Htr.
      * exact Hr'.
      * split; [exact IH1|]. rewrite IH2. unfold update.
        rewrite (total_alter _ r w s Hs). subst add. simpl.
        change (list_fmap (nat * A)%type A snd tr) with (tr.*2).
        rewrite Nat2Z.inj_succ.
        set (k := Z.of_nat (length (filter hit tr.*2))).
        replace (total r - s + norm (s + 1) + k)
          with (norm (s + 1) + (total r - s + k)) by lia.
        rewrite Zplus_mod, norm_mod, <- Zplus_mod. f_equal. lia.
    + destruct (decide (Is_true false)) as [Hf|_]; [now destruct Hf|].
      apply IH; assumption.
Qed.

Lemma count_reduce {A : Type} (hit : A -> bool) (threads : nat)
    (items : list A) (tr : trace A) :
  do_all_trace threads items tr ->
  reduce add 0
    (run_trace (fun tid v acc => if hit v then update add tid 1 acc else acc)
               tr (make_reducible 0 threads)) =
  norm (Z.of_nat (length (filter hit items))).
Proof.
  intros [Hw Hperm].
  destruct (count_trace_total hit tr (make_reducible 0 threads)) as [H1 H2].
  - unfold make_reducible. rewrite length_replicate. exact Hw.
  - unfold make_reducible. apply Forall_replicate. exact norm_0.
  - rewrite (reduce_total _ H1). apply norm_congr. rewrite H2.
    assert (Ht : total (make_reducible 0 threads) = 0).
    { unfold make_reducible. clear. induction threads as [|n IH]; simpl; lia. }
    rewrite Ht, Hperm. reflexivity.
Qed.
End ModularSum.

Lemma int_wrap_congr (z z' : Z) :
  z mod 2 ^ 32 = z' mod 2 ^ 32 -> int_wrap z = int_wrap z'.
Proof.
  intros H. unfold int_wrap. f_equal.
  rewrite (Zplus_mod z), (Zplus_mod z'), H. reflexivity.
Qed.

Lemma int_wrap_mod (z : Z) : int_wrap z mod 2 ^ 32 = z mod 2 ^ 32.
Proof.
  unfold int_wrap.
  replace ((z + 2 ^ 31) mod 2 ^ 32 - 2 ^ 31)
    with ((z + 2 ^ 31) mod 2 ^ 32 + (- 2 ^ 31)) by lia.
  rewrite Zplus_mod, Z.mod_mod by lia. rewrite <- Zplus_mod.
  f_equal. lia.
Qed.

Lemma int_wrap_small (z : Z) : - 2 ^ 31 <= z < 2 ^ 31 -> int_wrap z = z.
Proof. intros H. unfold int_wrap. rewrite Z.mod_small; lia. Qed.

Lemma wrap_congr (z z' : Z) : z mod modulus = z' mod modulus -> wrap z = wrap z'.
Proof. intros H. exact H. Qed.

Lemma wrap_mod (z : Z) : wrap z mod modulus = z mod modulus.
Proof. unfold wrap. apply Z.mod_mod. unfold modulus. lia. Qed.

(** C7: a GAccumulator<int> bumped once per iteration of a do_all over
    num iterations reduces to num for every thread count and execution, and
    count_if returns the number of items that satisfy the predicate. *)
Theorem accumulator_counts_exactly {A : Type} (threads : nat) (num : Z)
    (tr1 : trace Z) (items : list A) (pred : A -> bool) (tr2 : trace A) :
  0 <= num < 2 ^ 31 ->
  do_all_trace threads (seqZ 0 num) tr1 ->
  Z.of_nat (length items) < modulus ->
  do_all_trace threads items tr2 ->
  test_accum threads tr1 = num /\
  count_if threads tr2 pred = Z.of_nat (length (filter pred items)).
Proof.
  intros Hnum Htr1 Hlen Htr2. split.
  - unfold test_accum, GAccumulator.
    pose proof (count_reduce (2 ^ 32) int_wrap int_wrap_congr int_wrap_mod
                  eq_refl (fun _ : Z => true) threads (seqZ 0 num) tr1 Htr1)
      as H.
    simpl in H. unfold int_add. rewrite H.
    assert (Hall : forall l : list Z, filter (fun _ : Z => true) l = l).
    { induction l as [|y l IHl]; [reflexivity|].
      rewrite filter_cons_True by exact I. now rewrite IHl. }
    rewrite Hall, length_seqZ, Z2Nat.id by lia. apply int_wrap_small. lia.
  - unfold count_if, GAccumulator.
    pose proof (count_reduce modulus wrap wrap_congr wrap_mod
                  eq_refl pred threads items tr2 Htr2) as H.
    unfold size_add. rewrite H. apply wrap_small.
    pose proof (length_filter (fun x => pred x) items). lia.
Qed.

Lemma accumulator_counts_exactly_witness :
  test_accum 8 (static_trace 8 (seqZ 0 123456)) = 123456 /\
  count_if 2 [(1%nat, 4); (0%nat, 7); (1%nat, 10)] Z.even = 2.
Proof.
  apply (accumulator_counts_exactly 8 123456 (static_trace 8 (seqZ 0 123456))
           [4; 7; 10] Z.even [(1%nat, 4); (0%nat, 7); (1%nat, 10)]).
  - lia.
  - apply static_trace_valid. lia.
  - unfold modulus. simpl. lia.
  - split; [repeat constructor|reflexivity].
Defined.

(** *** find_if *)

Local Open Scope nat_scope.

Section FindIf.
Context {A : Type}.
(** The memory the iterators point into: [deref v] is [*v]. Iterators are
    positions, the range is first, first+1, ..., last-1. *)
Variable deref : nat -> A.
Variable f : A -> bool.

(** [find_if_helper::operator()]: record the iterator in the worker's own
    slot and ask for the loop to stop. *)
Definition find_if_helper (tid : WorkerId) (v : nat)
    (accum : PerThreadStorage (option nat))
  : PerThreadStorage (option nat) * bool :=
  if f (deref v) then (<[tid := Some v]> accum, true) else (accum, false).

(** The loop over [i] from 0 to [accum.size()] that returns the content of
    the first slot [accum.getRemote(i)] that is engaged, and [last] when
    there is none; [n] counts the iterations left. *)
Fixpoint find_if_scan (accum : PerThreadStorage (option nat)) (i n : nat)
    (last : nat) : nat :=
  match n with
  | O => last
  | S n' =>
      match getRemote accum i with
      | Some (Some v) => v
      | _ => find_if_scan accum (S i) n' last
      end
  end.

Definition find_if_result (accum : PerThreadStorage (option nat))
    (last : nat) : nat :=
  find_if_scan accum 0 (size accum) last.

Definition find_if_init (threads : nat) (first last : nat)
  : fe_state nat (PerThreadStorage (option nat)) :=
  FeState (seq first (last - first)) false (replicate threads None).

(** [find_if] returns [res] in some execution of its for_each. *)
Definition find_if_returns (threads : nat) (first last : nat) (res : nat)
  : Prop :=
  exists st,
    for_each_runs threads find_if_helper (seq first (last - first))
                  (replicate threads None) st /\
    res = find_if_result (fe_user st) last.

(** [find_if] under the schedule in which worker 0 does all the work. *)
Definition find_if_seq (threads : nat) (first last : nat) : nat :=
  find_if_result
    (fe_user (for_each_seq find_if_helper (seq first (last - first))
                           (replicate threads None)))
    last.
End FindIf.

Section FindIfFacts.
Context {A : Type}.
Variable deref : nat -> A.
Variable f : A -> bool.
Variable threads : nat.
Variables first last : nat.

Let step := for_each_step (A:=nat) threads (find_if_helper deref f).

Lemma find_if_scan_none (accum : list (option nat)) (i n : nat) :
  (forall j v, i <= j -> accum !! j = Some (Some v) -> False) ->
  find_if_scan accum i n last = last.
Proof.
  revert i. induction n as [|n IH]; intros i Hnone; simpl; [reflexivity|].
  unfold getRemote. destruct (accum !! i) as [[v|]|] eqn:Hi.
  - destruct (Hnone i v); [lia|exact Hi].
  - apply IH. intros j v Hj. apply Hnone. lia.
  - apply IH. intros j v Hj. apply Hnone. lia.
Qed.

Lemma find_if_scan_lowest (accum : list (option nat)) (i n k v : nat) :
  i <= k -> k < i + n ->
  accum !! k = Some (Some v) ->
  (forall j, i <= j < k -> accum !! j = Some None) ->
  find_if_scan accum i n last = v.
Proof.
  revert i. induction n as [|n IH]; intros i Hik Hkn Hk Hlow; [lia|].
  simpl. unfold getRemote. destruct (decide (i = k)) as [->|Hne].
  - now rewrite Hk.
  - rewrite (Hlow i) by lia. apply IH; [lia|lia|exact Hk|].
    intros j Hj. apply Hlow. lia.
Qed.

Lemma find_if_scan_some (accum : list (option nat)) (i n k v : nat) :
  i <= k -> k < i + n ->
  accum !! k = Some (Some v) ->
  exists k' v', accum !! k' = Some (Some v') /\
                find_if_scan accum i n last = v'.
Proof.
  revert i. induction n as [|n IH]; intros i Hik Hkn Hk; [lia|].
  simpl. unfold getRemote. destruct (accum !! i) as [[w|]|] eqn:Hi.
  - exists i, w. split; [exact Hi|reflexivity].
  - apply IH; [|lia|exact Hk].
    destruct (decide (i = k)) as [->|]; [congruence|lia].
  - apply lookup_ge_None in Hi. apply lookup_lt_Some in Hk. lia.
Qed.

(** What holds of every state the dispatch of find_if can reach. *)
Definition find_if_inv (st : fe_state nat (list (option nat))) : Prop :=
  length (fe_user st) = threads /\
  (forall i v, fe_user st !! i = Some (Some v) ->
     first <= v < last /\ f (deref v) = true) /\
  (forall x, x ∈ fe_pending st -> first <= x < last) /\
  (fe_break st = true -> exists i v, fe_user st !! i = Some (Some v)) /\
  (fe_break st = false ->
     forall v, first <= v < last -> v ∉ fe_pending st -> f (deref v) = false).

Lemma find_if_inv_init : find_if_inv (find_if_init threads first last).
Proof.
  unfold find_if_inv, find_if_init. simpl.
  split; [|split; [|split; [|split]]].
  - apply length_replicate.
  - intros i v H. apply lookup_replicate in H as [? _]. discriminate.
  - intros x H. apply elem_of_seq in H. lia.
  - discriminate.
  - intros _ v Hv Hn. destruct Hn. apply elem_of_seq. lia.
Qed.

Lemma find_if_inv_step st st' :
  step st st' -> find_if_inv st -> find_if_inv st'.
Proof.
  intros Hstep (Hlen & Hslots & Hpend & Hbrk & Hnobrk).
  destruct Hstep as [pre x post brk u tid u' b Htid Hbody]. simpl in *.
  assert (Hx : first <= x < last).
  { apply Hpend. apply elem_of_app. right. left. }
  assert (Hpend' : forall y, y ∈ pre ++ post -> first <= y < last).
  { intros y H. apply (Hpend y). apply elem_of_app in H as [H|H];
      apply elem_of_app; [left|right; right]; exact H. }
  unfold find_if_helper in Hbody.
  destruct (f (deref x)) eqn:Hfx; injection Hbody as <- <-.
  - split; [|split; [|split; [|split]]]; simpl.
    + rewrite length_insert. exact Hlen.
    + intros i v H. destruct (decide (tid = i)) as [->|Hne].
      * rewrite list_lookup_insert_eq in H by lia. injection H as <-.
        split; [lia|exact Hfx].
      * rewrite list_lookup_insert_ne in H by exact Hne.
        now apply (Hslots i v).
    + exact Hpend'.
    + intros _. exists tid, x. apply list_lookup_insert_eq. lia.
    + rewrite orb_true_r. discriminate.
  - rewrite orb_false_r. split; [|split; [|split; [|split]]]; simpl.
    + exact Hlen.
    + exact Hslots.
    + exact Hpend'.
    + exact Hbrk.
    + intros Hb v Hv Hn. destruct (decide (v = x)) as [->|Hne]; [exact Hfx|].
      apply (Hnobrk Hb v Hv). intros Hin. apply Hn.
      apply elem_of_app in Hin as [Hin|Hin]; apply elem_of_app;
        [left; exact Hin|].
      apply elem_of_cons in Hin as [->|Hin]; [contradiction|right; exact Hin].
Qed.

Lemma find_if_inv_reach st :
  rtc step (find_if_init threads first last) st -> find_if_inv st.
Proof.
  revert st. apply rtc_ind_r.
  - apply find_if_inv_init.
  - intros y z _ Hyz Hy. now apply (find_if_inv_step y z).
Qed.

Lemma for_each_steps_pending {B S : Type} (body : WorkerId -> B -> S -> S * bool)
    (n : nat) (st st' : fe_state B S) :
  nsteps (for_each_step threads body) n st st' ->
  length (fe_pending st) = n + length (fe_pending st').
Proof.
  induction 1 as [|n x y z Hxy _ IH]; [reflexivity|].
  destruct Hxy. simpl in *. rewrite length_app in *. simpl. lia.
Qed.

Lemma for_each_seq_runs {B S : Type} (body : WorkerId -> B -> S -> S * bool)
    (items : list B) (u : S) :
  0 < threads -> for_each_runs threads body items u (for_each_seq body items u).
Proof.
  intros Ht. unfold for_each_runs. revert u.
  induction items as [|x rest IH]; intros u; simpl.
  - split; [apply rtc_refl|now left].
  - destruct (body 0 x u) as [u' b] eqn:Hb.
    pose proof (fe_run threads body [] x rest false u 0 u' b Ht Hb) as Hs.
    simpl in Hs. destruct b.
    + split; [now apply rtc_once|now right].
    + destruct (IH u') as [Hr Hd]. split; [|exact Hd].
      eapply rtc_l; [exact Hs|exact Hr].
Qed.
End FindIfFacts.

(** C2: find_if always comes back (some execution exists, none runs more
    bodies than the range has items, and an unfinished dispatch can always
    go on). In every finished execution: a
    slot that is engaged while all slots of lower WorkerId are empty holds
    the returned iterator, which lies in the range and satisfies the
    predicate; with no engaged slot the result is last; if no item satisfies
    the predicate the loop ended by exhaustion, without break, and the
    result is last; if some item does, the result is one that does. *)
Theorem find_if_spec {A : Type} (deref : nat -> A) (f : A -> bool)
    (threads first last : nat) :
  0 < threads ->
  (exists res, find_if_returns deref f threads first last res) /\
  (forall n st,
     nsteps (for_each_step threads (find_if_helper deref f)) n
            (find_if_init threads first last) st ->
     n <= last - first) /\
  (forall st,
     ~ for_each_done st ->
     exists st', for_each_step threads (find_if_helper deref f) st st') /\
  (forall st,
     for_each_runs threads (find_if_helper deref f)
                   (seq first (last - first)) (replicate threads None) st ->
     let accum := fe_user st in
     let res := find_if_result accum last in
     size accum = threads /\
     (forall i v,
        getRemote accum i = Some (Some v) ->
        (forall j, j < i -> getRemote accum j = Some None) ->
        res = v /\ first <= v < last /\ f (deref v) = true) /\
     ((forall i v, getRemote accum i <> Some (Some v)) -> res = last) /\
     ((forall v, first <= v < last -> f (deref v) = false) ->
        res = last /\ fe_pending st = [] /\ fe_break st = false) /\
     ((exists v, first <= v < last /\ f (deref v) = true) ->
        first <= res < last /\ f (deref res) = true)).
Proof.
  intros Ht. split; [|split; [|split]].
  - eexists. eexists. split; [|reflexivity].
    apply for_each_seq_runs. exact Ht.
  - intros n st Hn. apply for_each_steps_pending in Hn.
    unfold find_if_init in Hn. simpl in Hn. rewrite length_seq in Hn. lia.
  - intros [pending brk u] Hnd. destruct pending as [|x rest].
    + destruct Hnd. now left.
    + destruct (find_if_helper deref f 0 x u) as [u' b] eqn:Hb.
      exists (FeState rest (brk || b) u').
      exact (fe_run threads (find_if_helper deref f) [] x rest brk u 0 u' b
                    Ht Hb).
  - intros st [Hreach Hdone] accum res.
    destruct (find_if_inv_reach deref f threads first last st Hreach)
      as (Hlen & Hslots & Hpend & Hbrk & Hnobrk).
    fold accum in Hlen, Hslots, Hbrk.
    split; [exact Hlen|split; [|split; [|split]]].
    + intros i v Hi Hlow. unfold getRemote in *.
      split; [|now apply (Hslots i v)].
      subst res. unfold find_if_result, size.
      apply (find_if_scan_lowest last accum 0 (length accum) i v);
        [lia| |exact Hi|].
      * apply lookup_lt_Some in Hi. lia.
      * intros j Hj. apply Hlow. lia.
    + intros Hnone. subst res. unfold find_if_result.
      apply find_if_scan_none. intros j v _ Hj. now apply (Hnone j v).
    + intros Hall.
      assert (Hempty : forall i v, accum !! i <> Some (Some v)).
      { intros i v Hi. destruct (Hslots i v Hi) as [Hr Hf].
        rewrite (Hall v Hr) in Hf. discriminate. }
      assert (Hb : fe_break st = false).
      { assert (fe_break st = true \/ fe_break st = false) as [Hb|Hb]
          by (destruct (fe_break st); auto); [|exact Hb].
        destruct (Hbrk Hb) as (i & v & Hi). destruct (Hempty i v Hi). }
      split; [|split; [|exact Hb]].
      * subst res. unfold find_if_result.
        apply find_if_scan_none. intros j v _ Hj. now apply (Hempty j v).
      * destruct Hdone as [Hd|Hd]; [exact Hd|congruence].
    + intros (v & Hv & Hfv).
      assert (Hb : fe_break st = true).
      { assert (fe_break st = true \/ fe_break st = false) as [Hb|Hb]
          by (destruct (fe_break st); auto); [exact Hb|].
        destruct Hdone as [Hd|Hd]; [|congruence].
        rewrite (Hnobrk Hb v Hv) in Hfv; [discriminate|].
        rewrite Hd. apply not_elem_of_nil. }
      destruct (Hbrk Hb) as (i & w & Hi).
      destruct (find_if_scan_some last accum 0 (length accum) i w)
        as (k' & v' & Hk' & Hres); [lia| |exact Hi|].
      * apply lookup_lt_Some in Hi. lia.
      * subst res. unfold find_if_result, size. rewrite Hres.
        now apply (Hslots k' v').
Qed.

Lemma find_if_spec_witness :
  exists res, find_if_returns (fun v => Z.of_nat v) Z.even 2 3 8 res.
Proof.
  apply (find_if_spec (fun v => Z.of_nat v) Z.even 2 3 8). lia.
Defined.

Example find_if_seq_finds : find_if_seq (fun v => Z.of_nat v) Z.even 2 3 8 = 4.
Proof. reflexivity. Qed.

Example find_if_seq_last : find_if_seq (fun v => Z.of_nat v) (Z.leb 10) 2 3 8 = 8.
Proof. reflexivity. Qed.

End ParallelSTL.

(** ** ParallelSTL.h: parallel partition *)

Module Partition.
Import SizeT.
Local Open Scope Z_scope.

(** Iterators are offsets into the array being partitioned;
    [RP] is the pair of iterators that bounds a block. *)
Abbreviation RP := (Z * Z)%type (only parsing).

(** [partition_helper_state]: the shared bounds and the lock that guards
    them. *)
Record partition_helper_state : Type := mkState {
  first : Z;
  last : Z;
  rfirst : Z;
  rlast : Z;
  Lock : bool
}.

Definition BlockSize : Z := 1024.

(** The constructor: [first(f), last(l), rfirst(l), rlast(f)]. *)
Definition new_state (f l : Z) : partition_helper_state :=
  mkState f l l f false.

(** *** The member functions, statement by statement

    Each one is a computation over the shared state that also logs what it
    does to the lock and to the shared fields. *)

Inductive field : Type := Ffirst | Flast | Frfirst | Frlast.

Inductive event : Type :=
| EvLock
| EvUnlock
| EvRead (x : field)
| EvWrite (x : field).

Definition Act (R : Type) : Type :=
  partition_helper_state -> R * partition_helper_state * list event.

Definition ret {R : Type} (r : R) : Act R := fun s => (r, s, []).

Definition bind {R Q : Type} (m : Act R) (k : R -> Act Q) : Act Q :=
  fun s =>
    let '(r, s1, t1) := m s in
    let '(q, s2, t2) := k r s1 in
    (q, s2, t1 ++ t2).

#[local] Instance Act_ret : MRet Act := @ret.
#[local] Instance Act_bind : MBind Act := fun R Q k m => bind m k.

Definition lock : Act unit :=
  fun s => (tt, mkState (first s) (last s) (rfirst s) (rlast s) true, [EvLock]).

Definition unlock : Act unit :=
  fun s => (tt, mkState (first s) (last s) (rfirst s) (rlast s) false, [EvUnlock]).

Definition get (x : field) (s : partition_helper_state) : Z :=
  match x with
  | Ffirst => first s
  | Flast => last s
  | Frfirst => rfirst s
  | Frlast => rlast s
  end.

Definition put (x : field) (v : Z) (s : partition_helper_state)
  : partition_helper_state :=
  match x with
  | Ffirst => mkState v (last s) (rfirst s) (rlast s) (Lock s)
  | Flast => mkState (first s) v (rfirst s) (rlast s) (Lock s)
  | Frfirst => mkState (first s) (last s) v (rlast s) (Lock s)
  | Frlast => mkState (first s) (last s) (rfirst s) v (Lock s)
  end.

Definition read (x : field) : Act Z := fun s => (get x s, s, [EvRead x]).

Definition write (x : field) (v : Z) : Act unit :=
  fun s => (tt, put x v s, [EvWrite x]).

(** [unsigned BS = std::min(BlockSize(), std::distance(first, last));] *)
Definition block_take : Act Z :=
  f ← read Ffirst;
  l ← read Flast;
  mret (uwrap (Z.min BlockSize (l - f))).

Definition takeHigh : Act RP :=
  lock;;
  BS ← block_take;
  l ← read Flast;
  write Flast (l - BS);;
  rv ← read Flast;
  unlock;;
  mret (rv, rv + BS).

Definition takeLow : Act RP :=
  lock;;
  BS ← block_take;
  rv ← read Ffirst;
  f ← read Ffirst;
  write Ffirst (f + BS);;
  unlock;;
  mret (rv, rv + BS).

(** [rfirst = std::min(rfirst, b.first); rlast = std::max(rlast, b.second);] *)
Definition widen (b : RP) : Act unit :=
  rf ← read Frfirst;
  write Frfirst (Z.min rf b.1);;
  rl ← read Frlast;
  write Frlast (Z.max rl b.2).

Definition update (low high : RP) : Act unit :=
  lock;;
  (if negb (low.1 =? low.2) then widen low else mret tt);;
  (if negb (high.1 =? high.2) then widen high else mret tt);;
  unlock.

(** The log of a member function keeps every access to a shared field
    between its [lock] and its [unlock]. *)
Fixpoint guarded (held : bool) (t : list event) : bool :=
  match t with
  | [] => negb held
  | EvLock :: t' => negb held && guarded true t'
  | EvUnlock :: t' => held && guarded false t'
  | EvRead _ :: t' | EvWrite _ :: t' => held && guarded held t'
  end.

(** The effect of a member function once it holds the lock: its result and
    the new state. *)
Definition run {R : Type} (m : Act R) (s : partition_helper_state)
  : R * partition_helper_state :=
  let '(r, s', _) := m s in (r, s').

Definition log {R : Type} (m : Act R) (s : partition_helper_state)
  : list event :=
  let '(_, _, t) := m s in t.

(** The calls the workers make on the shared state. *)
Inductive call : Type :=
| CallTakeLow
| CallTakeHigh
| CallUpdate (low high : RP).

Definition call_log (c : call) (s : partition_helper_state) : list event :=
  match c with
  | CallTakeLow => log takeLow s
  | CallTakeHigh => log takeHigh s
  | CallUpdate low high => log (update low high) s
  end.

(** One call: the new state and the block it handed out, if it is a take. *)
Definition do_call (c : call) (s : partition_helper_state)
  : partition_helper_state * list RP :=
  match c with
  | CallTakeLow => let '(b, s') := run takeLow s in (s', [b])
  | CallTakeHigh => let '(b, s') := run takeHigh s in (s', [b])
  | CallUpdate low high => let '(_, s') := run (update low high) s in (s', [])
  end.

(** A sequence of calls, in the order the lock serialises them, with the
    blocks handed out in that order. *)
Fixpoint do_calls (cs : list call) (s : partition_helper_state)
  : partition_helper_state * list RP :=
  match cs with
  | [] => (s, [])
  | c :: cs' =>
      let '(s1, b1) := do_call c s in
      let '(s2, b2) := do_calls cs' s1 in
      (s2, b1 ++ b2)
  end.

Definition overlap (a b : RP) : Prop :=
  exists x, (a.1 <= x < a.2) /\ (b.1 <= x < b.2).

Lemma block_take_small (s : partition_helper_state) :
  first s <= last s ->
  uwrap (Z.min BlockSize (last s - first s)) =
  Z.min BlockSize (last s - first s).
Proof.
  intros H. apply uwrap_small. unfold BlockSize, umodulus. lia.
Qed.

Lemma takeLow_run (s : partition_helper_state) :
  first s <= last s ->
  let BS := Z.min BlockSize (last s - first s) in
  run takeLow s =
  ((first s, first s + BS),
   mkState (first s + BS) (last s) (rfirst s) (rlast s) false).
Proof.
  intros H BS. unfold run, takeLow, block_take, mbind, mret, Act_bind,
    Act_ret, bind, lock, unlock, read, write, ret. simpl. rewrite (block_take_small s H). reflexivity.
Qed.

Lemma takeHigh_run (s : partition_helper_state) :
  first s <= last s ->
  let BS := Z.min BlockSize (last s - first s) in
  run takeHigh s =
  ((last s - BS, last s - BS + BS),
   mkState (first s) (last s - BS) (rfirst s) (rlast s) false).
Proof.
  intros H BS. unfold run, takeHigh, block_take, mbind, mret, Act_bind,
    Act_ret, bind, lock, unlock, read, write, ret. simpl. rewrite (block_take_small s H). reflexivity.
Qed.

Lemma update_run_bounds (low high : RP) (s : partition_helper_state) :
  first (run (update low high) s).2 = first s /\
  last (run (update low high) s).2 = last s.
Proof.
  unfold run, update, widen, mbind, mret, Act_bind, Act_ret, bind, lock,
    unlock, read, write, ret.
  destruct (negb (low.1 =? low.2)), (negb (high.1 =? high.2)); simpl; auto.
Qed.

Lemma call_log_guarded (c : call) (s : partition_helper_state) :
  guarded false (call_log c s) = true.
Proof.
  destruct c as [| |low high]; simpl.
  - reflexivity.
  - reflexivity.
  - unfold log, update, widen, mbind, mret, Act_bind, Act_ret, bind, lock,
      unlock, read, write, ret.
    destruct (negb (low.1 =? low.2)), (negb (high.1 =? high.2)); reflexivity.
Qed.

Lemma do_call_effect (c : call) (s : partition_helper_state) :
  first s <= last s ->
  let s1 := (do_call c s).1 in
  let bs := (do_call c s).2 in
  (first s <= first s1 /\ first s1 <= last s1 /\ last s1 <= last s) /\
  (bs = [] \/
   exists b, bs = [b] /\
     (first s <= b.1 /\ b.1 <= b.2 /\ b.2 <= last s) /\
     (b.2 <= first s1 \/ last s1 <= b.1)).
Proof.
  intros H. destruct c as [| |low high]; cbv zeta; unfold do_call.
  - rewrite (takeLow_run s H). simpl.
    split; [unfold BlockSize; lia|]. right. eexists. split; [reflexivity|].
    simpl. unfold BlockSize. lia.
  - rewrite (takeHigh_run s H). simpl.
    split; [unfold BlockSize; lia|]. right. eexists. split; [reflexivity|].
    simpl. unfold BlockSize. lia.
  - destruct (update_run_bounds low high s) as [Hf Hl].
    destruct (run (update low high) s) as [[] s1]. simpl in *.
    split; [lia|]. now left.
Qed.

Lemma do_calls_effect (cs : list call) (s : partition_helper_state) :
  first s <= last s ->
  let s' := (do_calls cs s).1 in
  let blocks := (do_calls cs s).2 in
  (first s <= first s' /\ first s' <= last s' /\ last s' <= last s) /\
  (forall b, b ∈ blocks -> first s <= b.1 /\ b.1 <= b.2 /\ b.2 <= last s) /\
  (forall i j a b, (i < j)%nat -> blocks !! i = Some a -> blocks !! j = Some b ->
     ~ overlap a b).
Proof.
  revert s. induction cs as [|c cs IH]; intros s H; simpl.
  - split; [lia|]. split.
    + intros b Hb. inversion Hb.
    + intros i j a b _ Hi. discriminate.
  - destruct (do_call_effect c s H) as [Hs1 Hb1].
    destruct (do_call c s) as [s1 b1]. simpl in Hs1, Hb1.
    specialize (IH s1 ltac:(lia)). destruct IH as (Hs2 & Hin & Hdis).
    destruct (do_calls cs s1) as [s2 b2]. simpl in *.
    split; [lia|].
    destruct Hb1 as [->|(b & -> & Hb & Hside)]; simpl.
    + split; [|exact Hdis].
      intros b Hb. specialize (Hin b Hb). lia.
    + split.
      * intros b' Hb'. apply elem_of_cons in Hb' as [->|Hb']; [lia|].
        specialize (Hin b' Hb'). lia.
      * intros i j a' b' Hij Hi Hj. destruct j as [|j]; [lia|].
        simpl in Hj. destruct i as [|i]; simpl in Hi.
        -- injection Hi as <-.
           assert (Hb' : b' ∈ b2) by (apply list_elem_of_lookup; eauto).
           specialize (Hin b' Hb'). intros (x & Hx1 & Hx2). lia.
        -- apply (Hdis i j a' b'); [lia|exact Hi|exact Hj].
Qed.

(** C6: every call on the shared bounds logs all its reads and writes of
    first, last, rfirst and rlast between taking and releasing the lock;
    every call keeps first <= last; and after any sequence of calls on a
    state built for the range from f to l, the blocks handed out lie in that
    range and no two of them share a position. *)
Theorem shared_bounds_calls_safe (f l : Z) (cs : list call) :
  f <= l ->
  let s' := (do_calls cs (new_state f l)).1 in
  let blocks := (do_calls cs (new_state f l)).2 in
  (forall c s, guarded false (call_log c s) = true) /\
  (forall c s, first s <= last s ->
     first (do_call c s).1 <= last (do_call c s).1) /\
  first s' <= last s' /\
  (forall b, b ∈ blocks -> f <= b.1 /\ b.1 <= b.2 /\ b.2 <= l) /\
  (forall i j a b, i <> j -> blocks !! i = Some a -> blocks !! j = Some b ->
     ~ overlap a b).
Proof.
  intros H s' blocks.
  destruct (do_calls_effect cs (new_state f l) H) as (Hs & Hin & Hdis).
  fold s' in Hs. fold blocks in Hin, Hdis. simpl in Hs, Hin.
  split; [exact call_log_guarded|].
  split; [intros c s Hs0; destruct (do_call_effect c s Hs0) as [? _]; lia|].
  split; [lia|]. split; [exact Hin|].
  intros i j a b Hij Hi Hj.
  destruct (Nat.lt_total i j) as [Hlt|[Heq|Hgt]]; [|contradiction|].
  - exact (Hdis i j a b Hlt Hi Hj).
  - intros (x & Hx1 & Hx2). apply (Hdis j i b a Hgt Hj Hi).
    exists x. split; assumption.
Qed.

Lemma shared_bounds_calls_safe_witness :
  (do_calls [CallTakeLow; CallTakeHigh; CallUpdate (0, 0) (1476, 2500);
             CallTakeLow] (new_state 0 2500)).2
  = [(0, 1024); (1476, 2500); (1024, 1476)] /\
  ~ overlap (0, 1024) (1024, 1476).
Proof.
  split; [reflexivity|].
  pose proof (shared_bounds_calls_safe 0 2500
                [CallTakeLow; CallTakeHigh; CallUpdate (0, 0) (1476, 2500);
                 CallTakeLow] ltac:(lia)) as (_ & _ & _ & _ & Hdis).
  apply (Hdis 0%nat 2%nat); [lia|reflexivity|reflexivity].
Defined.

(** *** The algorithm on the array *)

(** What running a piece of the algorithm gives: a value, undefined
    behaviour (an access outside the array, an invalid range handed to the
    C++ library), or a model that was given too few steps. *)
Inductive result (R : Type) : Type :=
| Ok (r : R)
| Undefined
| OutOfFuel.
Arguments Ok {R} r.
Arguments Undefined {R}.
Arguments OutOfFuel {R}.

#[local] Instance result_ret : MRet result := @Ok.
#[local] Instance result_bind : MBind result :=
  fun R Q k m =>
    match m with
    | Ok r => k r
    | Undefined => Undefined
    | OutOfFuel => OutOfFuel
    end.

Record worker : Type := mkWorker {
  low : RP;
  high : RP;
  finished : bool
}.

(** [RP high, low;] are value-initialised: two empty blocks, which the first
    pass of the loop replaces by blocks taken from the shared state. *)
Definition new_worker : worker := mkWorker (0, 0) (0, 0) false.

Section Algorithm.
Context {A : Type}.
Variable pred : A -> bool.

Definition deref (arr : list A) (it : Z) : result A :=
  if it <? 0 then Undefined
  else match arr !! Z.to_nat it with
       | Some a => Ok a
       | None => Undefined
       end.

(** [std::swap] of the elements at two iterators. *)
Definition swap_at (arr : list A) (i j : Z) : result (list A) :=
  a ← deref arr i;
  b ← deref arr j;
  mret (<[Z.to_nat j := a]> (<[Z.to_nat i := b]> arr)).

(** The C++ library's [std::partition] on the range from [lo] to [hi]: the
    elements that satisfy the predicate come first and the iterator to the
    first that does not is returned. The standard leaves the order inside
    the two groups open; here it is kept. A range with [lo] after [hi], or
    outside the array, is undefined behaviour. *)
Definition std_partition (arr : list A) (lo hi : Z) : result (list A * Z) :=
  if (0 <=? lo) && (lo <=? hi) && (hi <=? Z.of_nat (length arr)) then
    let n := Z.to_nat lo in
    let len := Z.to_nat (hi - lo) in
    let mid := take len (drop n arr) in
    let yes := List.filter pred mid in
    let no := List.filter (fun a => negb (pred a)) mid in
    Ok (take n arr ++ yes ++ no ++ drop (n + len) arr,
        lo + Z.of_nat (length yes))
  else Undefined.

(** [while (first1 != last1 && pred(first1[0])) ++first1;] *)
Fixpoint scan_up (fuel : nat) (arr : list A) (first1 last1 : Z) : result Z :=
  match fuel with
  | O => OutOfFuel
  | S fuel' =>
      if first1 =? last1 then Ok first1
      else
        a ← deref arr first1;
        if pred a then scan_up fuel' arr (first1 + 1) last1 else Ok first1
  end.

(** [while (first3 != last3 && !pred(first3[0])) ++first3;] on reverse
    iterators, each given by its base: it points at the element before. *)
Fixpoint scan_down (fuel : nat) (arr : list A) (first3 last3 : Z) : result Z :=
  match fuel with
  | O => OutOfFuel
  | S fuel' =>
      if first3 =? last3 then Ok first3
      else
        a ← deref arr (first3 - 1);
        if negb (pred a) then scan_down fuel' arr (first3 - 1) last3
        else Ok first3
  end.

(** The [while (true)] loop of [dual_partition]. *)
Fixpoint dual_partition_loop (fuel : nat) (arr : list A)
    (first1 last1 first3 last3 : Z) : result (list A * RP) :=
  match fuel with
  | O => OutOfFuel
  | S fuel' =>
      first1 ← scan_up (S (length arr)) arr first1 last1;
      if first1 =? last1 then Ok (arr, (first1, first3))
      else
        first3 ← scan_down (S (length arr)) arr first3 last3;
        if first3 =? last3 then Ok (arr, (first1, first3))
        else
          arr ← swap_at arr first1 (first3 - 1);
          dual_partition_loop fuel' arr (first1 + 1) last1 (first3 - 1) last3
  end.

(** [RI first3(last2), last3(first2);] and the loop; the result is
    [(first1, first3.base())]. *)
Definition dual_partition (arr : list A) (first1 last1 first2 last2 : Z)
  : result (list A * RP) :=
  dual_partition_loop (S (length arr)) arr first1 last1 last2 first2.

(** One pass through the do-while of [partition_helper::operator()]; when
    the loop condition fails the worker records what it leaves behind and
    is finished. *)
Definition helper_pass (s : partition_helper_state) (arr : list A)
    (w : worker) : result (partition_helper_state * list A * worker) :=
  '(arr, parts) ← dual_partition arr (low w).1 (low w).2 (high w).1 (high w).2;
  let lo := (parts.1, (low w).2) in
  let hi := ((high w).1, parts.2) in
  let '(lo, s) := if lo.1 =? lo.2 then run takeLow s else (lo, s) in
  let '(hi, s) := if hi.1 =? hi.2 then run takeHigh s else (hi, s) in
  if negb (lo.1 =? lo.2) && negb (hi.1 =? hi.2)
  then Ok (s, arr, mkWorker lo hi false)
  else Ok ((run (update lo hi) s).2, arr, mkWorker lo hi true).

(** [on_each]: worker [tid] makes one pass, if it still runs. A worker
    only touches the blocks it holds and the shared state under its lock;
    here the passes of different workers interleave as wholes. In the code
    takeLow and takeHigh of one pass are two critical sections, between
    which another worker may take a block: those finer interleavings are
    not among the schedules of this model, which is used below for runs
    of one worker and for two given runs only. *)
Definition worker_pass (tid : nat)
    (st : partition_helper_state * list A * list worker)
  : result (partition_helper_state * list A * list worker) :=
  let '(s, arr, ws) := st in
  match ws !! tid with
  | None => Ok st
  | Some w =>
      if finished w then Ok st
      else
        '(s, arr, w) ← helper_pass s arr w;
        Ok (s, arr, <[tid := w]> ws)
  end.

Fixpoint run_sched (sched : list nat)
    (st : partition_helper_state * list A * list worker)
  : result (partition_helper_state * list A * list worker) :=
  match sched with
  | [] => Ok st
  | tid :: sched' => st ← worker_pass tid st; run_sched sched' st
  end.

Fixpoint finish_worker (fuel : nat) (tid : nat)
    (st : partition_helper_state * list A * list worker)
  : result (partition_helper_state * list A * list worker) :=
  match fuel with
  | O => OutOfFuel
  | S fuel' =>
      match st.2 !! tid with
      | Some w =>
          if finished w then Ok st
          else st ← worker_pass tid st; finish_worker fuel' tid st
      | None => Ok st
      end
  end.

Fixpoint finish_all (tids : list nat)
    (st : partition_helper_state * list A * list worker)
  : result (partition_helper_state * list A * list worker) :=
  match tids with
  | [] => Ok st
  | tid :: tids' =>
      st ← finish_worker (length st.1.2 + 2) tid st; finish_all tids' st
  end.

(** [on_each(P(&s))] with [threads] workers: the passes interleave as
    [sched] says, then the workers still running finish one after the
    other. *)
Definition on_each (threads : nat) (sched : list nat)
    (s : partition_helper_state) (arr : list A)
  : result (partition_helper_state * list A) :=
  st ← run_sched sched (s, arr, replicate threads new_worker);
  st ← finish_all (seq 0 threads) st;
  Ok st.1.

(** [partition(first, last, pred)] on the array [arr]. *)
Definition partition (threads : nat) (sched : list nat) (arr : list A)
    (f l : Z) : result (list A * Z) :=
  if l - f <=? 1024 then std_partition arr f l
  else
    let s := new_state f l in
    '(s, arr) ← on_each threads sched s arr;
    if (rfirst s =? f) && (rlast s =? l) then Ok (arr, first s)
    else std_partition arr (rfirst s) (rlast s).

(** What the caller expects of the result. *)
Definition partitioned (arr : list A) (f m l : Z) : Prop :=
  f <= m <= l /\
  (forall i a, f <= i < m -> arr !! Z.to_nat i = Some a -> pred a = true) /\
  (forall i a, m <= i < l -> arr !! Z.to_nat i = Some a -> pred a = false).
End Algorithm.

Definition id_pred (b : bool) : bool := b.

(** Two inputs: 2048 elements whose lower half fails the predicate and
    whose upper half satisfies it; and 4096 elements laid out so that, with
    two workers, the second one pairs off its two blocks exactly. *)
Definition halves_swapped : list bool :=
  replicate 1024 false ++ replicate 1024 true.

Definition paired_middle : list bool :=
  replicate 1024 true
  ++ (replicate 1023 true ++ [false])
  ++ ([true] ++ replicate 1023 false)
  ++ replicate 1024 true.

(** C8 is violated by the code. With one worker on [halves_swapped] the
    1024 swaps leave nothing behind, rfirst and rlast keep their initial
    values last and first, the test for the perfect case compares them with
    first and last instead, and std::partition is called on the range from
    last to first: undefined behaviour. With two workers on [paired_middle]
    the call returns 4096 although positions 2048 to 3071 hold elements that
    fail the predicate. *)
Theorem partition_large_range_fails :
  partition id_pred 1 [] halves_swapped 0 2048 = Undefined /\
  let out := replicate 2048 true ++ replicate 1024 false ++ replicate 1024 true in
  partition id_pred 2 [0; 1]%nat paired_middle 0 4096 = Ok (out, 4096) /\
  ~ partitioned id_pred out 0 4096 4096.
Proof.
  split; [vm_compute; reflexivity|].
  intros out. split; [vm_compute; reflexivity|].
  intros (_ & Hyes & _).
  specialize (Hyes 2048 false ltac:(lia) eq_refl). discriminate.
Qed.

(** On an input that leaves a remainder the same code does partition. *)
Example partition_with_leftover :
  match partition id_pred 1 [] (replicate 1024 true ++ replicate 1024 false)
                  0 2048 with
  | Ok (arr, m) => m = 1024 /\ arr = replicate 1024 true ++ replicate 1024 false
  | _ => False
  end.
Proof. vm_compute. split; reflexivity. Qed.

End Partition.

(** ** ParallelSTL.h: partial_sum *)

Module PartialSum.
Import SizeT Blocks Runtime.

(** Block bounds as positions in the arrays. *)
Definition bstart (N T : nat) (block : nat) : nat :=
  Z.to_nat (blockStart (Z.of_nat N) (Z.of_nat T) (Z.of_nat block)).

Definition bend (N T : nat) (block : nat) : nat :=
  Z.to_nat (blockEnd (Z.of_nat N) (Z.of_nat T) (Z.of_nat block)).

Section Algorithm.
Context {V : Type}.
(** [ValueType]: its [+] and the value that [0] converts to. *)
Variable add : V -> V -> V.
Variable zero : V.

(** The C++ library's [std::partial_sum]: the running sums
    x0, x0+x1, (x0+x1)+x2, ... *)
Fixpoint scan_from (sum : V) (xs : list V) : list V :=
  match xs with
  | [] => []
  | x :: xs' => let sum := add sum x in sum :: scan_from sum xs'
  end.

Definition std_partial_sum (xs : list V) : list V :=
  match xs with
  | [] => []
  | x :: xs' => x :: scan_from x xs'
  end.

(** The elements from position [s] up to position [e]. *)
Definition slice (s e : nat) (l : list V) : list V := take (e - s) (drop s l).

(** The serial call [std::partial_sum(first, last, d_first)]: [xs] is the
    input range, [out] the memory at [d_first]; the result is the memory
    afterwards and the offset of the returned iterator from [d_first]. *)
Definition serial_partial_sum (xs out : list V) : list V * nat :=
  (list_inserts 0 (std_partial_sum xs) out, length xs).

(** Body of the first do_all: the sums inside one block, and the last of
    them saved for the scan over the blocks. *)
Definition block_sums (xs : list V) (T : nat) (block : nat)
    (st : list V * list V) : list V * list V :=
  let '(out, localSums) := st in
  let blockStart := bstart (length xs) T block in
  let blockEnd := bend (length xs) T block in
  let out :=
    list_inserts blockStart (std_partial_sum (slice blockStart blockEnd xs))
                 out in
  let saved :=
    if (0 <? blockEnd)%nat then default zero (out !! (blockEnd - 1)%nat)
    else zero in
  (out, <[block := saved]> localSums).

(** [runningSum = 0; for (i ...) { bulkPrefix[i] = runningSum;
    runningSum += localSums[i]; }] *)
Fixpoint exclusive_scan (runningSum : V) (localSums : list V) : list V :=
  match localSums with
  | [] => []
  | x :: rest => runningSum :: exclusive_scan (add runningSum x) rest
  end.

(** Body of the second do_all: [val + numToAdd] over one block. *)
Definition block_offset (N T : nat) (bulkPrefix : list V) (block : nat)
    (out : list V) : list V :=
  let numToAdd := default zero (bulkPrefix !! block) in
  let blockStart := bstart N T block in
  let blockEnd := bend N T block in
  list_inserts blockStart
    (map (fun val => add val numToAdd) (slice blockStart blockEnd out)) out.

(** [partial_sum(first, last, d_first)]; [tr1] and [tr2] are the executions
    of the two do_all loops over the block numbers. *)
Definition partial_sum (threads : nat) (tr1 tr2 : trace nat)
    (xs out : list V) : list V * nat :=
  let sizeOfVector := length xs in
  if (1024 <=? sizeOfVector)%nat then
    let numBlocks := threads in
    let localSums := replicate numBlocks zero in
    let '(out, localSums) :=
      run_trace (fun _ block st => block_sums xs numBlocks block st)
                tr1 (out, localSums) in
    let bulkPrefix := exclusive_scan zero localSums in
    let out :=
      run_trace (fun _ block o => block_offset sizeOfVector numBlocks
                                               bulkPrefix block o)
                tr2 out in
    (out, sizeOfVector)
  else serial_partial_sum xs out.

Definition sum_list (l : list V) : V := foldl add zero l.
End Algorithm.

(** *** The block bounds as positions *)

Section BlockPositions.
Variables N T : nat.
Hypothesis HR : in_range (Z.of_nat N) (Z.of_nat T).

Lemma bstart_0 : bstart N T 0 = 0.
Proof.
  unfold bstart. change (Z.of_nat 0) with 0%Z.
  rewrite (blockStart_0 _ _ HR). reflexivity.
Qed.

Lemma bounds_pos (b : nat) :
  b < T -> bstart N T b <= bend N T b /\ bend N T b <= N.
Proof.
  intros Hb. unfold bstart, bend.
  pose proof (block_bounds _ _ HR (Z.of_nat b) ltac:(lia)). lia.
Qed.

Lemma bend_next (b : nat) : b < T -> bend N T b = bstart N T (S b).
Proof.
  intros Hb. unfold bstart, bend.
  rewrite (blockEnd_next _ _ HR (Z.of_nat b)) by lia.
  rewrite Nat2Z.inj_succ. reflexivity.
Qed.

Lemma block_pos_exists (i : nat) :
  i < N -> exists b, b < T /\ bstart N T b <= i < bend N T b.
Proof.
  intros Hi.
  pose proof (block_of_index _ _ HR (Z.of_nat i) ltac:(lia)) as [Hb Hin].
  set (b := (Z.of_nat i / blockSize (Z.of_nat N) (Z.of_nat T))%Z) in *.
  exists (Z.to_nat b). unfold bstart, bend. rewrite Z2Nat.id by lia.
  split; lia.
Qed.

Lemma block_pos_unique (i b b' : nat) :
  b < T -> b' < T ->
  bstart N T b <= i < bend N T b -> bstart N T b' <= i < bend N T b' ->
  b = b'.
Proof.
  unfold bstart, bend. intros Hb Hb' Hi Hi'.
  pose proof (block_bounds _ _ HR (Z.of_nat b) ltac:(lia)).
  pose proof (block_bounds _ _ HR (Z.of_nat b') ltac:(lia)).
  pose proof (block_of_index_unique _ _ HR (Z.of_nat i) (Z.of_nat b)
                ltac:(lia) ltac:(lia)).
  pose proof (block_of_index_unique _ _ HR (Z.of_nat i) (Z.of_nat b')
                ltac:(lia) ltac:(lia)).
  lia.
Qed.

Lemma block_pos_before (b k : nat) :
  k < b -> b < T -> bstart N T b < bend N T b -> bstart N T k < bend N T k.
Proof.
  unfold bstart, bend. intros Hk Hb Hne.
  pose proof (block_bounds _ _ HR (Z.of_nat b) ltac:(lia)).
  pose proof (block_bounds _ _ HR (Z.of_nat k) ltac:(lia)).
  pose proof (block_before_nonempty _ _ HR (Z.of_nat b) (Z.of_nat k)
                ltac:(lia) ltac:(lia) ltac:(lia)).
  lia.
Qed.
End BlockPositions.

(** *** Sums *)

Section SumFacts.
Context {V : Type}.
Variable add : V -> V -> V.
Variable zero : V.
Hypothesis add_assoc : forall a b c, add a (add b c) = add (add a b) c.
Hypothesis add_comm : forall a b, add a b = add b a.
Hypothesis add_0_l : forall a, add zero a = a.

Lemma add_0_r (a : V) : add a zero = a.
Proof. rewrite add_comm. apply add_0_l. Qed.

Lemma length_scan_from (a : V) (xs : list V) :
  length (scan_from add a xs) = length xs.
Proof. revert a. induction xs as [|x xs IH]; intros a; simpl; auto. Qed.

Lemma length_std_partial_sum (xs : list V) :
  length (std_partial_sum add xs) = length xs.
Proof. destruct xs; simpl; [reflexivity|]. now rewrite length_scan_from. Qed.

Lemma lookup_scan_from (a : V) (xs : list V) (i : nat) :
  i < length xs ->
  scan_from add a xs !! i = Some (foldl add a (take (S i) xs)).
Proof.
  revert a i. induction xs as [|x xs IH]; intros a i Hi; simpl in Hi; [lia|].
  destruct i as [|i]; simpl.
  - reflexivity.
  - rewrite IH by lia. reflexivity.
Qed.

Lemma lookup_std_partial_sum (xs : list V) (i : nat) :
  i < length xs ->
  std_partial_sum add xs !! i = Some (sum_list add zero (take (S i) xs)).
Proof.
  intros Hi. unfold sum_list. destruct xs as [|x xs]; simpl in *; [lia|].
  rewrite add_0_l. destruct i as [|i]; simpl.
  - reflexivity.
  - rewrite lookup_scan_from by lia. reflexivity.
Qed.

Lemma sum_list_app (l1 l2 : list V) :
  sum_list add zero (l1 ++ l2) =
  add (sum_list add zero l1) (sum_list add zero l2).
Proof.
  unfold sum_list. rewrite foldl_app.
  apply (foldl_merge_from add zero add_assoc add_0_l add_0_r).
Qed.

Lemma length_exclusive_scan (a : V) (ls : list V) :
  length (exclusive_scan add a ls) = length ls.
Proof. revert a. induction ls as [|x ls IH]; intros a; simpl; auto. Qed.

Lemma lookup_exclusive_scan (a : V) (ls : list V) (b : nat) :
  b < length ls ->
  exclusive_scan add a ls !! b = Some (foldl add a (take b ls)).
Proof.
  revert a b. induction ls as [|x ls IH]; intros a b Hb; simpl in Hb; [lia|].
  destruct b as [|b]; simpl; [reflexivity|]. apply IH. lia.
Qed.

Lemma length_slice (s e : nat) (l : list V) :
  s <= e -> e <= length l -> length (slice s e l) = e - s.
Proof. intros Hs He. unfold slice. rewrite length_take, length_drop. lia. Qed.

Lemma length_slice_le (s e : nat) (l : list V) : length (slice s e l) <= e - s.
Proof. unfold slice. rewrite length_take. lia. Qed.

Lemma take_slice (s e j : nat) (l : list V) :
  s + j <= e -> take j (slice s e l) = slice s (s + j) l.
Proof.
  intros H. unfold slice. rewrite take_take. f_equal. lia.
Qed.

Lemma take_app_slice (s e : nat) (l : list V) :
  s <= e -> take s l ++ slice s e l = take e l.
Proof.
  intros H. unfold slice. rewrite take_take_drop. f_equal. lia.
Qed.
End SumFacts.

(** *** The two passes over the blocks *)

Section Passes.
Context {V : Type}.
Variable add : V -> V -> V.
Variable zero : V.
Hypothesis add_assoc : forall a b c, add a (add b c) = add (add a b) c.
Hypothesis add_comm : forall a b, add a b = add b a.
Hypothesis add_0_l : forall a, add zero a = a.
Variable xs : list V.
Variable T : nat.
Hypothesis HR : in_range (Z.of_nat (length xs)) (Z.of_nat T).

(** The sum of block [b] up to and including position [i]. *)
Definition local_sum (b i : nat) : V :=
  sum_list add zero (slice (bstart (length xs) T b) (S i) xs).

Definition in_block (b i : nat) : Prop :=
  bstart (length xs) T b <= i < bend (length xs) T b.

Lemma block_sums_length (b : nat) (st : list V * list V) :
  length (block_sums add zero xs T b st).1 = length st.1 /\
  length (block_sums add zero xs T b st).2 = length st.2.
Proof.
  destruct st as [out ls]. unfold block_sums. simpl.
  now rewrite length_inserts, length_insert.
Qed.

Lemma block_sums_out_in (b i : nat) (st : list V * list V) :
  b < T -> length xs <= length st.1 -> in_block b i ->
  (block_sums add zero xs T b st).1 !! i = Some (local_sum b i).
Proof.
  intros Hb Hlen Hi. destruct st as [out ls]. unfold in_block in Hi.
  destruct (bounds_pos _ _ HR b Hb) as [Hse HeN].
  unfold block_sums. simpl in *.
  assert (Hsl : length (slice (bstart (length xs) T b) (bend (length xs) T b) xs)
                = bend (length xs) T b - bstart (length xs) T b)
    by (apply length_slice; lia).
  rewrite list_lookup_inserts
    by (rewrite ?length_std_partial_sum, ?Hsl; lia).
  rewrite (lookup_std_partial_sum add zero add_0_l) by (rewrite Hsl; lia).
  f_equal. unfold local_sum. f_equal.
  rewrite take_slice by lia. f_equal. lia.
Qed.

Lemma block_sums_out_off (b i : nat) (st : list V * list V) :
  ~ in_block b i -> (block_sums add zero xs T b st).1 !! i = st.1 !! i.
Proof.
  intros Hi. destruct st as [out ls]. unfold in_block in Hi.
  unfold block_sums. simpl.
  destruct (decide (i < bstart (length xs) T b)) as [Hlt|Hge].
  - now apply list_lookup_inserts_lt.
  - apply list_lookup_inserts_ge. rewrite length_std_partial_sum.
    pose proof (length_slice_le (bstart (length xs) T b)
                  (bend (length xs) T b) xs). lia.
Qed.

Lemma block_sums_saved (b : nat) (st : list V * list V) :
  b < T -> length xs <= length st.1 -> b < length st.2 ->
  bstart (length xs) T b < bend (length xs) T b ->
  (block_sums add zero xs T b st).2 !! b =
  Some (local_sum b (bend (length xs) T b - 1)).
Proof.
  intros Hb Hlen Hls Hne.
  pose proof (block_sums_out_in b (bend (length xs) T b - 1) st Hb Hlen) as Hin.
  destruct st as [out ls]. unfold block_sums in *. simpl in *.
  rewrite list_lookup_insert_eq by exact Hls.
  destruct (Nat.ltb_spec 0 (bend (length xs) T b)) as [_|Hz]; [|lia].
  rewrite Hin by (unfold in_block; lia). reflexivity.
Qed.

Lemma block_sums_saved_other (b b' : nat) (st : list V * list V) :
  b <> b' -> (block_sums add zero xs T b st).2 !! b' = st.2 !! b'.
Proof.
  intros Hne. destruct st as [out ls]. unfold block_sums. simpl.
  now apply list_lookup_insert_ne.
Qed.

Lemma first_pass (bl : list nat) (st : list V * list V) :
  NoDup bl -> Forall (fun b => b < T) bl ->
  length xs <= length st.1 -> length st.2 = T ->
  let st' := foldl (fun st b => block_sums add zero xs T b st) st bl in
  (length st'.1 = length st.1 /\ length st'.2 = T) /\
  (forall b i, b ∈ bl -> in_block b i -> st'.1 !! i = Some (local_sum b i)) /\
  (forall i, (forall b, b ∈ bl -> ~ in_block b i) -> st'.1 !! i = st.1 !! i) /\
  (forall b, b ∈ bl -> bstart (length xs) T b < bend (length xs) T b ->
     st'.2 !! b = Some (local_sum b (bend (length xs) T b - 1))) /\
  (forall b, b ∉ bl -> st'.2 !! b = st.2 !! b).
Proof.
  intros Hnd. revert st. induction Hnd as [|b0 bl Hb0 Hnd IH];
    intros st Hall Hlen Hls; simpl.
  - split; [auto|]. split; [intros b i Hb; inversion Hb|].
    split; [auto|]. split; [intros b Hb; inversion Hb|auto].
  - apply Forall_cons in Hall as [Hb0T Hall].
    destruct (block_sums_length b0 st) as [Hl1 Hl2].
    specialize (IH (block_sums add zero xs T b0 st) Hall
                   ltac:(lia) ltac:(lia)).
    simpl in IH. destruct IH as ([IHl1 IHl2] & IHin & IHoff & IHsv & IHso).
    split; [split; lia|]. split; [|split; [|split]].
    + intros b i Hb Hi. apply elem_of_cons in Hb as [->|Hb].
      * rewrite IHoff; [now apply block_sums_out_in|].
        intros b' Hb' Hi'.
        assert (b0 = b').
        { apply (block_pos_unique _ _ HR i b0 b'); try assumption.
          rewrite Forall_forall in Hall. now apply Hall. }
        subst b'. contradiction.
      * now apply IHin.
    + intros i Hnone. rewrite IHoff.
      * apply block_sums_out_off. apply Hnone. left.
      * intros b Hb. apply Hnone. now right.
    + intros b Hb Hne. apply elem_of_cons in Hb as [->|Hb].
      * rewrite IHso by exact Hb0. apply block_sums_saved; [assumption|lia|lia|assumption].
      * now apply IHsv.
    + intros b Hb. apply not_elem_of_cons in Hb as [Hne Hb].
      rewrite IHso by exact Hb. now apply block_sums_saved_other.
Qed.

Lemma lookup_slice (s e j : nat) (l : list V) :
  j < e - s -> slice s e l !! j = l !! (s + j).
Proof.
  intros Hj. unfold slice. rewrite lookup_take_lt by exact Hj.
  apply lookup_drop.
Qed.

Variable bulkPrefix : list V.

Definition offset_of (b : nat) (val : V) : V :=
  add val (default zero (bulkPrefix !! b)).

Lemma block_offset_length (b : nat) (out : list V) :
  length (block_offset add zero (length xs) T bulkPrefix b out) = length out.
Proof. unfold block_offset. apply length_inserts. Qed.

Lemma block_offset_in (b i : nat) (out : list V) :
  b < T -> length xs <= length out -> in_block b i ->
  block_offset add zero (length xs) T bulkPrefix b out !! i =
  offset_of b <$> out !! i.
Proof.
  intros Hb Hlen Hi. unfold in_block in Hi.
  destruct (bounds_pos _ _ HR b Hb) as [Hse HeN].
  unfold block_offset.
  assert (Hsl : length (slice (bstart (length xs) T b) (bend (length xs) T b) out)
                = bend (length xs) T b - bstart (length xs) T b)
    by (apply length_slice; lia).
  rewrite list_lookup_inserts by (rewrite ?length_map, ?Hsl; lia).
  change (map ?g ?l) with (g <$> l). rewrite list_lookup_fmap.
  rewrite lookup_slice by lia.
  replace (bstart (length xs) T b + (i - bstart (length xs) T b)) with i by lia.
  reflexivity.
Qed.

Lemma block_offset_off (b i : nat) (out : list V) :
  ~ in_block b i ->
  block_offset add zero (length xs) T bulkPrefix b out !! i = out !! i.
Proof.
  intros Hi. unfold in_block in Hi. unfold block_offset.
  destruct (decide (i < bstart (length xs) T b)) as [Hlt|Hge].
  - now apply list_lookup_inserts_lt.
  - apply list_lookup_inserts_ge. rewrite length_map.
    pose proof (length_slice_le (bstart (length xs) T b)
                  (bend (length xs) T b) out). lia.
Qed.

Lemma second_pass (bl : list nat) (out : list V) :
  NoDup bl -> Forall (fun b => b < T) bl -> length xs <= length out ->
  let out' :=
    foldl (fun o b => block_offset add zero (length xs) T bulkPrefix b o)
          out bl in
  length out' = length out /\
  (forall b i, b ∈ bl -> in_block b i -> out' !! i = offset_of b <$> out !! i) /\
  (forall i, (forall b, b ∈ bl -> ~ in_block b i) -> out' !! i = out !! i).
Proof.
  intros Hnd. revert out. induction Hnd as [|b0 bl Hb0 Hnd IH];
    intros out Hall Hlen; simpl.
  - split; [reflexivity|]. split; [intros b i Hb; inversion Hb|auto].
  - apply Forall_cons in Hall as [Hb0T Hall].
    pose proof (block_offset_length b0 out) as Hl.
    specialize (IH (block_offset add zero (length xs) T bulkPrefix b0 out)
                   Hall ltac:(lia)).
    simpl in IH. destruct IH as (IHl & IHin & IHoff).
    assert (Honly : forall i b, in_block b0 i -> b ∈ bl -> ~ in_block b i).
    { intros i b Hi0 Hb Hi.
      assert (b0 = b).
      { apply (block_pos_unique _ _ HR i b0 b); try assumption.
        rewrite Forall_forall in Hall. now apply Hall. }
      subst b. contradiction. }
    split; [lia|]. split.
    + intros b i Hb Hi. apply elem_of_cons in Hb as [->|Hb].
      * rewrite IHoff by (intros b' Hb'; now apply Honly).
        now apply block_offset_in.
      * rewrite (IHin b i Hb Hi). f_equal. apply block_offset_off.
        intros Hi0. exact (Honly i b Hi0 Hb Hi).
    + intros i Hnone. rewrite IHoff.
      * apply block_offset_off. apply Hnone. left.
      * intros b Hb. apply Hnone. now right.
Qed.

(** The scan over the saved sums gives block [b] the sum of everything
    before it. *)
Lemma prefix_of_block (ls : list V) (b : nat) :
  b <= T ->
  (forall k, k < b ->
     bstart (length xs) T k < bend (length xs) T k /\
     ls !! k = Some (local_sum k (bend (length xs) T k - 1))) ->
  foldl add zero (take b ls) =
  sum_list add zero (take (bstart (length xs) T b) xs).
Proof.
  induction b as [|b IH]; intros Hb Hk.
  - rewrite (bstart_0 _ _ HR). reflexivity.
  - destruct (Hk b ltac:(lia)) as [Hne Hlb].
    rewrite (take_S_r _ _ _ Hlb), foldl_app. simpl.
    rewrite IH by (try lia; intros k Hkb; apply Hk; lia).
    unfold local_sum.
    replace (S (bend (length xs) T b - 1)) with (bend (length xs) T b) by lia.
    rewrite <- (sum_list_app add zero add_assoc add_comm add_0_l).
    rewrite take_app_slice by lia.
    rewrite (bend_next _ _ HR b) by lia. reflexivity.
Qed.

End Passes.

Lemma run_trace_blocks {S : Type} (g : nat -> S -> S) (tr : trace nat) (st : S) :
  run_trace (fun _ b st => g b st) tr st = foldl (fun st b => g b st) st tr.*2.
Proof.
  revert st. induction tr as [|[w b] tr IH]; intros st; [reflexivity|].
  unfold run_trace in *. simpl. apply IH.
Qed.

Lemma do_all_blocks (T : nat) (tr : trace nat) :
  do_all_trace T (seq 0 T) tr ->
  NoDup tr.*2 /\ Forall (fun b => b < T) tr.*2 /\
  (forall b, b < T -> b ∈ tr.*2).
Proof.
  intros [_ Hperm]. split; [|split].
  - rewrite Hperm. apply NoDup_seq.
  - rewrite Hperm. apply Forall_seq. intros; lia.
  - intros b Hb. rewrite Hperm. apply elem_of_seq. lia.
Qed.

Lemma parallel_path {V : Type} (add : V -> V -> V) (zero : V)
    (threads : nat) (tr1 tr2 : trace nat) (xs out : list V) :
  (forall a b c, add a (add b c) = add (add a b) c) ->
  (forall a b, add a b = add b a) ->
  (forall a, add zero a = a) ->
  in_range (Z.of_nat (length xs)) (Z.of_nat threads) ->
  length xs <= length out ->
  do_all_trace threads (seq 0 threads) tr1 ->
  do_all_trace threads (seq 0 threads) tr2 ->
  let st1 := run_trace (fun _ block st => block_sums add zero xs threads block st)
                       tr1 (out, replicate threads zero) in
  run_trace (fun _ block o =>
               block_offset add zero (length xs) threads
                            (exclusive_scan add zero st1.2) block o)
            tr2 st1.1
  = list_inserts 0 (std_partial_sum add xs) out.
Proof.
  intros Hassoc Hcomm H0 HR Hlen Htr1 Htr2 st1.
  destruct (do_all_blocks threads tr1 Htr1) as (Hnd1 & Hlt1 & Hin1).
  destruct (do_all_blocks threads tr2 Htr2) as (Hnd2 & Hlt2 & Hin2).
  subst st1. rewrite !run_trace_blocks.
  pose proof (first_pass add zero H0 xs threads HR tr1.*2
                (out, replicate threads zero) Hnd1 Hlt1 Hlen
                (length_replicate _ _)) as Hp1.
  simpl in Hp1.
  set (st1 := foldl (fun st b => block_sums add zero xs threads b st)
                    (out, replicate threads zero) tr1.*2) in *.
  destruct Hp1 as ([Hl1 Hl2] & Hin & Hoff & Hsaved & _).
  set (bp := exclusive_scan add zero st1.2).
  pose proof (second_pass add zero xs threads HR bp tr2.*2 st1.1 Hnd2 Hlt2
                ltac:(lia)) as Hp2.
  simpl in Hp2.
  set (out2 := foldl (fun o b => block_offset add zero (length xs) threads bp b o)
                     st1.1 tr2.*2) in *.
  destruct Hp2 as (Hl3 & Hin' & Hoff').
  apply list_eq. intros i.
  destruct (decide (i < length xs)) as [Hi|Hi].
  - destruct (block_pos_exists _ _ HR i Hi) as (b & Hb & Hbi).
    rewrite (Hin' b i (Hin2 b Hb) Hbi), (Hin b i (Hin1 b Hb) Hbi). simpl.
    rewrite list_lookup_inserts
      by (rewrite ?(length_std_partial_sum add); lia).
    rewrite Nat.sub_0_r, (lookup_std_partial_sum add zero H0) by exact Hi.
    f_equal. unfold offset_of, bp.
    rewrite lookup_exclusive_scan by lia. simpl.
    assert (Hne : forall k, k < b ->
                    bstart (length xs) threads k < bend (length xs) threads k).
    { intros k Hk. apply (block_pos_before _ _ HR b k); [lia|lia|].
      unfold in_block in Hbi. lia. }
    rewrite (prefix_of_block add zero Hassoc Hcomm H0 xs threads HR st1.2 b);
      [|lia|].
    2:{ intros k Hk. split; [now apply Hne|].
        apply Hsaved; [apply Hin1; lia|now apply Hne]. }
    unfold local_sum. rewrite Hcomm.
    rewrite <- (sum_list_app add zero Hassoc Hcomm H0).
    rewrite take_app_slice by (unfold in_block in Hbi; lia). reflexivity.
  - assert (Hnone : forall b, b ∈ tr2.*2 -> ~ in_block xs threads b i).
    { intros b Hb Hbi. rewrite Forall_forall in Hlt2.
      destruct (bounds_pos _ _ HR b (Hlt2 b Hb)). unfold in_block in Hbi. lia. }
    assert (Hnone1 : forall b, b ∈ tr1.*2 -> ~ in_block xs threads b i).
    { intros b Hb Hbi. rewrite Forall_forall in Hlt1.
      destruct (bounds_pos _ _ HR b (Hlt1 b Hb)). unfold in_block in Hbi. lia. }
    rewrite (Hoff' i Hnone), (Hoff i Hnone1). simpl.
    rewrite list_lookup_inserts_ge
      by (rewrite (length_std_partial_sum add); lia).
    reflexivity.
Qed.


(** 1030 numbers in four blocks of 258, 258, 258 and 256, the second loop
    running the blocks in the opposite order. *)
Definition sample_input : list Z := seqZ 1 1030.
Definition sample_output : list Z := replicate 1032 0%Z.
Definition sample_tr1 : trace nat := static_trace 4 (seq 0 4).
Definition sample_tr2 : trace nat := [(0, 3); (1, 2); (0, 1); (1, 0)].


Example partial_sum_sample_last :
  (partial_sum Z.add 0%Z 4 sample_tr1 sample_tr2 sample_input sample_output).1
    !! 1029 = Some 530965%Z /\
  (partial_sum Z.add 0%Z 4 sample_tr1 sample_tr2 sample_input sample_output).1
    !! 1030 = Some 0%Z.
Proof. split; vm_compute; reflexivity. Qed.

End PartialSum.

(** ** partial_sum on doubles *)

From Stdlib Require PrimFloat.

Module PartialSumDoubles.
Import SizeT Blocks Runtime PartialSum.
Import PrimFloat.

(** A large number followed by 1023 ones, as doubles: 1e16 + 1 rounds back
    to 1e16, while 1e16 + 2 is a double. *)
Definition doubles_input : list float := 1e16%float :: replicate 1023 1%float.
Definition doubles_output : list float := replicate 1024 0%float.
(** Two threads, each running its own block. *)
Definition doubles_trace : trace nat := [(0, 0); (1, 1)].


End PartialSumDoubles.

(** ** More on the reductions: accumulate, map_reduce, reduction.cpp *)

Module Reductions.
Import SizeT Runtime ParallelSTL.

(** [map_reduce(first, last, map_fn, reduce_fn, identity)]: the items are
    the values of the range; [tr] is the execution of the do_all. *)
Definition map_reduce {A T : Type} (threads : nat) (tr : trace A)
    (map_fn : A -> T) (reduce_fn : T -> T -> T) (identity : T) : T :=
  let r := make_reducible identity threads in
  let r := run_trace (fun tid v r => update reduce_fn tid (map_fn v) r) tr r in
  reduce reduce_fn identity r.

(** [test_max] of reduction.cpp, run on the worker [tid]:
    [r.update(num); r.update(1); r.reduce()] with [std::max<int>] and 0. *)
Definition test_max (threads : nat) (tid : WorkerId) : Z :=
  let num := 10%Z in
  let r := make_reducible 0%Z threads in
  let r := update Z.max tid num r in
  let r := update Z.max tid 1%Z r in
  reduce Z.max 0%Z r.

(** A merge with an identity that is neutral only on a set of values that
    holds the identity and every merge result. *)
Section ClosedMerge.
Context {T : Type}.
Variable merge : T -> T -> T.
Variable identity : T.
Variable P : T -> Prop.
Hypothesis merge_assoc : forall a b c, merge a (merge b c) = merge (merge a b) c.
Hypothesis P_identity : P identity.
Hypothesis P_merge : forall a v, P a -> P (merge a v).
Hypothesis merge_id_l : forall a, P a -> merge identity a = a.
Hypothesis merge_id_r : forall a, P a -> merge a identity = a.

Lemma foldl_closed (a : T) (l : list T) : P a -> P (foldl merge a l).
Proof. revert a. induction l as [|x l IH]; intros a Ha; simpl; auto. Qed.

Lemma foldl_from_closed (a : T) (l : list T) :
  P a -> foldl merge a l = merge a (foldl merge identity l).
Proof.
  revert a. induction l as [|x l IH]; intros a Ha; simpl.
  - now rewrite merge_id_r.
  - rewrite (IH (merge a x)) by auto.
    rewrite (IH (merge identity x)) by auto.
    rewrite !merge_assoc, (merge_id_r a Ha). reflexivity.
Qed.

Lemma foldl_closed_concat {W : Type} (c : W -> list T) (ws : list W) (a : T) :
  P a ->
  foldl merge a (map (fun w => foldl merge identity (c w)) ws) =
  foldl merge a (concat (map c ws)).
Proof.
  revert a. induction ws as [|w ws IH]; intros a Ha; simpl; [reflexivity|].
  rewrite foldl_app, <- (foldl_from_closed a (c w) Ha).
  apply IH. now apply foldl_closed.
Qed.

Lemma accumulate_closed (threads : nat) (tr : trace T) :
  accumulate threads tr identity merge =
  foldl merge identity (by_worker threads tr).
Proof.
  rewrite accumulate_slots. unfold by_worker.
  rewrite <- (foldl_closed_concat (fun w => contrib w tr) (seq 0 threads)
                identity P_identity).
  destruct (seq 0 threads) as [|w ws]; simpl; [reflexivity|].
  rewrite merge_id_l by (now apply foldl_closed). reflexivity.
Qed.
End ClosedMerge.

Lemma foldl_comm_perm {T : Type} (op : T -> T -> T) (l l' : list T) :
  (forall a b c, op a (op b c) = op (op a b) c) ->
  (forall a b, op a b = op b a) ->
  l ≡ₚ l' -> forall a, foldl op a l = foldl op a l'.
Proof.
  intros Hassoc Hcomm Hp. induction Hp as [|x l l' _ IH|x y l|l l' l'' _ IH1 _ IH2];
    intros a; simpl.
  - reflexivity.
  - apply IH.
  - f_equal. rewrite <- !Hassoc. f_equal. apply Hcomm.
  - now rewrite IH1.
Qed.

Lemma total_perm (l l' : list Z) : l ≡ₚ l' -> total l = total l'.
Proof.
  unfold total. induction 1 as [|x l l' _ IH|x y l|l l' l'' _ IH1 _ IH2];
    simpl; lia.
Qed.

Lemma total_app (l l' : list Z) : total (l ++ l') = (total l + total l')%Z.
Proof. unfold total. induction l as [|x l IH]; simpl; lia. Qed.

(** accumulate with a commutative operation: whatever the execution of the
    do_all, the result is the serial left fold over the range, the value
    std::accumulate gives. *)
Theorem accumulate_commutative_serial {T : Type} (op : T -> T -> T)
    (identity : T) (threads : nat) (items : list T) (tr : trace T) :
  (forall a b c, op a (op b c) = op (op a b) c) ->
  (forall a b, op a b = op b a) ->
  (forall a, op identity a = a) ->
  do_all_trace threads items tr ->
  accumulate threads tr identity op = foldl op identity items.
Proof.
  intros Hassoc Hcomm Hid [Hw Hperm].
  rewrite (accumulate_closed op identity (fun _ => True) Hassoc I
             (fun _ _ _ => I) (fun a _ => Hid a)
             (fun a _ => eq_trans (Hcomm a identity) (Hid a))).
  apply (foldl_comm_perm op _ _ Hassoc Hcomm).
  rewrite <- Hperm. now apply by_worker_perm.
Qed.

Lemma accumulate_commutative_serial_witness :
  accumulate 2 [(1, 4); (0, 7); (1, 10)]%nat 0%nat Nat.max = 10%nat.
Proof.
  rewrite (accumulate_commutative_serial Nat.max 0%nat 2 [4; 7; 10]%nat
             [(1, 4); (0, 7); (1, 10)]%nat
             (fun a b c => Nat.max_assoc a b c)
             (fun a b => Nat.max_comm a b)
             (fun a => Nat.max_0_l a)).
  - reflexivity.
  - split; [repeat constructor|reflexivity].
Defined.

Lemma map_reduce_accumulate {A T : Type} (threads : nat) (tr : trace A)
    (map_fn : A -> T) (reduce_fn : T -> T -> T) (identity : T) :
  map_reduce threads tr map_fn reduce_fn identity =
  accumulate threads (map (fun e => (e.1, map_fn e.2)) tr) identity reduce_fn.
Proof.
  unfold map_reduce, accumulate. f_equal.
  generalize (make_reducible identity threads).
  induction tr as [|[w x] tr IH]; intros r; [reflexivity|].
  unfold run_trace in *. simpl. apply IH.
Qed.

Lemma do_all_trace_map {A T : Type} (f : A -> T) (threads : nat)
    (items : list A) (tr : trace A) :
  do_all_trace threads items tr ->
  do_all_trace threads (map f items) (map (fun e => (e.1, f e.2)) tr).
Proof.
  intros [Hw Hperm]. split.
  - apply List.Forall_map. exact Hw.
  - rewrite <- Hperm. clear.
    induction tr as [|[w x] tr IH]; simpl; [reflexivity|].
    constructor. exact IH.
Qed.

(** map_reduce with a commutative reduction: whatever the execution, the
    result is the serial fold of the mapped values. *)
Theorem map_reduce_commutative_serial {A T : Type} (map_fn : A -> T)
    (reduce_fn : T -> T -> T) (identity : T) (threads : nat)
    (items : list A) (tr : trace A) :
  (forall a b c, reduce_fn a (reduce_fn b c) = reduce_fn (reduce_fn a b) c) ->
  (forall a b, reduce_fn a b = reduce_fn b a) ->
  (forall a, reduce_fn identity a = a) ->
  do_all_trace threads items tr ->
  map_reduce threads tr map_fn reduce_fn identity =
  foldl reduce_fn identity (map map_fn items).
Proof.
  intros Hassoc Hcomm Hid Htr. rewrite map_reduce_accumulate.
  apply accumulate_commutative_serial; try assumption.
  now apply do_all_trace_map.
Qed.

Lemma map_reduce_commutative_serial_witness :
  map_reduce 2 [(1, "ab"); (0, "c"); (1, "def")]%nat String.length Nat.add 0%nat
  = 6%nat.
Proof.
  rewrite (map_reduce_commutative_serial String.length Nat.add 0%nat 2
             ["ab"; "c"; "def"] [(1, "ab"); (0, "c"); (1, "def")]%nat
             (fun a b c => Nat.add_assoc a b c)
             (fun a b => Nat.add_comm a b)
             (fun a => Nat.add_0_l a)).
  - reflexivity.
  - split; [repeat constructor|reflexivity].
Defined.

Local Open Scope Z_scope.

Lemma wrap_add_congr (a x y : Z) : wrap x = wrap y -> wrap (a + x) = wrap (a + y).
Proof.
  unfold wrap. intros H. rewrite (Zplus_mod a x), (Zplus_mod a y), H.
  reflexivity.
Qed.

Lemma wrap_wrap (z : Z) : wrap (wrap z) = wrap z.
Proof. apply wrap_mod. Qed.

Lemma seeded_slots_total (i : Z) (c : nat -> list Z) (ws : list nat) :
  wrap (total (map (fun w => foldl size_add i (c w)) ws)) =
  wrap (Z.of_nat (length ws) * i + total (concat (map c ws))).
Proof.
  induction ws as [|w ws IH].
  - reflexivity.
  - change (total (map (fun w => foldl size_add i (c w)) (w :: ws)))
      with (foldl size_add i (c w)
            + total (map (fun w => foldl size_add i (c w)) ws)).
    rewrite (wrap_add_congr _ _ _ IH).
    change (concat (map c (w :: ws))) with (c w ++ concat (map c ws)).
    rewrite total_app, length_cons, Nat2Z.inj_succ.
    rewrite Z.add_comm.
    assert (Hs : wrap (foldl size_add i (c w)) = wrap (i + total (c w))).
    { clear. revert i. induction (c w) as [|x l IHl]; intros i.
      - simpl. f_equal. unfold total. simpl. lia.
      - simpl. rewrite IHl. unfold size_add.
        change (total (x :: l)) with (x + total l).
        rewrite (Z.add_comm (wrap (i + x))), wrap_add_congr with (y := i + x)
          by apply wrap_wrap.
        f_equal. lia. }
    rewrite (wrap_add_congr _ _ _ Hs). f_equal. lia.
Qed.



(** A reducible over std::max<int> with identity 0, as in test_max: for
    every thread count and every placement of the updates on the workers,
    reduce() is the largest of 0 and the updated values; so test_max's
    assertion holds on every worker, and updates that are all negative
    reduce to 0. *)
Theorem max_reducible_floor_zero (threads : nat) (items : list Z)
    (tr : trace Z) :
  do_all_trace threads items tr ->
  let res := accumulate threads tr 0 Z.max in
  res = foldl Z.max 0 items /\
  0 <= res /\
  (forall x, x ∈ items -> x <= res) /\
  ((forall x, x ∈ items -> x <= 0) -> res = 0) /\
  (forall tid, (tid < threads)%nat -> test_max threads tid = 10).
Proof.
  intros [Hw Hperm] res.
  assert (Hres : res = foldl Z.max 0 items).
  { subst res.
    rewrite (accumulate_closed Z.max 0 (fun z => 0 <= z)
               (fun a b c => Z.max_assoc a b c) (Z.le_refl 0)
               (fun a v Ha => Z.le_trans _ _ _ Ha (Z.le_max_l a v))
               (fun a Ha => Z.max_r 0 a Ha) (fun a Ha => Z.max_l a 0 Ha)).
    apply (foldl_comm_perm Z.max _ _ (fun a b c => Z.max_assoc a b c)
             Z.max_comm).
    rewrite <- Hperm. now apply by_worker_perm. }
  assert (Hge : forall l a, a <= foldl Z.max a l /\
                            forall x, x ∈ l -> x <= foldl Z.max a l).
  { induction l as [|y l IH]; intros a; simpl.
    - split; [lia|]. intros x Hx. inversion Hx.
    - destruct (IH (Z.max a y)) as [H1 H2]. split; [lia|].
      intros x Hx. apply elem_of_cons in Hx as [->|Hx]; [lia|auto]. }
  split; [exact Hres|]. rewrite Hres.
  split; [apply (proj1 (Hge items 0))|].
  split; [apply (proj2 (Hge items 0))|]. split.
  - intros Hneg. clear -Hneg. induction items as [|y l IH]; [reflexivity|].
    simpl. rewrite Z.max_l by (apply Hneg; left).
    apply IH. intros x Hx. apply Hneg. now right.
  - intros tid Htid. unfold test_max.
    change (reduce Z.max 0 (update Z.max tid 1 (update Z.max tid 10
              (make_reducible 0 threads))))
      with (accumulate threads [(tid, 10); (tid, 1)] 0 Z.max).
    rewrite (accumulate_closed Z.max 0 (fun z => 0 <= z)
               (fun a b c => Z.max_assoc a b c) (Z.le_refl 0)
               (fun a v Ha => Z.le_trans _ _ _ Ha (Z.le_max_l a v))
               (fun a Ha => Z.max_r 0 a Ha) (fun a Ha => Z.max_l a 0 Ha)).
    rewrite (foldl_comm_perm Z.max _ [10; 1] (fun a b c => Z.max_assoc a b c)
               Z.max_comm); [reflexivity|].
    apply (by_worker_perm threads [(tid, 10); (tid, 1)]).
    repeat constructor; exact Htid.
Qed.

Lemma max_reducible_floor_zero_witness :
  accumulate 3 [(2%nat, -4); (0%nat, -7)] 0 Z.max = 0.
Proof.
  assert (Htr : do_all_trace 3 [-4; -7] [(2%nat, -4); (0%nat, -7)])
    by (split; [repeat constructor|reflexivity]).
  pose proof (max_reducible_floor_zero 3 [-4; -7] [(2%nat, -4); (0%nat, -7)]
                Htr) as (_ & _ & _ & H & _).
  apply H. intros x Hx.
  apply elem_of_cons in Hx as [->|Hx]; [lia|].
  apply elem_of_cons in Hx as [->|Hx]; [lia|inversion Hx].
Defined.

End Reductions.

(** ** Assertions *)

Module Debug.
Import Runtime.

(** How a run of code that carries assertions ends: with a value, in
    undefined behaviour (an access outside an array, an invalid range
    handed to the C++ library), with the model's steps used up, or in the
    abort of a failed assertion. *)
Inductive outcome (R : Type) : Type :=
| Ok (r : R)
| Undefined
| OutOfFuel
| Aborted.
Arguments Ok {R} r.
Arguments Undefined {R}.
Arguments OutOfFuel {R}.
Arguments Aborted {R}.

#[export] Instance outcome_ret : MRet outcome := @Ok.
#[export] Instance outcome_bind : MBind outcome :=
  fun R Q k m =>
    match m with
    | Ok r => k r
    | Undefined => Undefined
    | OutOfFuel => OutOfFuel
    | Aborted => Aborted
    end.

(** Modelled from the spec: KATANA_LOG_DEBUG_ASSERT, whose definition is
    not among the sources. The spec has contract violations "checked only
    in debug builds via assertions" and failures "asserted-and-aborted":
    in a build with assertions the condition is evaluated and a false one
    aborts the program; in a build without them the line is no statement
    and the condition is not evaluated. [assertions] says which build it
    is; evaluating the condition may itself read outside an array. *)
Definition debug_assert (assertions : bool) (cond : outcome bool)
  : outcome unit :=
  if assertions then b ← cond; if b : bool then Ok tt else Aborted
  else Ok tt.

(** A do_all whose body may go wrong or abort. *)
Fixpoint run_trace_outcome {A S : Type}
    (body : WorkerId -> A -> S -> outcome S) (tr : trace A) (s : S)
  : outcome S :=
  match tr with
  | [] => Ok s
  | e :: tr' => s ← body e.1 e.2 s; run_trace_outcome body tr' s
  end.

Lemma bind_Ok_l {R Q : Type} (x : R) (k : R -> outcome Q) :
  (Ok x ≫= k) = k x.
Proof. reflexivity. Qed.

Lemma run_trace_outcome_cons {B S : Type}
    (body : WorkerId -> B -> S -> outcome S) (tid : WorkerId) (x : B)
    (tr : trace B) (s : S) :
  run_trace_outcome body ((tid, x) :: tr) s
  = (s ← body tid x s; run_trace_outcome body tr s).
Proof. reflexivity. Qed.

Lemma debug_assert_off (cond : outcome bool) : debug_assert false cond = Ok tt.
Proof. reflexivity. Qed.

Lemma debug_assert_holds (assertions : bool) :
  debug_assert assertions (Ok true) = Ok tt.
Proof. now destruct assertions. Qed.

Lemma debug_assert_fails : debug_assert true (Ok false) = Aborted.
Proof. reflexivity. Qed.

Lemma debug_assert_pass (assertions cond : bool) :
  (assertions = true -> cond = true) ->
  debug_assert assertions (Ok cond) = Ok tt.
Proof.
  intros H. destruct assertions; [|reflexivity]. now rewrite H.
Qed.
End Debug.

(** ** ClusteringImplementationBase.h: renumbering the clusters *)

From stdpp Require Import gmap.

Module Clustering.
Import SizeT Debug.
Local Open Scope Z_scope.

(** [UNASSIGNED = std::numeric_limits<uint64_t>::max()] *)
Definition UNASSIGNED : Z := modulus - 1.

(** The state of the loop of [RenumberClustersContiguously]: the community
    id of every node (the graph's [CommunityIDType] property, indexed by
    node), [cluster_local_map] and [num_unique_clusters]. *)
Record renumber_state : Type := mkRenumber {
  comm_ids : list Z;
  cluster_local_map : gmap Z Z;
  num_unique_clusters : Z
}.

(** The body of [for (GNode n = 0; n < graph->num_nodes(); ++n)], with its
    assertion that an assigned id is below [graph->num_nodes()]. *)
Definition renumber_node (assertions : bool) (st : renumber_state) (n : nat)
  : outcome renumber_state :=
  match comm_ids st !! n with
  | None => Undefined
  | Some n_data_curr_comm_id =>
      if n_data_curr_comm_id =? UNASSIGNED then Ok st
      else
        _ ← debug_assert assertions
              (Ok (n_data_curr_comm_id <? Z.of_nat (length (comm_ids st))));
        match cluster_local_map st !! n_data_curr_comm_id with
        | Some stored_already =>
            Ok (mkRenumber (<[n := stored_already]> (comm_ids st))
                           (cluster_local_map st) (num_unique_clusters st))
        | None =>
            Ok (mkRenumber
                  (<[n := num_unique_clusters st]> (comm_ids st))
                  (<[n_data_curr_comm_id := num_unique_clusters st]>
                     (cluster_local_map st))
                  (wrap (num_unique_clusters st + 1)))
        end
  end.

Fixpoint renumber_loop (assertions : bool) (nodes : list nat)
    (st : renumber_state) : outcome renumber_state :=
  match nodes with
  | [] => Ok st
  | n :: nodes' =>
      st ← renumber_node assertions st n; renumber_loop assertions nodes' st
  end.

(** [RenumberClustersContiguously(graph)]: the ids afterwards and the
    returned number of clusters. *)
Definition RenumberClustersContiguously (assertions : bool) (ids : list Z)
  : outcome (list Z * Z) :=
  st ← renumber_loop assertions (seq 0 (length ids)) (mkRenumber ids ∅ 0);
  Ok (comm_ids st, num_unique_clusters st).

(** The same loop without its assertion, seen from the list of ids still
    to visit. *)
Fixpoint renumber_from (m : gmap Z Z) (k : Z) (ids : list Z)
  : list Z * gmap Z Z * Z :=
  match ids with
  | [] => ([], m, k)
  | c :: rest =>
      if c =? UNASSIGNED then
        let '(rest', m', k') := renumber_from m k rest in (c :: rest', m', k')
      else
        match m !! c with
        | Some v =>
            let '(rest', m', k') := renumber_from m k rest in
            (v :: rest', m', k')
        | None =>
            let '(rest', m', k') :=
              renumber_from (<[c := k]> m) (wrap (k + 1)) rest in
            (k :: rest', m', k')
        end
  end.

(** What the assertion asks of the id of a node, in a graph of
    [num_nodes] nodes. *)
Definition id_in_graph (num_nodes : nat) (c : Z) : bool :=
  (c =? UNASSIGNED) || (c <? Z.of_nat num_nodes).

(** Whether a run meets no failing assertion: always in a build without
    assertions, and with them when every id passes. *)
Definition asserted (assertions : bool) (ids : list Z) : bool :=
  negb assertions || forallb (id_in_graph (length ids)) ids.

Lemma renumber_node_eq (assertions : bool) (done rest : list Z) (c : Z)
    (m : gmap Z Z) (k : Z) :
  renumber_node assertions (mkRenumber (done ++ c :: rest) m k) (length done)
  = if c =? UNASSIGNED then Ok (mkRenumber (done ++ c :: rest) m k)
    else if assertions
              && negb (c <? Z.of_nat (length (done ++ c :: rest)))
    then Aborted
    else match m !! c with
         | Some v => Ok (mkRenumber ((done ++ [v]) ++ rest) m k)
         | None => Ok (mkRenumber ((done ++ [k]) ++ rest) (<[c := k]> m)
                                  (wrap (k + 1)))
         end.
Proof.
  unfold renumber_node. cbn [comm_ids cluster_local_map num_unique_clusters].
  rewrite lookup_app_r by lia. rewrite Nat.sub_diag. cbn [lookup list_lookup].
  destruct (c =? UNASSIGNED); [reflexivity|].
  assert (Hins : forall v, <[length done := v]> (done ++ c :: rest)
                           = (done ++ [v]) ++ rest).
  { intros v. rewrite insert_app_r_alt by lia.
    rewrite Nat.sub_diag. simpl. now rewrite <- app_assoc. }
  destruct assertions, (c <? Z.of_nat (length (done ++ c :: rest)));
    simpl; try reflexivity; destruct (m !! c); now rewrite Hins.
Qed.

Lemma renumber_loop_from (assertions : bool) (num_nodes : nat)
    (rest : list Z) :
  forall (done : list Z) (m : gmap Z Z) (k : Z),
  (length done + length rest = num_nodes)%nat ->
  renumber_loop assertions (seq (length done) (length rest))
                (mkRenumber (done ++ rest) m k)
  = if assertions && negb (forallb (id_in_graph num_nodes) rest) then Aborted
    else let '(rest', m', k') := renumber_from m k rest in
         Ok (mkRenumber (done ++ rest') m' k').
Proof.
  induction rest as [|c rest IH]; intros done m k Hlen.
  - simpl. now rewrite andb_false_r.
  - cbn [length seq renumber_loop]. rewrite renumber_node_eq.
    replace (length (done ++ c :: rest)) with num_nodes
      by (rewrite length_app; exact (eq_sym Hlen)).
    cbn [forallb renumber_from]. unfold id_in_graph at 1.
    cbn [length] in Hlen.
    assert (Hnext : forall v m1 k1,
              renumber_loop assertions (seq (S (length done)) (length rest))
                            (mkRenumber ((done ++ [v]) ++ rest) m1 k1)
              = if assertions && negb (forallb (id_in_graph num_nodes) rest)
                then Aborted
                else let '(rest', m', k') := renumber_from m1 k1 rest in
                     Ok (mkRenumber (done ++ v :: rest') m' k')).
    { intros v m1 k1. specialize (IH (done ++ [v]) m1 k1).
      rewrite length_app in IH. cbn [length] in IH.
      rewrite Nat.add_1_r in IH. rewrite IH by (simpl in Hlen; lia).
      destruct (assertions && negb (forallb (id_in_graph num_nodes) rest));
        [reflexivity|].
      destruct (renumber_from m1 k1 rest) as [[rest' m'] k'].
      now rewrite <- app_assoc. }
    destruct (c =? UNASSIGNED) eqn:Hc.
    + rewrite bind_Ok_l. cbn [orb andb].
      replace (done ++ c :: rest) with ((done ++ [c]) ++ rest)
        by now rewrite <- app_assoc.
      rewrite Hnext.
      destruct (assertions && negb (forallb (id_in_graph num_nodes) rest));
        [reflexivity|].
      now destruct (renumber_from m k rest) as [[rest' m'] k'].
    + cbn [orb]. destruct (c <? Z.of_nat num_nodes) eqn:Hlt.
      * rewrite andb_false_r. cbn [andb].
        destruct (m !! c) as [v|]; rewrite bind_Ok_l, Hnext;
          destruct (assertions
                    && negb (forallb (id_in_graph num_nodes) rest));
          try reflexivity.
        -- now destruct (renumber_from m k rest) as [[rest' m'] k'].
        -- now destruct (renumber_from (<[c := k]> m) (wrap (k + 1)) rest)
             as [[rest' m'] k'].
      * cbn [andb negb]. rewrite andb_true_r.
        destruct assertions; [reflexivity|]. cbn [andb].
        destruct (m !! c) as [v|]; rewrite bind_Ok_l, Hnext; cbn [andb].
        -- now destruct (renumber_from m k rest) as [[rest' m'] k'].
        -- now destruct (renumber_from (<[c := k]> m) (wrap (k + 1)) rest)
             as [[rest' m'] k'].
Qed.

Lemma renumber_is_from (assertions : bool) (ids : list Z) :
  RenumberClustersContiguously assertions ids =
  if asserted assertions ids
  then Ok ((renumber_from ∅ 0 ids).1.1, (renumber_from ∅ 0 ids).2)
  else Aborted.
Proof.
  unfold RenumberClustersContiguously, asserted.
  pose proof (renumber_loop_from assertions (length ids) ids [] ∅ 0 eq_refl)
    as H.
  cbn [length app] in H. rewrite H.
  destruct assertions; cbn [andb negb orb].
  - destruct (forallb (id_in_graph (length ids)) ids); [|reflexivity].
    cbn [negb]. now destruct (renumber_from ∅ 0 ids) as [[rest' m'] k'].
  - now destruct (renumber_from ∅ 0 ids) as [[rest' m'] k'].
Qed.

(** The labels handed out so far are 0, ..., k-1, one per key. *)
Definition labels_ok (m : gmap Z Z) (k : Z) : Prop :=
  Z.of_nat (size m) = k /\
  (forall c v, m !! c = Some v -> 0 <= v < k) /\
  (forall c c' v, m !! c = Some v -> m !! c' = Some v -> c = c') /\
  (forall v, 0 <= v < k -> exists c, m !! c = Some v).

(** A list whose labels appear in the order 0, 1, 2, ... of first use,
    given that the labels below [k] are in use already; the result is the
    number of labels in use at the end. *)
Fixpoint canon_from (k : Z) (ids : list Z) : option Z :=
  match ids with
  | [] => Some k
  | v :: rest =>
      if v =? UNASSIGNED then canon_from k rest
      else if (0 <=? v) && (v <? k) then canon_from k rest
      else if v =? k then canon_from (k + 1) rest
      else None
  end.

Lemma labels_ok_empty : labels_ok ∅ 0.
Proof.
  split; [now rewrite map_size_empty|]. split; [|split].
  - intros c v H. rewrite lookup_empty in H. discriminate.
  - intros c c' v H. rewrite lookup_empty in H. discriminate.
  - intros v Hv. lia.
Qed.

Lemma labels_ok_insert (m : gmap Z Z) (k c : Z) :
  labels_ok m k -> m !! c = None -> labels_ok (<[c := k]> m) (k + 1).
Proof.
  intros (Hsize & Hrange & Hinj & Hsurj) Hc. split; [|split; [|split]].
  - rewrite map_size_insert_None by exact Hc. lia.
  - intros c0 v H. apply lookup_insert_Some in H as [[_ <-]|[_ H]].
    + assert (0 <= k) by lia. lia.
    + specialize (Hrange c0 v H). lia.
  - intros c1 c2 v H1 H2.
    apply lookup_insert_Some in H1 as [[<- <-]|[Hn1 H1]];
      apply lookup_insert_Some in H2 as [[<- Hv]|[Hn2 H2]].
    + reflexivity.
    + specialize (Hrange c2 k H2). lia.
    + subst v. specialize (Hrange c1 k H1). lia.
    + exact (Hinj c1 c2 v H1 H2).
  - intros v Hv. destruct (decide (v = k)) as [->|Hne].
    + exists c. apply lookup_insert_eq.
    + destruct (Hsurj v ltac:(lia)) as [c0 Hc0]. exists c0.
      rewrite lookup_insert_ne; [exact Hc0|]. intros ->. congruence.
Qed.

Lemma renumber_from_spec (ids : list Z) (m : gmap Z Z) (k : Z) :
  labels_ok m k ->
  k + Z.of_nat (length ids) < modulus ->
  forall ids' m' k', renumber_from m k ids = (ids', m', k') ->
  labels_ok m' k' /\ m ⊆ m' /\
  length ids' = length ids /\
  (forall i c, ids !! i = Some c ->
     ids' !! i = Some (if c =? UNASSIGNED then UNASSIGNED
                       else default UNASSIGNED (m' !! c)) /\
     (c <> UNASSIGNED -> is_Some (m' !! c))) /\
  (forall c, is_Some (m' !! c) ->
     is_Some (m !! c) \/ (c ∈ ids /\ c <> UNASSIGNED)) /\
  canon_from k ids' = Some k'.
Proof.
  revert m k. induction ids as [|c rest IH]; intros m k Hok Hlen ids' m' k' Hrun.
  - simpl in Hrun. injection Hrun as <- <- <-.
    split; [exact Hok|]. split; [reflexivity|]. split; [reflexivity|].
    split; [intros i c H; discriminate|]. split; [auto|reflexivity].
  - simpl in Hrun, Hlen.
    assert (Hk : 0 <= k) by (destruct Hok as [<- _]; lia).
    destruct (Z.eqb_spec c UNASSIGNED) as [Hc|Hc].
    + destruct (renumber_from m k rest) as [[rest' m1] k1] eqn:Hrest.
      injection Hrun as <- <- <-.
      destruct (IH m k Hok ltac:(lia) rest' m1 k1 Hrest)
        as (Hok1 & Hsub & Hl & Hat & Hdom & Hcanon).
      split; [exact Hok1|]. split; [exact Hsub|].
      split; [simpl; lia|]. split; [|split].
      * intros [|i] c0 Hi; simpl in Hi |- *.
        -- injection Hi as <-. rewrite Hc, Z.eqb_refl. split; [reflexivity|].
           intros Hn. now destruct Hn.
        -- now apply Hat.
      * intros c0 Hc0. destruct (Hdom c0 Hc0) as [H|[H1 H2]]; [now left|].
        right. split; [now right|exact H2].
      * simpl. rewrite Hc, Z.eqb_refl. exact Hcanon.
    + destruct (m !! c) as [v|] eqn:Hm.
      * destruct (renumber_from m k rest) as [[rest' m1] k1] eqn:Hrest.
        injection Hrun as <- <- <-.
        destruct (IH m k Hok ltac:(lia) rest' m1 k1 Hrest)
          as (Hok1 & Hsub & Hl & Hat & Hdom & Hcanon).
        pose proof (lookup_weaken _ _ _ _ Hm Hsub) as Hm1.
        split; [exact Hok1|]. split; [exact Hsub|].
        split; [simpl; lia|]. split; [|split].
        -- intros [|i] c0 Hi; simpl in Hi |- *.
           ++ injection Hi as <-.
              destruct (Z.eqb_spec c UNASSIGNED) as [?|_]; [contradiction|].
              rewrite Hm1. split; [reflexivity|]. intros _. now exists v.
           ++ now apply Hat.
        -- intros c0 Hc0. destruct (Hdom c0 Hc0) as [H|[H1 H2]]; [now left|].
           right. split; [now right|exact H2].
        -- simpl. destruct Hok as (_ & Hrange & _).
           specialize (Hrange c v Hm).
           destruct (Z.eqb_spec v UNASSIGNED) as [Hv|_];
             [unfold UNASSIGNED in Hv; lia|].
           destruct (Z.leb_spec 0 v); [|lia].
           destruct (Z.ltb_spec v k); [|lia]. exact Hcanon.
      * rewrite wrap_small in Hrun by lia.
        destruct (renumber_from (<[c := k]> m) (k + 1) rest)
          as [[rest' m1] k1] eqn:Hrest.
        injection Hrun as <- <- <-.
        destruct (IH (<[c := k]> m) (k + 1) (labels_ok_insert m k c Hok Hm)
                     ltac:(lia) rest' m1 k1 Hrest)
          as (Hok1 & Hsub & Hl & Hat & Hdom & Hcanon).
        assert (Hm1 : m1 !! c = Some k).
        { apply (lookup_weaken (<[c := k]> m)); [apply lookup_insert_eq|exact Hsub]. }
        split; [exact Hok1|]. split.
        { etransitivity; [apply (insert_subseteq m c k Hm)|exact Hsub]. }
        split; [simpl; lia|]. split; [|split].
        -- intros [|i] c0 Hi; simpl in Hi |- *.
           ++ injection Hi as <-.
              destruct (Z.eqb_spec c UNASSIGNED) as [?|_]; [contradiction|].
              rewrite Hm1. split; [reflexivity|]. intros _. now exists k.
           ++ now apply Hat.
        -- intros c0 Hc0. destruct (Hdom c0 Hc0) as [H|[H1 H2]].
           ++ apply lookup_insert_is_Some in H as [<-|[_ H]].
              ** right. split; [left|exact Hc].
              ** now left.
           ++ right. split; [now right|exact H2].
        -- simpl.
           destruct (Z.eqb_spec k UNASSIGNED) as [Hv|_];
             [unfold UNASSIGNED in Hv; lia|].
           destruct (Z.ltb_spec k k); [lia|]. rewrite andb_false_r.
           rewrite Z.eqb_refl. exact Hcanon.
Qed.

Lemma renumber_from_bound (ids : list Z) (m : gmap Z Z) (k : Z) :
  0 <= k -> k + Z.of_nat (length ids) < modulus ->
  k <= (renumber_from m k ids).2 <= k + Z.of_nat (length ids).
Proof.
  revert m k. induction ids as [|c rest IH]; intros m k Hk Hlen; simpl.
  - lia.
  - simpl in Hlen. destruct (c =? UNASSIGNED).
    + specialize (IH m k Hk ltac:(lia)).
      destruct (renumber_from m k rest) as [[rest' m1] k1]. simpl in *. lia.
    + destruct (m !! c).
      * specialize (IH m k Hk ltac:(lia)).
        destruct (renumber_from m k rest) as [[rest' m1] k1]. simpl in *. lia.
      * rewrite wrap_small by lia.
        specialize (IH (<[c := k]> m) (k + 1) ltac:(lia) ltac:(lia)).
        destruct (renumber_from (<[c := k]> m) (k + 1) rest)
          as [[rest' m1] k1]. simpl in *. lia.
Qed.

Lemma canon_first_use (ids : list Z) (k k' : Z) :
  canon_from k ids = Some k' ->
  forall i v, ids !! i = Some v -> v <> UNASSIGNED -> k <= v - 1 ->
  exists j, (j < i)%nat /\ ids !! j = Some (v - 1).
Proof.
  revert k. induction ids as [|h rest IH]; intros k Hc i v Hi Hv Hk;
    [discriminate|].
  simpl in Hc. destruct i as [|i]; simpl in Hi.
  - injection Hi as ->. destruct (Z.eqb_spec v UNASSIGNED); [contradiction|].
    destruct (Z.leb_spec 0 v), (Z.ltb_spec v k); simpl in Hc; try lia;
      destruct (Z.eqb_spec v k); try lia; discriminate.
  - assert (Hstep : forall k0, canon_from k0 rest = Some k' -> k0 <= v - 1 ->
                               exists j, (j < S i)%nat /\
                                         (h :: rest) !! j = Some (v - 1)).
    { intros k0 Hc0 Hk0. destruct (IH k0 Hc0 i v Hi Hv Hk0) as (j & Hj & Hl).
      exists (S j). split; [lia|exact Hl]. }
    destruct (h =? UNASSIGNED); [now apply (Hstep k)|].
    destruct ((0 <=? h) && (h <? k)); [now apply (Hstep k)|].
    destruct (Z.eqb_spec h k) as [->|]; [|discriminate].
    destruct (decide (v - 1 = k)) as [Heq|Hne].
    + exists 0%nat. split; [lia|]. simpl. now rewrite Heq.
    + apply (Hstep (k + 1)); [exact Hc|lia].
Qed.

(** The labels below [k] stand for themselves. *)
Definition id_map (m : gmap Z Z) (k : Z) : Prop :=
  forall c, m !! c = if (0 <=? c) && (c <? k) then Some c else None.

Lemma canon_fixed (ids : list Z) (k k' : Z) (m : gmap Z Z) :
  canon_from k ids = Some k' ->
  0 <= k -> k + Z.of_nat (length ids) < modulus -> id_map m k ->
  exists m', renumber_from m k ids = (ids, m', k') /\ id_map m' k'.
Proof.
  revert k m. induction ids as [|h rest IH]; intros k m Hc Hk Hlen Hid.
  - simpl in Hc. injection Hc as <-. exists m. split; [reflexivity|exact Hid].
  - simpl in Hc, Hlen. simpl. destruct (h =? UNASSIGNED) eqn:Hh.
    + destruct (IH k m Hc Hk ltac:(lia) Hid) as (m' & Hrun & Hid').
      rewrite Hrun. now exists m'.
    + rewrite (Hid h). destruct ((0 <=? h) && (h <? k)) eqn:Hin.
      * destruct (IH k m Hc Hk ltac:(lia) Hid) as (m' & Hrun & Hid').
        rewrite Hrun. now exists m'.
      * destruct (Z.eqb_spec h k) as [->|]; [|discriminate].
        rewrite wrap_small by lia.
        destruct (IH (k + 1) (<[k := k]> m) Hc ltac:(lia) ltac:(lia))
          as (m' & Hrun & Hid').
        { intros c. destruct (decide (c = k)) as [->|Hne].
          - rewrite lookup_insert_eq.
            destruct (Z.leb_spec 0 k), (Z.ltb_spec k (k + 1)); simpl;
              try lia; reflexivity.
          - rewrite lookup_insert_ne by congruence. rewrite (Hid c).
            destruct (Z.leb_spec 0 c), (Z.ltb_spec c k),
              (Z.ltb_spec c (k + 1)); simpl; try lia; reflexivity. }
        rewrite Hrun. now exists m'.
Qed.

Lemma renumber_run (assertions : bool) (ids : list Z) :
  Z.of_nat (length ids) < modulus ->
  asserted assertions ids = true ->
  exists ids' m' k',
    renumber_from ∅ 0 ids = (ids', m', k') /\
    RenumberClustersContiguously assertions ids = Ok (ids', k') /\
    0 <= k' <= Z.of_nat (length ids) /\
    labels_ok m' k' /\
    length ids' = length ids /\
    (forall i c, ids !! i = Some c ->
       ids' !! i = Some (if c =? UNASSIGNED then UNASSIGNED
                         else default UNASSIGNED (m' !! c)) /\
       (c <> UNASSIGNED -> is_Some (m' !! c))) /\
    (forall c, is_Some (m' !! c) -> c ∈ ids /\ c <> UNASSIGNED) /\
    canon_from 0 ids' = Some k'.
Proof.
  intros Hlen Hasserted.
  destruct (renumber_from ∅ 0 ids) as [[ids' m'] k'] eqn:Hrun.
  exists ids', m', k'. split; [reflexivity|].
  split; [rewrite renumber_is_from, Hasserted, Hrun; reflexivity|].
  pose proof (renumber_from_bound ids ∅ 0 ltac:(lia) ltac:(lia)) as Hb.
  rewrite Hrun in Hb. simpl in Hb. split; [lia|].
  destruct (renumber_from_spec ids ∅ 0 labels_ok_empty ltac:(lia) ids' m' k' Hrun)
    as (Hok & _ & Hl & Hat & Hdom & Hcanon).
  split; [exact Hok|]. split; [exact Hl|]. split; [exact Hat|].
  split; [|exact Hcanon].
  intros c Hc. destruct (Hdom c Hc) as [H|H]; [|exact H].
  rewrite lookup_empty in H. now destruct H.
Qed.

(** RenumberClustersContiguously keeps the clustering. In a build without
    assertions, and in one with them when every assigned id is below the
    number of nodes, it returns; the number of nodes is unchanged, a node
    is unassigned afterwards exactly if it was before, and two assigned
    nodes share a label afterwards exactly if they shared one before. *)
Theorem renumber_keeps_clustering (assertions : bool) (ids : list Z) :
  Z.of_nat (length ids) < modulus ->
  asserted assertions ids = true ->
  exists ids' k,
    RenumberClustersContiguously assertions ids = Ok (ids', k) /\
    length ids' = length ids /\
    (forall i c, ids !! i = Some c ->
       exists c', ids' !! i = Some c' /\
                  (c' = UNASSIGNED <-> c = UNASSIGNED)) /\
    (forall i j ci cj ci' cj',
       ids !! i = Some ci -> ids !! j = Some cj ->
       ids' !! i = Some ci' -> ids' !! j = Some cj' ->
       ci <> UNASSIGNED -> cj <> UNASSIGNED ->
       (ci' = cj' <-> ci = cj)).
Proof.
  intros Hlen Hasserted.
  destruct (renumber_run assertions ids Hlen Hasserted)
    as (l & m & k & _ & Hre & Hk & Hok & Hl & Hat & _ & _).
  exists l, k. split; [exact Hre|].
  assert (Hlab : forall c, c <> UNASSIGNED -> forall i, ids !! i = Some c ->
            exists v, m !! c = Some v /\ l !! i = Some v /\ 0 <= v < k).
  { intros c Hc i Hi. destruct (Hat i c Hi) as [Hv Hs].
    destruct (Hs Hc) as [v Hm]. exists v. split; [exact Hm|].
    destruct Hok as (_ & Hrange & _). split; [|exact (Hrange c v Hm)].
    rewrite Hv, Hm. now destruct (Z.eqb_spec c UNASSIGNED). }
  split; [exact Hl|]. split.
  - intros i c Hi. destruct (Z.eqb_spec c UNASSIGNED) as [Hc|Hc].
    + exists UNASSIGNED. destruct (Hat i c Hi) as [Hv _].
      rewrite Hv. destruct (Z.eqb_spec c UNASSIGNED); [|contradiction].
      split; [reflexivity|]. now split.
    + destruct (Hlab c Hc i Hi) as (v & _ & Hv & Hr). exists v.
      split; [exact Hv|]. unfold UNASSIGNED in *. split; intros; lia.
  - intros i j ci cj ci' cj' Hi Hj Hi' Hj' Hci Hcj.
    destruct (Hlab ci Hci i Hi) as (vi & Hmi & Hli & _).
    destruct (Hlab cj Hcj j Hj) as (vj & Hmj & Hlj & _).
    rewrite Hli in Hi'. rewrite Hlj in Hj'.
    injection Hi' as <-. injection Hj' as <-.
    destruct Hok as (_ & _ & Hinj & _). split.
    + intros <-. exact (Hinj ci cj vi Hmi Hmj).
    + intros <-. congruence.
Qed.

(** Six nodes with ids below 6, one of them unassigned. *)
Definition sample_ids : list Z := [4; UNASSIGNED; 3; 4; 5; 3].

Lemma renumber_keeps_clustering_witness :
  exists ids' k,
    RenumberClustersContiguously true sample_ids = Ok (ids', k) /\
    length ids' = 6%nat.
Proof.
  destruct (renumber_keeps_clustering true sample_ids)
    as (ids' & k & Hrun & Hl & _).
  - unfold modulus. simpl. lia.
  - vm_compute. reflexivity.
  - exists ids', k. split; [exact Hrun|exact Hl].
Defined.

(** The labels RenumberClustersContiguously hands out are contiguous.
    Whenever no assertion fails, the returned count is the number of
    distinct assigned ids of the input, every assigned node gets a label
    below the count, every label below the count is used, and a label
    greater than 0 first appears after the label just below it. *)
Theorem renumber_labels_contiguous (assertions : bool) (ids : list Z) :
  Z.of_nat (length ids) < modulus ->
  asserted assertions ids = true ->
  exists ids' k,
    RenumberClustersContiguously assertions ids = Ok (ids', k) /\
    k = Z.of_nat (size (list_to_set (filter (fun c => c <> UNASSIGNED) ids)
                          : gset Z)) /\
    (forall i v, ids' !! i = Some v -> v <> UNASSIGNED -> 0 <= v < k) /\
    (forall v, 0 <= v < k -> exists i, ids' !! i = Some v) /\
    (forall i v, ids' !! i = Some v -> v <> UNASSIGNED -> 0 < v ->
       exists j, (j < i)%nat /\ ids' !! j = Some (v - 1)).
Proof.
  intros Hlen Hasserted.
  destruct (renumber_run assertions ids Hlen Hasserted)
    as (l & m & k0 & _ & Hre & Hk & Hok & Hl & Hat & Hdom & Hcanon).
  exists l, k0. split; [exact Hre|].
  split; [|split; [|split]].
  - destruct Hok as (<- & _). f_equal. rewrite <- size_dom. f_equal.
    apply set_eq. intros c.
    rewrite elem_of_dom, elem_of_list_to_set, list_elem_of_filter. split.
    + intros Hc. destruct (Hdom c Hc). now split.
    + intros [Hc Hin]. apply list_elem_of_lookup in Hin as [i Hi].
      now apply (Hat i c Hi).
  - intros i v Hv Hne.
    assert (Hi : (i < length ids)%nat)
      by (rewrite <- Hl; now apply lookup_lt_Some in Hv).
    destruct (lookup_lt_is_Some_2 ids i Hi) as [c Hc].
    destruct (Hat i c Hc) as [Hv' Hs]. rewrite Hv' in Hv.
    destruct (Z.eqb_spec c UNASSIGNED) as [?|Hcu]; [congruence|].
    destruct (Hs Hcu) as [w Hw]. rewrite Hw in Hv. simpl in Hv.
    injection Hv as <-. destruct Hok as (_ & Hrange & _).
    exact (Hrange c w Hw).
  - intros v Hv. destruct Hok as (_ & _ & _ & Hsurj).
    destruct (Hsurj v Hv) as [c Hc].
    destruct (Hdom c (ex_intro _ v Hc)) as [Hin Hcu].
    apply list_elem_of_lookup in Hin as [i Hi]. exists i.
    destruct (Hat i c Hi) as [Hv' _]. rewrite Hv', Hc.
    now destruct (Z.eqb_spec c UNASSIGNED).
  - intros i v Hv Hne Hpos.
    apply (canon_first_use l 0 k0 Hcanon i v Hv Hne). lia.
Qed.

Lemma renumber_labels_contiguous_witness :
  RenumberClustersContiguously true sample_ids
  = Ok ([0; UNASSIGNED; 1; 0; 2; 1], 3) /\
  exists ids' k,
    RenumberClustersContiguously true sample_ids = Ok (ids', k) /\
    k = Z.of_nat (size (list_to_set
          (filter (fun c => c <> UNASSIGNED) sample_ids) : gset Z)).
Proof.
  split; [vm_compute; reflexivity|].
  destruct (renumber_labels_contiguous true sample_ids)
    as (ids' & k & Hrun & Hk & _).
  - unfold modulus. simpl. lia.
  - vm_compute. reflexivity.
  - exists ids', k. split; [exact Hrun|exact Hk].
Defined.

(** The labels of a run pass the assertion of the next run. *)
Lemma renumber_output_asserted (assertions : bool) (ids l : list Z)
    (m : gmap Z Z) (k : Z) :
  0 <= k <= Z.of_nat (length ids) -> labels_ok m k ->
  length l = length ids ->
  (forall i c, ids !! i = Some c ->
     l !! i = Some (if c =? UNASSIGNED then UNASSIGNED
                    else default UNASSIGNED (m !! c)) /\
     (c <> UNASSIGNED -> is_Some (m !! c))) ->
  asserted assertions l = true.
Proof.
  intros Hk Hok Hl Hat. unfold asserted.
  apply orb_true_iff. right. apply forallb_forall. intros v Hv.
  apply list_elem_of_In, list_elem_of_lookup in Hv as [i Hi].
  assert (Hlt : (i < length ids)%nat)
    by (rewrite <- Hl; now apply lookup_lt_Some in Hi).
  destruct (lookup_lt_is_Some_2 ids i Hlt) as [c Hc].
  destruct (Hat i c Hc) as [Hv' Hs]. rewrite Hv' in Hi.
  unfold id_in_graph. apply orb_true_iff.
  destruct (Z.eqb_spec c UNASSIGNED) as [?|Hcu].
  - injection Hi as <-. left. apply Z.eqb_refl.
  - destruct (Hs Hcu) as [w Hw]. rewrite Hw in Hi. simpl in Hi.
    injection Hi as <-. right. apply Z.ltb_lt.
    destruct Hok as (_ & Hrange & _). specialize (Hrange c w Hw). lia.
Qed.

(** RenumberClustersContiguously is idempotent: whenever no assertion
    fails in the first run, none fails in a second run on its output,
    which changes no label and returns the same count. *)
Theorem renumber_idempotent (assertions : bool) (ids : list Z) :
  Z.of_nat (length ids) < modulus ->
  asserted assertions ids = true ->
  exists ids' k,
    RenumberClustersContiguously assertions ids = Ok (ids', k) /\
    RenumberClustersContiguously assertions ids' = Ok (ids', k).
Proof.
  intros Hlen Hasserted.
  destruct (renumber_run assertions ids Hlen Hasserted)
    as (l & m & k & _ & Hre & Hk & Hok & Hl & Hat & _ & Hcanon).
  exists l, k. split; [exact Hre|].
  destruct (canon_fixed l 0 k ∅ Hcanon ltac:(lia) ltac:(lia))
    as (m' & Hrun & _).
  { intros c. rewrite lookup_empty.
    destruct (Z.leb_spec 0 c), (Z.ltb_spec c 0); simpl; try lia; reflexivity. }
  rewrite renumber_is_from, Hrun.
  now rewrite (renumber_output_asserted assertions ids l m k Hk Hok Hl Hat).
Qed.

Lemma renumber_idempotent_witness :
  exists ids' k,
    RenumberClustersContiguously true sample_ids = Ok (ids', k) /\
    RenumberClustersContiguously true ids' = Ok (ids', k).
Proof.
  apply (renumber_idempotent true sample_ids).
  - unfold modulus. simpl. lia.
  - vm_compute. reflexivity.
Defined.

(** In a build with assertions RenumberClustersContiguously aborts exactly
    when some node carries an assigned id that is not below the number of
    nodes; without assertions it never aborts. *)
Theorem renumber_aborts_on_stray_id (assertions : bool) (ids : list Z) :
  RenumberClustersContiguously assertions ids = Aborted <->
  assertions = true /\
  exists i c, ids !! i = Some c /\ c <> UNASSIGNED /\
              Z.of_nat (length ids) <= c.
Proof.
  rewrite renumber_is_from. unfold asserted.
  destruct assertions; cbn [negb orb].
  - destruct (forallb (id_in_graph (length ids)) ids) eqn:Hall.
    + split; [discriminate|]. intros (_ & i & c & Hi & Hc & Hge).
      rewrite forallb_forall in Hall.
      specialize (Hall c (proj1 (list_elem_of_In _ _)
                                (list_elem_of_lookup_2 _ _ _ Hi))).
      unfold id_in_graph in Hall. apply orb_true_iff in Hall as [H|H].
      * apply Z.eqb_eq in H. contradiction.
      * apply Z.ltb_lt in H. lia.
    + split; [|reflexivity]. intros _. split; [reflexivity|].
      assert (Hex : Exists (fun c => id_in_graph (length ids) c = false) ids).
      { apply Exists_exists.
        destruct (existsb (fun c => negb (id_in_graph (length ids) c)) ids)
          eqn:Hex.
        - apply existsb_exists in Hex as (c & Hin & Hc).
          exists c. split; [now apply list_elem_of_In|].
          now apply negb_true_iff.
        - exfalso. assert (Hall' : forallb (id_in_graph (length ids)) ids
                                   = true).
          { apply forallb_forall. intros c Hin.
            destruct (id_in_graph (length ids) c) eqn:Hc; [reflexivity|].
            assert (Hx : existsb (fun c => negb (id_in_graph (length ids) c))
                                 ids = true).
            { apply existsb_exists. exists c. split; [exact Hin|].
              now rewrite Hc. }
            congruence. }
          congruence. }
      apply Exists_exists in Hex as (c & Hin & Hc).
      apply list_elem_of_lookup in Hin as [i Hi]. exists i, c.
      split; [exact Hi|]. unfold id_in_graph in Hc.
      apply orb_false_iff in Hc as [H1 H2].
      apply Z.eqb_neq in H1. apply Z.ltb_ge in H2. split; [exact H1|exact H2].
  - split; [discriminate|]. intros [H _]. discriminate.
Qed.

Lemma renumber_aborts_on_stray_id_witness :
  RenumberClustersContiguously true [7; UNASSIGNED; 3; 7; 9; 3] = Aborted /\
  RenumberClustersContiguously false [7; UNASSIGNED; 3; 7; 9; 3] <> Aborted.
Proof.
  split.
  - apply renumber_aborts_on_stray_id. split; [reflexivity|].
    exists 0%nat, 7. split; [reflexivity|].
    split; [unfold UNASSIGNED, modulus; lia|simpl; lia].
  - intros H. apply renumber_aborts_on_stray_id in H as [H _].
    discriminate H.
Defined.

End Clustering.

(** ** ParallelSTL.h: what dual_partition guarantees *)

Module DualPartition.
Import SizeT Partition.
Local Open Scope Z_scope.

Section Facts.
Context {A : Type}.
Variable pred : A -> bool.

(** The element at iterator [i] exists and the predicate gives [b] on it. *)
Definition holds (arr : list A) (i : Z) (b : bool) : Prop :=
  exists a, arr !! Z.to_nat i = Some a /\ pred a = b.

Lemma deref_ok (arr : list A) (i : Z) :
  0 <= i < Z.of_nat (length arr) ->
  exists a, deref arr i = Ok a /\ arr !! Z.to_nat i = Some a.
Proof.
  intros Hi. unfold deref. destruct (Z.ltb_spec i 0); [lia|].
  destruct (lookup_lt_is_Some_2 arr (Z.to_nat i) ltac:(lia)) as [a Ha].
  rewrite Ha. now exists a.
Qed.

Lemma delete_insert_same (l : list A) (i : nat) (y : A) :
  delete i (<[i := y]> l) = delete i l.
Proof.
  revert i. induction l as [|x l IH]; intros [|i]; simpl; auto.
  f_equal. apply IH.
Qed.

Lemma swap_perm (l : list A) (i j : nat) (a b : A) :
  i <> j -> l !! i = Some a -> l !! j = Some b ->
  <[j := a]> (<[i := b]> l) ≡ₚ l.
Proof.
  intros Hij Hi Hj.
  assert (Hli : (i < length l)%nat) by now apply lookup_lt_Some in Hi.
  assert (Hlj : (j < length l)%nat) by now apply lookup_lt_Some in Hj.
  set (l1 := <[i := b]> l).
  assert (H1 : l1 !! j = Some b)
    by (unfold l1; now rewrite list_lookup_insert_ne).
  assert (H2 : <[j := a]> l1 !! j = Some a)
    by (apply list_lookup_insert_eq; unfold l1; now rewrite length_insert).
  rewrite (delete_Permutation _ j a H2), delete_insert_same.
  assert (H3 : l1 !! i = Some b) by (unfold l1; now apply list_lookup_insert_eq).
  pose proof (delete_Permutation l1 j b H1) as P1.
  pose proof (delete_Permutation l1 i b H3) as P2.
  unfold l1 in P2 at 2. rewrite delete_insert_same in P2.
  rewrite (delete_Permutation l i a Hi).
  apply Permutation_cons; [reflexivity|].
  apply (Permutation_cons_inv (a := b)).
  now rewrite <- P1, <- P2.
Qed.

Lemma swap_at_ok (arr : list A) (i j : Z) :
  0 <= i < Z.of_nat (length arr) -> 0 <= j < Z.of_nat (length arr) -> i <> j ->
  exists arr' a b,
    swap_at arr i j = Ok arr' /\
    arr !! Z.to_nat i = Some a /\ arr !! Z.to_nat j = Some b /\
    arr' !! Z.to_nat i = Some b /\ arr' !! Z.to_nat j = Some a /\
    (forall k, k <> Z.to_nat i -> k <> Z.to_nat j -> arr' !! k = arr !! k) /\
    arr' ≡ₚ arr /\ length arr' = length arr.
Proof.
  intros Hi Hj Hij. unfold swap_at.
  destruct (deref_ok arr i Hi) as (a & Ha & Hla).
  destruct (deref_ok arr j Hj) as (b & Hb & Hlb).
  rewrite Ha, Hb. simpl.
  exists (<[Z.to_nat j := a]> (<[Z.to_nat i := b]> arr)), a, b.
  assert (Hne : Z.to_nat i <> Z.to_nat j) by lia.
  split; [reflexivity|]. split; [exact Hla|]. split; [exact Hlb|].
  split; [|split; [|split; [|split]]].
  - rewrite list_lookup_insert_ne by congruence.
    apply list_lookup_insert_eq. lia.
  - apply list_lookup_insert_eq. rewrite length_insert. lia.
  - intros k Hk1 Hk2. now rewrite !list_lookup_insert_ne by congruence.
  - now apply swap_perm.
  - now rewrite !length_insert.
Qed.

Lemma scan_up_spec (fuel : nat) (arr : list A) (f l : Z) :
  0 <= f <= l -> l <= Z.of_nat (length arr) -> l - f < Z.of_nat fuel ->
  exists f', scan_up pred fuel arr f l = Ok f' /\ f <= f' <= l /\
    (forall i, f <= i < f' -> holds arr i true) /\
    (f' < l -> holds arr f' false).
Proof.
  revert f. induction fuel as [|fuel IH]; intros f Hf Hl Hfuel; [lia|].
  simpl. destruct (Z.eqb_spec f l) as [->|Hne].
  - exists l. split; [reflexivity|]. split; [lia|]. split; intros; lia.
  - destruct (deref_ok arr f ltac:(lia)) as (a & Ha & Hla). rewrite Ha. simpl.
    destruct (pred a) eqn:Hp.
    + destruct (IH (f + 1) ltac:(lia) Hl ltac:(lia)) as (f' & Hrun & Hb & Ht & Hs).
      exists f'. split; [exact Hrun|]. split; [lia|]. split; [|exact Hs].
      intros i Hi. destruct (decide (i = f)) as [->|]; [now exists a|].
      apply Ht. lia.
    + exists f. split; [reflexivity|]. split; [lia|].
      split; [intros; lia|]. intros _. now exists a.
Qed.

Lemma scan_down_spec (fuel : nat) (arr : list A) (f3 l3 : Z) :
  0 <= l3 <= f3 -> f3 <= Z.of_nat (length arr) -> f3 - l3 < Z.of_nat fuel ->
  exists f', scan_down pred fuel arr f3 l3 = Ok f' /\ l3 <= f' <= f3 /\
    (forall i, f' <= i < f3 -> holds arr i false) /\
    (l3 < f' -> holds arr (f' - 1) true).
Proof.
  revert f3. induction fuel as [|fuel IH]; intros f3 Hf Hl Hfuel; [lia|].
  simpl. destruct (Z.eqb_spec f3 l3) as [->|Hne].
  - exists l3. split; [reflexivity|]. split; [lia|]. split; intros; lia.
  - destruct (deref_ok arr (f3 - 1) ltac:(lia)) as (a & Ha & Hla).
    rewrite Ha. simpl. destruct (pred a) eqn:Hp; simpl.
    + exists f3. split; [reflexivity|]. split; [lia|].
      split; [intros; lia|]. intros _. now exists a.
    + destruct (IH (f3 - 1) ltac:(lia) ltac:(lia) ltac:(lia))
        as (f' & Hrun & Hb & Ht & Hs).
      exists f'. split; [exact Hrun|]. split; [lia|]. split; [|exact Hs].
      intros i Hi. destruct (decide (i = f3 - 1)) as [->|]; [now exists a|].
      apply Ht. lia.
Qed.
Lemma holds_same (arr arr' : list A) (i : Z) (b : bool) :
  arr' !! Z.to_nat i = arr !! Z.to_nat i -> holds arr i b -> holds arr' i b.
Proof. intros H (a & Ha & Hp). exists a. now rewrite H. Qed.

Lemma dual_partition_loop_S (fuel : nat) (arr : list A)
    (first1 last1 first3 last3 : Z) :
  dual_partition_loop pred (S fuel) arr first1 last1 first3 last3 =
  match scan_up pred (S (length arr)) arr first1 last1 with
  | Ok first1 =>
      if first1 =? last1 then Ok (arr, (first1, first3))
      else
        match scan_down pred (S (length arr)) arr first3 last3 with
        | Ok first3 =>
            if first3 =? last3 then Ok (arr, (first1, first3))
            else
              match swap_at arr first1 (first3 - 1) with
              | Ok arr =>
                  dual_partition_loop pred fuel arr (first1 + 1) last1
                                      (first3 - 1) last3
              | Undefined => Undefined
              | OutOfFuel => OutOfFuel
              end
        | Undefined => Undefined
        | OutOfFuel => OutOfFuel
        end
  | Undefined => Undefined
  | OutOfFuel => OutOfFuel
  end.
Proof. reflexivity. Qed.

Lemma dual_partition_loop_spec (last1 first2 : Z) (fuel : nat)
    (arr : list A) (f1 hi : Z) :
  0 <= f1 <= last1 -> last1 <= first2 -> first2 <= hi ->
  hi <= Z.of_nat (length arr) -> last1 - f1 < Z.of_nat fuel ->
  exists arr' f1' hi',
    dual_partition_loop pred fuel arr f1 last1 hi first2 = Ok (arr', (f1', hi')) /\
    (f1 <= f1' <= last1 /\ first2 <= hi' <= hi) /\
    (f1' = last1 \/ hi' = first2) /\
    (arr' ≡ₚ arr /\ length arr' = length arr) /\
    (forall i, f1 <= i < f1' -> holds arr' i true) /\
    (forall i, hi' <= i < hi -> holds arr' i false) /\
    (forall i, 0 <= i -> ~ (f1 <= i < f1') -> ~ (hi' <= i < hi) ->
       arr' !! Z.to_nat i = arr !! Z.to_nat i) /\
    (f1' < last1 -> holds arr' f1' false).
Proof.
  revert arr f1 hi. induction fuel as [|fuel IH];
    intros arr f1 hi Hf1 H12 Hhi Hlen Hfuel; [lia|].
  rewrite dual_partition_loop_S.
  destruct (scan_up_spec (S (length arr)) arr f1 last1
              ltac:(lia) ltac:(lia) ltac:(lia))
    as (f1a & Hup & Hf1a & Hlow & Hstop).
  rewrite Hup. destruct (Z.eqb_spec f1a last1) as [Heq|Hne].
  { exists arr, f1a, hi. split; [reflexivity|]. split; [lia|].
    split; [now left|]. split; [split; reflexivity|]. split; [exact Hlow|].
    split; [intros; lia|]. split; [reflexivity|]. intros; lia. }
  destruct (scan_down_spec (S (length arr)) arr hi first2
              ltac:(lia) ltac:(lia) ltac:(lia))
    as (hia & Hdown & Hhia & Hhigh & Hstop').
  rewrite Hdown. destruct (Z.eqb_spec hia first2) as [Heq'|Hne'].
  { exists arr, f1a, hia. split; [reflexivity|]. split; [lia|].
    split; [now right|]. split; [split; reflexivity|]. split; [exact Hlow|].
    split; [exact Hhigh|]. split; [reflexivity|]. intros. apply Hstop. lia. }
  destruct (swap_at_ok arr f1a (hia - 1) ltac:(lia) ltac:(lia) ltac:(lia))
    as (arr1 & a & b & Hswap & Ha & Hb & Ha1 & Hb1 & Hframe1 & Hperm1 & Hlen1).
  rewrite Hswap.
  destruct (IH arr1 (f1a + 1) (hia - 1) ltac:(lia) H12 ltac:(lia) ltac:(lia)
               ltac:(lia))
    as (arr2 & f1b & hib & Hrun & Hb2 & Hend & [Hperm2 Hlen2] & Hlow2 & Hhigh2
        & Hframe2 & Hstop2).
  exists arr2, f1b, hib. split; [exact Hrun|]. split; [lia|].
  split; [exact Hend|].
  split; [split; [now rewrite Hperm2|lia]|].
  assert (Hout : forall i, 0 <= i -> i <> f1a -> i <> hia - 1 ->
                   ~ (f1a + 1 <= i < f1b) -> ~ (hib <= i < hia - 1) ->
                   arr2 !! Z.to_nat i = arr !! Z.to_nat i).
  { intros i Hi0 Hn1 Hn2 Hn3 Hn4. rewrite (Hframe2 i Hi0 Hn3 Hn4).
    apply Hframe1; lia. }
  assert (Hpa : holds arr f1a false) by (apply Hstop; lia).
  assert (Hpb : holds arr (hia - 1) true) by (apply Hstop'; lia).
  split; [|split; [|split]].
  - intros i Hi. destruct (decide (i < f1a)) as [Hlt|Hge].
    + apply (holds_same arr); [apply Hout; lia|]. apply Hlow. lia.
    + destruct (decide (i = f1a)) as [->|Hne2]; [|apply Hlow2; lia].
      destruct Hpb as (x & Hx & Hpx). exists x. split; [|exact Hpx].
      rewrite (Hframe2 f1a) by lia. rewrite Ha1. congruence.
  - intros i Hi. destruct (decide (hia <= i)) as [Hge|Hlt].
    + apply (holds_same arr); [apply Hout; lia|]. apply Hhigh. lia.
    + destruct (decide (i = hia - 1)) as [->|Hne2]; [|apply Hhigh2; lia].
      destruct Hpa as (x & Hx & Hpx). exists x. split; [|exact Hpx].
      rewrite (Hframe2 (hia - 1)) by lia. rewrite Hb1. congruence.
  - intros i Hi0 Hn1 Hn2. apply Hout; lia.
  - exact Hstop2.
Qed.

(** dual_partition on a low range and a high range above it, both inside
    the array: it returns; the array is permuted and only positions it
    walked over changed; everything from first1 to the returned low
    iterator satisfies the predicate, everything from the returned high
    iterator to last2 does not; one of the two ranges is used up; and a low
    iterator that stopped early points at an element that fails the
    predicate. *)
Theorem dual_partition_spec (arr : list A) (first1 last1 first2 last2 : Z) :
  0 <= first1 <= last1 -> last1 <= first2 -> first2 <= last2 ->
  last2 <= Z.of_nat (length arr) ->
  exists arr' lo hi,
    dual_partition pred arr first1 last1 first2 last2 = Ok (arr', (lo, hi)) /\
    (first1 <= lo <= last1 /\ first2 <= hi <= last2) /\
    (lo = last1 \/ hi = first2) /\
    (arr' ≡ₚ arr /\ length arr' = length arr) /\
    (forall i, first1 <= i < lo -> holds arr' i true) /\
    (forall i, hi <= i < last2 -> holds arr' i false) /\
    (forall i, 0 <= i -> ~ (first1 <= i < lo) -> ~ (hi <= i < last2) ->
       arr' !! Z.to_nat i = arr !! Z.to_nat i) /\
    (lo < last1 -> holds arr' lo false).
Proof.
  intros H1 H12 H2 Hlen. unfold dual_partition.
  apply dual_partition_loop_spec; lia.
Qed.
End Facts.

Lemma dual_partition_spec_witness :
  exists arr' lo hi,
    dual_partition id_pred [false; true; false; true; true; false; true; true]
                   0 4 4 8
    = Ok (arr', (lo, hi)) /\ (lo = 4 \/ hi = 4).
Proof.
  destruct (dual_partition_spec id_pred
              [false; true; false; true; true; false; true; true] 0 4 4 8)
    as (arr' & lo & hi & Hrun & _ & Hend & _); simpl; try lia.
  exists arr', lo, hi. split; assumption.
Defined.

Example dual_partition_runs :
  dual_partition id_pred [false; true; false; true; true; false; true; true]
                 0 4 4 8
  = Ok ([true; true; true; true; true; false; false; false], (4, 6)).
Proof. vm_compute. reflexivity. Qed.

End DualPartition.

(** ** ParallelSTL.h: partition run by a single worker *)

Module PartitionSingle.
Import SizeT Partition DualPartition.
Local Open Scope Z_scope.

Section Facts.
Context {A : Type}.
Variable pred : A -> bool.

Lemma filter_both_length (l : list A) :
  (length (List.filter pred l)
   + length (List.filter (fun a => negb (pred a)) l))%nat = length l.
Proof.
  induction l as [|x l IH]; simpl; [reflexivity|].
  destruct (pred x); simpl; lia.
Qed.

Lemma filter_both_perm (l : list A) :
  List.filter pred l ++ List.filter (fun a => negb (pred a)) l ≡ₚ l.
Proof.
  induction l as [|x l IH]; simpl; [reflexivity|].
  destruct (pred x); simpl.
  - now rewrite IH.
  - rewrite <- Permutation_middle. now rewrite IH.
Qed.

Lemma filter_lookup_pred (f : A -> bool) (l : list A) (i : nat) (a : A) :
  List.filter f l !! i = Some a -> f a = true.
Proof.
  intros H. assert (Hin : In a (List.filter f l)).
  { apply list_elem_of_In. apply list_elem_of_lookup. eauto. }
  now apply List.filter_In in Hin.
Qed.

Lemma std_partition_spec (arr : list A) (lo hi : Z) :
  0 <= lo <= hi -> hi <= Z.of_nat (length arr) ->
  exists arr' m,
    std_partition pred arr lo hi = Ok (arr', m) /\
    lo <= m <= hi /\
    (arr' ≡ₚ arr /\ length arr' = length arr) /\
    (forall i, lo <= i < m -> holds pred arr' i true) /\
    (forall i, m <= i < hi -> holds pred arr' i false) /\
    (forall i, 0 <= i -> ~ (lo <= i < hi) ->
       arr' !! Z.to_nat i = arr !! Z.to_nat i).
Proof.
  intros Hlo Hhi. unfold std_partition.
  destruct (Z.leb_spec 0 lo); [|lia].
  destruct (Z.leb_spec lo hi); [|lia].
  destruct (Z.leb_spec hi (Z.of_nat (length arr))); [|lia]. simpl.
  set (n := Z.to_nat lo). set (len := Z.to_nat (hi - lo)).
  set (mid := take len (drop n arr)).
  set (yes := List.filter pred mid).
  set (no := List.filter (fun a => negb (pred a)) mid).
  assert (Hmid : length mid = len)
    by (unfold mid; rewrite length_take, length_drop; lia).
  assert (Hyn : (length yes + length no)%nat = len)
    by (rewrite <- Hmid; apply filter_both_length).
  assert (Hsplit : arr = take n arr ++ mid ++ drop (n + len) arr).
  { unfold mid. rewrite <- (take_drop n arr) at 1. f_equal.
    rewrite <- (take_drop len (drop n arr)) at 1. f_equal.
    now rewrite drop_drop. }
  assert (Htake : length (take n arr) = n) by (rewrite length_take; lia).
  eexists _, _. split; [reflexivity|].
  split; [lia|]. split; [split|].
  - transitivity (take n arr ++ mid ++ drop (n + len) arr);
      [|now rewrite <- Hsplit].
    apply Permutation_app_head.
    rewrite app_assoc. apply Permutation_app_tail. apply filter_both_perm.
  - rewrite !length_app, Htake, length_drop. lia.
  - split; [|split].
    + intros i Hi.
      assert (Hl : (take n arr ++ yes ++ no ++ drop (n + len) arr)
                     !! Z.to_nat i = yes !! (Z.to_nat i - n)%nat).
      { rewrite lookup_app_r by lia. rewrite Htake.
        apply lookup_app_l. lia. }
      destruct (lookup_lt_is_Some_2 yes (Z.to_nat i - n)%nat ltac:(lia))
        as [a Ha].
      exists a. split; [now rewrite Hl|].
      exact (filter_lookup_pred pred mid _ a Ha).
    + intros i Hi.
      assert (Hl : (take n arr ++ yes ++ no ++ drop (n + len) arr)
                     !! Z.to_nat i = no !! (Z.to_nat i - n - length yes)%nat).
      { rewrite lookup_app_r by lia. rewrite Htake.
        rewrite lookup_app_r by lia. apply lookup_app_l. lia. }
      destruct (lookup_lt_is_Some_2 no (Z.to_nat i - n - length yes)%nat
                  ltac:(lia)) as [a Ha].
      exists a. split; [now rewrite Hl|].
      pose proof (filter_lookup_pred (fun a => negb (pred a)) mid _ a Ha) as Hp.
      now apply negb_true_iff in Hp.
    + intros i Hi0 Hout. destruct (decide (i < lo)) as [Hlt|Hge].
      * rewrite lookup_app_l by lia. apply lookup_take_lt. lia.
      * rewrite lookup_app_r by lia. rewrite Htake.
        rewrite lookup_app_r by lia. rewrite lookup_app_r by lia.
        rewrite lookup_drop. f_equal. lia.
Qed.
End Facts.

(** The part of one pass that follows the call of dual_partition. *)
Definition pass_tail {A : Type} (s : partition_helper_state) (arr : list A)
    (lo hi : Z * Z) : result (partition_helper_state * list A * worker) :=
  let '(lo, s) := if lo.1 =? lo.2 then run takeLow s else (lo, s) in
  let '(hi, s) := if hi.1 =? hi.2 then run takeHigh s else (hi, s) in
  if negb (lo.1 =? lo.2) && negb (hi.1 =? hi.2)
  then Ok (s, arr, mkWorker lo hi false)
  else Ok ((run (update lo hi) s).2, arr, mkWorker lo hi true).

Lemma helper_pass_eq {A : Type} (pred : A -> bool)
    (s : partition_helper_state) (arr : list A) (w : worker) :
  helper_pass pred s arr w =
  match dual_partition pred arr (low w).1 (low w).2 (high w).1 (high w).2 with
  | Ok (arr', parts) =>
      pass_tail s arr' (parts.1, (low w).2) ((high w).1, parts.2)
  | Undefined => Undefined
  | OutOfFuel => OutOfFuel
  end.
Proof.
  unfold helper_pass, pass_tail.
  destruct (dual_partition pred arr (low w).1 (low w).2 (high w).1 (high w).2)
    as [[arr' parts]| |]; reflexivity.
Qed.

Lemma update_run_fields (lo hi : Z * Z) (s : partition_helper_state) :
  let s' := (run (update lo hi) s).2 in
  first s' = first s /\ last s' = last s /\
  rfirst s' =
    (let r := if negb (lo.1 =? lo.2) then Z.min (rfirst s) lo.1 else rfirst s in
     if negb (hi.1 =? hi.2) then Z.min r hi.1 else r) /\
  rlast s' =
    (let r := if negb (lo.1 =? lo.2) then Z.max (rlast s) lo.2 else rlast s in
     if negb (hi.1 =? hi.2) then Z.max r hi.2 else r).
Proof.
  unfold run, update, widen, mbind, mret, Act_bind, Act_ret, bind, lock,
    unlock, read, write, ret.
  destruct (negb (lo.1 =? lo.2)), (negb (hi.1 =? hi.2)); simpl; auto.
Qed.

Section Single.
Context {A : Type}.
Variable pred : A -> bool.
Variable arr0 : list A.
Variables f l : Z.
Hypothesis Hf : 0 <= f.
Hypothesis Hl : l <= Z.of_nat (length arr0).

(** The array is the original one rearranged inside the range. *)
Definition arr_ok (arr : list A) : Prop :=
  arr ≡ₚ arr0 /\ length arr = length arr0 /\
  forall i, 0 <= i -> ~ (f <= i < l) ->
            arr !! Z.to_nat i = arr0 !! Z.to_nat i.

(** Between two passes of the only worker: everything handed out below
    its low block satisfies the predicate, everything handed out above its
    high block does not. *)
Definition inv (s : partition_helper_state) (arr : list A) (w : worker)
  : Prop :=
  finished w = false /\
  (f <= first s /\ first s <= last s /\ last s <= l) /\
  (rfirst s = l /\ rlast s = f) /\
  arr_ok arr /\
  (((low w).1 < (low w).2 /\ (high w).1 < (high w).2 /\
    f <= (low w).1 /\ (low w).2 = first s /\ (low w).2 - (low w).1 <= 1024 /\
    (high w).1 = last s /\ (high w).2 <= l /\
    (high w).2 - (high w).1 <= 1024)
   \/ (low w = (0, 0) /\ high w = (0, 0))) /\
  (forall i, f <= i < first s -> ~ ((low w).1 <= i < (low w).2) ->
     holds pred arr i true) /\
  (forall i, last s <= i < l -> ~ ((high w).1 <= i < (high w).2) ->
     holds pred arr i false).

(** When the worker is done: nothing is left over, or what is left over
    lies between the satisfying and the failing elements. *)
Definition final (s : partition_helper_state) (arr : list A) : Prop :=
  arr_ok arr /\
  ((rfirst s = l /\ rlast s = f) \/
   (f <= rfirst s /\ rfirst s < rlast s /\ rlast s <= l /\
    rlast s - rfirst s <= 1024 /\
    (forall i, f <= i < rfirst s -> holds pred arr i true) /\
    (forall i, rlast s <= i < l -> holds pred arr i false))).

Lemma pass_tail_spec (s : partition_helper_state) (arr : list A)
    (lo b c hi : Z) :
  (f <= first s /\ first s <= last s /\ last s <= l) ->
  (rfirst s = l /\ rlast s = f) ->
  arr_ok arr ->
  lo <= b -> c <= hi -> (lo = b \/ hi = c) ->
  (lo < b -> f <= lo /\ b = first s /\ b - lo <= 1024) ->
  (c < hi -> c = last s /\ hi <= l /\ hi - c <= 1024) ->
  (forall i, f <= i < first s -> ~ (lo <= i < b) -> holds pred arr i true) ->
  (forall i, last s <= i < l -> ~ (c <= i < hi) -> holds pred arr i false) ->
  exists s' w',
    pass_tail s arr (lo, b) (c, hi) = Ok (s', arr, w') /\
    ((inv s' arr w' /\ last s' - first s' < last s - first s) \/
     (finished w' = true /\ final s' arr)).
Proof.
  intros Hs [Hrf Hrl] Harr Hlob Hchi Hend Hlow Hhigh HlowOK HhighOK.
  unfold pass_tail. simpl.
  set (s1 := if lo =? b then (run takeLow s).2 else s).
  set (lo2 := if lo =? b then (run takeLow s).1 else (lo, b)).
  assert (E1 : (if lo =? b then run takeLow s else ((lo, b), s)) = (lo2, s1))
    by (subst lo2 s1; destruct (lo =? b); [now destruct (run takeLow s)|reflexivity]).
  rewrite E1.
  set (s2 := if c =? hi then (run takeHigh s1).2 else s1).
  set (hi2 := if c =? hi then (run takeHigh s1).1 else (c, hi)).
  assert (E2 : (if c =? hi then run takeHigh s1 else ((c, hi), s1)) = (hi2, s2))
    by (subst hi2 s2; destruct (c =? hi); [now destruct (run takeHigh s1)|reflexivity]).
  rewrite E2.
  (* the state and the low block after the first take *)
  assert (F1 : (first s <= first s1 /\ first s1 <= last s1 /\ last s1 = last s)
               /\ (rfirst s1 = l /\ rlast s1 = f)
               /\ lo2.1 <= lo2.2
               /\ (lo2.1 < lo2.2 ->
                   f <= lo2.1 /\ lo2.2 = first s1 /\ lo2.2 - lo2.1 <= 1024)
               /\ (lo2.1 = lo2.2 -> first s1 = last s1 /\ lo = b /\ first s1 = first s)
               /\ (lo < b -> s1 = s /\ lo2 = (lo, b))
               /\ (lo = b -> lo2.1 = first s /\ lo2.2 = first s1)).
  { subst s1 lo2. destruct (Z.eqb_spec lo b) as [Heq|Hne].
    - rewrite (takeLow_run s ltac:(lia)). simpl. unfold BlockSize.
      repeat split; try lia.
    - simpl. repeat split; try lia; try (destruct (Hlow ltac:(lia)); lia). }
  destruct F1 as (Hs1 & [Hrf1 Hrl1] & Hlo2 & Hlo2ne & Hlo2e & Hlokeep & Hlonew).
  assert (F2 : (first s2 = first s1 /\ first s2 <= last s2 /\ last s2 <= last s1)
               /\ (rfirst s2 = l /\ rlast s2 = f)
               /\ hi2.1 <= hi2.2
               /\ (hi2.1 < hi2.2 ->
                   hi2.1 = last s2 /\ hi2.2 <= l /\ hi2.2 - hi2.1 <= 1024)
               /\ (hi2.1 = hi2.2 -> first s2 = last s2 /\ hi = c /\ last s2 = last s1)
               /\ (c < hi -> s2 = s1 /\ hi2 = (c, hi))
               /\ (hi = c -> hi2.1 = last s2 /\ hi2.2 = last s1)).
  { subst s2 hi2. destruct (Z.eqb_spec c hi) as [Heq|Hne].
    - rewrite (takeHigh_run s1 ltac:(lia)). simpl. unfold BlockSize.
      repeat split; try lia.
    - simpl. repeat split; try lia; try (destruct (Hhigh ltac:(lia)); lia). }
  destruct F2 as (Hs2 & [Hrf2 Hrl2] & Hhi2 & Hhi2ne & Hhi2e & Hhikeep & Hhinew).
  clearbody s1 lo2 s2 hi2. clear E1 E2.
  destruct lo2 as [a2 b2]. destruct hi2 as [c2 d2]. simpl in *.
  assert (HlowOK2 : forall i, f <= i < first s2 -> ~ (a2 <= i < b2) ->
                              holds pred arr i true).
  { intros i Hi Hn. apply HlowOK.
    - destruct (Z.lt_ge_cases lo b) as [Hlt|Hge].
      + destruct (Hlokeep Hlt) as [-> [= -> ->]]. lia.
      + destruct (Hlonew ltac:(lia)). lia.
    - destruct (Z.lt_ge_cases lo b) as [Hlt|Hge].
      + destruct (Hlokeep Hlt) as [-> [= -> ->]]. lia.
      + lia. }
  assert (HhighOK2 : forall i, last s2 <= i < l -> ~ (c2 <= i < d2) ->
                               holds pred arr i false).
  { intros i Hi Hn. apply HhighOK.
    - destruct (Z.lt_ge_cases c hi) as [Hlt|Hge].
      + destruct (Hhikeep Hlt) as [-> [= -> ->]]. lia.
      + destruct (Hhinew ltac:(lia)). lia.
    - destruct (Z.lt_ge_cases c hi) as [Hlt|Hge].
      + destruct (Hhikeep Hlt) as [-> [= -> ->]]. lia.
      + lia. }
  destruct (Z.eqb_spec a2 b2) as [Ha|Ha]; simpl.
  - (* low block empty *)
    eexists _, _. split; [reflexivity|]. right. split; [reflexivity|].
    destruct (update_run_fields (a2, b2) (c2, d2) s2) as (_ & _ & Hr1 & Hr2).
    simpl in Hr1, Hr2. destruct (Z.eqb_spec a2 b2) as [_|]; [|contradiction].
    simpl in Hr1, Hr2. destruct (Hlo2e Ha) as (He1 & He2 & He3).
    split; [exact Harr|]. destruct (Z.eqb_spec c2 d2) as [Hc|Hc]; simpl in *.
    + left. split; congruence.
    + right. destruct (Hhi2ne ltac:(lia)) as (Hh1 & Hh2 & Hh3).
      rewrite Hr1, Hr2, Hrf2, Hrl2.
      repeat split; try lia.
      * intros i Hi. apply HlowOK2; lia.
      * intros i Hi. apply HhighOK2; lia.
  - destruct (Z.eqb_spec c2 d2) as [Hc|Hc]; simpl.
    + (* high block empty *)
      eexists _, _. split; [reflexivity|]. right. split; [reflexivity|].
      destruct (update_run_fields (a2, b2) (c2, d2) s2) as (_ & _ & Hr1 & Hr2).
      simpl in Hr1, Hr2. destruct (Z.eqb_spec a2 b2) as [|_]; [contradiction|].
      destruct (Z.eqb_spec c2 d2) as [_|]; [|contradiction].
      simpl in Hr1, Hr2. destruct (Hhi2e Hc) as (He1 & He2 & He3).
      destruct (Hlo2ne ltac:(lia)) as (Hl1 & Hl2 & Hl3).
      split; [exact Harr|]. right.
      rewrite Hr1, Hr2, Hrf2, Hrl2.
      repeat split; try lia.
      * intros i Hi. apply HlowOK2; lia.
      * intros i Hi. apply HhighOK2; lia.
    + (* both blocks hold elements: the loop goes on *)
      eexists _, _. split; [reflexivity|]. left.
      destruct (Hlo2ne ltac:(lia)) as (Hl1 & Hl2 & Hl3).
      destruct (Hhi2ne ltac:(lia)) as (Hh1 & Hh2 & Hh3).
      split.
      * unfold inv. simpl. split; [reflexivity|]. split; [lia|].
        split; [split; assumption|]. split; [exact Harr|].
        split; [left; lia|]. split; assumption.
      * destruct Hend as [Hend|Hend].
        -- destruct (Hlonew Hend). lia.
        -- destruct (Hhinew Hend). lia.
Qed.
Lemma arr_ok_length (arr : list A) : arr_ok arr -> l <= Z.of_nat (length arr).
Proof. intros (_ & Hlen & _). rewrite Hlen. exact Hl. Qed.

Lemma helper_pass_spec (s : partition_helper_state) (arr : list A)
    (w : worker) :
  inv s arr w ->
  exists s' arr' w',
    helper_pass pred s arr w = Ok (s', arr', w') /\
    ((inv s' arr' w' /\ last s' - first s' < last s - first s) \/
     (finished w' = true /\ final s' arr')).
Proof.
  intros (Hfin & Hs & Hr & Harr & Hblocks & HlowOK & HhighOK).
  rewrite helper_pass_eq.
  pose proof (arr_ok_length arr Harr) as Hlen.
  destruct w as [[a b] [c d] fin]. simpl in *.
  assert (Hpre : (0 <= a <= b /\ b <= c /\ c <= d /\ d <= Z.of_nat (length arr))
                 /\ (forall i, a <= i < b -> f <= i < first s)
                 /\ (forall i, c <= i < d -> last s <= i < l)
                 /\ (a < b -> f <= a /\ b = first s /\ b - a <= 1024)
                 /\ (c < d -> c = last s /\ d <= l /\ d - c <= 1024)).
  { destruct Hblocks as [Hb|[[= -> ->] [= -> ->]]].
    - repeat split; lia.
    - repeat split; lia. }
  destruct Hpre as (Hdp & Hain & Hcin & Hane & Hcne).
  destruct (dual_partition_spec pred arr a b c d
              ltac:(lia) ltac:(lia) ltac:(lia) ltac:(lia))
    as (arr1 & lo & hi & Hrun & Hb & Hend & [Hperm Hlen1] & Hlo & Hhi & Hframe & _).
  rewrite Hrun. simpl.
  assert (Harr1 : arr_ok arr1).
  { destruct Harr as (Hp & Hl0 & Hfr). split; [now rewrite Hperm|].
    split; [congruence|]. intros i Hi Hout.
    rewrite Hframe; [now apply Hfr|exact Hi| |].
    - intros Hin. specialize (Hain i ltac:(lia)). lia.
    - intros Hin. specialize (Hcin i ltac:(lia)). lia. }
  destruct (pass_tail_spec s arr1 lo b c hi Hs Hr Harr1) as (s' & w' & Ht & Hres);
    try lia.
  - intros i Hi Hn. destruct (decide (a <= i < lo)) as [Hin|Hout].
    + now apply Hlo.
    + apply (holds_same pred arr).
      * apply Hframe; [lia|exact Hout|].
        intros Hin. specialize (Hcin i ltac:(lia)). lia.
      * apply HlowOK; [exact Hi|lia].
  - intros i Hi Hn. destruct (decide (hi <= i < d)) as [Hin|Hout].
    + now apply Hhi.
    + apply (holds_same pred arr).
      * apply Hframe; [lia| |exact Hout].
        intros Hin. specialize (Hain i ltac:(lia)). lia.
      * apply HhighOK; [exact Hi|lia].
  - exists s', arr1, w'. split; [exact Ht|exact Hres].
Qed.

(** The only worker is between passes or done. *)
Definition good (st : partition_helper_state * list A * list worker) : Prop :=
  exists s arr w, st = (s, arr, [w]) /\
    ((inv s arr w /\ 0 <= last s - first s <= l - f) \/
     (finished w = true /\ final s arr)).

Lemma worker_pass_good (tid : nat)
    (st : partition_helper_state * list A * list worker) :
  good st -> exists st', worker_pass pred tid st = Ok st' /\ good st'.
Proof.
  intros (s & arr & w & -> & Hst). unfold worker_pass.
  destruct tid as [|tid]; simpl.
  - destruct Hst as [[Hinv Hmu]|[Hfin Hfinal]].
    + assert (Hf0 : finished w = false) by apply Hinv. rewrite Hf0.
      destruct (helper_pass_spec s arr w Hinv) as (s' & arr' & w' & Hp & Hres).
      rewrite Hp. simpl. eexists. split; [reflexivity|].
      exists s', arr', w'. split; [reflexivity|].
      destruct Hres as [[Hinv' Hlt]|Hdone]; [left|now right].
      split; [exact Hinv'|]. destruct Hinv' as (_ & Hs' & _). lia.
    + rewrite Hfin. eexists. split; [reflexivity|].
      exists s, arr, w. split; [reflexivity|now right].
  - eexists. split; [reflexivity|].
    exists s, arr, w. split; [reflexivity|exact Hst].
Qed.

Lemma run_sched_good (sched : list nat)
    (st : partition_helper_state * list A * list worker) :
  good st -> exists st', run_sched pred sched st = Ok st' /\ good st'.
Proof.
  revert st. induction sched as [|tid sched IH]; intros st Hst; simpl.
  - now exists st.
  - destruct (worker_pass_good tid st Hst) as (st1 & Hp & Hst1).
    rewrite Hp. simpl. now apply IH.
Qed.

Lemma finish_worker_good (fuel : nat)
    (st : partition_helper_state * list A * list worker) :
  good st ->
  (forall s arr w, st = (s, arr, [w]) -> finished w = false ->
     last s - first s + 2 <= Z.of_nat fuel) ->
  (0 < fuel)%nat ->
  exists s arr w,
    finish_worker pred fuel 0 st = Ok (s, arr, [w]) /\
    finished w = true /\ final s arr.
Proof.
  revert st. induction fuel as [|fuel IH]; intros st Hst Hfuel Hpos; [lia|].
  destruct Hst as (s & arr & w & -> & Hst). simpl.
  destruct Hst as [[Hinv Hmu]|[Hfin Hfinal]].
  - assert (Hf0 : finished w = false) by apply Hinv. rewrite Hf0.
    specialize (Hfuel s arr w eq_refl Hf0).
    destruct (helper_pass_spec s arr w Hinv) as (s' & arr' & w' & Hp & Hres).
    rewrite Hp. simpl.
    apply IH; [| |lia].
    + exists s', arr', w'. split; [reflexivity|].
      destruct Hres as [[Hinv' Hlt]|Hdone]; [left|now right].
      split; [exact Hinv'|]. destruct Hinv' as (_ & Hs' & _). lia.
    + intros s2 arr2 w2 [= <- <- <-] Hf2.
      destruct Hres as [[Hinv' Hlt]|[Hdone _]]; [lia|congruence].
  - rewrite Hfin. now exists s, arr, w.
Qed.

Lemma on_each_single (sched : list nat) :
  f <= l ->
  exists s arr,
    on_each pred 1 sched (new_state f l) arr0 = Ok (s, arr) /\ final s arr.
Proof.
  intros Hfl. unfold on_each.
  assert (Hinit : good (new_state f l, arr0, replicate 1 new_worker)).
  { exists (new_state f l), arr0, new_worker. split; [reflexivity|]. left.
    split; [|simpl; lia]. unfold inv, new_state, new_worker. simpl.
    split; [reflexivity|]. split; [lia|]. split; [split; reflexivity|].
    split; [split; [reflexivity|split; [reflexivity|auto]]|].
    split; [now right|]. split; intros; lia. }
  destruct (run_sched_good sched _ Hinit) as (st1 & Hrun & Hst1).
  rewrite Hrun. simpl.
  destruct (finish_worker_good (length st1.1.2 + 2) st1 Hst1)
    as (s & arr & w & Hfin & _ & Hfinal).
  - intros s arr w -> Hf0. simpl.
    destruct Hst1 as (s' & arr' & w' & [= <- <- <-] & Hst).
    destruct Hst as [[Hinv Hmu]|[Hdone _]]; [|congruence].
    destruct Hinv as (_ & _ & _ & (_ & Hlen & _) & _). lia.
  - lia.
  - rewrite Hfin. simpl. now exists s, arr.
Qed.
End Single.

Lemma partitioned_of_holds {A : Type} (pred : A -> bool) (arr : list A)
    (f m l : Z) :
  f <= m <= l ->
  (forall i, f <= i < m -> holds pred arr i true) ->
  (forall i, m <= i < l -> holds pred arr i false) ->
  partitioned pred arr f m l.
Proof.
  intros Hm Hyes Hno. split; [exact Hm|]. split.
  - intros i a Hi Ha. destruct (Hyes i Hi) as (a' & Ha' & Hp). congruence.
  - intros i a Hi Ha. destruct (Hno i Hi) as (a' & Ha' & Hp). congruence.
Qed.

(** partition with one active thread never returns a wrong answer: when it
    returns, the returned iterator splits the range into elements that
    satisfy the predicate and elements that do not, the array is a
    rearrangement of the original one and nothing outside the range moved.
    On at most 1024 elements it always returns; on more it returns or runs
    into the undefined call of std::partition on a reversed range. *)
Theorem partition_single_worker_sound {A : Type} (pred : A -> bool)
    (sched : list nat) (arr0 : list A) (f l : Z) :
  0 <= f -> f <= l -> l <= Z.of_nat (length arr0) ->
  (l - f <= 1024 -> partition pred 1 sched arr0 f l <> Undefined) /\
  (partition pred 1 sched arr0 f l = Undefined \/
   exists arr m,
     partition pred 1 sched arr0 f l = Ok (arr, m) /\
     partitioned pred arr f m l /\
     arr ≡ₚ arr0 /\
     (forall i, 0 <= i -> ~ (f <= i < l) ->
        arr !! Z.to_nat i = arr0 !! Z.to_nat i)).
Proof.
  intros Hf Hfl Hl. unfold partition.
  destruct (Z.leb_spec (l - f) 1024) as [Hsmall|Hbig].
  - destruct (std_partition_spec pred arr0 f l ltac:(lia) Hl)
      as (arr & m & Hrun & Hm & [Hperm _] & Hyes & Hno & Hframe).
    rewrite Hrun. split; [discriminate|]. right. exists arr, m.
    split; [reflexivity|]. split; [now apply partitioned_of_holds|].
    split; assumption.
  - split; [lia|].
    destruct (on_each_single pred arr0 f l Hf Hl sched Hfl)
      as (s & arr & Hrun & (Hperm & Hlen & Hframe) & Hleft).
    rewrite Hrun. simpl.
    destruct Hleft as [[Hrf Hrl]|(Ha & Hab & Hb & Hsz & Hyes & Hno)].
    + left. rewrite Hrf, Hrl.
      destruct (Z.eqb_spec l f); [lia|]. simpl.
      unfold std_partition. destruct (Z.leb_spec l f); [lia|].
      now rewrite andb_false_r.
    + right. destruct (Z.eqb_spec (rfirst s) f) as [Hef|_];
        [destruct (Z.eqb_spec (rlast s) l); [lia|]|]; simpl.
      all: destruct (std_partition_spec pred arr (rfirst s) (rlast s)
                       ltac:(lia) ltac:(lia))
             as (arr2 & m & Hrun2 & Hm & [Hperm2 _] & Hyes2 & Hno2 & Hframe2);
        rewrite Hrun2; exists arr2, m; split; [reflexivity|];
        (split; [|split]);
        [ apply partitioned_of_holds; [lia| |];
          intros i Hi;
          (destruct (decide (rfirst s <= i < rlast s));
           [ first [apply Hyes2; lia | apply Hno2; lia]
           | apply (holds_same pred arr); [apply Hframe2; lia|];
             first [apply Hyes; lia | apply Hno; lia] ])
        | now rewrite Hperm2
        | intros i Hi Hout; rewrite Hframe2 by lia; now apply Hframe ].
Qed.

Lemma partition_single_worker_sound_witness :
  exists arr m,
    partition id_pred 1 [] (replicate 1024 true ++ replicate 1024 false) 0 2048
    = Ok (arr, m) /\ partitioned id_pred arr 0 m 2048.
Proof.
  destruct (partition_single_worker_sound id_pred []
              (replicate 1024 true ++ replicate 1024 false) 0 2048)
    as [_ [Hu|(arr & m & Hrun & Hpart & _)]].
  - lia.
  - lia.
  - rewrite length_app, !length_replicate. lia.
  - exfalso. assert (Hok : partition id_pred 1 []
                             (replicate 1024 true ++ replicate 1024 false) 0 2048
                           <> Undefined) by (vm_compute; discriminate).
    exact (Hok Hu).
  - exists arr, m. split; assumption.
Defined.

End PartitionSingle.

(** ** The block-range algorithms: transform, iota, fill, copy, copy_if *)

Module BlockAlgorithms.
Import SizeT Partition.
Local Open Scope Z_scope.

#[local] Existing Instance result_ret.
#[local] Existing Instance result_bind.

(** [on_each(fn)] runs [fn(tid, total)] once on every active thread. The
    bodies below are loops of the C++ library that store one element per
    turn, so a body is the list of its stores in program order: where it
    writes, and the value, which is undefined when the read that feeds it
    leaves the input. Stores of different threads interleave as [sched]
    says (one store of the named thread per entry); the threads that still
    have stores left then finish one after the other. *)
Section OnEach.
Context {B : Type}.

Definition store : Type := Z * result B.

Definition exec (st : store) (out : list B) : result (list B) :=
  v ← st.2;
  if (0 <=? st.1) && (st.1 <? Z.of_nat (length out))
  then Ok (<[Z.to_nat st.1 := v]> out)
  else Undefined.

Fixpoint run_all (p : list store) (out : list B) : result (list B) :=
  match p with
  | [] => Ok out
  | st :: p' => out ← exec st out; run_all p' out
  end.

Definition step_thread (tid : nat) (s : list B * list (list store))
  : result (list B * list (list store)) :=
  match s.2 !! tid with
  | Some (st :: rest) => out ← exec st s.1; Ok (out, <[tid := rest]> s.2)
  | _ => Ok s
  end.

Fixpoint run_stores (sched : list nat) (s : list B * list (list store))
  : result (list B * list (list store)) :=
  match sched with
  | [] => Ok s
  | tid :: sched' => s ← step_thread tid s; run_stores sched' s
  end.

Definition on_each_stores (threads : nat) (body : nat -> nat -> list store)
    (sched : list nat) (out : list B) : result (list B) :=
  s ← run_stores sched
        (out, map (fun tid => body tid threads) (seq 0 threads));
  run_all (concat s.2) s.1.

(** The positions from [b] up to [e]. *)
Definition offsets (b e : Z) : list Z :=
  map (fun k => b + Z.of_nat k) (seq 0 (Z.to_nat (e - b))).

(** A library loop over the block from [b] to [e] that stores [st i] for
    the element at [i]. Handed a block whose end lies before its start the
    loop runs off the range: undefined. *)
Definition block_stores (b e : Z) (st : Z -> store) : list store :=
  if e <? b then [(b, Undefined)] else map st (offsets b e).
End OnEach.

Arguments store B : clear implicits.

(** [std::iota(begin, end, value)]: [*it = value; ++value;] per element, on
    a 64-bit unsigned value type. *)
Fixpoint std_iota (n : nat) (it : Z) (value : Z) : list (store Z) :=
  match n with
  | O => []
  | S n' => (it, Ok value) :: std_iota n' (it + 1) (wrap (value + 1))
  end.

(** [block_range(first, last, tid, total)] is declared in a header that is
    not among the sources at hand; the algorithms take it as a parameter,
    and the results below say what they need of it. *)
Section Algorithms.
Variable block_range : Z -> Z -> nat -> nat -> Z * Z.

(** [fill(first, last, val)] on the array [arr]. *)
Definition fill {T : Type} (threads : nat) (sched : list nat) (arr : list T)
    (first last : Z) (val : T) : result (list T) :=
  on_each_stores threads
    (fun tid total =>
       let '(begin, end_) := block_range first last tid total in
       block_stores begin end_ (fun i => (i, Ok val)))
    sched arr.

(** [iota(first, last, start_val)] on an array of 64-bit unsigned values. *)
Definition iota (threads : nat) (sched : list nat) (arr : list Z)
    (first last : Z) (start_val : Z) : result (list Z) :=
  on_each_stores threads
    (fun tid total =>
       let '(begin, end_) := block_range first last tid total in
       let offset := begin - first in
       if end_ <? begin then [(begin, Undefined)]
       else std_iota (Z.to_nat (end_ - begin)) begin
              (wrap (wrap start_val + wrap offset)))
    sched arr.

(** [transform(first, last, d_first, unary_op)]: [inp] is the array the
    input range lies in, [out] the one [d_first] points into; the two do
    not overlap. *)
Definition transform {A B : Type} (unary_op : A -> B) (threads : nat)
    (sched : list nat) (inp : list A) (out : list B) (first last d_first : Z)
  : result (list B * Z) :=
  out ← on_each_stores threads
    (fun tid total =>
       let '(begin, end_) := block_range first last tid total in
       let offset := begin - first in
       block_stores begin end_
         (fun i => (d_first + offset + (i - begin),
                    a ← deref inp i; Ok (unary_op a))))
    sched out;
  Ok (out, d_first + (last - first)).

(** [copy(first, last, d_first)], with the arrays as for [transform]. *)
Definition copy {A : Type} (threads : nat) (sched : list nat)
    (inp out : list A) (first last d_first : Z) : result (list A * Z) :=
  out ← on_each_stores threads
    (fun tid total =>
       let '(begin, end_) := block_range first last tid total in
       let offset := begin - first in
       block_stores begin end_
         (fun i => (d_first + offset + (i - begin), deref inp i)))
    sched out;
  Ok (out, d_first + (last - first)).
End Algorithms.

(** *** Facts about the stores *)

Section StoreFacts.
Context {B : Type}.
Variable G : Z -> option B.

(** A store that stays inside the array and writes the value [G] names for
    its position. *)
Definition good (len : nat) (st : store B) : Prop :=
  0 <= st.1 < Z.of_nat len /\ exists v, st.2 = Ok v /\ G st.1 = Some v.

Lemma exec_good (st : store B) (out : list B) :
  good (length out) st ->
  exists v, G st.1 = Some v /\ exec st out = Ok (<[Z.to_nat st.1 := v]> out).
Proof.
  intros [Hin (v & Hv & HG)]. exists v. split; [exact HG|].
  unfold exec. rewrite Hv. simpl.
  destruct (Z.leb_spec 0 st.1); [|lia].
  destruct (Z.ltb_spec st.1 (Z.of_nat (length out))); [|lia].
  reflexivity.
Qed.

Lemma run_all_good (p : list (store B)) :
  forall out,
    Forall (good (length out)) p ->
    exists out',
      run_all p out = Ok out' /\ length out' = length out /\
      (forall j, j ∈ p.*1 -> out' !! Z.to_nat j = G j) /\
      (forall j, 0 <= j -> j ∉ p.*1 -> out' !! Z.to_nat j = out !! Z.to_nat j).
Proof.
  induction p as [|st p IH]; intros out Hgood.
  - exists out. split; [reflexivity|]. split; [reflexivity|]. split.
    + intros j Hj. inversion Hj.
    + reflexivity.
  - inversion Hgood as [|? ? Hst Hp]; subst.
    destruct (exec_good st out Hst) as (v & HG & Hexec).
    destruct (IH (<[Z.to_nat st.1 := v]> out)) as (out' & Hrun & Hlen & Hin & Hout).
    { now rewrite length_insert. }
    rewrite length_insert in Hlen.
    exists out'. split; [|split; [exact Hlen|split]].
    + simpl. rewrite Hexec. exact Hrun.
    + intros j Hj. destruct (decide (j ∈ p.*1)) as [Hjp|Hjp]; [now apply Hin|].
      rewrite fmap_cons in Hj. apply elem_of_cons in Hj as [->|Hj]; [|tauto].
      destruct Hst as [Hb _].
      rewrite Hout by (lia || exact Hjp).
      rewrite list_lookup_insert_eq by lia. now rewrite HG.
    + intros j Hj0 Hj. rewrite fmap_cons in Hj.
      apply not_elem_of_cons in Hj as [Hne Hjp].
      destruct Hst as [Hb _].
      rewrite Hout by assumption.
      apply list_lookup_insert_ne. lia.
Qed.

Lemma concat_insert_tail (progs : list (list (store B))) (tid : nat)
    (st : store B) (rest : list (store B)) :
  progs !! tid = Some (st :: rest) ->
  forall j, j ∈ (concat progs).*1 <->
            j = st.1 \/ j ∈ (concat (<[tid := rest]> progs)).*1.
Proof.
  intros Hl j.
  pose proof (take_drop_middle progs tid (st :: rest) Hl) as Hsplit.
  rewrite insert_take_drop by (eapply lookup_lt_Some; exact Hl).
  rewrite <- Hsplit at 1.
  rewrite !concat_app. simpl. rewrite !fmap_app, fmap_cons.
  rewrite fmap_app. repeat (rewrite elem_of_app || rewrite elem_of_cons). tauto.
Qed.

Lemma run_stores_good (sched : list nat) :
  forall out progs,
    Forall (Forall (good (length out))) progs ->
    exists out',
      (s ← run_stores sched (out, progs); run_all (concat s.2) s.1) = Ok out' /\
      length out' = length out /\
      (forall j, j ∈ (concat progs).*1 -> out' !! Z.to_nat j = G j) /\
      (forall j, 0 <= j -> j ∉ (concat progs).*1 ->
                 out' !! Z.to_nat j = out !! Z.to_nat j).
Proof.
  induction sched as [|tid sched IH]; intros out progs Hgood.
  - simpl. apply run_all_good. now apply Forall_concat.
  - simpl. unfold step_thread. simpl.
    destruct (progs !! tid) as [[|st rest]|] eqn:Hl;
      [exact (IH out progs Hgood)| |exact (IH out progs Hgood)].
    assert (Hst : good (length out) st).
    { eapply Forall_lookup_1 in Hgood; [|exact Hl].
      now inversion Hgood. }
    assert (Hrest : Forall (good (length out)) rest).
    { eapply Forall_lookup_1 in Hgood; [|exact Hl].
      now inversion Hgood. }
    destruct (exec_good st out Hst) as (v & HG & Hexec).
    rewrite Hexec. simpl.
    destruct (IH (<[Z.to_nat st.1 := v]> out) (<[tid := rest]> progs))
      as (out' & Hrun & Hlen & Hin & Hout).
    { rewrite length_insert. now apply Forall_insert. }
    rewrite length_insert in Hlen.
    pose proof (concat_insert_tail progs tid st rest Hl) as Hmem.
    destruct Hst as [Hb _].
    exists out'. split; [exact Hrun|split; [exact Hlen|split]].
    + intros j Hj.
      destruct (decide (j ∈ (concat (<[tid := rest]> progs)).*1)) as [Hjp|Hjp];
        [now apply Hin|].
      apply Hmem in Hj as [->|Hj]; [|tauto].
      rewrite Hout by (lia || exact Hjp).
      rewrite list_lookup_insert_eq by lia. now rewrite HG.
    + intros j Hj0 Hj.
      assert (j <> st.1 /\ j ∉ (concat (<[tid := rest]> progs)).*1) as [Hne Hjp].
      { split; intros ?; apply Hj, Hmem; tauto. }
      rewrite Hout by assumption.
      apply list_lookup_insert_ne. lia.
Qed.
End StoreFacts.

Lemma elem_of_offsets (b e j : Z) : j ∈ offsets b e <-> b <= j < e.
Proof.
  unfold offsets. rewrite list_elem_of_fmap. split.
  - intros (k & -> & Hk). apply elem_of_seq in Hk. lia.
  - intros Hj. exists (Z.to_nat (j - b)). split; [lia|].
    apply elem_of_seq. lia.
Qed.

Lemma offsets_cons (b e : Z) : b < e -> offsets b e = b :: offsets (b + 1) e.
Proof.
  intros Hlt. unfold offsets.
  replace (Z.to_nat (e - b)) with (S (Z.to_nat (e - (b + 1)))) by lia.
  simpl. f_equal; [lia|].
  rewrite <- fmap_S_seq, <- list_fmap_compose.
  apply map_ext. intros k. simpl. lia.
Qed.

Lemma offsets_nil (b e : Z) : e <= b -> offsets b e = [].
Proof.
  intros Hle. unfold offsets.
  now replace (Z.to_nat (e - b)) with O by lia.
Qed.

Lemma wrap_add_l (a b : Z) : wrap (wrap a + b) = wrap (a + b).
Proof. unfold wrap. apply Zplus_mod_idemp_l. Qed.

Lemma wrap_add_r (a b : Z) : wrap (a + wrap b) = wrap (a + b).
Proof. unfold wrap. apply Zplus_mod_idemp_r. Qed.

(** The values [std::iota] stores, in closed form. *)
Lemma std_iota_stores (n : nat) :
  forall it value,
    std_iota n it (wrap value)
    = map (fun i => (i, Ok (wrap (value + (i - it)))))
          (offsets it (it + Z.of_nat n)).
Proof.
  induction n as [|n IH]; intros it value.
  - rewrite offsets_nil by lia. reflexivity.
  - rewrite offsets_cons by lia. simpl.
    f_equal; [now rewrite Z.sub_diag, Z.add_0_r|].
    rewrite wrap_add_l, IH.
    replace (it + 1 + Z.of_nat n) with (it + Z.pos (Pos.of_succ_nat n)) by lia.
    apply map_ext. intros i. do 3 f_equal. lia.
Qed.

(** *** What the block-range algorithms compute *)

Section BlockFacts.
Variable block_range : Z -> Z -> nat -> nat -> Z * Z.
Variables (first last : Z) (threads : nat).

(** What is asked of [block_range]: every thread's block lies inside the
    range, in order, and the blocks together cover the range. *)
Hypothesis block_in : forall tid,
  (tid < threads)%nat ->
  first <= (block_range first last tid threads).1 /\
  (block_range first last tid threads).1
    <= (block_range first last tid threads).2 /\
  (block_range first last tid threads).2 <= last.
Hypothesis block_cover : forall i,
  first <= i < last ->
  exists tid, (tid < threads)%nat /\
    (block_range first last tid threads).1 <= i
      < (block_range first last tid threads).2.

Lemma on_each_blocks {B : Type} (delta : Z) (value : Z -> result B)
    (G : Z -> option B) (body : nat -> nat -> list (store B))
    (sched : list nat) (out : list B) :
  (forall tid, (tid < threads)%nat ->
     body tid threads
     = map (fun i => (i + delta, value i))
           (offsets (block_range first last tid threads).1
                    (block_range first last tid threads).2)) ->
  0 <= first + delta -> last + delta <= Z.of_nat (length out) ->
  (forall i, first <= i < last ->
     exists v, value i = Ok v /\ G (i + delta) = Some v) ->
  exists out',
    on_each_stores threads body sched out = Ok out' /\
    length out' = length out /\
    (forall i, first <= i < last ->
       out' !! Z.to_nat (i + delta) = G (i + delta)) /\
    (forall j, 0 <= j -> ~ (first + delta <= j < last + delta) ->
       out' !! Z.to_nat j = out !! Z.to_nat j).
Proof.
  intros Hbody Hlo Hhi Hval.
  set (progs := map (fun tid => body tid threads) (seq 0 threads)).
  assert (Hmem : forall j, j ∈ (concat progs).*1 <->
                           exists i, first <= i < last /\ j = i + delta).
  { intros j. rewrite list_elem_of_fmap. split.
    - intros (s & -> & Hs). apply list_elem_of_In, in_concat in Hs.
      destruct Hs as (p & Hp & Hs). apply list_elem_of_In in Hs.
      apply in_map_iff in Hp as (tid & <- & Htid).
      apply in_seq in Htid. rewrite Hbody in Hs by lia.
      apply list_elem_of_fmap in Hs as (i & -> & Hi).
      apply elem_of_offsets in Hi.
      pose proof (block_in tid ltac:(lia)). exists i. split; [lia|reflexivity].
    - intros (i & Hi & ->).
      destruct (block_cover i Hi) as (tid & Htid & Hblock).
      exists (i + delta, value i). split; [reflexivity|].
      apply list_elem_of_In, in_concat. exists (body tid threads). split.
      + apply in_map_iff. exists tid. split; [reflexivity|].
        apply in_seq. lia.
      + apply list_elem_of_In. rewrite Hbody by exact Htid.
        apply list_elem_of_fmap. exists i. split; [reflexivity|].
        now apply elem_of_offsets. }
  destruct (run_stores_good G sched out progs) as (out' & Hrun & Hlen & Hin & Hout).
  { apply Forall_forall. intros p Hp. apply list_elem_of_In in Hp.
    apply in_map_iff in Hp as (tid & <- & Htid). apply in_seq in Htid.
    rewrite Hbody by lia. apply Forall_forall. intros s Hs.
    apply list_elem_of_fmap in Hs as (i & -> & Hi).
    apply elem_of_offsets in Hi.
    pose proof (block_in tid ltac:(lia)).
    split; [simpl; lia|]. simpl. apply Hval. lia. }
  exists out'. split; [exact Hrun|split; [exact Hlen|split]].
  - intros i Hi. apply Hin, Hmem. now exists i.
  - intros j Hj0 Hj. apply Hout; [exact Hj0|].
    intros Hc. apply Hmem in Hc as (i & Hi & ->). lia.
Qed.

(** fill stores [val] at every position of the range and nowhere else,
    however the threads' stores interleave. *)
Theorem fill_sets_range {T : Type} (sched : list nat) (arr : list T)
    (val : T) :
  0 <= first -> last <= Z.of_nat (length arr) ->
  exists arr',
    fill block_range threads sched arr first last val = Ok arr' /\
    length arr' = length arr /\
    (forall i, first <= i < last -> arr' !! Z.to_nat i = Some val) /\
    (forall j, 0 <= j -> ~ (first <= j < last) ->
       arr' !! Z.to_nat j = arr !! Z.to_nat j).
Proof.
  intros Hlo Hhi.
  destruct (on_each_blocks 0 (fun _ => Ok val) (fun _ => Some val)
              (fun tid total =>
                 let '(begin, end_) := block_range first last tid total in
                 block_stores begin end_ (fun i => (i, Ok val)))
              sched arr) as (arr' & Hrun & Hlen & Hin & Hout).
  - intros tid Htid. pose proof (block_in tid Htid) as Hb.
    destruct (block_range first last tid threads) as [b e]. simpl in *.
    unfold block_stores. destruct (Z.ltb_spec e b); [lia|].
    apply map_ext. intros i. now rewrite Z.add_0_r.
  - lia.
  - lia.
  - intros i _. now exists val.
  - exists arr'. split; [exact Hrun|split; [exact Hlen|split]].
    + intros i Hi. specialize (Hin i Hi). now rewrite Z.add_0_r in Hin.
    + intros j Hj0 Hj. apply Hout; [exact Hj0|lia].
Qed.

(** iota numbers the range: position [first + k] receives
    [start_val + k] (in 64-bit unsigned arithmetic), whatever the blocks and
    the interleaving, and nothing else is written. *)
Theorem iota_numbers_range (sched : list nat) (arr : list Z)
    (start_val : Z) :
  0 <= first -> last <= Z.of_nat (length arr) ->
  exists arr',
    iota block_range threads sched arr first last start_val = Ok arr' /\
    length arr' = length arr /\
    (forall k, 0 <= k < last - first ->
       arr' !! Z.to_nat (first + k) = Some (wrap (start_val + k))) /\
    (forall j, 0 <= j -> ~ (first <= j < last) ->
       arr' !! Z.to_nat j = arr !! Z.to_nat j).
Proof.
  intros Hlo Hhi.
  destruct (on_each_blocks 0
              (fun i => Ok (wrap (start_val + (i - first))))
              (fun j => Some (wrap (start_val + (j - first))))
              (fun tid total =>
                 let '(begin, end_) := block_range first last tid total in
                 let offset := begin - first in
                 if end_ <? begin then [(begin, Undefined)]
                 else std_iota (Z.to_nat (end_ - begin)) begin
                        (wrap (wrap start_val + wrap offset)))
              sched arr) as (arr' & Hrun & Hlen & Hin & Hout).
  - intros tid Htid. pose proof (block_in tid Htid) as Hb.
    destruct (block_range first last tid threads) as [b e]. simpl in *.
    destruct (Z.ltb_spec e b); [lia|].
    rewrite std_iota_stores.
    replace (b + Z.of_nat (Z.to_nat (e - b))) with e by lia.
    apply map_ext. intros i. rewrite Z.add_0_r. do 2 f_equal.
    rewrite <- Z.add_assoc, wrap_add_l.
    rewrite <- (wrap_add_r start_val), wrap_add_l, wrap_add_r.
    f_equal. lia.
  - lia.
  - lia.
  - intros i _. eexists. split; [reflexivity|]. now rewrite Z.add_0_r.
  - exists arr'. split; [exact Hrun|split; [exact Hlen|split]].
    + intros k Hk. specialize (Hin (first + k) ltac:(lia)).
      rewrite !Z.add_0_r in Hin. rewrite Hin. do 2 f_equal. lia.
    + intros j Hj0 Hj. apply Hout; [exact Hj0|lia].
Qed.

Lemma deref_lookup {A : Type} (inp : list A) (i : Z) :
  0 <= i < Z.of_nat (length inp) ->
  exists a, inp !! Z.to_nat i = Some a /\ deref inp i = Ok a.
Proof.
  intros Hi. destruct (lookup_lt_is_Some_2 inp (Z.to_nat i) ltac:(lia)) as [a Ha].
  exists a. split; [exact Ha|]. unfold deref.
  destruct (Z.ltb_spec i 0); [lia|]. now rewrite Ha.
Qed.

(** transform writes [unary_op] of the k-th input element at the k-th
    output position, for every k of the range, writes nothing else and
    returns the end of the output range, however the stores interleave. *)
Theorem transform_maps_range {A B : Type} (unary_op : A -> B)
    (sched : list nat) (inp : list A) (out : list B) (d_first : Z) :
  0 <= first -> last <= Z.of_nat (length inp) ->
  0 <= d_first -> d_first + (last - first) <= Z.of_nat (length out) ->
  exists out',
    transform block_range unary_op threads sched inp out first last d_first
    = Ok (out', d_first + (last - first)) /\
    length out' = length out /\
    (forall k, 0 <= k < last - first ->
       out' !! Z.to_nat (d_first + k)
       = unary_op <$> inp !! Z.to_nat (first + k)) /\
    (forall j, 0 <= j -> ~ (d_first <= j < d_first + (last - first)) ->
       out' !! Z.to_nat j = out !! Z.to_nat j).
Proof.
  intros Hlo Hhi Hd Hdhi.
  destruct (on_each_blocks (d_first - first)
              (fun i => a ← deref inp i; Ok (unary_op a))
              (fun j => unary_op <$> inp !! Z.to_nat (j - (d_first - first)))
              (fun tid total =>
                 let '(begin, end_) := block_range first last tid total in
                 let offset := begin - first in
                 block_stores begin end_
                   (fun i => (d_first + offset + (i - begin),
                              a ← deref inp i; Ok (unary_op a))))
              sched out) as (out' & Hrun & Hlen & Hin & Hout).
  - intros tid Htid. pose proof (block_in tid Htid) as Hb.
    destruct (block_range first last tid threads) as [b e]. simpl in *.
    unfold block_stores. destruct (Z.ltb_spec e b); [lia|].
    apply map_ext. intros i. f_equal. lia.
  - lia.
  - lia.
  - intros i Hi. destruct (deref_lookup inp i ltac:(lia)) as (a & Ha & Hderef).
    exists (unary_op a). rewrite Hderef. split; [reflexivity|].
    replace (i + (d_first - first) - (d_first - first)) with i by lia.
    now rewrite Ha.
  - exists out'. split; [|split; [exact Hlen|split]].
    + unfold transform. unfold on_each_stores in Hrun |- *.
      unfold mbind at 1. unfold result_bind at 1.
      now rewrite Hrun.
    + intros k Hk. specialize (Hin (first + k) ltac:(lia)).
      replace (first + k + (d_first - first)) with (d_first + k) in Hin by lia.
      rewrite Hin. do 3 f_equal. lia.
    + intros j Hj0 Hj. apply Hout; [exact Hj0|lia].
Qed.

(** copy writes the k-th input element at the k-th output position, for
    every k of the range, writes nothing else and returns the end of the
    output range, however the stores interleave. *)
Theorem copy_copies_range {A : Type} (sched : list nat) (inp out : list A)
    (d_first : Z) :
  0 <= first -> last <= Z.of_nat (length inp) ->
  0 <= d_first -> d_first + (last - first) <= Z.of_nat (length out) ->
  exists out',
    copy block_range threads sched inp out first last d_first
    = Ok (out', d_first + (last - first)) /\
    length out' = length out /\
    (forall k, 0 <= k < last - first ->
       out' !! Z.to_nat (d_first + k) = inp !! Z.to_nat (first + k)) /\
    (forall j, 0 <= j -> ~ (d_first <= j < d_first + (last - first)) ->
       out' !! Z.to_nat j = out !! Z.to_nat j).
Proof.
  intros Hlo Hhi Hd Hdhi.
  destruct (on_each_blocks (d_first - first)
              (fun i => deref inp i)
              (fun j => inp !! Z.to_nat (j - (d_first - first)))
              (fun tid total =>
                 let '(begin, end_) := block_range first last tid total in
                 let offset := begin - first in
                 block_stores begin end_
                   (fun i => (d_first + offset + (i - begin), deref inp i)))
              sched out) as (out' & Hrun & Hlen & Hin & Hout).
  - intros tid Htid. pose proof (block_in tid Htid) as Hb.
    destruct (block_range first last tid threads) as [b e]. simpl in *.
    unfold block_stores. destruct (Z.ltb_spec e b); [lia|].
    apply map_ext. intros i. f_equal. lia.
  - lia.
  - lia.
  - intros i Hi. destruct (deref_lookup inp i ltac:(lia)) as (a & Ha & Hderef).
    exists a. split; [exact Hderef|].
    replace (i + (d_first - first) - (d_first - first)) with i by lia.
    exact Ha.
  - exists out'. split; [|split; [exact Hlen|split]].
    + unfold copy. unfold on_each_stores in Hrun |- *.
      unfold mbind at 1. unfold result_bind at 1.
      now rewrite Hrun.
    + intros k Hk. specialize (Hin (first + k) ltac:(lia)).
      replace (first + k + (d_first - first)) with (d_first + k) in Hin by lia.
      rewrite Hin. do 2 f_equal. lia.
    + intros j Hj0 Hj. apply Hout; [exact Hj0|lia].
Qed.
End BlockFacts.

(** *** Instances *)

(** A [block_range] that splits the range into [total] near-equal blocks,
    to run the algorithms on. *)
Definition sample_block_range (first last : Z) (tid total : nat) : Z * Z :=
  let n := last - first in
  (first + n * Z.of_nat tid / Z.of_nat total,
   first + n * (Z.of_nat tid + 1) / Z.of_nat total).

Lemma sample_block_in (tid : nat) :
  (tid < 2)%nat ->
  1 <= (sample_block_range 1 4 tid 2).1 /\
  (sample_block_range 1 4 tid 2).1 <= (sample_block_range 1 4 tid 2).2 /\
  (sample_block_range 1 4 tid 2).2 <= 4.
Proof.
  intros Htid. destruct tid as [|[|tid]]; [| |lia]; vm_compute;
    (split; [|split]); discriminate.
Qed.

Lemma sample_block_cover (i : Z) :
  1 <= i < 4 ->
  exists tid, (tid < 2)%nat /\
    (sample_block_range 1 4 tid 2).1 <= i < (sample_block_range 1 4 tid 2).2.
Proof.
  intros Hi. destruct (decide (i < 2)).
  - exists 0%nat. split; [lia|]. change (1 <= i < 2). lia.
  - exists 1%nat. split; [lia|]. change (2 <= i < 4). lia.
Qed.

Lemma fill_sets_range_witness :
  exists arr',
    fill sample_block_range 2 [1; 0; 1]%nat [1; 2; 3; 4; 5] 1 4 9 = Ok arr' /\
    arr' !! 2%nat = Some 9 /\ arr' !! 4%nat = Some 5.
Proof.
  destruct (fill_sets_range sample_block_range 1 4 2 sample_block_in
              sample_block_cover [1; 0; 1]%nat [1; 2; 3; 4; 5] 9)
    as (arr' & Hrun & _ & Hin & Hout); [lia|simpl; lia|].
  exists arr'. split; [exact Hrun|]. split.
  - apply (Hin 2). lia.
  - apply (Hout 4); lia.
Defined.

Lemma iota_numbers_range_witness :
  exists arr',
    iota sample_block_range 2 [1; 0; 1]%nat [0; 0; 0; 0; 0] 1 4 (modulus - 1)
    = Ok arr' /\
    arr' !! 1%nat = Some (modulus - 1) /\ arr' !! 2%nat = Some 0.
Proof.
  destruct (iota_numbers_range sample_block_range 1 4 2 sample_block_in
              sample_block_cover [1; 0; 1]%nat [0; 0; 0; 0; 0] (modulus - 1))
    as (arr' & Hrun & _ & Hin & _); [lia|simpl; lia|].
  exists arr'. split; [exact Hrun|]. split.
  - apply (Hin 0). lia.
  - apply (Hin 1). lia.
Defined.

Lemma transform_maps_range_witness :
  exists out',
    transform sample_block_range Z.succ 2 [1; 0; 1]%nat
              [10; 20; 30; 40; 50] [0; 0; 0; 0] 1 4 0
    = Ok (out', 3) /\
    out' !! 0%nat = Some 21 /\ out' !! 3%nat = Some 0.
Proof.
  destruct (transform_maps_range sample_block_range 1 4 2 sample_block_in
              sample_block_cover Z.succ [1; 0; 1]%nat
              [10; 20; 30; 40; 50] [0; 0; 0; 0] 0)
    as (out' & Hrun & _ & Hin & Hout); [lia|simpl; lia|lia|simpl; lia|].
  exists out'. split; [exact Hrun|]. split.
  - apply (Hin 0). lia.
  - apply (Hout 3); lia.
Defined.

Lemma copy_copies_range_witness :
  exists out',
    copy sample_block_range 2 [1; 0; 1]%nat
         [10; 20; 30; 40; 50] [0; 0; 0; 0] 1 4 0
    = Ok (out', 3) /\
    out' !! 2%nat = Some 40 /\ out' !! 3%nat = Some 0.
Proof.
  destruct (copy_copies_range sample_block_range 1 4 2 sample_block_in
              sample_block_cover [1; 0; 1]%nat
              [10; 20; 30; 40; 50] [0; 0; 0; 0] 0)
    as (out' & Hrun & _ & Hin & Hout); [lia|simpl; lia|lia|simpl; lia|].
  exists out'. split; [exact Hrun|]. split.
  - apply (Hin 2). lia.
  - apply (Hout 3); lia.
Defined.

End BlockAlgorithms.

(** ** ParallelSTL.h: copy_if *)

Module CopyIf.
Import SizeT BlockAlgorithms Debug.
Local Open Scope Z_scope.

(** [on_each] with bodies that run as wholes, one thread after the other
    in the order given. *)
Fixpoint on_each_whole {S : Type} (body : nat -> nat -> S -> outcome S)
    (total : nat) (order : list nat) (s : S) : outcome S :=
  match order with
  | [] => Ok s
  | tid :: order' => s ← body tid total s; on_each_whole body total order' s
  end.

Section CopyIf.
Context {A : Type}.
(** Whether the build has assertions. *)
Variable assertions : bool.
(** [block_range], as for the other algorithms. *)
Variable block_range : Z -> Z -> nat -> nat -> Z * Z.
(** The counting loop calls [pred(first)], on the iterator; [std::copy_if]
    calls [pred] on the element. *)
Variable pred_iterator : Z -> bool.
Variable pred : A -> bool.

(** [for (; first != last; ++first) if (pred(first)) count++;] where
    [first] is copy_if's own parameter, captured by reference: the loop
    moves it, for every thread and for the rest of copy_if. *)
Fixpoint count_loop (fuel : nat) (first last count : Z) : outcome (Z * Z) :=
  match fuel with
  | O => OutOfFuel
  | S fuel' =>
      if first =? last then Ok (first, count)
      else count_loop fuel' (first + 1) last
             (if pred_iterator first then count + 1 else count)
  end.

(** Body of the first on_each. The counting loops of two threads would
    race on [first]; the bodies are taken one after the other. *)
Definition count_pass (last : Z) (tid total : nat) (s : Z * list Z)
  : outcome (Z * list Z) :=
  let '(first, prefix_sum) := s in
  let '(begin, end_) := block_range first last tid total in
  '(first, count) ← (if last <? first then Undefined
                     else count_loop (S (Z.to_nat (last - first)))
                                     first last 0);
  if (tid <? length prefix_sum)%nat
  then Ok (first, <[tid := count]> prefix_sum)
  else Undefined.

(** The C++ library's [std::copy_if(begin, end, d, pred)]. *)
Definition std_copy_if (inp : list A) (begin end_ d : Z) (out : list A)
  : outcome (list A * Z) :=
  if (0 <=? begin) && (begin <=? end_) && (end_ <=? Z.of_nat (length inp))
  then
    let sel := List.filter pred
                 (take (Z.to_nat (end_ - begin)) (drop (Z.to_nat begin) inp)) in
    match sel with
    | [] => Ok (out, d)
    | _ =>
        if (0 <=? d) && (d + Z.of_nat (length sel) <=? Z.of_nat (length out))
        then Ok (list_inserts (Z.to_nat d) sel out, d + Z.of_nat (length sel))
        else Undefined
    end
  else Undefined.

(** Body of the second on_each. Its assertion compares the iterator that
    [std::copy_if] returns with a count; iterators are positions here, so
    the two are numbers. (With pointers or container iterators the
    comparison does not compile, and a build with assertions has no
    copy_if.) *)
Definition copy_pass (inp : list A) (first last d_first : Z)
    (prefix_sum : list Z) (tid total : nat) (out : list A)
  : outcome (list A) :=
  let '(begin, end_) := block_range first last tid total in
  offset ← (if (tid =? 0)%nat then Ok 0
            else match prefix_sum !! (tid - 1)%nat with
                 | Some v => Ok v
                 | None => Undefined
                 end);
  '(out, actual_end) ← std_copy_if inp begin end_ (d_first + offset) out;
  _ ← debug_assert assertions
        (match prefix_sum !! tid with
         | Some v => Ok (actual_end =? v)
         | None => Undefined
         end);
  Ok out.

(** [copy_if(first, last, d_first, pred)]; [order1] and [order2] are the
    orders in which the threads run the two on_each bodies. *)
Definition copy_if (threads : nat) (order1 order2 : list nat)
    (inp out : list A) (first last d_first : Z) : outcome (list A * Z) :=
  let num_threads := threads in
  let prefix_sum := replicate num_threads 0 in
  '(first, prefix_sum) ←
    on_each_whole (count_pass last) threads order1 (first, prefix_sum);
  let prefix_sum := PartialSum.std_partial_sum Z.add prefix_sum in
  out ← on_each_whole (copy_pass inp first last d_first prefix_sum)
          threads order2 out;
  match list.last prefix_sum with
  | Some back => Ok (out, d_first + back)
  | None => Undefined
  end.
End CopyIf.

(** *** Facts *)

Section CopyIfFacts.
Context {A : Type}.
Variable assertions : bool.
Variable block_range : Z -> Z -> nat -> nat -> Z * Z.
Variable pred_iterator : Z -> bool.
Variable pred : A -> bool.

Lemma count_loop_counts (fuel : nat) :
  forall first last count,
    first <= last -> (Z.to_nat (last - first) < fuel)%nat ->
    count_loop pred_iterator fuel first last count
    = Ok (last, count + Z.of_nat (length (List.filter pred_iterator
                                            (offsets first last)))).
Proof.
  induction fuel as [|fuel IH]; intros first last count Hle Hfuel; [lia|].
  simpl. destruct (Z.eqb_spec first last) as [->|Hne].
  - rewrite offsets_nil by lia. simpl. now rewrite Z.add_0_r.
  - rewrite IH by lia. rewrite (offsets_cons first last) by lia. simpl.
    destruct (pred_iterator first); simpl; do 2 f_equal; lia.
Qed.

Lemma foldl_add_insert_zeros (n : nat) :
  forall (t : nat) (a c : Z),
    (t < n)%nat -> foldl Z.add a (<[t := c]> (replicate n 0)) = a + c.
Proof.
  induction n as [|n IH]; intros t a c Ht; [lia|].
  destruct t as [|t]; simpl.
  - clear IH Ht. revert a c. induction n as [|n IHn]; intros a c; simpl;
      [reflexivity|].
    specialize (IHn (a + 0) c). simpl in IHn.
    assert (Hz : forall b, foldl Z.add b (replicate n 0) = b).
    { clear. induction n as [|n IHn]; intros b; simpl; [reflexivity|].
      rewrite IHn. lia. }
    rewrite Hz. lia.
  - rewrite IH by lia. lia.
Qed.

Lemma last_std_partial_sum (xs : list Z) :
  xs <> [] ->
  list.last (PartialSum.std_partial_sum Z.add xs) = Some (foldl Z.add 0 xs).
Proof.
  intros Hne. rewrite last_lookup, PartialSum.length_std_partial_sum.
  rewrite (PartialSum.lookup_std_partial_sum Z.add 0 Z.add_0_l).
  - unfold PartialSum.sum_list. f_equal. f_equal. apply firstn_all2.
    destruct xs; simpl; lia.
  - destruct xs; [congruence|simpl; lia].
Qed.

Lemma on_each_whole_cons {S : Type} (body : nat -> nat -> S -> outcome S)
    (total tid : nat) (order : list nat) (s : S) :
  on_each_whole body total (tid :: order) s
  = (s ← body tid total s; on_each_whole body total order s).
Proof. reflexivity. Qed.

Lemma bind_Ok {R Q : Type} (x : R) (k : R -> outcome Q) : (Ok x ≫= k) = k x.
Proof. reflexivity. Qed.

Let counted (first last : Z) : Z :=
  Z.of_nat (length (List.filter pred_iterator (offsets first last))).

Lemma count_pass_first (first last : Z) (tid threads : nat) (ps : list Z) :
  first <= last -> (tid < length ps)%nat ->
  count_pass block_range pred_iterator last tid threads (first, ps)
  = Ok (last, <[tid := counted first last]> ps).
Proof.
  intros Hle Htid. unfold count_pass.
  destruct (block_range first last tid threads) as [b e].
  destruct (Z.ltb_spec last first); [lia|].
  rewrite count_loop_counts by lia. simpl.
  destruct (Nat.ltb_spec tid (length ps)); [|lia]. reflexivity.
Qed.

Lemma count_pass_rest (last : Z) (threads : nat) (order : list nat)
    (ps : list Z) :
  Forall (fun tid => ps !! tid = Some 0) order ->
  on_each_whole (count_pass block_range pred_iterator last) threads order
                (last, ps)
  = Ok (last, ps).
Proof.
  induction order as [|tid order IH]; intros Hall; [reflexivity|].
  inversion Hall as [|? ? Htid Hrest]; subst.
  rewrite on_each_whole_cons.
  rewrite count_pass_first; [|lia|now apply lookup_lt_Some in Htid].
  rewrite bind_Ok. unfold counted. rewrite offsets_nil by lia.
  change (Z.of_nat (length (List.filter pred_iterator []))) with 0.
  rewrite list_insert_id by exact Htid. now apply IH.
Qed.

(** What the assertion of thread [tid] compares when the thread copies
    nothing. *)
Definition end_is_count (d_first : Z) (ps : list Z) (tid : nat) : bool :=
  d_first + (if (tid =? 0)%nat then 0 else default 0 (ps !! (tid - 1)%nat))
  =? default 0 (ps !! tid).

Lemma copy_pass_empty (inp out : list A) (last d_first : Z) (ps : list Z)
    (threads tid : nat) :
  0 <= last <= Z.of_nat (length inp) ->
  block_range last last tid threads = (last, last) ->
  (tid < threads)%nat -> length ps = threads ->
  copy_pass assertions block_range pred inp last last d_first ps tid threads
            out
  = (_ ← debug_assert assertions (Ok (end_is_count d_first ps tid)); Ok out).
Proof.
  intros Hlast Hempty Htid Hlen. unfold copy_pass, end_is_count.
  rewrite Hempty.
  destruct (lookup_lt_is_Some_2 ps tid ltac:(lia)) as [v Hv]. rewrite Hv.
  assert (Hoff : (if (tid =? 0)%nat then Ok 0
                  else match ps !! (tid - 1)%nat with
                       | Some v => Ok v
                       | None => Undefined
                       end)
                 = Ok (if (tid =? 0)%nat then 0
                       else default 0 (ps !! (tid - 1)%nat))).
  { destruct (Nat.eqb_spec tid 0); [reflexivity|].
    destruct (lookup_lt_is_Some_2 ps (tid - 1)%nat ltac:(lia)) as [w Hw].
    now rewrite Hw. }
  rewrite Hoff, bind_Ok.
  unfold std_copy_if.
  destruct (Z.leb_spec 0 last); [|lia].
  destruct (Z.leb_spec last last); [|lia].
  destruct (Z.leb_spec last (Z.of_nat (length inp))); [|lia].
  rewrite Z.sub_diag. reflexivity.
Qed.

Lemma copy_pass_rest (inp out : list A) (last d_first : Z) (ps : list Z)
    (threads : nat) (order : list nat) :
  0 <= last <= Z.of_nat (length inp) ->
  (forall tid, (tid < threads)%nat ->
     block_range last last tid threads = (last, last)) ->
  Forall (fun tid => (tid < threads)%nat) order ->
  length ps = threads ->
  on_each_whole (copy_pass assertions block_range pred inp last last d_first
                           ps)
                threads order out
  = if assertions && negb (forallb (end_is_count d_first ps) order)
    then Aborted else Ok out.
Proof.
  intros Hlast Hempty Hall Hlen.
  induction order as [|tid order IH]; [now rewrite andb_false_r|].
  pose proof (Forall_inv Hall) as Htid.
  pose proof (Forall_inv_tail Hall) as Hrest. simpl in Htid.
  rewrite on_each_whole_cons, copy_pass_empty by auto.
  cbn [forallb]. destruct assertions.
  - destruct (end_is_count d_first ps tid).
    + rewrite debug_assert_holds, !bind_Ok. rewrite (IH Hrest). reflexivity.
    + rewrite debug_assert_fails. reflexivity.
  - rewrite debug_assert_off, !bind_Ok. apply (IH Hrest).
Qed.

Lemma foldl_add_zeros (n : nat) (a : Z) : foldl Z.add a (replicate n 0) = a.
Proof.
  revert a. induction n as [|n IH]; intros a; [reflexivity|].
  simpl. rewrite IH. lia.
Qed.

(** The prefix sums when only thread [t0] counted something. *)
Lemma end_is_count_first (d_first c : Z) (threads t0 : nat) :
  (t0 < threads)%nat ->
  end_is_count d_first
    (PartialSum.std_partial_sum Z.add (<[t0 := c]> (replicate threads 0))) t0
  = (d_first =? c).
Proof.
  intros Ht0. unfold end_is_count.
  assert (Hlen : length (<[t0 := c]> (replicate threads 0)) = threads)
    by now rewrite length_insert, length_replicate.
  assert (Hat : PartialSum.std_partial_sum Z.add
                  (<[t0 := c]> (replicate threads 0)) !! t0 = Some c).
  { rewrite (PartialSum.lookup_std_partial_sum Z.add 0 Z.add_0_l) by lia.
    unfold PartialSum.sum_list. f_equal.
    rewrite take_insert_lt, take_replicate by lia.
    replace (S t0 `min` threads)%nat with (S t0) by lia.
    rewrite foldl_add_insert_zeros by lia. lia. }
  rewrite Hat. cbn [default from_option id].
  destruct (Nat.eqb_spec t0 0) as [->|Hne].
  - f_equal; lia.
  - rewrite (PartialSum.lookup_std_partial_sum Z.add 0 Z.add_0_l) by lia.
    unfold PartialSum.sum_list. cbn [default from_option id].
    replace (S (t0 - 1)) with t0 by lia.
    rewrite take_insert_ge, take_replicate by lia.
    rewrite foldl_add_zeros. f_equal; lia.
Qed.

(** copy_if never copies: the counting loop of whichever thread runs first
    moves [first] up to [last], so every block of the copying pass is
    empty. Whenever the threads' bodies run one after the other (as with
    one active thread), a build without assertions leaves the output as
    it was and returns the iterator that lies as many places past
    [d_first] as there are positions of the range whose iterator
    satisfies the predicate; a build with assertions aborts in the
    assertion of the copying pass whenever [d_first] is not that number. *)
Theorem copy_if_copies_nothing (threads : nat) (order1 order2 : list nat)
    (inp out : list A) (first last d_first : Z) :
  (0 < threads)%nat ->
  order1 ≡ₚ seq 0 threads -> order2 ≡ₚ seq 0 threads ->
  0 <= first -> first <= last -> last <= Z.of_nat (length inp) ->
  (forall tid, (tid < threads)%nat ->
     block_range last last tid threads = (last, last)) ->
  let count := Z.of_nat (length (List.filter pred_iterator
                                   (offsets first last))) in
  (assertions = false ->
   copy_if assertions block_range pred_iterator pred threads order1 order2
           inp out first last d_first
   = Ok (out, d_first + count)) /\
  (assertions = true -> d_first <> count ->
   copy_if assertions block_range pred_iterator pred threads order1 order2
           inp out first last d_first
   = Aborted).
Proof.
  intros Hthreads Hp1 Hp2 Hlo Hle Hhi Hempty count.
  assert (Hin1 : Forall (fun tid => (tid < threads)%nat) order1).
  { apply Forall_forall. intros tid Htid. rewrite Hp1 in Htid.
    apply elem_of_seq in Htid. lia. }
  assert (Hin2 : Forall (fun tid => (tid < threads)%nat) order2).
  { apply Forall_forall. intros tid Htid. rewrite Hp2 in Htid.
    apply elem_of_seq in Htid. lia. }
  assert (Hnd : NoDup order1) by (rewrite Hp1; apply NoDup_seq).
  destruct order1 as [|t0 order1].
  { apply Permutation_length in Hp1. rewrite length_seq in Hp1.
    simpl in Hp1. lia. }
  inversion Hin1 as [|? ? Ht0 Hrest]; subst.
  apply NoDup_cons in Hnd as [Hnotin _].
  unfold copy_if. rewrite on_each_whole_cons.
  rewrite count_pass_first by (rewrite ?length_replicate; lia).
  rewrite bind_Ok, count_pass_rest.
  2:{ apply Forall_forall. intros tid Htid.
      rewrite list_lookup_insert_ne by (intros ->; contradiction).
      apply lookup_replicate_2.
      eapply Forall_forall in Hrest; [|exact Htid]. exact Hrest. }
  rewrite bind_Ok. rewrite copy_pass_rest; try assumption.
  2:{ lia. }
  2:{ now rewrite PartialSum.length_std_partial_sum, length_insert,
        length_replicate. }
  unfold counted. split.
  - intros Ha. rewrite Ha. cbn [andb].
    rewrite bind_Ok, last_std_partial_sum.
    2:{ intros He. apply (f_equal length) in He.
        rewrite length_insert, length_replicate in He. simpl in He. lia. }
    rewrite foldl_add_insert_zeros by exact Ht0. reflexivity.
  - intros Ha Hne. rewrite Ha. cbn [andb].
    assert (Hfail : forallb (end_is_count d_first
                     (PartialSum.std_partial_sum Z.add
                        (<[t0 := Z.of_nat (length (List.filter pred_iterator
                                                     (offsets first last)))]>
                           (replicate threads 0)))) order2 = false).
    { apply not_true_is_false. intros Hall.
      rewrite forallb_forall in Hall.
      assert (Hin : List.In t0 order2).
      { apply list_elem_of_In. rewrite Hp2. apply elem_of_seq. lia. }
      specialize (Hall t0 Hin).
      rewrite end_is_count_first in Hall by exact Ht0.
      apply Z.eqb_eq in Hall. contradiction. }
    rewrite Hfail. reflexivity.
Qed.
End CopyIfFacts.

Lemma copy_if_copies_nothing_witness :
  copy_if false sample_block_range (fun it => Z.even it) Z.even 2
          [1; 0]%nat [0; 1]%nat [10; 20; 30; 40; 50] [0; 0; 0; 0] 1 4 0
  = Ok ([0; 0; 0; 0], 1) /\
  copy_if true sample_block_range (fun it => Z.even it) Z.even 2
          [1; 0]%nat [0; 1]%nat [10; 20; 30; 40; 50] [0; 0; 0; 0] 1 4 0
  = Aborted.
Proof.
  split.
  - apply (copy_if_copies_nothing false sample_block_range
             (fun it => Z.even it) Z.even 2 [1; 0]%nat [0; 1]%nat
             [10; 20; 30; 40; 50] [0; 0; 0; 0] 1 4 0);
      [lia|apply perm_swap|reflexivity|lia|lia|simpl; lia| |reflexivity].
    intros tid Htid. destruct tid as [|[|tid]]; [reflexivity|reflexivity|lia].
  - apply (copy_if_copies_nothing true sample_block_range
             (fun it => Z.even it) Z.even 2 [1; 0]%nat [0; 1]%nat
             [10; 20; 30; 40; 50] [0; 0; 0; 0] 1 4 0);
      [lia|apply perm_swap|reflexivity|lia|lia|simpl; lia| |reflexivity|].
    + intros tid Htid.
      destruct tid as [|[|tid]]; [reflexivity|reflexivity|lia].
    + vm_compute. discriminate.
Defined.

End CopyIf.

(** ** sort *)

From Stdlib Require Import Sorted.

Module Sort.
Import SizeT Partition DualPartition PartitionSingle.
Local Open Scope Z_scope.

#[local] Existing Instance result_ret.
#[local] Existing Instance result_bind.

Section Algorithm.
Context {A : Type}.
Variable comp : A -> A -> bool.

(** [choose_rand(first, last)]; [rand_value] is what [rand()] returned. *)
Definition choose_rand (first last rand_value : Z) : Z :=
  let dist := wrap (last - first) in
  if dist =? 0 then first else first + rand_value mod dist.

(** [neq_to]: not equal in terms of less-than. *)
Definition neq_to (a b : A) : bool := comp a b || comp b a.

(** The C++ library's [std::sort] on the range from [lo] to [hi], as an
    insertion sort; the standard leaves the order of equivalent elements
    open. *)
Fixpoint insert_sorted (x : A) (l : list A) : list A :=
  match l with
  | [] => [x]
  | y :: l' => if comp x y then x :: l else y :: insert_sorted x l'
  end.

Definition std_sort (arr : list A) (lo hi : Z) : result (list A) :=
  if (0 <=? lo) && (lo <=? hi) && (hi <=? Z.of_nat (length arr)) then
    let n := Z.to_nat lo in
    let len := Z.to_nat (hi - lo) in
    Ok (take n arr ++ foldr insert_sorted [] (take len (drop n arr))
          ++ drop (n + len) arr)
  else Undefined.

(** The C++ library's [std::find_if]: the first position from [first] on
    whose element satisfies [q], or [last]. *)
Definition std_find_if (q : A -> bool) (arr : list A) (first last : Z)
  : result Z :=
  scan_up (fun a => negb (q a)) (S (length arr)) arr first last.

(** [sort_helper::operator()(bounds, ctx)]: the array afterwards and the
    pairs handed to [ctx.push], in order. *)
Definition sort_helper (rand_value : Z) (arr : list A) (bounds : Z * Z)
  : result (list A * list (Z * Z)) :=
  if bounds.2 - bounds.1 <=? 1024 then
    arr ← std_sort arr bounds.1 bounds.2;
    Ok (arr, [])
  else
    let pivot := choose_rand bounds.1 bounds.2 rand_value in
    pv ← deref arr pivot;
    '(arr, pivot) ← std_partition (fun a => comp a pv) arr bounds.1 bounds.2;
    let lower := if bounds.1 =? pivot then [] else [(bounds.1, pivot)] in
    pivot ← std_find_if (fun a => neq_to a pv) arr pivot bounds.2;
    let upper := if bounds.2 =? pivot then [] else [(pivot, bounds.2)] in
    Ok (arr, lower ++ upper).

(** Modelled from the spec: for_each over a worklist whose items may push
    more items (Loops.h is not part of the sources at hand). Any worker
    takes any pending item and runs the body on it; one invocation of the
    body is atomic, and what it pushed becomes pending when it returns. The
    dispatch ends when nothing is pending. [rand()] may return any
    non-negative value. *)
Inductive sort_step : list A * list (Z * Z) -> list A * list (Z * Z) -> Prop :=
| sort_run pre bounds post arr rand_value arr' pushed :
    0 <= rand_value ->
    sort_helper rand_value arr bounds = Ok (arr', pushed) ->
    sort_step (arr, pre ++ bounds :: post) (arr', pre ++ post ++ pushed).

(** [sort(first, last, comp)] returns with the array [arr']. *)
Definition sort_returns (arr : list A) (first last : Z) (arr' : list A)
  : Prop :=
  if last - first <=? 1024 then std_sort arr first last = Ok arr'
  else rtc sort_step (arr, [(first, last)]) (arr', []).

(** No element of the range comes before a smaller one. *)
Definition sorted_range (arr : list A) (lo hi : Z) : Prop :=
  forall i j x y,
    lo <= i -> i < j -> j < hi ->
    arr !! Z.to_nat i = Some x -> arr !! Z.to_nat j = Some y ->
    comp y x = false.
End Algorithm.

(** *** Facts *)

Section Rearranging.
Context {A : Type}.

(** Outside the range nothing moved. *)
Definition same_outside (arr arr' : list A) (lo hi : Z) : Prop :=
  forall i, 0 <= i -> ~ (lo <= i < hi) ->
    arr' !! Z.to_nat i = arr !! Z.to_nat i.

Lemma range_split (arr : list A) (lo hi : Z) :
  0 <= lo <= hi -> hi <= Z.of_nat (length arr) ->
  arr = take (Z.to_nat lo) arr
        ++ take (Z.to_nat (hi - lo)) (drop (Z.to_nat lo) arr)
        ++ drop (Z.to_nat hi) arr.
Proof.
  intros Hlo Hhi.
  rewrite <- (take_drop (Z.to_nat lo) arr) at 1. f_equal.
  rewrite <- (take_drop (Z.to_nat (hi - lo)) (drop (Z.to_nat lo) arr)) at 1.
  f_equal. rewrite drop_drop. f_equal. lia.
Qed.

Lemma range_perm (arr arr' : list A) (lo hi : Z) :
  0 <= lo <= hi -> hi <= Z.of_nat (length arr) ->
  length arr' = length arr -> arr' ≡ₚ arr -> same_outside arr arr' lo hi ->
  take (Z.to_nat (hi - lo)) (drop (Z.to_nat lo) arr')
  ≡ₚ take (Z.to_nat (hi - lo)) (drop (Z.to_nat lo) arr).
Proof.
  intros Hlo Hhi Hlen Hperm Hout.
  assert (Htake : take (Z.to_nat lo) arr' = take (Z.to_nat lo) arr).
  { apply list_eq. intros i.
    destruct (decide (i < Z.to_nat lo)%nat) as [Hi|Hi].
    - rewrite !lookup_take_lt by lia.
      specialize (Hout (Z.of_nat i) ltac:(lia) ltac:(lia)).
      now rewrite Nat2Z.id in Hout.
    - rewrite !lookup_take_ge by lia. reflexivity. }
  assert (Hdrop : drop (Z.to_nat hi) arr' = drop (Z.to_nat hi) arr).
  { apply list_eq. intros i. rewrite !lookup_drop.
    specialize (Hout (Z.of_nat (Z.to_nat hi + i)) ltac:(lia) ltac:(lia)).
    now rewrite Nat2Z.id in Hout. }
  assert (Hsplit :
            take (Z.to_nat lo) arr'
              ++ take (Z.to_nat (hi - lo)) (drop (Z.to_nat lo) arr')
              ++ drop (Z.to_nat hi) arr'
            ≡ₚ take (Z.to_nat lo) arr
              ++ take (Z.to_nat (hi - lo)) (drop (Z.to_nat lo) arr)
              ++ drop (Z.to_nat hi) arr).
  { rewrite <- (range_split arr lo hi Hlo Hhi).
    now rewrite <- (range_split arr' lo hi Hlo ltac:(lia)). }
  rewrite Htake, Hdrop in Hsplit.
  apply Permutation_app_inv_l in Hsplit.
  now apply Permutation_app_inv_r in Hsplit.
Qed.

Lemma range_lookup (arr : list A) (lo hi i : Z) :
  lo <= i < hi -> 0 <= lo ->
  take (Z.to_nat (hi - lo)) (drop (Z.to_nat lo) arr) !! Z.to_nat (i - lo)
  = arr !! Z.to_nat i.
Proof.
  intros Hi Hlo. rewrite lookup_take_lt by lia. rewrite lookup_drop.
  f_equal. lia.
Qed.

(** An element found in the range afterwards was in the range before. *)
Lemma range_origin (arr arr' : list A) (lo hi : Z) :
  0 <= lo <= hi -> hi <= Z.of_nat (length arr) ->
  length arr' = length arr -> arr' ≡ₚ arr -> same_outside arr arr' lo hi ->
  forall i x, lo <= i < hi -> arr' !! Z.to_nat i = Some x ->
    exists k, lo <= k < hi /\ arr !! Z.to_nat k = Some x.
Proof.
  intros Hlo Hhi Hlen Hperm Hout i x Hi Hx.
  pose proof (range_perm arr arr' lo hi Hlo Hhi Hlen Hperm Hout) as Hmid.
  rewrite <- (range_lookup arr' lo hi i Hi ltac:(lia)) in Hx.
  apply list_elem_of_lookup_2 in Hx. rewrite Hmid in Hx.
  apply list_elem_of_lookup_1 in Hx as [k Hk].
  pose proof (lookup_lt_Some _ _ _ Hk) as Hlt.
  rewrite length_take, length_drop in Hlt.
  exists (lo + Z.of_nat k). split; [lia|].
  rewrite <- (range_lookup arr lo hi (lo + Z.of_nat k)) by lia.
  rewrite <- Hk. f_equal. lia.
Qed.

Lemma range_destination (arr arr' : list A) (lo hi : Z) :
  0 <= lo <= hi -> hi <= Z.of_nat (length arr) ->
  length arr' = length arr -> arr' ≡ₚ arr -> same_outside arr arr' lo hi ->
  forall k x, lo <= k < hi -> arr !! Z.to_nat k = Some x ->
    exists i, lo <= i < hi /\ arr' !! Z.to_nat i = Some x.
Proof.
  intros Hlo Hhi Hlen Hperm Hout k x Hk Hx.
  pose proof (range_perm arr arr' lo hi Hlo Hhi Hlen Hperm Hout) as Hmid.
  rewrite <- (range_lookup arr lo hi k Hk ltac:(lia)) in Hx.
  apply list_elem_of_lookup_2 in Hx. rewrite <- Hmid in Hx.
  apply list_elem_of_lookup_1 in Hx as [i Hi].
  pose proof (lookup_lt_Some _ _ _ Hi) as Hlt.
  rewrite length_take, length_drop in Hlt.
  exists (lo + Z.of_nat i). split; [lia|].
  rewrite <- (range_lookup arr' lo hi (lo + Z.of_nat i)) by lia.
  rewrite <- Hi. f_equal. lia.
Qed.
End Rearranging.

Section Helper.
Context {A : Type}.
Variable comp : A -> A -> bool.

Lemma choose_rand_in (b e rand_value : Z) :
  0 <= rand_value -> b < e -> e - b < modulus ->
  b <= choose_rand b e rand_value < e.
Proof.
  intros Hr Hbe Hsmall. unfold choose_rand.
  rewrite wrap_small by lia.
  destruct (Z.eqb_spec (e - b) 0); [lia|].
  pose proof (Z.mod_pos_bound rand_value (e - b) ltac:(lia)). lia.
Qed.

Lemma choose_rand_at (b e k : Z) :
  b <= k < e -> e - b < modulus -> choose_rand b e (k - b) = k.
Proof.
  intros Hk Hsmall. unfold choose_rand.
  rewrite wrap_small by lia.
  destruct (Z.eqb_spec (e - b) 0); [lia|].
  rewrite Z.mod_small by lia. lia.
Qed.

(** What [sort_helper] does with a range of more than 1024 elements. *)
Lemma sort_helper_large (rand_value : Z) (arr : list A) (b e : Z) :
  0 <= rand_value -> 0 <= b -> 1024 < e - b -> e <= Z.of_nat (length arr) ->
  Z.of_nat (length arr) < modulus ->
  exists pv arr' p p',
    arr !! Z.to_nat (choose_rand b e rand_value) = Some pv /\
    sort_helper comp rand_value arr (b, e)
    = Ok (arr', (if b =? p then [] else [(b, p)])
                ++ (if e =? p' then [] else [(p', e)])) /\
    (b <= p /\ p <= p' /\ p' <= e) /\
    (length arr' = length arr /\ arr' ≡ₚ arr /\ same_outside arr arr' b e) /\
    (forall i x, b <= i < p -> arr' !! Z.to_nat i = Some x ->
       comp x pv = true) /\
    (forall i x, p <= i < e -> arr' !! Z.to_nat i = Some x ->
       comp x pv = false) /\
    (forall i x, p <= i < p' -> arr' !! Z.to_nat i = Some x ->
       comp pv x = false) /\
    (p' < e -> exists x, arr' !! Z.to_nat p' = Some x /\
                         neq_to comp x pv = true).
Proof.
  intros Hr Hb Hbig He Hmod.
  pose proof (choose_rand_in b e rand_value Hr ltac:(lia) ltac:(lia)) as Hk.
  destruct (deref_ok arr (choose_rand b e rand_value) ltac:(lia))
    as (pv & Hderef & Hpv).
  destruct (std_partition_spec (fun a => comp a pv) arr b e ltac:(lia) He)
    as (arr' & p & Hpart & Hp & [Hperm Hlen] & Hyes & Hno & Hframe).
  destruct (scan_up_spec (fun a => negb (neq_to comp a pv))
              (S (length arr')) arr' p e ltac:(lia) ltac:(lia) ltac:(lia))
    as (p' & Hscan & Hp' & Heq & Hstop).
  exists pv, arr', p, p'. split; [exact Hpv|]. split.
  { unfold sort_helper. simpl.
    destruct (Z.leb_spec (e - b) 1024); [lia|].
    rewrite Hderef. simpl. rewrite Hpart. simpl.
    unfold std_find_if. rewrite Hscan. reflexivity. }
  split; [lia|]. split; [auto|]. split; [|split; [|split]].
  - intros i x Hi Hx. destruct (Hyes i Hi) as (a & Ha & Hc). congruence.
  - intros i x Hi Hx. destruct (Hno i Hi) as (a & Ha & Hc). congruence.
  - intros i x Hi Hx. destruct (Heq i Hi) as (a & Ha & Hc).
    assert (a = x) by congruence. subst a.
    apply negb_true_iff in Hc. unfold neq_to in Hc.
    now apply orb_false_iff in Hc.
  - intros Hlt. destruct (Hstop Hlt) as (a & Ha & Hc).
    exists a. split; [exact Ha|]. now apply negb_false_iff in Hc.
Qed.
End Helper.

Section Order.
Context {A : Type}.
Variable comp : A -> A -> bool.

(** [comp] is a strict weak ordering, as [std::sort] asks of it. *)
Hypothesis comp_irrefl : forall a, comp a a = false.
Hypothesis comp_trans : forall a b c,
  comp a b = true -> comp b c = true -> comp a c = true.
Hypothesis comp_neg_trans : forall a b c,
  comp a b = false -> comp b c = false -> comp a c = false.

Lemma comp_asym (a b : A) : comp a b = true -> comp b a = false.
Proof.
  intros Hab. destruct (comp b a) eqn:Hba; [|reflexivity].
  rewrite <- (comp_irrefl a). symmetry. now apply (comp_trans a b a).
Qed.

Lemma insert_sorted_perm (x : A) (l : list A) :
  insert_sorted comp x l ≡ₚ x :: l.
Proof.
  induction l as [|y l IH]; simpl; [reflexivity|].
  destruct (comp x y); [reflexivity|].
  rewrite IH. apply perm_swap.
Qed.

Lemma sort_list_perm (l : list A) : foldr (insert_sorted comp) [] l ≡ₚ l.
Proof.
  induction l as [|x l IH]; simpl; [reflexivity|].
  now rewrite insert_sorted_perm, IH.
Qed.

Lemma insert_sorted_sorted (x : A) (l : list A) :
  StronglySorted (fun a b => comp b a = false) l ->
  StronglySorted (fun a b => comp b a = false) (insert_sorted comp x l).
Proof.
  induction l as [|y l IH]; intros Hs; simpl.
  - constructor; [constructor|constructor].
  - inversion Hs as [|? ? Hl Hy]; subst.
    destruct (comp x y) eqn:Hxy.
    + constructor; [exact Hs|]. constructor; [now apply comp_asym|].
      eapply Forall_impl; [exact Hy|]. intros z Hz. simpl in Hz.
      apply (comp_neg_trans z y x); [exact Hz|now apply comp_asym].
    + constructor; [now apply IH|].
      rewrite insert_sorted_perm. constructor; assumption.
Qed.

Lemma sort_list_sorted (l : list A) :
  StronglySorted (fun a b => comp b a = false)
                 (foldr (insert_sorted comp) [] l).
Proof.
  induction l as [|x l IH]; simpl; [constructor|].
  now apply insert_sorted_sorted.
Qed.

Lemma sorted_lookup (l : list A) :
  StronglySorted (fun a b => comp b a = false) l ->
  forall (i j : nat) x y,
    (i < j)%nat -> l !! i = Some x -> l !! j = Some y -> comp y x = false.
Proof.
  induction 1 as [|a l Hl IH Ha]; intros i j x y Hij Hx Hy.
  - now rewrite lookup_nil in Hx.
  - destruct j as [|j]; [lia|]. simpl in Hy. destruct i as [|i].
    + simpl in Hx. injection Hx as <-.
      rewrite Forall_forall in Ha. apply Ha.
      eapply list_elem_of_lookup_2; exact Hy.
    + simpl in Hx. apply (IH i j); [lia|assumption|assumption].
Qed.

Lemma std_sort_spec (arr : list A) (lo hi : Z) :
  0 <= lo <= hi -> hi <= Z.of_nat (length arr) ->
  exists arr',
    std_sort comp arr lo hi = Ok arr' /\
    (length arr' = length arr /\ arr' ≡ₚ arr /\ same_outside arr arr' lo hi) /\
    sorted_range comp arr' lo hi.
Proof.
  intros Hlo Hhi. unfold std_sort.
  destruct (Z.leb_spec 0 lo); [|lia].
  destruct (Z.leb_spec lo hi); [|lia].
  destruct (Z.leb_spec hi (Z.of_nat (length arr))); [|lia]. simpl.
  set (n := Z.to_nat lo). set (len := Z.to_nat (hi - lo)).
  set (mid := take len (drop n arr)).
  set (srt := foldr (insert_sorted comp) [] mid).
  assert (Hmid : length mid = len)
    by (unfold mid; rewrite length_take, length_drop; lia).
  assert (Hsrt : length srt = len).
  { rewrite <- Hmid. apply Permutation_length, sort_list_perm. }
  assert (Hsplit : arr = take n arr ++ mid ++ drop (n + len) arr).
  { unfold mid. rewrite <- (take_drop n arr) at 1. f_equal.
    rewrite <- (take_drop len (drop n arr)) at 1. f_equal.
    now rewrite drop_drop. }
  assert (Htake : length (take n arr) = n) by (rewrite length_take; lia).
  eexists. split; [reflexivity|]. split; [split; [|split]|].
  - rewrite !length_app, Htake, length_drop. lia.
  - transitivity (take n arr ++ mid ++ drop (n + len) arr);
      [|now rewrite <- Hsplit].
    apply Permutation_app_head, Permutation_app_tail, sort_list_perm.
  - intros i Hi0 Hout. destruct (decide (i < lo)) as [Hlt|Hge].
    + rewrite lookup_app_l by lia. apply lookup_take_lt. lia.
    + rewrite lookup_app_r by lia. rewrite Htake.
      rewrite lookup_app_r by lia. rewrite lookup_drop. f_equal. lia.
  - intros i j x y Hi Hij Hj Hx Hy.
    assert (Hl : forall k, lo <= k < hi ->
               (take n arr ++ srt ++ drop (n + len) arr) !! Z.to_nat k
               = srt !! (Z.to_nat k - n)%nat).
    { intros k Hk. rewrite lookup_app_r by lia. rewrite Htake.
      apply lookup_app_l. lia. }
    rewrite Hl in Hx, Hy by lia.
    apply (sorted_lookup srt (sort_list_sorted mid)
             (Z.to_nat i - n)%nat (Z.to_nat j - n)%nat); [lia|assumption..].
Qed.
End Order.

(** *** The worklist of pending ranges *)

Definition inside (b e : Z) (r : Z * Z) : Prop :=
  b <= r.1 /\ r.1 < r.2 /\ r.2 <= e.

Definition apart (r s : Z * Z) : Prop := r.2 <= s.1 \/ s.2 <= r.1.

Fixpoint all_apart (wl : list (Z * Z)) : Prop :=
  match wl with
  | [] => True
  | r :: wl' => Forall (apart r) wl' /\ all_apart wl'
  end.

(** Both positions lie in one pending range. *)
Definition covered (wl : list (Z * Z)) (i j : Z) : Prop :=
  exists r, r ∈ wl /\ r.1 <= i /\ j < r.2.

(** Two elements of the range that no pending range holds together are in
    order already. *)
Definition ordered_outside {A : Type} (comp : A -> A -> bool)
    (arr : list A) (wl : list (Z * Z)) (lo hi : Z) : Prop :=
  forall i j x y,
    lo <= i -> i < j -> j < hi ->
    arr !! Z.to_nat i = Some x -> arr !! Z.to_nat j = Some y ->
    ~ covered wl i j -> comp y x = false.

(** The lengths of the pending ranges, each counted with one extra. *)
Definition pending_size (wl : list (Z * Z)) : Z :=
  foldr (fun r acc => r.2 - r.1 + 1 + acc) 0 wl.

Lemma all_apart_app (l1 l2 : list (Z * Z)) :
  all_apart (l1 ++ l2) <->
  all_apart l1 /\ all_apart l2 /\
  (forall r s, r ∈ l1 -> s ∈ l2 -> apart r s).
Proof.
  induction l1 as [|a l1 IH]; simpl.
  - split; [intros H; split; [exact I|split; [exact H|]]|tauto].
    intros r s Hr. inversion Hr.
  - rewrite IH, Forall_app, !Forall_forall. split.
    + intros ((Ha1 & Ha2) & H1 & H2 & Hc). split; [tauto|]. split; [tauto|].
      intros r s Hr Hs. apply elem_of_cons in Hr as [->|Hr]; auto.
    + intros ((Ha1 & H1) & H2 & Hc). split; [split; [exact Ha1|]|].
      * intros s Hs. apply Hc; [constructor|exact Hs].
      * split; [exact H1|split; [exact H2|]].
        intros r s Hr Hs. apply Hc; [now constructor|exact Hs].
Qed.

Lemma apart_sym (r s : Z * Z) : apart r s -> apart s r.
Proof. unfold apart. tauto. Qed.

Lemma apart_inside (r s : Z * Z) (b e : Z) :
  apart r (b, e) -> inside b e s -> apart r s.
Proof. unfold apart, inside. simpl. lia. Qed.

Lemma pending_size_app (l1 l2 : list (Z * Z)) :
  pending_size (l1 ++ l2) = pending_size l1 + pending_size l2.
Proof. induction l1 as [|r l1 IH]; simpl; [reflexivity|]. rewrite IH. lia. Qed.

Lemma pending_size_nonneg (wl : list (Z * Z)) (lo hi : Z) :
  Forall (inside lo hi) wl -> 0 <= pending_size wl.
Proof.
  induction 1 as [|r wl Hr _ IH]; simpl; [lia|].
  unfold inside in Hr. lia.
Qed.

Section Worklist.
Context {A : Type}.
Variable comp : A -> A -> bool.
Hypothesis comp_irrefl : forall a, comp a a = false.
Hypothesis comp_trans : forall a b c,
  comp a b = true -> comp b c = true -> comp a c = true.
Hypothesis comp_neg_trans : forall a b c,
  comp a b = false -> comp b c = false -> comp a c = false.

(** One call of [sort_helper] on a range inside the array: it returns, it
    rearranges the range only, what it pushes are separate parts of the
    range, and whatever it does not push again is in order. *)
Lemma sort_helper_spec (rand_value : Z) (arr : list A) (b e : Z) :
  0 <= rand_value -> 0 <= b -> b < e -> e <= Z.of_nat (length arr) ->
  Z.of_nat (length arr) < modulus ->
  exists arr' pushed,
    sort_helper comp rand_value arr (b, e) = Ok (arr', pushed) /\
    (length arr' = length arr /\ arr' ≡ₚ arr /\ same_outside arr arr' b e) /\
    Forall (inside b e) pushed /\ all_apart pushed /\
    ordered_outside comp arr' pushed b e /\
    (e - b <= 1024 -> pushed = []).
Proof.
  intros Hr Hb Hbe He Hmod.
  destruct (Z.le_gt_cases (e - b) 1024) as [Hsmall|Hbig].
  - destruct (std_sort_spec comp comp_irrefl comp_trans comp_neg_trans
                arr b e ltac:(lia) He) as (arr' & Hrun & Hre & Hsorted).
    exists arr', []. split.
    { unfold sort_helper. simpl.
      destruct (Z.leb_spec (e - b) 1024); [|lia]. now rewrite Hrun. }
    split; [exact Hre|]. split; [constructor|]. split; [exact I|].
    split; [|reflexivity].
    intros i j x y Hi Hij Hj Hx Hy _. exact (Hsorted i j x y Hi Hij Hj Hx Hy).
  - destruct (sort_helper_large comp rand_value arr b e Hr Hb ltac:(lia) He Hmod)
      as (pv & arr' & p & p' & _ & Hrun & Hp & Hre & Hlow & Hup & Heq & _).
    eexists _, _. split; [exact Hrun|]. split; [exact Hre|].
    assert (Hin1 : b <> p -> (b, p) ∈ (if b =? p then [] else [(b, p)])
                                       ++ (if e =? p' then [] else [(p', e)])).
    { intros Hne. destruct (Z.eqb_spec b p); [lia|].
      apply elem_of_app. left. constructor. }
    assert (Hin2 : e <> p' -> (p', e) ∈ (if b =? p then [] else [(b, p)])
                                        ++ (if e =? p' then [] else [(p', e)])).
    { intros Hne. destruct (Z.eqb_spec e p'); [lia|].
      apply elem_of_app. right. constructor. }
    split; [|split; [|split; [|lia]]].
    + apply Forall_app. split.
      * destruct (Z.eqb_spec b p); constructor; [|constructor].
        unfold inside. simpl. lia.
      * destruct (Z.eqb_spec e p'); constructor; [|constructor].
        unfold inside. simpl. lia.
    + apply all_apart_app. split; [|split].
      * destruct (b =? p); simpl; auto.
      * destruct (e =? p'); simpl; auto.
      * intros r s Hr' Hs.
        destruct (Z.eqb_spec b p); [inversion Hr'|].
        destruct (Z.eqb_spec e p'); [inversion Hs|].
        apply list_elem_of_singleton in Hr', Hs. subst.
        unfold apart. simpl. lia.
    + intros i j x y Hi Hij Hj Hx Hy Hnc.
      destruct (decide (j < p)) as [Hjp|Hjp].
      { exfalso. apply Hnc. exists (b, p). split; [apply Hin1; lia|].
        simpl. lia. }
      destruct (decide (p' <= i)) as [Hip|Hip].
      { exfalso. apply Hnc. exists (p', e). split; [apply Hin2; lia|].
        simpl. lia. }
      apply (comp_neg_trans y pv x).
      * apply (Hup j); [lia|exact Hy].
      * destruct (decide (i < p)) as [Hlt|Hge].
        -- apply comp_asym; auto. apply (Hlow i); [lia|exact Hx].
        -- apply (Heq i); [lia|exact Hx].
Qed.

(** A range all of whose elements are in order with the rest stays so when
    it is rearranged inside and its unfinished parts are made pending. *)
Lemma ordered_refine (arr arr' : list A) (rest pushed : list (Z * Z))
    (b e lo hi : Z) :
  0 <= lo -> lo <= b -> b < e -> e <= hi -> hi <= Z.of_nat (length arr) ->
  length arr' = length arr -> arr' ≡ₚ arr -> same_outside arr arr' b e ->
  (forall r, r ∈ rest -> apart r (b, e)) ->
  ordered_outside comp arr ((b, e) :: rest) lo hi ->
  ordered_outside comp arr' pushed b e ->
  ordered_outside comp arr' (rest ++ pushed) lo hi.
Proof.
  intros Hlo Hb Hbe He Hhi Hlen Hperm Hout Hapart Hold Hnew.
  intros i j x y Hi Hij Hj Hx Hy Hnc.
  assert (Hnot_rest : forall i' j', i' < j' ->
            (b <= i' < e \/ b <= j' < e) -> ~ (b <= i' /\ j' < e) ->
            ~ covered ((b, e) :: rest) i' j').
  { intros i' j' Hij' Hone Hboth (r & Hr & Hr1 & Hr2).
    apply elem_of_cons in Hr as [->|Hr]; [simpl in *; lia|].
    specialize (Hapart r Hr). unfold apart in Hapart. simpl in Hapart. lia. }
  destruct (decide (b <= i < e)) as [Hib|Hib];
    destruct (decide (b <= j < e)) as [Hjb|Hjb].
  - apply (Hnew i j x y); try lia; try assumption.
    intros (r & Hr & Hc). apply Hnc. exists r. split; [|exact Hc].
    apply elem_of_app. now right.
  - destruct (range_origin arr arr' b e ltac:(lia) ltac:(lia) Hlen Hperm Hout
                i x Hib Hx) as (k & Hk & Hkx).
    rewrite (Hout j ltac:(lia) Hjb) in Hy.
    apply (Hold k j x y); try lia; try assumption.
    apply Hnot_rest; lia.
  - destruct (range_origin arr arr' b e ltac:(lia) ltac:(lia) Hlen Hperm Hout
                j y Hjb Hy) as (k & Hk & Hky).
    rewrite (Hout i ltac:(lia) Hib) in Hx.
    apply (Hold i k x y); try lia; try assumption.
    apply Hnot_rest; lia.
  - rewrite (Hout i ltac:(lia) Hib) in Hx.
    rewrite (Hout j ltac:(lia) Hjb) in Hy.
    apply (Hold i j x y); try assumption.
    intros (r & Hr & Hr1 & Hr2).
    apply elem_of_cons in Hr as [->|Hr]; [simpl in *; lia|].
    apply Hnc. exists r. split; [|lia]. apply elem_of_app. now left.
Qed.
End Worklist.

Lemma ordered_outside_members {A : Type} (comp : A -> A -> bool)
    (arr : list A) (wl wl' : list (Z * Z)) (lo hi : Z) :
  (forall r, r ∈ wl -> r ∈ wl') ->
  ordered_outside comp arr wl lo hi -> ordered_outside comp arr wl' lo hi.
Proof.
  intros Hsub Hold i j x y Hi Hij Hj Hx Hy Hnc.
  apply (Hold i j x y); try assumption.
  intros (r & Hr & Hc). apply Hnc. exists r. split; [now apply Hsub|exact Hc].
Qed.

Lemma filter_none {A : Type} (f : A -> bool) (l : list A) :
  (forall x, x ∈ l -> f x = false) -> List.filter f l = [].
Proof.
  induction l as [|a l IH]; intros H; simpl; [reflexivity|].
  rewrite (H a) by constructor. apply IH. intros x Hx. apply H.
  now constructor.
Qed.

Lemma filter_all {A : Type} (f : A -> bool) (l : list A) :
  (forall x, x ∈ l -> f x = true) -> List.filter f l = l.
Proof.
  induction l as [|a l IH]; intros H; simpl; [reflexivity|].
  rewrite (H a) by constructor. f_equal. apply IH. intros x Hx. apply H.
  now constructor.
Qed.

(** sort_helper can hand back the very range it was given, with the array
    as it was: it does so whenever the pivot [rand()] selects is a smallest
    element of a range of more than 1024 elements whose first element is
    not a smallest one. Whether sort ends thus hangs on the values [rand()]
    returns. *)
Theorem sort_helper_can_stall {A : Type} (comp : A -> A -> bool)
    (rand_value : Z) (arr : list A) (b e : Z) (pv x0 : A) :
  0 <= rand_value -> 0 <= b -> 1024 < e - b -> e <= Z.of_nat (length arr) ->
  Z.of_nat (length arr) < modulus ->
  arr !! Z.to_nat (choose_rand b e rand_value) = Some pv ->
  (forall i x, b <= i < e -> arr !! Z.to_nat i = Some x -> comp x pv = false) ->
  arr !! Z.to_nat b = Some x0 -> comp pv x0 = true ->
  sort_helper comp rand_value arr (b, e) = Ok (arr, [(b, e)]).
Proof.
  intros Hr Hb Hbig He Hmod Hpv Hmin Hx0 Hgt.
  pose proof (choose_rand_in b e rand_value Hr ltac:(lia) ltac:(lia)) as Hk.
  destruct (deref_ok arr (choose_rand b e rand_value) ltac:(lia))
    as (pv' & Hderef & Hpv').
  assert (pv' = pv) by congruence. subst pv'.
  destruct (deref_ok arr b ltac:(lia)) as (x0' & Hderef0 & Hx0').
  assert (x0' = x0) by congruence. subst x0'.
  unfold sort_helper. simpl.
  destruct (Z.leb_spec (e - b) 1024); [lia|].
  rewrite Hderef. simpl. unfold std_partition.
  destruct (Z.leb_spec 0 b); [|lia].
  destruct (Z.leb_spec b e); [|lia].
  destruct (Z.leb_spec e (Z.of_nat (length arr))); [|lia]. simpl.
  assert (Hmid : forall x,
            x ∈ take (Z.to_nat (e - b)) (drop (Z.to_nat b) arr) ->
            comp x pv = false).
  { intros x Hx. apply list_elem_of_lookup_1 in Hx as [k Hk'].
    pose proof (lookup_lt_Some _ _ _ Hk') as Hlt.
    rewrite length_take, length_drop in Hlt.
    apply (Hmin (b + Z.of_nat k)); [lia|].
    rewrite <- (range_lookup arr b e (b + Z.of_nat k)) by lia.
    rewrite <- Hk'. f_equal. lia. }
  rewrite filter_none by exact Hmid.
  rewrite filter_all by (intros x Hx; now rewrite (Hmid x Hx)).
  simpl.
  replace (Z.to_nat b + Z.to_nat (e - b))%nat with (Z.to_nat e) by lia.
  rewrite <- (range_split arr b e) by lia.
  rewrite Z.add_0_r, Z.eqb_refl.
  unfold std_find_if. simpl.
  destruct (Z.eqb_spec b e); [lia|].
  rewrite Hderef0. simpl. unfold neq_to. rewrite Hgt, orb_true_r. simpl.
  destruct (Z.eqb_spec e b); [lia|]. reflexivity.
Qed.

Section Sorting.
Context {A : Type}.
Variable comp : A -> A -> bool.
Hypothesis comp_irrefl : forall a, comp a a = false.
Hypothesis comp_trans : forall a b c,
  comp a b = true -> comp b c = true -> comp a c = true.
Hypothesis comp_neg_trans : forall a b c,
  comp a b = false -> comp b c = false -> comp a c = false.

Variable arr0 : list A.
Variables first last : Z.
Hypothesis range_ok :
  0 <= first /\ first <= last /\ last <= Z.of_nat (length arr0).
Hypothesis array_fits : Z.of_nat (length arr0) < modulus.

(** What holds of the array and the pending ranges all through the
    for_each of sort. *)
Definition sort_inv (st : list A * list (Z * Z)) : Prop :=
  (length st.1 = length arr0 /\ st.1 ≡ₚ arr0 /\
   same_outside arr0 st.1 first last) /\
  Forall (inside first last) st.2 /\ all_apart st.2 /\
  ordered_outside comp st.1 st.2 first last.

Lemma sort_inv_init : first < last -> sort_inv (arr0, [(first, last)]).
Proof.
  intros Hlt. split; [split; [reflexivity|split; [reflexivity|]]|].
  { intros i _ _. reflexivity. }
  split; [|split].
  - constructor; [|constructor]. unfold inside. simpl. lia.
  - simpl. split; [constructor|exact I].
  - intros i j x y Hi Hij Hj _ _ Hnc. exfalso. apply Hnc.
    exists (first, last). split; [constructor|simpl; lia].
Qed.

Lemma sort_inv_step (st st' : list A * list (Z * Z)) :
  sort_inv st -> sort_step comp st st' -> sort_inv st'.
Proof.
  intros ((Hlen & Hperm & Hout) & Hin & Hapart & Hord) Hstep.
  inversion Hstep as [pre [b e] post arr rand_value arr' pushed Hr Hrun];
    subst; simpl in *.
  apply Forall_app in Hin as [Hin_pre Hin_post].
  apply Forall_cons in Hin_post as [Hbe Hin_post].
  unfold inside in Hbe. simpl in Hbe.
  destruct (sort_helper_spec comp comp_irrefl comp_trans comp_neg_trans
              rand_value arr b e Hr ltac:(lia) ltac:(lia) ltac:(lia)
              ltac:(lia))
    as (arr2 & pushed2 & Hrun2 & (Hlen2 & Hperm2 & Hout2) & Hin2 & Hap2
        & Hord2 & _).
  rewrite Hrun in Hrun2. injection Hrun2 as <- <-.
  apply all_apart_app in Hapart as (Hap_pre & Hap_post & Hcross).
  simpl in Hap_post. destruct Hap_post as [Hbe_post Hap_post].
  rewrite Forall_forall in Hbe_post.
  assert (Hrest : forall r, r ∈ pre ++ post -> apart r (b, e)).
  { intros r Hr'. apply elem_of_app in Hr' as [Hr'|Hr'].
    - apply Hcross; [exact Hr'|constructor].
    - apply apart_sym. now apply Hbe_post. }
  assert (Hpushed_in : Forall (inside first last) pushed).
  { eapply Forall_impl; [exact Hin2|]. intros r. unfold inside. lia. }
  unfold sort_inv. simpl.
  split; [split; [lia|split]|split; [|split]].
  - now rewrite Hperm2.
  - intros i Hi0 Hi. rewrite Hout2 by lia. now apply Hout.
  - rewrite !Forall_app. auto.
  - apply all_apart_app. split; [exact Hap_pre|]. split.
    + apply all_apart_app. split; [exact Hap_post|]. split; [exact Hap2|].
      intros r s' Hr' Hs. rewrite Forall_forall in Hin2.
      apply (apart_inside r s' b e); [|now apply Hin2].
      apply Hrest. apply elem_of_app. now right.
    + intros r s' Hr' Hs. apply elem_of_app in Hs as [Hs|Hs].
      * apply Hcross; [exact Hr'|]. now constructor.
      * rewrite Forall_forall in Hin2.
        apply (apart_inside r s' b e); [|now apply Hin2].
        apply Hrest. apply elem_of_app. now left.
  - rewrite app_assoc.
    apply (ordered_refine comp arr arr' (pre ++ post) pushed b e first last);
      try lia; try assumption.
    apply (ordered_outside_members comp arr (pre ++ (b, e) :: post));
      [|exact Hord].
    intros r Hr'. rewrite elem_of_cons, elem_of_app.
    rewrite elem_of_app, elem_of_cons in Hr'. tauto.
Qed.

Lemma sort_inv_rtc (st st' : list A * list (Z * Z)) :
  rtc (sort_step comp) st st' -> sort_inv st -> sort_inv st'.
Proof.
  induction 1 as [|st st1 st2 Hstep _ IH]; intros Hinv; [exact Hinv|].
  apply IH. now apply (sort_inv_step st).
Qed.

Lemma sort_inv_final (arr : list A) :
  sort_inv (arr, []) ->
  sorted_range comp arr first last /\ length arr = length arr0 /\
  arr ≡ₚ arr0 /\ same_outside arr0 arr first last.
Proof.
  intros ((Hlen & Hperm & Hout) & _ & _ & Hord). simpl in *.
  split; [|auto].
  intros i j x y Hi Hij Hj Hx Hy. apply (Hord i j x y); try assumption.
  intros (r & Hr & _). inversion Hr.
Qed.

(** Every non-empty range of the array holds a largest element. *)
Lemma exists_max (arr : list A) (b : Z) (n : nat) :
  0 <= b -> b + Z.of_nat (S n) <= Z.of_nat (length arr) ->
  exists k pv,
    b <= k < b + Z.of_nat (S n) /\ arr !! Z.to_nat k = Some pv /\
    (forall i x, b <= i < b + Z.of_nat (S n) ->
       arr !! Z.to_nat i = Some x -> comp pv x = false).
Proof.
  intros Hb. induction n as [|n IH]; intros Hlen.
  - destruct (lookup_lt_is_Some_2 arr (Z.to_nat b) ltac:(lia)) as [pv Hpv].
    exists b, pv. split; [lia|]. split; [exact Hpv|].
    intros i x Hi Hx. assert (i = b) by lia. subst i.
    assert (x = pv) by congruence. subst x. apply comp_irrefl.
  - destruct (IH ltac:(lia)) as (k & pv & Hk & Hpv & Hmax).
    destruct (lookup_lt_is_Some_2 arr (Z.to_nat (b + Z.of_nat (S n)))
                ltac:(lia)) as [y Hy].
    destruct (comp pv y) eqn:Hc.
    + exists (b + Z.of_nat (S n)), y. split; [lia|]. split; [exact Hy|].
      intros i x Hi Hx.
      destruct (decide (i = b + Z.of_nat (S n))) as [->|Hne].
      * assert (x = y) by congruence. subst x. apply comp_irrefl.
      * destruct (comp y x) eqn:Hyx; [|reflexivity].
        rewrite <- (Hmax i x ltac:(lia) Hx). symmetry.
        now apply (comp_trans pv y x).
    + exists k, pv. split; [lia|]. split; [exact Hpv|].
      intros i x Hi Hx.
      destruct (decide (i = b + Z.of_nat (S n))) as [->|Hne].
      * assert (x = y) by congruence. now subst x.
      * apply (Hmax i x); [lia|exact Hx].
Qed.

(** With a largest element as pivot, sort_helper pushes less than it was
    given. *)
Lemma sort_helper_max (arr : list A) (b e k : Z) (pv : A) :
  0 <= b -> 1024 < e - b -> e <= Z.of_nat (length arr) ->
  Z.of_nat (length arr) < modulus ->
  b <= k < e -> arr !! Z.to_nat k = Some pv ->
  (forall i x, b <= i < e -> arr !! Z.to_nat i = Some x ->
     comp pv x = false) ->
  exists arr' pushed,
    sort_helper comp (k - b) arr (b, e) = Ok (arr', pushed) /\
    pending_size pushed < e - b + 1.
Proof.
  intros Hb Hbig He Hmod Hk Hpv Hmax.
  destruct (sort_helper_large comp (k - b) arr b e ltac:(lia) Hb Hbig He Hmod)
    as (pv' & arr' & p & p' & Hpv' & Hrun & Hp & (Hlen & Hperm & Hout)
        & Hlow & Hup & _ & Hstop).
  rewrite choose_rand_at in Hpv' by lia.
  assert (pv' = pv) by congruence. subst pv'.
  eexists _, _. split; [exact Hrun|].
  assert (Hmax' : forall i x, b <= i < e -> arr' !! Z.to_nat i = Some x ->
                              comp pv x = false).
  { intros i x Hi Hx.
    destruct (range_origin arr arr' b e ltac:(lia) He Hlen Hperm Hout i x
                Hi Hx) as (j & Hj & Hjx).
    now apply (Hmax j). }
  assert (Hp'e : p' = e).
  { destruct (decide (p' < e)) as [Hlt|]; [|lia].
    destruct (Hstop Hlt) as (x & Hx & Hneq). unfold neq_to in Hneq.
    rewrite (Hup p' x ltac:(lia) Hx), (Hmax' p' x ltac:(lia) Hx) in Hneq.
    discriminate. }
  assert (Hpe : p < e).
  { destruct (range_destination arr arr' b e ltac:(lia) He Hlen Hperm Hout
                k pv Hk Hpv) as (i & Hi & Hix).
    destruct (decide (i < p)) as [Hlt|]; [|lia].
    pose proof (Hlow i pv ltac:(lia) Hix) as Hc.
    rewrite comp_irrefl in Hc. discriminate. }
  subst p'. rewrite Z.eqb_refl, app_nil_r.
  destruct (Z.eqb_spec b p); simpl; lia.
Qed.

Lemma sort_can_finish (n : nat) :
  forall arr wl,
    sort_inv (arr, wl) -> pending_size wl <= Z.of_nat n ->
    exists arr', rtc (sort_step comp) (arr, wl) (arr', []).
Proof.
  induction n as [|n IH]; intros arr wl Hinv Hsize.
  - destruct wl as [|r wl]; [exists arr; constructor|].
    destruct Hinv as (_ & Hin & _). simpl in *.
    apply Forall_cons in Hin as [Hr Hin].
    pose proof (pending_size_nonneg wl first last Hin).
    unfold inside in Hr. lia.
  - destruct wl as [|[b e] wl]; [exists arr; constructor|].
    pose proof Hinv as ((Hlen & _ & _) & Hin & _). simpl in *.
    apply Forall_cons in Hin as [Hbe Hin]. unfold inside in Hbe.
    simpl in Hbe.
    assert (Hnext : exists rand_value arr' pushed,
              0 <= rand_value /\
              sort_helper comp rand_value arr (b, e) = Ok (arr', pushed) /\
              pending_size pushed < e - b + 1).
    { destruct (Z.le_gt_cases (e - b) 1024) as [Hsmall|Hbig].
      - destruct (sort_helper_spec comp comp_irrefl comp_trans comp_neg_trans
                    0 arr b e ltac:(lia) ltac:(lia) ltac:(lia) ltac:(lia)
                    ltac:(lia))
          as (arr' & pushed & Hrun & _ & _ & _ & _ & Hnil).
        exists 0, arr', pushed. split; [lia|]. split; [exact Hrun|].
        rewrite (Hnil Hsmall). simpl. lia.
      - destruct (exists_max arr b (Z.to_nat (e - b) - 1) ltac:(lia)
                    ltac:(lia)) as (k & pv & Hk & Hpv & Hmax).
        replace (b + Z.of_nat (S (Z.to_nat (e - b) - 1))) with e in * by lia.
        destruct (sort_helper_max arr b e k pv ltac:(lia) ltac:(lia)
                    ltac:(lia) ltac:(lia) Hk Hpv Hmax)
          as (arr' & pushed & Hrun & Hless).
        exists (k - b), arr', pushed. split; [lia|]. auto. }
    destruct Hnext as (rand_value & arr' & pushed & Hr & Hrun & Hless).
    assert (Hstep : sort_step comp (arr, (b, e) :: wl) (arr', wl ++ pushed)).
    { exact (sort_run comp [] (b, e) wl arr rand_value arr' pushed Hr Hrun). }
    destruct (IH arr' (wl ++ pushed)) as (arr2 & Hrtc).
    + now apply (sort_inv_step (arr, (b, e) :: wl)).
    + rewrite pending_size_app. lia.
    + exists arr2. now apply (rtc_l _ _ (arr', wl ++ pushed)).
Qed.

(** sort sorts. For a strict weak ordering [comp] and a range inside the
    array: some run of sort returns; in no run does a call of sort_helper
    go wrong, whichever pending range a worker takes and whatever [rand()]
    gives; and whenever sort returns, no element of the range precedes a
    smaller one, the array holds the elements it held, and nothing outside
    the range has moved. *)
Theorem sort_sorts :
  (exists arr', sort_returns comp arr0 first last arr') /\
  (forall arr wl bounds rand_value,
     1024 < last - first ->
     rtc (sort_step comp) (arr0, [(first, last)]) (arr, wl) ->
     bounds ∈ wl -> 0 <= rand_value ->
     exists res, sort_helper comp rand_value arr bounds = Ok res) /\
  (forall arr',
     sort_returns comp arr0 first last arr' ->
     sorted_range comp arr' first last /\ length arr' = length arr0 /\
     arr' ≡ₚ arr0 /\ same_outside arr0 arr' first last).
Proof.
  destruct range_ok as (Hf & Hfl & Hl).
  split; [|split].
  - unfold sort_returns. destruct (Z.leb_spec (last - first) 1024).
    + destruct (std_sort_spec comp comp_irrefl comp_trans comp_neg_trans
                  arr0 first last ltac:(lia) Hl) as (arr' & Hrun & _).
      now exists arr'.
    + apply (sort_can_finish (Z.to_nat (last - first + 1))).
      * apply sort_inv_init. lia.
      * simpl. lia.
  - intros arr wl [b e] rand_value Hbig Hrtc Hin Hr.
    pose proof (sort_inv_rtc _ _ Hrtc (sort_inv_init ltac:(lia)))
      as ((Hlen & _ & _) & Hall & _). simpl in *.
    rewrite Forall_forall in Hall. specialize (Hall _ Hin).
    unfold inside in Hall. simpl in Hall.
    destruct (sort_helper_spec comp comp_irrefl comp_trans comp_neg_trans
                rand_value arr b e Hr ltac:(lia) ltac:(lia) ltac:(lia)
                ltac:(lia)) as (arr' & pushed & Hrun & _).
    now exists (arr', pushed).
  - intros arr'. unfold sort_returns.
    destruct (Z.leb_spec (last - first) 1024); intros Hret.
    + destruct (std_sort_spec comp comp_irrefl comp_trans comp_neg_trans
                  arr0 first last ltac:(lia) Hl)
        as (arr2 & Hrun & (Hlen & Hperm & Hout) & Hsorted).
      rewrite Hret in Hrun. injection Hrun as <-. auto.
    + apply sort_inv_final.
      apply (sort_inv_rtc _ _ Hret). apply sort_inv_init. lia.
Qed.
End Sorting.

(** *** Instances *)

Lemma sort_sorts_witness :
  let arr0 := map Z.of_nat (rev (seq 0 1100)) in
  exists arr',
    sort_returns Z.ltb arr0 0 1100 arr' /\ sorted_range Z.ltb arr' 0 1100.
Proof.
  intros arr0.
  destruct (sort_sorts Z.ltb Z.ltb_irrefl
              ltac:(intros a b c; rewrite !Z.ltb_lt; lia)
              ltac:(intros a b c; rewrite !Z.ltb_ge; lia)
              arr0 0 1100
              ltac:(unfold arr0;
                    rewrite length_map, length_rev, length_seq; lia)
              ltac:(unfold arr0;
                    rewrite length_map, length_rev, length_seq;
                    unfold modulus; lia))
    as ((arr' & Hret) & _ & Hsorted).
  exists arr'. split; [exact Hret|]. now apply Hsorted.
Defined.

Lemma sort_helper_can_stall_witness :
  sort_helper Z.ltb 1 (1 :: replicate 1100 0) (0, 1101)
  = Ok (1 :: replicate 1100 0, [(0, 1101)]).
Proof.
  apply (sort_helper_can_stall Z.ltb 1 (1 :: replicate 1100 0) 0 1101 0 1).
  - lia.
  - lia.
  - lia.
  - cbn [length]. rewrite length_replicate. lia.
  - cbn [length]. rewrite length_replicate. unfold modulus. lia.
  - reflexivity.
  - intros i x Hi Hx. apply Z.ltb_ge.
    destruct (Z.to_nat i) as [|k].
    + change (Some 1 = Some x) in Hx. injection Hx as <-. lia.
    + change (replicate 1100 0 !! k = Some x) in Hx.
      apply lookup_replicate in Hx as [-> _]. lia.
  - reflexivity.
  - reflexivity.
Defined.

End Sort.

(** ** Clustering: the clusters around a node *)

Module Neighbors.
Import SizeT Partition.
Local Open Scope Z_scope.

#[local] Existing Instance result_ret.
#[local] Existing Instance result_bind.

(** The containers [FindNeighboringClusters] is handed by reference, with
    [EdgeTy] a 64-bit unsigned type. *)
Record containers : Type := Containers {
  cluster_local_map : gmap Z Z;
  counter : list Z;
  self_loop_wt : Z
}.

Section FindNeighboringClusters.
(** [graph.GetData<CurrentCommunityID>(node)] *)
Variable CurrentCommunityID : Z -> Z.

(** The body of the loop over the edges of [n]; an edge is its destination
    and its weight. *)
Definition visit_edge (n : Z) (st : containers * Z) (edge : Z * Z)
  : result (containers * Z) :=
  let '(c, num_unique_clusters) := st in
  let '(dst, edge_wt) := edge in
  let self_loop_wt :=
    if dst =? n then wrap (self_loop_wt c + edge_wt) else self_loop_wt c in
  match cluster_local_map c !! CurrentCommunityID dst with
  | Some stored_already =>
      match counter c !! Z.to_nat stored_already with
      | Some v =>
          Ok (Containers (cluster_local_map c)
                (<[Z.to_nat stored_already := wrap (v + edge_wt)]> (counter c))
                self_loop_wt,
              num_unique_clusters)
      | None => Undefined
      end
  | None =>
      Ok (Containers
            (<[CurrentCommunityID dst := num_unique_clusters]>
               (cluster_local_map c))
            (counter c ++ [wrap edge_wt])
            self_loop_wt,
          wrap (num_unique_clusters + 1))
  end.

Fixpoint visit_edges (n : Z) (st : containers * Z) (edges : list (Z * Z))
  : result (containers * Z) :=
  match edges with
  | [] => Ok st
  | edge :: edges' => st ← visit_edge n st edge; visit_edges n st edges'
  end.

(** [FindNeighboringClusters(graph, n, cluster_local_map, counter,
    self_loop_wt)]; [edges] are the edges of [n] from [edge_begin(n)] to
    [edge_end(n)]. *)
Definition FindNeighboringClusters (edges : list (Z * Z)) (n : Z)
    (c : containers) : result containers :=
  let num_unique_clusters := 0 in
  let c := Containers (<[CurrentCommunityID n := 0]> (cluster_local_map c))
                      (counter c ++ [0]) (self_loop_wt c) in
  let num_unique_clusters := wrap (num_unique_clusters + 1) in
  st ← visit_edges n (c, num_unique_clusters) edges;
  Ok st.1.

(** The weights of the edges whose destination satisfies [sel], summed. *)
Definition weight_sum (sel : Z -> bool) (edges : list (Z * Z)) : Z :=
  foldr (fun e acc => if sel e.1 then e.2 + acc else acc) 0 edges.

Definition weight_to (edges : list (Z * Z)) (k : Z) : Z :=
  wrap (weight_sum (fun dst => CurrentCommunityID dst =? k) edges).
End FindNeighboringClusters.

(** *** Facts *)

Lemma weight_sum_app (sel : Z -> bool) (l1 l2 : list (Z * Z)) :
  weight_sum sel (l1 ++ l2) = weight_sum sel l1 + weight_sum sel l2.
Proof.
  induction l1 as [|e l1 IH]; simpl; [reflexivity|].
  rewrite IH. destruct (sel e.1); lia.
Qed.

Lemma weight_sum_none (sel : Z -> bool) (l : list (Z * Z)) :
  (forall e, e ∈ l -> sel e.1 = false) -> weight_sum sel l = 0.
Proof.
  induction l as [|e l IH]; intros H; simpl; [reflexivity|].
  rewrite (H e) by constructor. apply IH. intros e' He'. apply H.
  now constructor.
Qed.

Section Tally.
Variable CurrentCommunityID : Z -> Z.
Variable n : Z.
Variable s0 : Z.

(** What holds after the edges [done] have been visited. *)
Definition tallied (done : list (Z * Z)) (st : containers * Z) : Prop :=
  st.2 = Z.of_nat (length (counter st.1)) /\
  cluster_local_map st.1 !! CurrentCommunityID n = Some 0 /\
  (forall k i, cluster_local_map st.1 !! k = Some i ->
     0 <= i < st.2 /\
     counter st.1 !! Z.to_nat i = Some (weight_to CurrentCommunityID done k)) /\
  (forall k k' i, cluster_local_map st.1 !! k = Some i ->
     cluster_local_map st.1 !! k' = Some i -> k = k') /\
  (forall k, is_Some (cluster_local_map st.1 !! k) <->
     k = CurrentCommunityID n \/
     exists e, e ∈ done /\ CurrentCommunityID e.1 = k) /\
  self_loop_wt st.1 = wrap (s0 + weight_sum (fun dst => dst =? n) done).

Lemma weight_to_snoc (done : list (Z * Z)) (dst w k : Z) :
  weight_to CurrentCommunityID (done ++ [(dst, w)]) k
  = if CurrentCommunityID dst =? k
    then wrap (weight_to CurrentCommunityID done k + w)
    else weight_to CurrentCommunityID done k.
Proof.
  unfold weight_to. rewrite weight_sum_app. simpl.
  destruct (CurrentCommunityID dst =? k).
  - unfold wrap. rewrite Zplus_mod_idemp_l. f_equal. lia.
  - f_equal. lia.
Qed.

Lemma visit_edge_tallied (done : list (Z * Z)) (st : containers * Z)
    (edge : Z * Z) :
  tallied done st -> Z.of_nat (length (counter st.1)) + 1 < modulus ->
  exists st',
    visit_edge CurrentCommunityID n st edge = Ok st' /\
    tallied (done ++ [edge]) st' /\
    (length (counter st'.1) <= S (length (counter st.1)))%nat.
Proof.
  destruct st as [c num]. destruct edge as [dst w].
  intros (Hnum & Hown & Hval & Hinj & Hdom & Hself) Hfit. simpl in *.
  assert (Hself' :
            (if dst =? n then wrap (self_loop_wt c + w) else self_loop_wt c)
            = wrap (s0 + weight_sum (fun dst => dst =? n)
                                    (done ++ [(dst, w)]))).
  { rewrite weight_sum_app. simpl. rewrite Hself.
    destruct (dst =? n).
    - unfold wrap. rewrite Zplus_mod_idemp_l. f_equal. lia.
    - f_equal. lia. }
  unfold visit_edge.
  destruct (cluster_local_map c !! CurrentCommunityID dst) as [i|] eqn:Hlook.
  - destruct (Hval _ _ Hlook) as [Hi Hci]. rewrite Hci.
    eexists. split; [reflexivity|]. split; [|simpl; rewrite length_insert; lia].
    unfold tallied. simpl. rewrite length_insert.
    split; [exact Hnum|]. split; [exact Hown|].
    split; [|split; [exact Hinj|split; [|exact Hself']]].
    + intros k j Hk. destruct (Hval _ _ Hk) as [Hj Hcj]. split; [exact Hj|].
      rewrite weight_to_snoc.
      destruct (Z.eqb_spec (CurrentCommunityID dst) k) as [<-|Hne].
      * assert (j = i) by congruence. subst j.
        apply list_lookup_insert_eq. lia.
      * rewrite list_lookup_insert_ne; [exact Hcj|].
        intros Heq. apply Hne. apply (Hinj _ _ i); [exact Hlook|].
        rewrite Hk. f_equal. lia.
    + intros k. rewrite Hdom. split.
      * intros [->|(e & He & Hek)]; [now left|right].
        exists e. split; [|exact Hek]. apply elem_of_app. now left.
      * intros [->|(e & He & Hek)]; [now left|].
        apply elem_of_app in He as [He|He].
        -- right. now exists e.
        -- apply list_elem_of_singleton in He. subst e. simpl in Hek.
           apply Hdom. rewrite <- Hek. now exists i.
  - eexists. split; [reflexivity|].
    split; [|simpl; rewrite length_app; simpl; lia].
    unfold tallied. simpl. rewrite length_app. simpl.
    assert (Hnew : forall e, e ∈ done ->
              (CurrentCommunityID e.1 =? CurrentCommunityID dst) = false).
    { intros e He. apply Z.eqb_neq. intros Heq.
      assert (Hs : is_Some (cluster_local_map c !! CurrentCommunityID dst)).
      { apply Hdom. right. now exists e. }
      rewrite Hlook in Hs. now destruct Hs. }
    split; [rewrite wrap_small by lia; lia|].
    rewrite wrap_small by lia.
    split.
    { rewrite lookup_insert_ne; [exact Hown|].
      intros Heq. congruence. }
    split; [|split; [|split; [|exact Hself']]].
    + intros k j Hk. rewrite weight_to_snoc.
      destruct (decide (k = CurrentCommunityID dst)) as [->|Hne].
      * rewrite lookup_insert_eq in Hk. injection Hk as <-.
        split; [lia|]. rewrite Z.eqb_refl.
        rewrite lookup_app_r by lia.
        replace (Z.to_nat num - length (counter c))%nat with O by lia.
        simpl. f_equal. unfold weight_to.
        rewrite weight_sum_none by exact Hnew.
        rewrite (wrap_small 0) by (unfold modulus; lia). reflexivity.
      * rewrite lookup_insert_ne in Hk by congruence.
        destruct (Hval _ _ Hk) as [Hj Hcj]. split; [lia|].
        destruct (Z.eqb_spec (CurrentCommunityID dst) k); [congruence|].
        rewrite lookup_app_l by lia. exact Hcj.
    + intros k k' j Hk Hk'.
      destruct (decide (k = CurrentCommunityID dst)) as [->|Hne];
        destruct (decide (k' = CurrentCommunityID dst)) as [->|Hne'];
        [reflexivity| | |].
      * rewrite lookup_insert_eq in Hk. injection Hk as <-.
        rewrite lookup_insert_ne in Hk' by congruence.
        destruct (Hval _ _ Hk'). lia.
      * rewrite lookup_insert_eq in Hk'. injection Hk' as <-.
        rewrite lookup_insert_ne in Hk by congruence.
        destruct (Hval _ _ Hk). lia.
      * rewrite lookup_insert_ne in Hk, Hk' by congruence.
        now apply (Hinj k k' j).
    + intros k. destruct (decide (k = CurrentCommunityID dst)) as [->|Hne].
      * rewrite lookup_insert_eq. split; [|eauto]. intros _. right.
        exists (dst, w). split; [|reflexivity].
        apply elem_of_app. right. constructor.
      * rewrite lookup_insert_ne by congruence. rewrite Hdom. split.
        -- intros [->|(e & He & Hek)]; [now left|right].
           exists e. split; [|exact Hek]. apply elem_of_app. now left.
        -- intros [->|(e & He & Hek)]; [now left|].
           apply elem_of_app in He as [He|He]; [right; now exists e|].
           apply list_elem_of_singleton in He. subst e. simpl in Hek.
           congruence.
Qed.

Lemma visit_edges_tallied (rest : list (Z * Z)) :
  forall done st,
    tallied done st ->
    Z.of_nat (length (counter st.1)) + Z.of_nat (length rest) < modulus ->
    exists st',
      visit_edges CurrentCommunityID n st rest = Ok st' /\
      tallied (done ++ rest) st'.
Proof.
  induction rest as [|edge rest IH]; intros done st Hst Hfit.
  - exists st. split; [reflexivity|]. now rewrite app_nil_r.
  - simpl in Hfit.
    destruct (visit_edge_tallied done st edge Hst ltac:(lia))
      as (st1 & Hrun1 & Hst1 & Hlen1).
    destruct (IH (done ++ [edge]) st1 Hst1 ltac:(lia)) as (st' & Hrun & Hst').
    exists st'. split.
    + simpl. rewrite Hrun1. exact Hrun.
    + now rewrite <- app_assoc in Hst'.
Qed.
End Tally.

(** Called with empty containers, FindNeighboringClusters gives every
    community met (the node's own and those of its neighbours) a slot of
    [counter], different communities different slots, the node's own
    community slot 0; the slot of a community holds the weight of the edges
    of [n] that lead into it, and [self_loop_wt] has grown by the weight of
    the edges from [n] to itself (sums in 64-bit unsigned arithmetic). *)
Theorem FindNeighboringClusters_tallies (CurrentCommunityID : Z -> Z)
    (edges : list (Z * Z)) (n s0 : Z) :
  0 <= s0 < modulus -> Z.of_nat (length edges) + 1 < modulus ->
  exists c,
    FindNeighboringClusters CurrentCommunityID edges n (Containers ∅ [] s0)
    = Ok c /\
    cluster_local_map c !! CurrentCommunityID n = Some 0 /\
    (forall k, is_Some (cluster_local_map c !! k) <->
       k = CurrentCommunityID n \/
       exists e, e ∈ edges /\ CurrentCommunityID e.1 = k) /\
    (forall k i, cluster_local_map c !! k = Some i ->
       0 <= i < Z.of_nat (length (counter c)) /\
       counter c !! Z.to_nat i
       = Some (weight_to CurrentCommunityID edges k)) /\
    (forall k k' i, cluster_local_map c !! k = Some i ->
       cluster_local_map c !! k' = Some i -> k = k') /\
    self_loop_wt c = wrap (s0 + weight_sum (fun dst => dst =? n) edges).
Proof.
  intros Hs0 Hfit. unfold FindNeighboringClusters. simpl.
  set (c1 := Containers (<[CurrentCommunityID n := 0]> ∅) [0] s0).
  change (wrap (0 + 1)) with (wrap 1).
  assert (Hinit : tallied CurrentCommunityID n s0 [] (c1, wrap 1)).
  { unfold tallied, c1. simpl.
    rewrite (wrap_small 1) by (unfold modulus; lia).
    split; [reflexivity|]. split; [apply lookup_insert_eq|].
    split; [|split; [|split]].
    - intros k i Hk. apply lookup_insert_Some in Hk as [[<- <-]|[_ Hk]];
        [|now rewrite lookup_empty in Hk].
      split; [lia|]. reflexivity.
    - intros k k' i Hk Hk'.
      apply lookup_insert_Some in Hk as [[<- <-]|[_ Hk]];
        [|now rewrite lookup_empty in Hk].
      apply lookup_insert_Some in Hk' as [[<- _]|[_ Hk']];
        [reflexivity|now rewrite lookup_empty in Hk'].
    - intros k. split.
      + intros [i Hk]. apply lookup_insert_Some in Hk as [[<- _]|[_ Hk]];
          [now left|now rewrite lookup_empty in Hk].
      + intros [->|(e & He & _)]; [|inversion He].
        rewrite lookup_insert_eq. eauto.
    - simpl. rewrite Z.add_0_r. now rewrite wrap_small. }
  destruct (visit_edges_tallied CurrentCommunityID n s0 edges [] (c1, wrap 1)
              Hinit ltac:(simpl; lia))
    as (st' & Hrun & Hnum & Hown & Hval & Hinj & Hdom & Hself).
  exists st'.1. split; [now rewrite Hrun|].
  simpl in *. rewrite <- Hnum. auto.
Qed.

Lemma FindNeighboringClusters_tallies_witness :
  exists c,
    FindNeighboringClusters (fun node => node / 2)
      [(2, 5); (0, 7); (3, 1); (4, 2)] 0 (Containers ∅ [] 0) = Ok c /\
    counter c = [7; 6; 2] /\ self_loop_wt c = 7.
Proof.
  destruct (FindNeighboringClusters_tallies (fun node => node / 2)
              [(2, 5); (0, 7); (3, 1); (4, 2)] 0 0)
    as (c & Hrun & _); [unfold modulus; lia|unfold modulus; simpl; lia|].
  exists c. split; [exact Hrun|].
  vm_compute in Hrun. injection Hrun as <-. split; reflexivity.
Defined.


End Neighbors.

(** ** Clustering: vertex following *)

Module Following.
Import SizeT Partition Runtime ParallelSTL.
Local Open Scope Z_scope.

#[local] Existing Instance result_ret.
#[local] Existing Instance result_bind.

(** A do_all whose body may go wrong. *)
Fixpoint run_trace_result {A S : Type}
    (body : WorkerId -> A -> S -> result S) (tr : trace A) (s : S)
  : result S :=
  match tr with
  | [] => Ok s
  | e :: tr' => s ← body e.1 e.2 s; run_trace_result body tr' s
  end.

Definition store_at (comm : list Z) (n : nat) (v : Z) : result (list Z) :=
  if (n <? length comm)%nat then Ok (<[n := v]> comm) else Undefined.

Section VertexFollowing.
(** The graph: for every node the destinations of its edges, from
    [edge_begin] to [edge_end]. *)
Variable adj : list (list nat).

(** Body of the first do_all: every node starts in its own cluster. *)
Definition own_cluster (tid : WorkerId) (n : nat) (comm : list Z)
  : result (list Z) :=
  store_at comm n (Z.of_nat n).

(** Body of the second do_all; the state is the [CurrentCommunityID] of
    every node and the accumulator [isolated_nodes]. *)
Definition follow (tid : WorkerId) (n : nat)
    (st : list Z * PerThreadStorage Z)
  : result (list Z * PerThreadStorage Z) :=
  let '(comm, isolated_nodes) := st in
  match adj !! n with
  | None => Undefined
  | Some es =>
      let degree := length es in
      if (degree =? 0)%nat then
        comm ← store_at comm n Clustering.UNASSIGNED;
        Ok (comm, update size_add tid 1 isolated_nodes)
      else if (degree =? 1)%nat then
        match list.last es with
        | None => Undefined
        | Some dst =>
            match adj !! dst with
            | None => Undefined
            | Some des =>
                let dst_degree := length des in
                if (1 <? dst_degree)%nat || (dst <? n)%nat then
                  match comm !! dst with
                  | None => Undefined
                  | Some c =>
                      comm ← store_at comm n c;
                      Ok (comm, update size_add tid 1 isolated_nodes)
                  end
                else Ok st
            end
        end
      else Ok st
  end.

(** [VertexFollowing(graph)]: the community ids afterwards and the number
    returned; [tr1] and [tr2] are the executions of the two do_all loops. *)
Definition VertexFollowing (threads : nat) (tr1 tr2 : trace nat)
    (comm : list Z) : result (list Z * Z) :=
  comm ← run_trace_result own_cluster tr1 comm;
  '(comm, isolated_nodes) ←
    run_trace_result follow tr2 (comm, GAccumulator threads);
  Ok (comm, reduce size_add 0 isolated_nodes).

(** Whether a node is taken out of play, and the cluster it ends in, read
    off the graph. *)
Definition moved (n : nat) : bool :=
  match adj !! n with
  | Some [] => true
  | Some [dst] =>
      match adj !! dst with
      | Some des => (1 <? length des)%nat || (dst <? n)%nat
      | None => false
      end
  | _ => false
  end.

Definition followed (n : nat) : Z :=
  match adj !! n with
  | Some [] => Clustering.UNASSIGNED
  | Some [dst] => if moved n then Z.of_nat dst else Z.of_nat n
  | _ => Z.of_nat n
  end.
End VertexFollowing.

(** *** Facts *)

Section FollowingFacts.
Variable adj : list (list nat).

(** Edges lead to nodes of the graph, and every edge has its reverse. *)
Hypothesis edges_in : forall n es d,
  adj !! n = Some es -> d ∈ es -> (d < length adj)%nat.
Hypothesis symmetric : forall n es d,
  adj !! n = Some es -> d ∈ es ->
  exists des, adj !! d = Some des /\ n ∈ des.

Lemma target_stays (n d : nat) :
  adj !! n = Some [d] -> moved adj n = true -> moved adj d = false.
Proof.
  intros Hn Hm. unfold moved in Hm. rewrite Hn in Hm.
  destruct (symmetric n [d] d Hn ltac:(constructor)) as (des & Hd & Hin).
  rewrite Hd in Hm. unfold moved. rewrite Hd.
  destruct des as [|x [|y des]]; [inversion Hin| |reflexivity].
  apply list_elem_of_singleton in Hin. subst x. rewrite Hn.
  simpl in *. apply Nat.ltb_ge. apply Nat.ltb_lt in Hm. lia.
Qed.

Lemma followed_stays (d : nat) : moved adj d = false -> followed adj d = Z.of_nat d.
Proof.
  unfold followed, moved.
  destruct (adj !! d) as [[|x [|y es]]|]; try reflexivity; [discriminate|].
  intros H. now rewrite H.
Qed.

Lemma own_cluster_pass (tr : trace nat) :
  forall comm,
    Forall (fun e => (e.2 < length comm)%nat) tr ->
    exists comm',
      run_trace_result own_cluster tr comm = Ok comm' /\
      length comm' = length comm /\
      (forall n, n ∈ tr.*2 -> comm' !! n = Some (Z.of_nat n)) /\
      (forall n, n ∉ tr.*2 -> comm' !! n = comm !! n).
Proof.
  induction tr as [|[tid n] tr IH]; intros comm Hall.
  - exists comm. split; [reflexivity|]. split; [reflexivity|].
    split; [intros n Hn; inversion Hn|reflexivity].
  - apply Forall_cons in Hall as [Hn Hall]. simpl in Hn.
    destruct (IH (<[n := Z.of_nat n]> comm)) as (comm' & Hrun & Hlen & Hin & Hout).
    { now rewrite length_insert. }
    rewrite length_insert in Hlen.
    exists comm'. split; [|split; [exact Hlen|split]].
    + simpl. replace (own_cluster tid n comm) with (Ok (<[n := Z.of_nat n]> comm));
        [exact Hrun|].
      unfold own_cluster, store_at.
      destruct (Nat.ltb_spec n (length comm)); [reflexivity|lia].
    + intros m Hm. rewrite fmap_cons in Hm. simpl in Hm.
      destruct (decide (m ∈ tr.*2)) as [Hmt|Hmt]; [now apply Hin|].
      apply elem_of_cons in Hm as [->|Hm]; [|contradiction].
      rewrite Hout by exact Hmt. now apply list_lookup_insert_eq.
    + intros m Hm. rewrite fmap_cons in Hm. simpl in Hm.
      apply not_elem_of_cons in Hm as [Hne Hm].
      rewrite Hout by exact Hm. now apply list_lookup_insert_ne.
Qed.

(** After the nodes [done] have run the second body. *)
Definition following (done : list nat) (comm : list Z) : Prop :=
  length comm = length adj /\
  forall n, (n < length adj)%nat ->
    comm !! n = Some (followed adj n) \/
    ((n ∉ done) /\ comm !! n = Some (Z.of_nat n)).

Lemma follow_step (tid n : nat) (done : list nat) (comm : list Z)
    (acc : PerThreadStorage Z) :
  (n < length adj)%nat -> following done comm ->
  exists comm',
    follow adj tid n (comm, acc)
    = Ok (comm', if moved adj n then update size_add tid 1 acc else acc) /\
    following (done ++ [n]) comm' /\ comm' !! n = Some (followed adj n).
Proof.
  intros Hn [Hlen Hcomm].
  destruct (lookup_lt_is_Some_2 adj n Hn) as [es Hes].
  assert (Hkeep : forall comm' : list Z,
            length comm' = length adj ->
            comm' !! n = Some (followed adj n) ->
            (forall m, m <> n -> comm' !! m = comm !! m) ->
            following (done ++ [n]) comm').
  { intros comm' Hlen' Hat Hother. split; [exact Hlen'|].
    intros m Hm. destruct (decide (m = n)) as [->|Hne]; [now left|].
    rewrite (Hother m Hne). destruct (Hcomm m Hm) as [Hf|[Hnd Hown]];
      [now left|right].
    split; [|exact Hown]. rewrite not_elem_of_app, not_elem_of_cons.
    split; [exact Hnd|]. split; [exact Hne|]. apply not_elem_of_nil. }
  assert (Hstore : forall v,
            store_at comm n v = Ok (<[n := v]> comm)).
  { intros v. unfold store_at.
    destruct (Nat.ltb_spec n (length comm)); [reflexivity|lia]. }
  unfold follow. rewrite Hes.
  destruct es as [|d [|d' es]].
  - assert (Hmv : moved adj n = true) by (unfold moved; now rewrite Hes).
    assert (Hf : followed adj n = Clustering.UNASSIGNED)
      by (unfold followed; now rewrite Hes).
    rewrite Hmv. simpl. rewrite Hstore. simpl.
    eexists. split; [reflexivity|].
    assert (Hat : <[n := Clustering.UNASSIGNED]> comm !! n
                  = Some (followed adj n)).
    { rewrite Hf. apply list_lookup_insert_eq. lia. }
    split; [|exact Hat].
    apply Hkeep; [now rewrite length_insert|exact Hat|].
    intros m Hne. now apply list_lookup_insert_ne.
  - pose proof (edges_in n [d] d Hes ltac:(constructor)) as Hd.
    destruct (lookup_lt_is_Some_2 adj d Hd) as [des Hdes].
    assert (Hmv : moved adj n = (1 <? length des)%nat || (d <? n)%nat)
      by (unfold moved; now rewrite Hes, Hdes).
    assert (Hf : followed adj n
                 = if moved adj n then Z.of_nat d else Z.of_nat n)
      by (unfold followed; now rewrite Hes).
    simpl. rewrite Hdes. rewrite <- Hmv.
    destruct (moved adj n) eqn:Hmoved.
    + pose proof (followed_stays d (target_stays n d Hes Hmoved)) as Hfd.
      assert (Hread : comm !! d = Some (Z.of_nat d)).
      { destruct (Hcomm d Hd) as [Hc|[_ Hown]]; [now rewrite Hc, Hfd|exact Hown]. }
      rewrite Hread, Hstore. simpl. eexists. split; [reflexivity|].
      assert (Hat : <[n := Z.of_nat d]> comm !! n = Some (followed adj n)).
      { rewrite Hf. apply list_lookup_insert_eq. lia. }
      split; [|exact Hat].
      apply Hkeep; [now rewrite length_insert|exact Hat|].
      intros m Hne. now apply list_lookup_insert_ne.
    + exists comm. split; [reflexivity|].
      assert (Hat : comm !! n = Some (followed adj n)).
      { destruct (Hcomm n Hn) as [Hc|[_ Hown]]; [exact Hc|].
        now rewrite Hf. }
      split; [|exact Hat]. now apply Hkeep.
  - assert (Hmv : moved adj n = false) by (unfold moved; now rewrite Hes).
    assert (Hf : followed adj n = Z.of_nat n)
      by (unfold followed; now rewrite Hes).
    rewrite Hmv. simpl. exists comm. split; [reflexivity|].
    assert (Hat : comm !! n = Some (followed adj n)).
    { destruct (Hcomm n Hn) as [Hc|[_ Hown]]; [exact Hc|]. now rewrite Hf. }
    split; [|exact Hat]. now apply Hkeep.
Qed.

Lemma run_trace_result_cons {B S : Type}
    (body : WorkerId -> B -> S -> result S) (tid : WorkerId) (x : B)
    (tr : trace B) (s : S) :
  run_trace_result body ((tid, x) :: tr) s
  = (s ← body tid x s; run_trace_result body tr s).
Proof. reflexivity. Qed.

Lemma follow_pass (tr : trace nat) :
  forall done comm acc,
    Forall (fun e => (e.2 < length adj)%nat) tr -> following done comm ->
    exists comm',
      run_trace_result (follow adj) tr (comm, acc)
      = Ok (comm',
            run_trace (fun tid n acc =>
                         if moved adj n then update size_add tid 1 acc
                         else acc) tr acc) /\
      following (done ++ tr.*2) comm' /\
      (forall n, n ∈ tr.*2 -> comm' !! n = Some (followed adj n)).
Proof.
  induction tr as [|[tid n] tr IH]; intros done comm acc Hall Hinv.
  - exists comm. split; [reflexivity|]. rewrite app_nil_r.
    split; [exact Hinv|]. intros n Hn. inversion Hn.
  - apply Forall_cons in Hall as [Hn Hall]. simpl in Hn.
    destruct (follow_step tid n done comm acc Hn Hinv)
      as (comm1 & Hrun1 & Hinv1 & Hat1).
    destruct (IH (done ++ [n]) comm1
                (if moved adj n then update size_add tid 1 acc else acc)
                Hall Hinv1) as (comm' & Hrun & Hinv' & Hat).
    exists comm'. split; [|split].
    + rewrite run_trace_result_cons, Hrun1. exact Hrun.
    + rewrite fmap_cons. simpl. now rewrite <- app_assoc in Hinv'.
    + intros m Hm. rewrite fmap_cons in Hm. simpl in Hm.
      destruct (decide (m ∈ tr.*2)) as [Hmt|Hmt]; [now apply Hat|].
      apply elem_of_cons in Hm as [->|Hm]; [|contradiction].
      destruct Hinv' as [_ Hall']. destruct (Hall' n Hn) as [Hf|[Hnd _]];
        [exact Hf|].
      exfalso. apply Hnd. apply elem_of_app. left. apply elem_of_app. right.
      constructor.
Qed.

(** On a graph with every edge reversed somewhere (as the clustering
    needs it), VertexFollowing gives the same result in every execution of
    its two do_all loops: isolated nodes become UNASSIGNED, a node with one
    edge joins its neighbour when that has more edges or a smaller id, all
    others stay alone; the number returned counts the nodes that did not
    stay alone. *)
Theorem VertexFollowing_follows (threads : nat) (tr1 tr2 : trace nat)
    (comm : list Z) :
  length comm = length adj -> Z.of_nat (length adj) < modulus ->
  do_all_trace threads (seq 0 (length adj)) tr1 ->
  do_all_trace threads (seq 0 (length adj)) tr2 ->
  VertexFollowing adj threads tr1 tr2 comm
  = Ok (map (followed adj) (seq 0 (length adj)),
        Z.of_nat (length (filter (fun n => moved adj n)
                                 (seq 0 (length adj))))).
Proof.
  intros Hlen Hfit [Hw1 Hp1] [Hw2 Hp2].
  assert (Hin : forall tr : trace nat, tr.*2 ≡ₚ seq 0 (length adj) ->
            Forall (fun e => (e.2 < length adj)%nat) tr).
  { intros tr Hp. apply Forall_forall. intros e He.
    assert (Hm : e.2 ∈ tr.*2) by (apply list_elem_of_fmap; now exists e).
    rewrite Hp in Hm. apply elem_of_seq in Hm. lia. }
  destruct (own_cluster_pass tr1 comm) as (comm1 & Hrun1 & Hlen1 & Hin1 & _).
  { rewrite Hlen. now apply Hin. }
  assert (Hinv1 : following [] comm1).
  { split; [lia|]. intros n Hn. right. split; [apply not_elem_of_nil|].
    apply Hin1. rewrite Hp1. apply elem_of_seq. lia. }
  destruct (follow_pass tr2 [] comm1 (GAccumulator threads) (Hin tr2 Hp2) Hinv1)
    as (comm2 & Hrun2 & [Hlen2 _] & Hat2).
  unfold VertexFollowing. rewrite Hrun1. simpl. rewrite Hrun2. simpl.
  f_equal. f_equal.
  - apply list_eq. intros n. destruct (decide (n < length adj)%nat) as [Hn|Hn].
    + rewrite Hat2 by (rewrite Hp2; apply elem_of_seq; lia).
      rewrite list_lookup_fmap, lookup_seq_lt by lia. reflexivity.
    + rewrite !lookup_ge_None_2; [reflexivity| |lia].
      rewrite length_map, length_seq. lia.
  - unfold GAccumulator.
    pose proof (count_reduce modulus wrap wrap_congr wrap_mod eq_refl
                  (moved adj) threads (seq 0 (length adj)) tr2
                  (conj Hw2 Hp2)) as Hcount.
    unfold size_add. rewrite Hcount. apply wrap_small.
    pose proof (length_filter (fun n => moved adj n) (seq 0 (length adj))).
    rewrite length_seq in *. lia.
Qed.
End FollowingFacts.

(** *** Instances *)

(** A path 0 - 1 - 2 and an isolated node 3. *)
Definition sample_graph : list (list nat) := [[1]; [0; 2]; [1]; []]%nat.

Lemma sample_edges_in (n : nat) (es : list nat) (d : nat) :
  sample_graph !! n = Some es -> d ∈ es -> (d < length sample_graph)%nat.
Proof.
  intros Hn Hd.
  destruct n as [|[|[|[|n]]]]; simpl in Hn; try discriminate;
    injection Hn as <-; repeat (apply elem_of_cons in Hd as [->|Hd]);
    try (simpl; lia); inversion Hd.
Qed.

Lemma sample_symmetric (n : nat) (es : list nat) (d : nat) :
  sample_graph !! n = Some es -> d ∈ es ->
  exists des, sample_graph !! d = Some des /\ n ∈ des.
Proof.
  intros Hn Hd.
  destruct n as [|[|[|[|n]]]]; simpl in Hn; try discriminate;
    injection Hn as <-; repeat (apply elem_of_cons in Hd as [->|Hd]);
    try (eexists; split; [reflexivity|]; repeat constructor);
    inversion Hd.
Qed.

Lemma VertexFollowing_follows_witness :
  VertexFollowing sample_graph 2
    [(0, 0); (1, 1); (0, 2); (1, 3)]%nat [(1, 3); (0, 2); (1, 1); (0, 0)]%nat
    [7; 7; 7; 7]
  = Ok ([1; 1; 1; Clustering.UNASSIGNED], 3).
Proof.
  apply (VertexFollowing_follows sample_graph sample_edges_in
           sample_symmetric 2).
  - reflexivity.
  - unfold modulus. simpl. lia.
  - split; [repeat constructor|reflexivity].
  - split; [repeat constructor|].
    change (rev [0; 1; 2; 3]%nat ≡ₚ [0; 1; 2; 3]%nat).
    symmetry. apply Permutation_rev.
Defined.

(** Without the reverse edges the result hangs on the schedule: with an
    edge from node 1 to the isolated node 0, node 1 ends UNASSIGNED when
    node 0 ran first and in cluster 0 when it ran second. *)
Example VertexFollowing_order_matters :
  VertexFollowing [[]; [0]]%nat 1 [(0, 0); (0, 1)]%nat [(0, 0); (0, 1)]%nat
                  [0; 0]
  = Ok ([Clustering.UNASSIGNED; Clustering.UNASSIGNED], 2) /\
  VertexFollowing [[]; [0]]%nat 1 [(0, 0); (0, 1)]%nat [(0, 1); (0, 0)]%nat
                  [0; 0]
  = Ok ([Clustering.UNASSIGNED; 0], 2).
Proof. split; reflexivity. Qed.

End Following.

(** ** partial_sum in place *)

Module PartialSumInPlace.
Import SizeT Blocks Runtime PartialSum.

Section Algorithm.
Context {V : Type}.
Variable add : V -> V -> V.
Variable zero : V.

(** [partial_sum(first, last, first)], as GraphCoarsening calls it on
    [prefix_edges_count]: input range and output are the same array [a],
    so the block sums are taken from what the array holds when the block
    is run. *)
Definition partial_sum_in_place (threads : nat) (tr1 tr2 : trace nat)
    (a : list V) : list V * nat :=
  let sizeOfVector := length a in
  if (1024 <=? sizeOfVector)%nat then
    let numBlocks := threads in
    let localSums := replicate numBlocks zero in
    let '(a, localSums) :=
      run_trace (fun _ block st => block_sums add zero st.1 numBlocks block st)
                tr1 (a, localSums) in
    let bulkPrefix := exclusive_scan add zero localSums in
    let a :=
      run_trace (fun _ block o => block_offset add zero sizeOfVector numBlocks
                                               bulkPrefix block o)
                tr2 a in
    (a, sizeOfVector)
  else serial_partial_sum add a a.
End Algorithm.

Section Facts.
Context {V : Type}.
Variable add : V -> V -> V.
Variable zero : V.

Lemma slice_agree (s e : nat) (l1 l2 : list V) :
  (forall i, s <= i < e -> l1 !! i = l2 !! i) -> slice s e l1 = slice s e l2.
Proof.
  intros H. unfold slice. apply list_eq. intros j.
  destruct (decide (j < e - s)) as [Hj|Hj].
  - rewrite !lookup_take_lt by lia. rewrite !lookup_drop. apply H. lia.
  - rewrite !lookup_take_ge by lia. reflexivity.
Qed.

Lemma block_sums_agree (xs : list V) (T b : nat) (st : list V * list V) :
  length st.1 = length xs ->
  (forall i, bstart (length xs) T b <= i < bend (length xs) T b ->
     st.1 !! i = xs !! i) ->
  block_sums add zero st.1 T b st = block_sums add zero xs T b st.
Proof.
  intros Hlen Hsame. destruct st as [out ls]. simpl in *.
  unfold block_sums. rewrite Hlen.
  now rewrite (slice_agree _ _ out xs Hsame).
Qed.

Lemma first_pass_in_place (xs : list V) (T : nat) (bl : list nat) :
  in_range (Z.of_nat (length xs)) (Z.of_nat T) ->
  NoDup bl -> Forall (fun b => b < T) bl ->
  forall st,
    length st.1 = length xs ->
    (forall b i, b ∈ bl ->
       bstart (length xs) T b <= i < bend (length xs) T b ->
       st.1 !! i = xs !! i) ->
    foldl (fun st b => block_sums add zero st.1 T b st) st bl
    = foldl (fun st b => block_sums add zero xs T b st) st bl.
Proof.
  intros HR Hnd Hlt. induction bl as [|b bl IH]; intros st Hlen Hsame;
    [reflexivity|].
  apply NoDup_cons in Hnd as [Hnotin Hnd].
  apply Forall_cons in Hlt as [Hb Hlt]. simpl.
  rewrite (block_sums_agree xs T b st); [|exact Hlen|].
  2:{ intros i Hi. apply (Hsame b i); [constructor|exact Hi]. }
  apply IH; try assumption.
  - destruct (block_sums_length add zero xs T b st) as [H1 _]. lia.
  - intros b' i Hb' Hi.
    rewrite (block_sums_out_off add zero xs T b i st).
    + apply (Hsame b' i); [now constructor|exact Hi].
    + intros Hib. unfold in_block in Hib.
      assert (b = b').
      { apply (block_pos_unique (length xs) T HR i b b'); try assumption.
        rewrite Forall_forall in Hlt. now apply Hlt. }
      subst b'. contradiction.
Qed.

(** partial_sum may be called in place: with the input range as output,
    as GraphCoarsening calls it, every execution of the two do_all loops
    leaves in the array the running sums the serial std::partial_sum gives,
    and the end of the range is returned. *)
Theorem partial_sum_in_place_serial (threads : nat) (tr1 tr2 : trace nat)
    (a : list V) :
  (forall x y z, add x (add y z) = add (add x y) z) ->
  (forall x y, add x y = add y x) ->
  (forall x, add zero x = x) ->
  in_range (Z.of_nat (length a)) (Z.of_nat threads) ->
  do_all_trace threads (seq 0 threads) tr1 ->
  do_all_trace threads (seq 0 threads) tr2 ->
  partial_sum_in_place add zero threads tr1 tr2 a
  = (std_partial_sum add a, length a).
Proof.
  intros Hassoc Hcomm H0 HR Htr1 Htr2.
  assert (Hfull : list_inserts 0 (std_partial_sum add a) a
                  = std_partial_sum add a).
  { pose proof (length_std_partial_sum add a) as Hl.
    apply list_eq. intros i.
    destruct (decide (i < length a)) as [Hi|Hi].
    - rewrite list_lookup_inserts by lia. f_equal. lia.
    - rewrite !lookup_ge_None_2; [reflexivity|lia|].
      rewrite length_inserts. lia. }
  unfold partial_sum_in_place.
  destruct (Nat.leb_spec 1024 (length a)) as [Hbig|Hsmall].
  - destruct (do_all_blocks threads tr1 Htr1) as (Hnd1 & Hlt1 & _).
    rewrite (run_trace_blocks
               (fun block st => block_sums add zero st.1 threads block st)).
    rewrite (first_pass_in_place a threads tr1.*2 HR Hnd1 Hlt1);
      [|reflexivity|reflexivity].
    rewrite <- (run_trace_blocks
                  (fun block st => block_sums add zero a threads block st)).
    pose proof (parallel_path add zero threads tr1 tr2 a a Hassoc Hcomm H0 HR
                  ltac:(lia) Htr1 Htr2) as Hpar.
    simpl in Hpar.
    destruct (run_trace (fun _ block st => block_sums add zero a threads block st)
                tr1 (a, replicate threads zero)) as [a1 ls] eqn:Hrun.
    simpl in Hpar. rewrite Hpar, Hfull. reflexivity.
  - unfold serial_partial_sum. now rewrite Hfull.
Qed.
End Facts.

Lemma partial_sum_in_place_serial_witness :
  partial_sum_in_place Z.add 0%Z 3 [(0, 2); (2, 0); (1, 1)]
                       [(1, 0); (0, 1); (2, 2)] (replicate 1025 1%Z)
  = (std_partial_sum Z.add (replicate 1025 1%Z), length (replicate 1025 1%Z)).
Proof.
  apply partial_sum_in_place_serial.
  - intros; lia.
  - intros; lia.
  - intros; lia.
  - rewrite length_replicate. unfold in_range, modulus. lia.
  - split; [repeat constructor|].
    exact (Permutation_cons_append [0; 1] 2).
  - split; [repeat constructor|reflexivity].
Defined.

End PartialSumInPlace.

(** ** partial_sum on machine integers *)

Module PartialSumWords.
Import SizeT Blocks Runtime ParallelSTL PartialSum PartialSumInPlace.

(** The code of partial_sum uses nothing of the value type but [+] and
    [0]; a map [h] that respects both carries every run of it over. *)
Section Hom.
Context {V W : Type}.
Variable add : V -> V -> V.
Variable zero : V.
Variable add' : W -> W -> W.
Variable zero' : W.
Variable h : V -> W.
Hypothesis h_add : forall x y, h (add x y) = add' (h x) (h y).
Hypothesis h_zero : h zero = zero'.

Lemma scan_from_hom (s : V) (xs : list V) :
  scan_from add' (h s) (h <$> xs) = h <$> scan_from add s xs.
Proof.
  revert s. induction xs as [|x xs IH]; intros s; simpl; [reflexivity|].
  rewrite <- h_add, IH. reflexivity.
Qed.

Lemma std_partial_sum_hom (xs : list V) :
  std_partial_sum add' (h <$> xs) = h <$> std_partial_sum add xs.
Proof. destruct xs as [|x xs]; simpl; [reflexivity|]. now rewrite scan_from_hom. Qed.

Lemma slice_hom (s e : nat) (l : list V) :
  slice s e (h <$> l) = h <$> slice s e l.
Proof. unfold slice. now rewrite fmap_take, fmap_drop. Qed.

Lemma list_inserts_hom (k l : list V) :
  forall i, list_inserts i (h <$> k) (h <$> l) = h <$> list_inserts i k l.
Proof.
  induction k as [|y k IH]; intros i; simpl; [reflexivity|].
  now rewrite IH, list_fmap_insert.
Qed.

Lemma block_sums_hom (xs : list V) (T b : nat) (st : list V * list V) :
  block_sums add' zero' (h <$> xs) T b (h <$> st.1, h <$> st.2)
  = (h <$> (block_sums add zero xs T b st).1,
     h <$> (block_sums add zero xs T b st).2).
Proof.
  destruct st as [out ls]. unfold block_sums. simpl.
  rewrite length_fmap, slice_hom, std_partial_sum_hom, list_inserts_hom.
  f_equal. rewrite list_fmap_insert. f_equal.
  destruct (0 <? bend (length xs) T b); [|now rewrite h_zero].
  rewrite list_lookup_fmap.
  destruct (list_inserts _ _ out !! _); simpl; [reflexivity|].
  now rewrite h_zero.
Qed.

Lemma exclusive_scan_hom (ls : list V) :
  forall s, exclusive_scan add' (h s) (h <$> ls)
            = h <$> exclusive_scan add s ls.
Proof.
  induction ls as [|x ls IH]; intros s; simpl; [reflexivity|].
  now rewrite <- h_add, IH.
Qed.

Lemma block_offset_hom (N T b : nat) (bulkPrefix out : list V) :
  block_offset add' zero' N T (h <$> bulkPrefix) b (h <$> out)
  = h <$> block_offset add zero N T bulkPrefix b out.
Proof.
  unfold block_offset. rewrite slice_hom, <- list_inserts_hom. f_equal.
  rewrite list_lookup_fmap.
  change (map ?f ?l) with (f <$> l). rewrite <- !list_fmap_compose.
  apply list_fmap_ext. intros _ val _. simpl. rewrite h_add. f_equal.
  destruct (bulkPrefix !! b); simpl; [reflexivity|now rewrite h_zero].
Qed.

Lemma first_loop_hom (xs : list V) (T : nat) (bl : list nat) :
  forall st,
    foldl (fun st b => block_sums add' zero' (h <$> xs) T b st)
          (h <$> st.1, h <$> st.2) bl
    = (h <$> (foldl (fun st b => block_sums add zero xs T b st) st bl).1,
       h <$> (foldl (fun st b => block_sums add zero xs T b st) st bl).2).
Proof.
  induction bl as [|b bl IH]; intros st; cbn [foldl]; [reflexivity|].
  rewrite block_sums_hom. apply IH.
Qed.

Lemma first_loop_in_place_hom (T : nat) (bl : list nat) :
  forall st,
    foldl (fun st b => block_sums add' zero' st.1 T b st)
          (h <$> st.1, h <$> st.2) bl
    = (h <$> (foldl (fun st b => block_sums add zero st.1 T b st) st bl).1,
       h <$> (foldl (fun st b => block_sums add zero st.1 T b st) st bl).2).
Proof.
  induction bl as [|b bl IH]; intros st; cbn [foldl fst]; [reflexivity|].
  rewrite (block_sums_hom st.1 T b st). apply IH.
Qed.

Lemma second_loop_hom (N T : nat) (bulkPrefix : list V) (bl : list nat) :
  forall out,
    foldl (fun o b => block_offset add' zero' N T (h <$> bulkPrefix) b o)
          (h <$> out) bl
    = h <$> foldl (fun o b => block_offset add zero N T bulkPrefix b o) out bl.
Proof.
  induction bl as [|b bl IH]; intros out; cbn [foldl]; [reflexivity|].
  rewrite block_offset_hom. apply IH.
Qed.

Lemma partial_sum_hom (threads : nat) (tr1 tr2 : trace nat)
    (xs out : list V) :
  partial_sum add' zero' threads tr1 tr2 (h <$> xs) (h <$> out)
  = (h <$> (partial_sum add zero threads tr1 tr2 xs out).1,
     (partial_sum add zero threads tr1 tr2 xs out).2).
Proof.
  unfold partial_sum. rewrite length_fmap.
  destruct (1024 <=? length xs).
  - rewrite !(run_trace_blocks
                (fun block st => block_sums _ _ _ threads block st)).
    replace (replicate threads zero') with (h <$> replicate threads zero)
      by (now rewrite fmap_replicate, h_zero).
    rewrite (first_loop_hom xs threads tr1.*2 (out, replicate threads zero)).
    destruct (foldl (fun st b => block_sums add zero xs threads b st)
                (out, replicate threads zero) tr1.*2) as [out1 ls1].
    cbn [fst snd].
    replace (exclusive_scan add' zero' (h <$> ls1))
      with (h <$> exclusive_scan add zero ls1)
      by (now rewrite <- exclusive_scan_hom, h_zero).
    rewrite !(run_trace_blocks
                (fun block o => block_offset _ _ _ threads _ block o)).
    now rewrite second_loop_hom.
  - unfold serial_partial_sum. simpl.
    now rewrite std_partial_sum_hom, list_inserts_hom, length_fmap.
Qed.

Lemma partial_sum_in_place_hom (threads : nat) (tr1 tr2 : trace nat)
    (a : list V) :
  partial_sum_in_place add' zero' threads tr1 tr2 (h <$> a)
  = (h <$> (partial_sum_in_place add zero threads tr1 tr2 a).1,
     (partial_sum_in_place add zero threads tr1 tr2 a).2).
Proof.
  unfold partial_sum_in_place. rewrite length_fmap.
  destruct (1024 <=? length a).
  - rewrite !(run_trace_blocks
                (fun block st => block_sums _ _ st.1 threads block st)).
    replace (replicate threads zero') with (h <$> replicate threads zero)
      by (now rewrite fmap_replicate, h_zero).
    rewrite (first_loop_in_place_hom threads tr1.*2
               (a, replicate threads zero)).
    destruct (foldl (fun st b => block_sums add zero st.1 threads b st)
                (a, replicate threads zero) tr1.*2) as [a1 ls1].
    cbn [fst snd].
    replace (exclusive_scan add' zero' (h <$> ls1))
      with (h <$> exclusive_scan add zero ls1)
      by (now rewrite <- exclusive_scan_hom, h_zero).
    rewrite !(run_trace_blocks
                (fun block o => block_offset _ _ _ threads _ block o)).
    now rewrite second_loop_hom.
  - unfold serial_partial_sum. simpl.
    now rewrite std_partial_sum_hom, list_inserts_hom, length_fmap.
Qed.
End Hom.

Lemma partial_sum_in_place_eq {V : Type} (add : V -> V -> V) (zero : V)
    (threads : nat) (tr1 tr2 : trace nat) (a : list V) :
  in_range (Z.of_nat (length a)) (Z.of_nat threads) ->
  do_all_trace threads (seq 0 threads) tr1 ->
  partial_sum_in_place add zero threads tr1 tr2 a
  = partial_sum add zero threads tr1 tr2 a a.
Proof.
  intros HR Htr1. unfold partial_sum_in_place, partial_sum.
  destruct (1024 <=? length a); [|reflexivity].
  destruct (do_all_blocks threads tr1 Htr1) as (Hnd1 & Hlt1 & _).
  rewrite (run_trace_blocks
             (fun block st => block_sums add zero st.1 threads block st)).
  rewrite (first_pass_in_place add zero a threads tr1.*2 HR Hnd1 Hlt1);
    [|reflexivity|reflexivity].
  now rewrite <- (run_trace_blocks
                    (fun block st => block_sums add zero a threads block st)).
Qed.

Lemma partial_sum_Z (threads : nat) (tr1 tr2 : trace nat) (xs out : list Z) :
  in_range (Z.of_nat (length xs)) (Z.of_nat threads) ->
  length xs <= length out ->
  do_all_trace threads (seq 0 threads) tr1 ->
  do_all_trace threads (seq 0 threads) tr2 ->
  partial_sum Z.add 0%Z threads tr1 tr2 xs out
  = (list_inserts 0 (std_partial_sum Z.add xs) out, length xs).
Proof.
  intros HR Hlen Htr1 Htr2. unfold partial_sum.
  destruct (1024 <=? length xs); [|reflexivity].
  pose proof (parallel_path Z.add 0%Z threads tr1 tr2 xs out Z.add_assoc
                Z.add_comm Z.add_0_l HR Hlen Htr1 Htr2) as Hpar.
  simpl in Hpar.
  destruct (run_trace (fun _ block st => block_sums Z.add 0%Z xs threads block st)
              tr1 (out, replicate threads 0%Z)) as [out1 ls].
  simpl in Hpar. now rewrite Hpar.
Qed.

Lemma fmap_wrap_id (l : list Z) :
  Forall (fun x => (0 <= x < modulus)%Z) l -> wrap <$> l = l.
Proof.
  induction 1 as [|x l Hx _ IH]; [reflexivity|].
  rewrite fmap_cons, IH, wrap_small by exact Hx. reflexivity.
Qed.

Lemma wrap_add_hom (x y : Z) : wrap (x + y) = size_add (wrap x) (wrap y).
Proof. unfold size_add, wrap. apply Zplus_mod. Qed.

(** partial_sum on 64-bit unsigned values, whose [+] wraps around: every
    execution writes the true running sums reduced modulo 2^64, out of
    place and in place alike. *)
Theorem partial_sum_uint64 (threads : nat) (tr1 tr2 : trace nat)
    (xs out : list Z) :
  in_range (Z.of_nat (length xs)) (Z.of_nat threads) ->
  length xs <= length out ->
  do_all_trace threads (seq 0 threads) tr1 ->
  do_all_trace threads (seq 0 threads) tr2 ->
  Forall (fun x => (0 <= x < modulus)%Z) xs ->
  Forall (fun x => (0 <= x < modulus)%Z) out ->
  partial_sum size_add 0%Z threads tr1 tr2 xs out
  = (list_inserts 0 (wrap <$> std_partial_sum Z.add xs) out, length xs) /\
  partial_sum_in_place size_add 0%Z threads tr1 tr2 xs
  = (wrap <$> std_partial_sum Z.add xs, length xs).
Proof.
  intros HR Hlen Htr1 Htr2 Hxs Hout.
  assert (Hhom : forall o : list Z,
            length xs <= length o ->
            Forall (fun x => (0 <= x < modulus)%Z) o ->
            partial_sum size_add 0%Z threads tr1 tr2 xs o
            = (list_inserts 0 (wrap <$> std_partial_sum Z.add xs) o,
               length xs)).
  { intros o Hlo Ho.
    rewrite <- (fmap_wrap_id xs Hxs) at 1.
    rewrite <- (fmap_wrap_id o Ho) at 1.
    rewrite (partial_sum_hom Z.add 0%Z size_add 0%Z wrap wrap_add_hom eq_refl).
    rewrite (partial_sum_Z threads tr1 tr2 xs o HR Hlo Htr1 Htr2). simpl.
    rewrite <- (list_inserts_hom wrap), (fmap_wrap_id o Ho). reflexivity. }
  split; [now apply Hhom|].
  rewrite (partial_sum_in_place_eq size_add 0%Z threads tr1 tr2 xs HR Htr1).
  rewrite (Hhom xs ltac:(lia) Hxs). f_equal.
  pose proof (length_std_partial_sum Z.add xs) as Hl.
  apply list_eq. intros i.
  destruct (decide (i < length xs)) as [Hi|Hi].
  - rewrite list_lookup_inserts by (rewrite ?length_fmap; lia).
    f_equal. lia.
  - rewrite !lookup_ge_None_2; [reflexivity| |].
    + rewrite length_fmap. lia.
    + rewrite length_inserts. lia.
Qed.

Lemma partial_sum_uint64_witness :
  let xs := replicate 1025 (modulus - 1)%Z in
  partial_sum_in_place size_add 0%Z 3 [(0, 2); (2, 0); (1, 1)]
                       [(1, 0); (0, 1); (2, 2)] xs
  = (wrap <$> std_partial_sum Z.add xs, length xs).
Proof.
  intros xs.
  apply (partial_sum_uint64 3 [(0, 2); (2, 0); (1, 1)]
           [(1, 0); (0, 1); (2, 2)] xs xs).
  - unfold xs. rewrite length_replicate. unfold in_range, modulus. lia.
  - lia.
  - split; [repeat constructor|].
    exact (Permutation_cons_append [0; 1] 2).
  - split; [repeat constructor|reflexivity].
  - apply Forall_replicate. unfold modulus. lia.
  - apply Forall_replicate. unfold modulus. lia.
Defined.

Lemma partial_sum_in_place_words (threads : nat) (tr1 tr2 : trace nat)
    (xs : list Z) :
  in_range (Z.of_nat (length xs)) (Z.of_nat threads) ->
  do_all_trace threads (seq 0 threads) tr1 ->
  do_all_trace threads (seq 0 threads) tr2 ->
  Forall (fun x => (0 <= x < modulus)%Z) xs ->
  (partial_sum_in_place size_add 0%Z threads tr1 tr2 xs).1
  = wrap <$> std_partial_sum Z.add xs.
Proof.
  intros HR Htr1 Htr2 Hxs.
  rewrite (partial_sum_in_place_eq size_add 0%Z threads tr1 tr2 xs HR Htr1).
  rewrite <- (fmap_wrap_id xs Hxs) at 1 2.
  rewrite (partial_sum_hom Z.add 0%Z size_add 0%Z wrap wrap_add_hom eq_refl).
  rewrite (partial_sum_Z threads tr1 tr2 xs xs HR ltac:(lia) Htr1 Htr2).
  cbn [fst]. f_equal.
  pose proof (length_std_partial_sum Z.add xs) as Hl.
  apply list_eq. intros i.
  destruct (decide (i < length xs)) as [Hi|Hi].
  - rewrite list_lookup_inserts by lia. f_equal. lia.
  - rewrite !lookup_ge_None_2; [reflexivity|lia|].
    rewrite length_inserts. lia.
Qed.

End PartialSumWords.

(** ** Clustering: the coarsened graph *)

Module Coarsening.
Import SizeT Runtime ParallelSTL Debug.

(** What the first do_all of [GraphCoarsening] keeps for one cluster [c]:
    its own [cluster_local_map] and [num_unique_clusters], and the vectors
    [edges_id[c]] (32-bit unsigned) and [edges_data[c]] (of the edge
    weight type, taken here as uint64_t). *)
Record found : Type := Found {
  cluster_local_map : gmap Z Z;
  edges_id_c : list Z;
  edges_data_c : list Z;
  num_unique_clusters : Z
}.

Section GraphCoarsening.
(** Whether the build has assertions. *)
Variable assertions : bool.
(** The graph: [graph.GetData<CommunityIDType>(n)] for every node, and for
    every node its edges, each with destination and weight. *)
Variable comm : list Z.
Variable adj : list (list (nat * Z)).

(** The body of the serial loop that fills [cluster_bags]. *)
Definition bag_node (cluster_bags : list (list nat)) (n : nat)
  : outcome (list (list nat)) :=
  match comm !! n with
  | None => Undefined
  | Some n_data_curr_comm_id =>
      if (n_data_curr_comm_id =? Clustering.UNASSIGNED)%Z then Ok cluster_bags
      else if Z.to_nat n_data_curr_comm_id <? length cluster_bags
      then Ok (alter (fun bag => bag ++ [n]) (Z.to_nat n_data_curr_comm_id)
                     cluster_bags)
      else Undefined
  end.

Fixpoint fill_bags (nodes : list nat) (cluster_bags : list (list nat))
  : outcome (list (list nat)) :=
  match nodes with
  | [] => Ok cluster_bags
  | n :: nodes' =>
      cluster_bags ← bag_node cluster_bags n; fill_bags nodes' cluster_bags
  end.

(** The body of the loop over the edges of one node of the bag. *)
Definition find_edge (st : found) (edge : nat * Z) : outcome found :=
  let '(dst, edge_wt) := edge in
  match comm !! dst with
  | None => Undefined
  | Some dst_data_curr_comm_id =>
      _ ← debug_assert assertions
            (Ok (negb (dst_data_curr_comm_id =? Clustering.UNASSIGNED)%Z));
      match cluster_local_map st !! dst_data_curr_comm_id with
      | Some stored_already =>
          match edges_data_c st !! Z.to_nat stored_already with
          | Some v =>
              Ok (Found (cluster_local_map st) (edges_id_c st)
                    (<[Z.to_nat stored_already := wrap (v + edge_wt)]>
                       (edges_data_c st))
                    (num_unique_clusters st))
          | None => Undefined
          end
      | None =>
          Ok (Found
                (<[dst_data_curr_comm_id := num_unique_clusters st]>
                   (cluster_local_map st))
                (edges_id_c st ++ [uwrap dst_data_curr_comm_id])
                (edges_data_c st ++ [wrap edge_wt])
                (wrap (num_unique_clusters st + 1)))
      end
  end.

Fixpoint find_edges (st : found) (edges : list (nat * Z)) : outcome found :=
  match edges with
  | [] => Ok st
  | edge :: edges' => st ← find_edge st edge; find_edges st edges'
  end.

(** The loop over the nodes of the bag of cluster [c], with its assertion
    that the node is in cluster [c]. *)
Fixpoint find_bag_edges (c : nat) (st : found) (bag : list nat)
  : outcome found :=
  match bag with
  | [] => Ok st
  | node :: bag' =>
      _ ← debug_assert assertions
            (match comm !! node with
             | Some id => Ok (id =? Z.of_nat c)%Z
             | None => Undefined
             end);
      match adj !! node with
      | None => Undefined
      | Some edges => st ← find_edges st edges; find_bag_edges c st bag'
      end
  end.

(** Body of the first do_all, for the cluster [c]. *)
Definition find_cluster_edges (cluster_bags : list (list nat))
    (tid : WorkerId) (c : nat) (st : list (list Z) * list (list Z))
  : outcome (list (list Z) * list (list Z)) :=
  let '(edges_id, edges_data) := st in
  match cluster_bags !! c, edges_id !! c, edges_data !! c with
  | Some bag, Some ids, Some data =>
      f ← find_bag_edges c (Found ∅ ids data 0) bag;
      Ok (<[c := edges_id_c f]> edges_id, <[c := edges_data_c f]> edges_data)
  | _, _, _ => Undefined
  end.

(** Body of the second do_all: the number of edges of every cluster. *)
Definition count_edges (edges_id : list (list Z)) (tid : WorkerId) (c : nat)
    (st : list Z * PerThreadStorage Z) : outcome (list Z * PerThreadStorage Z) :=
  let '(prefix_edges_count, num_edges_acc) := st in
  match edges_id !! c with
  | Some ids =>
      if c <? length prefix_edges_count then
        let size := Z.of_nat (length ids) in
        Ok (<[c := size]> prefix_edges_count,
            update size_add tid size num_edges_acc)
      else Undefined
  | None => Undefined
  end.

(** One turn of the loop that copies the edges of cluster [n] into the
    arrays of the new graph. *)
Definition place_edge (edges_id edges_data : list (list Z)) (n : nat)
    (start_index : Z) (st : list Z * list Z) (k : nat)
  : outcome (list Z * list Z) :=
  let '(out_dests_next, edge_data_next) := st in
  match edges_id !! n ≫= (.!! k), edges_data !! n ≫= (.!! k) with
  | Some id, Some data =>
      let at_ := Z.to_nat (start_index + Z.of_nat k) in
      if (at_ <? length out_dests_next) && (at_ <? length edge_data_next)
      then Ok (<[at_ := id]> out_dests_next, <[at_ := data]> edge_data_next)
      else Undefined
  | _, _ => Undefined
  end.

Fixpoint place_loop (edges_id edges_data : list (list Z)) (n : nat)
    (start_index : Z) (ks : list nat) (st : list Z * list Z)
  : outcome (list Z * list Z) :=
  match ks with
  | [] => Ok st
  | k :: ks' =>
      st ← place_edge edges_id edges_data n start_index st k;
      place_loop edges_id edges_data n start_index ks' st
  end.

(** Body of the do_all that fills the arrays of the new graph. *)
Definition place_edges (edges_id edges_data : list (list Z))
    (prefix_edges_count : list Z) (tid : WorkerId) (n : nat)
    (st : list Z * list Z) : outcome (list Z * list Z) :=
  bounds ←
    (if n =? 0 then
       match prefix_edges_count !! 0 with
       | Some here => Ok (here, 0%Z)
       | None => Undefined
       end
     else
       match prefix_edges_count !! n, prefix_edges_count !! (n - 1) with
       | Some here, Some before => Ok (wrap (here - before), before)
       | _, _ => Undefined
       end);
  let '(number_of_edges, start_index) := bounds in
  place_loop edges_id edges_data n start_index
             (seq 0 (Z.to_nat number_of_edges)) st.

(** [GraphCoarsening], from the bags to the three arrays of the next
    graph's topology and weights: [prefix_edges_count], [out_dests_next],
    [edge_data_next], with the three assertions on the way. The calls into
    the property graph that wrap the
    arrays up, and can only pass an error on, are left out. The traces are
    the executions of the do_all loops, [trD1] and [trD2] those inside
    partial_sum. Arrays that are allocated and then written all over start
    as zeros. *)
Definition GraphCoarsening (num_unique_clusters : nat) (threads : nat)
    (trB trC trD1 trD2 trE : trace nat)
  : outcome (list Z * list Z * list Z) :=
  let num_nodes_next := num_unique_clusters in
  cluster_bags ← fill_bags (seq 0 (length adj))
                           (replicate num_unique_clusters []);
  '(edges_id, edges_data) ←
    run_trace_outcome (find_cluster_edges cluster_bags) trB
      (replicate num_unique_clusters [], replicate num_unique_clusters []);
  '(prefix_edges_count, num_edges_acc) ←
    run_trace_outcome (count_edges edges_id) trC
      (replicate num_unique_clusters 0%Z, GAccumulator threads);
  let num_edges_next := reduce size_add 0%Z num_edges_acc in
  let prefix_edges_count :=
    (PartialSumInPlace.partial_sum_in_place size_add 0%Z threads trD1 trD2
       prefix_edges_count).1 in
  _ ← debug_assert assertions
        (match prefix_edges_count
                 !! Z.to_nat (wrap (Z.of_nat num_unique_clusters - 1)) with
         | Some v => Ok (v =? num_edges_next)%Z
         | None => Undefined
         end);
  '(out_dests_next, edge_data_next) ←
    run_trace_outcome (place_edges edges_id edges_data prefix_edges_count) trE
      (replicate (Z.to_nat num_edges_next) 0%Z,
       replicate (Z.to_nat num_edges_next) 0%Z);
  Ok (prefix_edges_count, out_dests_next, edge_data_next).

(** The nodes of cluster [c], in increasing order. *)
Definition bag_of (c : nat) : list nat :=
  filter (fun n => comm !! n = Some (Z.of_nat c)) (seq 0 (length adj)).

(** The edges that leave the nodes of a bag. *)
Definition edges_of (bag : list nat) : list (nat * Z) :=
  concat (map (fun n => default [] (adj !! n)) bag).

(** The weight of the edges among [edges] that lead into community [d]. *)
Definition weight_into (edges : list (nat * Z)) (d : Z) : Z :=
  wrap (foldr (fun e acc => if decide (comm !! e.1 = Some d)
                            then (e.2 + acc)%Z else acc) 0%Z edges).
End GraphCoarsening.

Lemma bind_Ok_r {R Q : Type} (x : R) (k : R -> outcome Q) :
  (Ok x ≫= k) = k x.
Proof. reflexivity. Qed.

(** *** Facts: the edges of one cluster *)

Section Tally.
Variable comm : list Z.
Variable adj : list (list (nat * Z)).

Lemma weight_into_snoc (done : list (nat * Z)) (dst : nat) (w d : Z) :
  weight_into comm (done ++ [(dst, w)]) d
  = if decide (comm !! dst = Some d)
    then wrap (weight_into comm done d + w)
    else weight_into comm done d.
Proof.
  unfold weight_into.
  assert (Happ : forall l1 l2 : list (nat * Z),
            foldr (fun e acc => if decide (comm !! e.1 = Some d)
                                then (e.2 + acc)%Z else acc) 0%Z (l1 ++ l2)
            = (foldr (fun e acc => if decide (comm !! e.1 = Some d)
                                   then (e.2 + acc)%Z else acc) 0%Z l1
               + foldr (fun e acc => if decide (comm !! e.1 = Some d)
                                     then (e.2 + acc)%Z else acc) 0%Z l2)%Z).
  { intros l1 l2. induction l1 as [|e l1 IH]; simpl; [reflexivity|].
    rewrite IH. destruct (decide (comm !! e.1 = Some d)); lia. }
  rewrite Happ. simpl. destruct (decide (comm !! dst = Some d)).
  - unfold wrap. rewrite Zplus_mod_idemp_l. f_equal. lia.
  - f_equal. lia.
Qed.

Lemma weight_into_none (done : list (nat * Z)) (d : Z) :
  (forall e, e ∈ done -> comm !! e.1 <> Some d) ->
  weight_into comm done d = 0%Z.
Proof.
  intros Hnone. unfold weight_into.
  induction done as [|e done IH]; simpl; [reflexivity|].
  destruct (decide (comm !! e.1 = Some d)) as [He|He].
  - exfalso. apply (Hnone e); [constructor|exact He].
  - apply IH. intros e' He'. apply Hnone. now constructor.
Qed.

(** What holds of a cluster's map and vectors after the edges [done]. *)
Definition tallied (done : list (nat * Z)) (st : found) : Prop :=
  num_unique_clusters st = Z.of_nat (length (edges_id_c st)) /\
  length (edges_data_c st) = length (edges_id_c st) /\
  length (edges_id_c st) <= length done /\
  (forall d i, cluster_local_map st !! d = Some i ->
     (0 <= i < num_unique_clusters st)%Z /\
     edges_id_c st !! Z.to_nat i = Some (uwrap d) /\
     edges_data_c st !! Z.to_nat i = Some (weight_into comm done d)) /\
  (forall d d' i, cluster_local_map st !! d = Some i ->
     cluster_local_map st !! d' = Some i -> d = d') /\
  (forall d, is_Some (cluster_local_map st !! d) <->
     exists e, e ∈ done /\ comm !! e.1 = Some d) /\
  (forall i, i < length (edges_id_c st) ->
     exists d, cluster_local_map st !! d = Some (Z.of_nat i)).

Lemma find_edge_tallied (done : list (nat * Z)) (st : found)
    (edge : nat * Z) :
  tallied done st -> edge.1 < length comm ->
  (Z.of_nat (length done) + 1 < modulus)%Z ->
  exists st',
    find_edge false comm st edge = Ok st' /\ tallied (done ++ [edge]) st'.
Proof.
  destruct edge as [dst w]. destruct st as [m ids data num].
  intros (Hnum & Hlen & Hle & Hval & Hinj & Hdom & Hsur) Hdst Hfit.
  simpl in *.
  destruct (lookup_lt_is_Some_2 comm dst Hdst) as [d0 Hd0].
  unfold find_edge. rewrite Hd0. simpl.
  destruct (m !! d0) as [i|] eqn:Hlook.
  - destruct (Hval _ _ Hlook) as (Hi & Hid & Hdata). rewrite Hdata.
    eexists. split; [reflexivity|].
    unfold tallied. simpl. rewrite length_insert, length_app. simpl.
    split; [exact Hnum|]. split; [exact Hlen|]. split; [lia|].
    split; [|split; [exact Hinj|split; [|exact Hsur]]].
    + intros d j Hd. destruct (Hval _ _ Hd) as (Hj & Hjid & Hjdata).
      split; [exact Hj|]. split; [exact Hjid|].
      rewrite weight_into_snoc.
      destruct (decide (comm !! dst = Some d)) as [Heq|Hne].
      * assert (d = d0) by congruence. subst d.
        assert (j = i) by congruence. subst j.
        apply list_lookup_insert_eq. lia.
      * rewrite list_lookup_insert_ne; [exact Hjdata|].
        intros Heq. apply Hne. rewrite Hd0. f_equal.
        apply (Hinj _ _ i); [exact Hlook|]. rewrite Hd. f_equal. lia.
    + intros d. rewrite Hdom. split.
      * intros (e & He & Hed). exists e. split; [|exact Hed].
        apply elem_of_app. now left.
      * intros (e & He & Hed). apply elem_of_app in He as [He|He].
        -- now exists e.
        -- apply list_elem_of_singleton in He. subst e. simpl in Hed.
           assert (d = d0) by congruence. subst d.
           apply Hdom. eauto.
  - eexists. split; [reflexivity|].
    unfold tallied. simpl. rewrite !length_app. simpl.
    assert (Hnew : forall e, e ∈ done -> comm !! e.1 <> Some d0).
    { intros e He Heq.
      assert (Hs : is_Some (m !! d0)) by (apply Hdom; now exists e).
      rewrite Hlook in Hs. now destruct Hs. }
    rewrite wrap_small by lia.
    split; [lia|]. split; [lia|]. split; [lia|].
    split; [|split; [|split]].
    + intros d j Hd. rewrite weight_into_snoc.
      destruct (decide (d = d0)) as [->|Hne].
      * rewrite lookup_insert_eq in Hd. injection Hd as <-.
        split; [lia|].
        rewrite !lookup_app_r by lia.
        replace (Z.to_nat num - length ids) with 0 by lia.
        replace (Z.to_nat num - length data) with 0 by lia.
        split; [reflexivity|]. simpl.
        destruct (decide (comm !! dst = Some d0)); [|contradiction].
        rewrite weight_into_none by exact Hnew. reflexivity.
      * rewrite lookup_insert_ne in Hd by congruence.
        destruct (Hval _ _ Hd) as (Hj & Hjid & Hjdata). split; [lia|].
        rewrite !lookup_app_l by lia. split; [exact Hjid|].
        destruct (decide (comm !! dst = Some d)); [congruence|exact Hjdata].
    + intros d d' j Hd Hd'.
      destruct (decide (d = d0)) as [->|Hne];
        destruct (decide (d' = d0)) as [->|Hne']; [reflexivity| | |].
      * rewrite lookup_insert_eq in Hd. injection Hd as <-.
        rewrite lookup_insert_ne in Hd' by congruence.
        destruct (Hval _ _ Hd') as (Hj & _). lia.
      * rewrite lookup_insert_eq in Hd'. injection Hd' as <-.
        rewrite lookup_insert_ne in Hd by congruence.
        destruct (Hval _ _ Hd) as (Hj & _). lia.
      * rewrite lookup_insert_ne in Hd, Hd' by congruence.
        now apply (Hinj d d' j).
    + intros d. destruct (decide (d = d0)) as [->|Hne].
      * rewrite lookup_insert_eq. split; [|eauto]. intros _.
        exists (dst, w). split; [|exact Hd0].
        apply elem_of_app. right. constructor.
      * rewrite lookup_insert_ne by congruence. rewrite Hdom. split.
        -- intros (e & He & Hed). exists e. split; [|exact Hed].
           apply elem_of_app. now left.
        -- intros (e & He & Hed). apply elem_of_app in He as [He|He];
             [now exists e|].
           apply list_elem_of_singleton in He. subst e. simpl in Hed.
           congruence.
    + intros j Hj. destruct (decide (j < length ids)) as [Hold|Hnew'].
      * destruct (Hsur j Hold) as (d & Hd). exists d.
        rewrite lookup_insert_ne; [exact Hd|].
        intros <-. rewrite Hlook in Hd. discriminate.
      * exists d0. rewrite lookup_insert_eq. f_equal. lia.
Qed.

Lemma find_edges_tallied (edges : list (nat * Z)) :
  forall done st,
    tallied done st -> Forall (fun e => e.1 < length comm) edges ->
    (Z.of_nat (length done) + Z.of_nat (length edges) < modulus)%Z ->
    exists st',
      find_edges false comm st edges = Ok st' /\
      tallied (done ++ edges) st'.
Proof.
  induction edges as [|edge edges IH]; intros done st Hst Hall Hfit.
  - exists st. split; [reflexivity|]. now rewrite app_nil_r.
  - apply Forall_cons in Hall as [He Hall]. simpl in Hfit.
    destruct (find_edge_tallied done st edge Hst He ltac:(lia))
      as (st1 & Hrun1 & Hst1).
    destruct (IH (done ++ [edge]) st1 Hst1 Hall) as (st' & Hrun & Hst').
    { rewrite length_app. simpl. lia. }
    exists st'. split.
    + simpl. rewrite Hrun1. exact Hrun.
    + now rewrite <- app_assoc in Hst'.
Qed.

Lemma find_bag_edges_tallied (c : nat) (bag : list nat) :
  forall done st,
    tallied done st -> Forall (fun n => n < length adj) bag ->
    Forall (fun e => e.1 < length comm) (edges_of adj bag) ->
    (Z.of_nat (length done) + Z.of_nat (length (edges_of adj bag))
     < modulus)%Z ->
    exists st',
      find_bag_edges false comm adj c st bag = Ok st' /\
      tallied (done ++ edges_of adj bag) st'.
Proof.
  induction bag as [|node bag IH]; intros done st Hst Hbag Hall Hfit.
  - exists st. split; [reflexivity|]. unfold edges_of. simpl.
    now rewrite app_nil_r.
  - apply Forall_cons in Hbag as [Hnode Hbag].
    destruct (lookup_lt_is_Some_2 adj node Hnode) as [es Hes].
    unfold edges_of in Hall, Hfit |- *. simpl in Hall, Hfit |- *.
    rewrite Hes in Hall, Hfit |- *. simpl in Hall, Hfit |- *.
    apply Forall_app in Hall as [Hes_in Hall].
    rewrite length_app in Hfit.
    destruct (find_edges_tallied es done st Hst Hes_in ltac:(lia))
      as (st1 & Hrun1 & Hst1).
    destruct (IH (done ++ es) st1 Hst1 Hbag Hall) as (st' & Hrun & Hst').
    { rewrite length_app. unfold edges_of. lia. }
    exists st'. split.
    + rewrite Hrun1. exact Hrun.
    + now rewrite <- app_assoc in Hst'.
Qed.

Lemma tallied_empty : tallied [] (Found ∅ [] [] 0).
Proof.
  unfold tallied. simpl. split; [reflexivity|]. split; [reflexivity|].
  split; [lia|]. split; [|split; [|split]].
  - intros d i Hd. now rewrite lookup_empty in Hd.
  - intros d d' i Hd. now rewrite lookup_empty in Hd.
  - intros d. split.
    + intros [i Hd]. now rewrite lookup_empty in Hd.
    + intros (e & He & _). inversion He.
  - intros i Hi. lia.
Qed.
End Tally.

(** *** Facts: the assertions inside the search *)

Section Asserted.
Variable assertions : bool.
Variable comm : list Z.
Variable adj : list (list (nat * Z)).

Lemma find_edge_asserted (st : found) (edge : nat * Z) :
  (assertions = true -> comm !! edge.1 <> Some Clustering.UNASSIGNED) ->
  find_edge assertions comm st edge = find_edge false comm st edge.
Proof.
  intros Hdst. destruct edge as [dst w]. unfold find_edge.
  destruct (comm !! dst) as [d|] eqn:Hd; [|reflexivity].
  rewrite debug_assert_pass; [reflexivity|].
  intros Ha. apply negb_true_iff, Z.eqb_neq. intros ->.
  now apply (Hdst Ha).
Qed.

Lemma find_edges_asserted (edges : list (nat * Z)) :
  forall st,
    (assertions = true ->
     Forall (fun e => comm !! e.1 <> Some Clustering.UNASSIGNED) edges) ->
    find_edges assertions comm st edges = find_edges false comm st edges.
Proof.
  induction edges as [|edge edges IH]; intros st Hall; [reflexivity|].
  cbn [find_edges]. rewrite find_edge_asserted.
  - destruct (find_edge false comm st edge) as [st1| | |]; try reflexivity.
    rewrite !bind_Ok_l. apply IH.
    intros Ha. exact (Forall_inv_tail (Hall Ha)).
  - intros Ha. exact (Forall_inv (Hall Ha)).
Qed.

Lemma find_bag_edges_asserted (c : nat) (bag : list nat) :
  forall st,
    Forall (fun n => comm !! n = Some (Z.of_nat c)) bag ->
    (assertions = true ->
     Forall (fun e => comm !! e.1 <> Some Clustering.UNASSIGNED)
            (edges_of adj bag)) ->
    find_bag_edges assertions comm adj c st bag
    = find_bag_edges false comm adj c st bag.
Proof.
  induction bag as [|node bag IH]; intros st Hbag Hall; [reflexivity|].
  cbn [find_bag_edges].
  rewrite (Forall_inv Hbag), Z.eqb_refl, debug_assert_holds,
    debug_assert_off, !bind_Ok_l.
  destruct (adj !! node) as [es|] eqn:Hes; [|reflexivity].
  assert (Hsplit : assertions = true ->
            Forall (fun e => comm !! e.1 <> Some Clustering.UNASSIGNED) es /\
            Forall (fun e => comm !! e.1 <> Some Clustering.UNASSIGNED)
                   (edges_of adj bag)).
  { intros Ha. specialize (Hall Ha). unfold edges_of in Hall.
    cbn [map concat] in Hall. rewrite Hes in Hall. cbn [default] in Hall.
    now apply Forall_app in Hall. }
  rewrite find_edges_asserted by (intros Ha; apply (Hsplit Ha)).
  destruct (find_edges false comm st es) as [st1| | |]; try reflexivity.
  rewrite !bind_Ok_l. apply IH; [exact (Forall_inv_tail Hbag)|].
  intros Ha. apply (Hsplit Ha).
Qed.
End Asserted.

(** *** Facts: positions in a concatenation *)

Lemma concat_lookup_block {A : Type} (ls : list (list A)) :
  forall n l k,
    ls !! n = Some l -> k < length l ->
    concat ls !! (length (concat (take n ls)) + k) = l !! k.
Proof.
  induction ls as [|a ls IH]; intros n l k Hn Hk; [discriminate|].
  destruct n as [|n]; simpl in *.
  - injection Hn as ->. now apply lookup_app_l.
  - rewrite length_app, <- Nat.add_assoc, lookup_app_r by lia.
    replace (length a + (length (concat (take n ls)) + k) - length a)
      with (length (concat (take n ls)) + k) by lia.
    now apply IH.
Qed.

Lemma concat_position {A : Type} (ls : list (list A)) :
  forall j,
    j < length (concat ls) ->
    exists n l k,
      ls !! n = Some l /\ k < length l /\
      j = length (concat (take n ls)) + k.
Proof.
  induction ls as [|a ls IH]; intros j Hj; simpl in Hj; [lia|].
  rewrite length_app in Hj. destruct (decide (j < length a)) as [Hlt|Hge].
  - exists 0, a, j. simpl. auto.
  - destruct (IH (j - length a) ltac:(lia)) as (n & l & k & Hn & Hk & Heq).
    exists (S n), l, k. simpl. rewrite length_app. split; [exact Hn|].
    split; [exact Hk|lia].
Qed.

Lemma concat_take_le {A : Type} (ls : list (list A)) (n : nat) :
  length (concat (take n ls)) <= length (concat ls).
Proof.
  rewrite <- (take_drop n ls) at 2. rewrite concat_app, length_app. lia.
Qed.

Lemma concat_take_S {A : Type} (ls : list (list A)) (n : nat) (l : list A) :
  ls !! n = Some l ->
  length (concat (take (S n) ls))
  = length (concat (take n ls)) + length l.
Proof.
  intros Hn. rewrite (take_S_r ls n l Hn), concat_app, length_app. simpl.
  rewrite length_app. simpl. lia.
Qed.

Lemma concat_take_same_length {A B : Type} (la : list (list A))
    (lb : list (list B)) :
  length la = length lb ->
  (forall n a b, la !! n = Some a -> lb !! n = Some b -> length a = length b) ->
  forall n, length (concat (take n la)) = length (concat (take n lb)).
Proof.
  revert lb. induction la as [|a la IH]; intros [|b lb] Hlen Hsame n;
    try discriminate.
  - now rewrite !take_nil.
  - destruct n as [|n]; [reflexivity|]. simpl. rewrite !length_app.
    rewrite (Hsame 0 a b eq_refl eq_refl).
    rewrite (IH lb); [reflexivity|simpl in Hlen; lia|].
    intros m a' b' Ha Hb. exact (Hsame (S m) a' b' Ha Hb).
Qed.

(** *** Facts: the passes of GraphCoarsening *)

Lemma reduce_sizes (threads : nat) (items : list nat) (tr : trace nat)
    (f : nat -> Z) :
  0 < threads -> do_all_trace threads items tr ->
  reduce size_add 0%Z
    (run_trace (fun tid c acc => update size_add tid (f c) acc) tr
               (GAccumulator threads))
  = wrap (total (map f items)).
Proof.
  intros Ht Htr.
  change (Reductions.map_reduce threads tr f size_add 0%Z
          = wrap (total (map f items))).
  rewrite Reductions.map_reduce_accumulate.
  pose proof (Reductions.do_all_trace_map f threads items tr Htr)
    as [Hw Hperm].
  set (tr' := map (fun e => (e.1, f e.2)) tr) in *.
  rewrite accumulate_slots.
  pose proof (Reductions.seeded_slots_total 0%Z (fun w => contrib w tr')
                (seq 0 threads)) as Hslots.
  rewrite length_seq, Z.mul_0_r, Z.add_0_l in Hslots.
  change (concat (map (fun w => contrib w tr') (seq 0 threads)))
    with (by_worker threads tr') in Hslots.
  rewrite (Reductions.total_perm (by_worker threads tr') (map f items))
    in Hslots by (rewrite <- Hperm; now apply by_worker_perm).
  rewrite <- Hslots. clear Hslots.
  assert (Hnorm : forall l, wrap (foldl size_add 0%Z l) = foldl size_add 0%Z l).
  { intros l. induction l as [|x l IH] using rev_ind.
    - reflexivity.
    - rewrite foldl_app. simpl. unfold size_add at 1 3.
      apply Reductions.wrap_wrap. }
  destruct threads as [|n]; [lia|].
  rewrite <- cons_seq. simpl.
  rewrite (foldl_add_total modulus wrap wrap_congr wrap_mod) by apply Hnorm.
  reflexivity.
Qed.

Section Passes.
Variable comm : list Z.
Variable adj : list (list (nat * Z)).
Variable num : nat.

Hypothesis comm_length : length comm = length adj.
Hypothesis comm_ok : forall n c,
  comm !! n = Some c ->
  c = Clustering.UNASSIGNED \/ (0 <= c < Z.of_nat num)%Z.
Hypothesis adj_ok : forall n es e,
  adj !! n = Some es -> e ∈ es -> e.1 < length adj.
Hypothesis num_fits : (Z.of_nat num <= modulus - 1)%Z.

Lemma fill_bags_spec (nodes : list nat) :
  forall bags,
    length bags = num -> Forall (fun n => n < length comm) nodes ->
    exists bags',
      fill_bags comm nodes bags = Ok bags' /\ length bags' = num /\
      forall c bag, bags !! c = Some bag ->
        bags' !! c
        = Some (bag ++ filter (fun n => comm !! n = Some (Z.of_nat c)) nodes).
Proof.
  induction nodes as [|n nodes IH]; intros bags Hlen Hall.
  - exists bags. split; [reflexivity|]. split; [exact Hlen|].
    intros c bag Hc. now rewrite filter_nil, app_nil_r.
  - apply Forall_cons in Hall as [Hn Hall].
    destruct (lookup_lt_is_Some_2 comm n Hn) as [c0 Hc0].
    simpl. unfold bag_node. rewrite Hc0.
    destruct (Z.eqb_spec c0 Clustering.UNASSIGNED) as [Hun|Has].
    + destruct (IH bags Hlen Hall) as (bags' & Hrun & Hlen' & Hat).
      exists bags'. split; [exact Hrun|]. split; [exact Hlen'|].
      intros c bag Hc. rewrite (Hat c bag Hc). f_equal. f_equal.
      rewrite filter_cons_False; [reflexivity|].
      rewrite Hc0. intros [= Heq].
      apply lookup_lt_Some in Hc. unfold Clustering.UNASSIGNED in Hun. lia.
    + destruct (comm_ok n c0 Hc0) as [Hun|Hrange]; [contradiction|].
      destruct (Nat.ltb_spec (Z.to_nat c0) (length bags)); [|lia].
      destruct (IH (alter (fun bag => bag ++ [n]) (Z.to_nat c0) bags))
        as (bags' & Hrun & Hlen' & Hat); [now rewrite length_alter|exact Hall|].
      exists bags'. split; [exact Hrun|]. split; [exact Hlen'|].
      intros c bag Hc. destruct (decide (c = Z.to_nat c0)) as [->|Hne].
      * rewrite (Hat (Z.to_nat c0) (bag ++ [n])).
        2:{ rewrite list_lookup_alter_eq, Hc. reflexivity. }
        rewrite filter_cons_True by (rewrite Hc0; f_equal; lia).
        now rewrite <- app_assoc.
      * rewrite (Hat c bag).
        2:{ rewrite list_lookup_alter_ne by congruence. exact Hc. }
        rewrite filter_cons_False; [reflexivity|].
        rewrite Hc0. intros [= Heq]. lia.
Qed.

(** What the first do_all leaves for cluster [c]. *)
Definition cluster_result (c : nat) : found :=
  match find_bag_edges false comm adj c (Found ∅ [] [] 0)
                       (bag_of comm adj c) with
  | Ok f => f
  | _ => Found ∅ [] [] 0
  end.

Definition cluster_edge_count (c : nat) : nat :=
  length (edges_of adj (bag_of comm adj c)).

Lemma cluster_result_tallied (c : nat) :
  (Z.of_nat (cluster_edge_count c) < modulus)%Z ->
  find_bag_edges false comm adj c (Found ∅ [] [] 0) (bag_of comm adj c)
  = Ok (cluster_result c) /\
  tallied comm (edges_of adj (bag_of comm adj c)) (cluster_result c).
Proof.
  intros Hfit.
  destruct (find_bag_edges_tallied comm adj c (bag_of comm adj c) []
              (Found ∅ [] [] 0) (tallied_empty comm)) as (f & Hrun & Hf).
  - apply Forall_forall. intros n Hn. unfold bag_of in Hn.
    apply list_elem_of_filter in Hn as [_ Hn]. apply elem_of_seq in Hn. lia.
  - apply Forall_forall. intros e He. unfold edges_of in He.
    apply list_elem_of_In, in_concat in He as (es & Hes & He).
    apply in_map_iff in Hes as (n & <- & _).
    destruct (adj !! n) as [es|] eqn:Hn; simpl in He; [|contradiction].
    rewrite comm_length. apply (adj_ok n es e Hn).
    now apply list_elem_of_In.
  - simpl. unfold cluster_edge_count in Hfit. lia.
  - unfold cluster_result. rewrite Hrun. split; [reflexivity|exact Hf].
Qed.

(** Whether the build has assertions; with them, no edge may lead to a
    node without a community. *)
Variable assertions : bool.
Hypothesis dests_assigned :
  assertions = true ->
  forall n es e, adj !! n = Some es -> e ∈ es ->
                 comm !! e.1 <> Some Clustering.UNASSIGNED.

Lemma edges_of_assigned (bag : list nat) :
  assertions = true ->
  Forall (fun e => comm !! e.1 <> Some Clustering.UNASSIGNED)
         (edges_of adj bag).
Proof.
  intros Ha. apply Forall_forall. intros e He. unfold edges_of in He.
  apply list_elem_of_In, in_concat in He as (es & Hes & He).
  apply in_map_iff in Hes as (n & <- & _).
  destruct (adj !! n) as [es|] eqn:Hn; simpl in He; [|contradiction].
  apply (dests_assigned Ha n es e Hn). now apply list_elem_of_In.
Qed.

Lemma cluster_result_ok (c : nat) :
  (Z.of_nat (cluster_edge_count c) < modulus)%Z ->
  find_bag_edges assertions comm adj c (Found ∅ [] [] 0) (bag_of comm adj c)
  = Ok (cluster_result c) /\
  tallied comm (edges_of adj (bag_of comm adj c)) (cluster_result c).
Proof.
  intros Hfit.
  rewrite (find_bag_edges_asserted assertions comm adj c).
  - now apply cluster_result_tallied.
  - apply Forall_forall. intros n Hn. unfold bag_of in Hn.
    now apply list_elem_of_filter in Hn as [Hn _].
  - apply edges_of_assigned.
Qed.

Variable bags : list (list nat).
Hypothesis bags_ok : forall c, c < num -> bags !! c = Some (bag_of comm adj c).
Hypothesis edges_fit : forall c,
  c < num -> (Z.of_nat (cluster_edge_count c) < modulus)%Z.

Lemma run_find (tr : trace nat) :
  forall I D,
    NoDup tr.*2 -> Forall (fun c => c < num) tr.*2 ->
    length I = num -> length D = num ->
    (forall c, c ∈ tr.*2 -> I !! c = Some [] /\ D !! c = Some []) ->
    exists I' D',
      run_trace_outcome (find_cluster_edges assertions comm adj bags) tr
                        (I, D)
      = Ok (I', D') /\
      length I' = num /\ length D' = num /\
      (forall c, c ∈ tr.*2 ->
         I' !! c = Some (edges_id_c (cluster_result c)) /\
         D' !! c = Some (edges_data_c (cluster_result c))) /\
      (forall c, c ∉ tr.*2 -> I' !! c = I !! c /\ D' !! c = D !! c).
Proof.
  induction tr as [|[tid c] tr IH]; intros I D Hnd Hlt HI HD Hfresh.
  - exists I, D. split; [reflexivity|]. split; [exact HI|].
    split; [exact HD|]. split; [intros c Hc; inversion Hc|auto].
  - rewrite fmap_cons in Hnd, Hlt, Hfresh. simpl in Hnd, Hlt, Hfresh.
    apply NoDup_cons in Hnd as [Hnotin Hnd].
    apply Forall_cons in Hlt as [Hc Hlt].
    destruct (Hfresh c ltac:(constructor)) as [HIc HDc].
    destruct (cluster_result_ok c (edges_fit c Hc)) as [Hrun _].
    destruct (IH (<[c := edges_id_c (cluster_result c)]> I)
                 (<[c := edges_data_c (cluster_result c)]> D))
      as (I' & D' & Hrest & HI' & HD' & Hin & Hout);
      try assumption; try (now rewrite length_insert).
    { intros c' Hc'. rewrite !list_lookup_insert_ne by (intros ->; contradiction).
      apply Hfresh. now constructor. }
    exists I', D'. split; [|split; [exact HI'|split; [exact HD'|split]]].
    + rewrite run_trace_outcome_cons.
      replace (find_cluster_edges assertions comm adj bags tid c (I, D))
        with (Ok (<[c := edges_id_c (cluster_result c)]> I,
                  <[c := edges_data_c (cluster_result c)]> D));
        [exact Hrest|].
      unfold find_cluster_edges. rewrite (bags_ok c Hc), HIc, HDc, Hrun.
      reflexivity.
    + intros c' Hc'. rewrite fmap_cons in Hc'. simpl in Hc'.
      destruct (decide (c' ∈ tr.*2)) as [Ht|Ht]; [now apply Hin|].
      apply elem_of_cons in Hc' as [->|Hc']; [|contradiction].
      destruct (Hout c Ht) as [-> ->].
      rewrite !list_lookup_insert_eq by lia. auto.
    + intros c' Hc'. rewrite fmap_cons in Hc'. simpl in Hc'.
      apply not_elem_of_cons in Hc' as [Hne Hc'].
      destruct (Hout c' Hc') as [-> ->].
      now rewrite !list_lookup_insert_ne by congruence.
Qed.

Definition cluster_size (c : nat) : Z :=
  Z.of_nat (length (edges_id_c (cluster_result c))).

Lemma run_count (I : list (list Z)) (tr : trace nat) :
  (forall c, c < num -> I !! c = Some (edges_id_c (cluster_result c))) ->
  forall P acc,
    Forall (fun c => c < num) tr.*2 -> length P = num ->
    exists P',
      run_trace_outcome (count_edges I) tr (P, acc)
      = Ok (P', run_trace (fun tid c acc =>
                             update size_add tid (cluster_size c) acc)
                          tr acc) /\
      length P' = num /\
      (forall c, c ∈ tr.*2 -> P' !! c = Some (cluster_size c)) /\
      (forall c, c ∉ tr.*2 -> P' !! c = P !! c).
Proof.
  intros HI. induction tr as [|[tid c] tr IH]; intros P acc Hlt HP.
  - exists P. split; [reflexivity|]. split; [exact HP|].
    split; [intros c Hc; inversion Hc|auto].
  - rewrite fmap_cons in Hlt. simpl in Hlt.
    apply Forall_cons in Hlt as [Hc Hlt].
    destruct (IH (<[c := cluster_size c]> P)
                 (update size_add tid (cluster_size c) acc) Hlt)
      as (P' & Hrest & HP' & Hin & Hout); [now rewrite length_insert|].
    exists P'. split; [|split; [exact HP'|split]].
    + rewrite run_trace_outcome_cons.
      replace (count_edges I tid c (P, acc))
        with (Ok (<[c := cluster_size c]> P,
                  update size_add tid (cluster_size c) acc));
        [exact Hrest|].
      unfold count_edges. rewrite (HI c Hc).
      destruct (Nat.ltb_spec c (length P)); [reflexivity|lia].
    + intros c' Hc'. rewrite fmap_cons in Hc'. simpl in Hc'.
      destruct (decide (c' ∈ tr.*2)) as [Ht|Ht]; [now apply Hin|].
      apply elem_of_cons in Hc' as [->|Hc']; [|contradiction].
      rewrite (Hout c Ht). apply list_lookup_insert_eq. lia.
    + intros c' Hc'. rewrite fmap_cons in Hc'. simpl in Hc'.
      apply not_elem_of_cons in Hc' as [Hne Hc'].
      rewrite (Hout c' Hc'). now apply list_lookup_insert_ne.
Qed.

(** The vectors of all clusters, and where those of cluster [n] start in
    the arrays of the new graph. *)
Definition ids_all : list (list Z) :=
  map (fun c => edges_id_c (cluster_result c)) (seq 0 num).
Definition data_all : list (list Z) :=
  map (fun c => edges_data_c (cluster_result c)) (seq 0 num).
Definition off (n : nat) : nat := length (concat (take n ids_all)).

Hypothesis total_fits : (Z.of_nat (length (concat ids_all)) < modulus)%Z.

Lemma ids_all_lookup (n : nat) :
  n < num -> ids_all !! n = Some (edges_id_c (cluster_result n)).
Proof.
  intros Hn. unfold ids_all.
  rewrite list_lookup_fmap, lookup_seq_lt by lia. reflexivity.
Qed.

Lemma data_all_lookup (n : nat) :
  n < num -> data_all !! n = Some (edges_data_c (cluster_result n)).
Proof.
  intros Hn. unfold data_all.
  rewrite list_lookup_fmap, lookup_seq_lt by lia. reflexivity.
Qed.

Lemma data_length (n : nat) :
  n < num ->
  length (edges_data_c (cluster_result n))
  = length (edges_id_c (cluster_result n)).
Proof.
  intros Hn. destruct (cluster_result_tallied n (edges_fit n Hn)) as [_ Ht].
  apply Ht.
Qed.

Lemma off_data (n : nat) : off n = length (concat (take n data_all)).
Proof.
  unfold off. apply concat_take_same_length.
  - unfold ids_all, data_all. now rewrite !length_map.
  - intros m a b Ha Hb.
    assert (Hm : m < num).
    { apply lookup_lt_Some in Ha. unfold ids_all in Ha.
      now rewrite length_map, length_seq in Ha. }
    rewrite ids_all_lookup in Ha by exact Hm.
    rewrite data_all_lookup in Hb by exact Hm.
    injection Ha as <-. injection Hb as <-. symmetry. now apply data_length.
Qed.

Lemma off_S (n : nat) :
  n < num -> off (S n) = off n + length (edges_id_c (cluster_result n)).
Proof.
  intros Hn. unfold off. apply concat_take_S. now apply ids_all_lookup.
Qed.

Lemma off_le (n : nat) : off n <= length (concat ids_all).
Proof. apply concat_take_le. Qed.

Lemma concat_data_length :
  length (concat data_all) = length (concat ids_all).
Proof.
  pose proof (off_data num) as H. unfold off in H.
  rewrite !firstn_all2 in H; [now symmetry| |].
  - unfold data_all. rewrite length_map, length_seq. lia.
  - unfold ids_all. rewrite length_map, length_seq. lia.
Qed.

Lemma place_loop_spec (n : nat) (ks : list nat) :
  n < num ->
  Forall (fun k => k < length (edges_id_c (cluster_result n))) ks ->
  forall st,
    length st.1 = length (concat ids_all) ->
    length st.2 = length (concat ids_all) ->
    exists st',
      place_loop ids_all data_all n (Z.of_nat (off n)) ks st = Ok st' /\
      length st'.1 = length (concat ids_all) /\
      length st'.2 = length (concat ids_all) /\
      (forall j, j ∈ (fun k => off n + k) <$> ks ->
         st'.1 !! j = concat ids_all !! j /\
         st'.2 !! j = concat data_all !! j) /\
      (forall j, j ∉ (fun k => off n + k) <$> ks ->
         st'.1 !! j = st.1 !! j /\ st'.2 !! j = st.2 !! j).
Proof.
  intros Hn. induction ks as [|k ks IH]; intros Hks [D W] HD HW.
  - exists (D, W). split; [reflexivity|]. split; [exact HD|].
    split; [exact HW|]. split; [intros j Hj; inversion Hj|auto].
  - apply Forall_cons in Hks as [Hk Hks]. simpl in HD, HW.
    pose proof (off_S n Hn) as HS. pose proof (off_le (S n)) as Hle.
    destruct (lookup_lt_is_Some_2 (edges_id_c (cluster_result n)) k Hk)
      as [v Hv].
    destruct (lookup_lt_is_Some_2 (edges_data_c (cluster_result n)) k
                ltac:(rewrite data_length by exact Hn; exact Hk)) as [w Hw].
    assert (Hgv : concat ids_all !! (off n + k) = Some v).
    { unfold off. rewrite (concat_lookup_block ids_all n _ k
                             (ids_all_lookup n Hn) Hk). exact Hv. }
    assert (Hgw : concat data_all !! (off n + k) = Some w).
    { rewrite off_data.
      rewrite (concat_lookup_block data_all n _ k (data_all_lookup n Hn)
                 ltac:(rewrite data_length by exact Hn; exact Hk)).
      exact Hw. }
    destruct (IH Hks (<[off n + k := v]> D, <[off n + k := w]> W))
      as (st' & Hrun & HD' & HW' & Hin & Hout);
      [simpl; now rewrite length_insert..|].
    exists st'. split; [|split; [exact HD'|split; [exact HW'|split]]].
    + simpl. unfold place_edge.
      rewrite (ids_all_lookup n Hn), (data_all_lookup n Hn). simpl.
      rewrite Hv, Hw.
      replace (Z.to_nat (Z.of_nat (off n) + Z.of_nat k)) with (off n + k)
        by lia.
      destruct (Nat.ltb_spec (off n + k) (length D)); [|lia].
      destruct (Nat.ltb_spec (off n + k) (length W)); [|lia].
      simpl. exact Hrun.
    + intros j Hj. rewrite fmap_cons in Hj.
      destruct (decide (j ∈ (fun k => off n + k) <$> ks)) as [Ht|Ht];
        [now apply Hin|].
      apply elem_of_cons in Hj as [->|Hj]; [|contradiction].
      destruct (Hout _ Ht) as [-> ->]. simpl.
      rewrite !list_lookup_insert_eq by lia. now rewrite Hgv, Hgw.
    + intros j Hj. rewrite fmap_cons in Hj.
      apply not_elem_of_cons in Hj as [Hne Hj].
      destruct (Hout _ Hj) as [-> ->]. simpl.
      now rewrite !list_lookup_insert_ne by congruence.
Qed.

(** Positions of the arrays that the clusters [ns] fill. *)
Definition filled (ns : list nat) (j : nat) : Prop :=
  exists n k, n ∈ ns /\ k < length (edges_id_c (cluster_result n)) /\
              j = off n + k.

Variable prefix : list Z.
Hypothesis prefix_ok : forall n,
  n < num -> prefix !! n = Some (Z.of_nat (off (S n))).

Lemma place_edges_spec (tid n : nat) (st : list Z * list Z) :
  n < num ->
  place_edges ids_all data_all prefix tid n st
  = place_loop ids_all data_all n (Z.of_nat (off n))
      (seq 0 (length (edges_id_c (cluster_result n)))) st.
Proof.
  intros Hn. unfold place_edges.
  pose proof (off_S n Hn) as HS. pose proof (off_le (S n)) as Hle.
  destruct (Nat.eqb_spec n 0) as [->|Hne].
  - rewrite (prefix_ok 0 Hn). cbn -[off wrap Z.of_nat seq place_loop].
    change (off 0) with 0 in HS |- *. rewrite HS.
    now rewrite Nat.add_0_l, Nat2Z.id.
  - rewrite (prefix_ok n Hn), (prefix_ok (n - 1) ltac:(lia)).
    cbn -[off wrap Z.of_nat seq place_loop].
    replace (S (n - 1)) with n by lia.
    rewrite wrap_small by lia. do 2 f_equal. lia.
Qed.

Lemma run_place (tr : trace nat) :
  forall st,
    Forall (fun n => n < num) tr.*2 ->
    length st.1 = length (concat ids_all) ->
    length st.2 = length (concat ids_all) ->
    exists st',
      run_trace_outcome (place_edges ids_all data_all prefix) tr st = Ok st' /\
      length st'.1 = length (concat ids_all) /\
      length st'.2 = length (concat ids_all) /\
      (forall j, filled tr.*2 j ->
         st'.1 !! j = concat ids_all !! j /\
         st'.2 !! j = concat data_all !! j) /\
      (forall j, (st'.1 !! j = concat ids_all !! j /\
                  st'.2 !! j = concat data_all !! j) \/
                 (st'.1 !! j = st.1 !! j /\ st'.2 !! j = st.2 !! j)).
Proof.
  induction tr as [|[tid n] tr IH]; intros st Hlt HD HW.
  - exists st. split; [reflexivity|]. split; [exact HD|]. split; [exact HW|].
    split; [|auto]. intros j (n & k & Hn & _). inversion Hn.
  - rewrite fmap_cons in Hlt. simpl in Hlt.
    apply Forall_cons in Hlt as [Hn Hlt].
    destruct (place_loop_spec n (seq 0 (length (edges_id_c (cluster_result n))))
                Hn ltac:(apply Forall_seq; intros; lia) st HD HW)
      as (st1 & Hrun1 & HD1 & HW1 & Hin1 & Hout1).
    destruct (IH st1 Hlt HD1 HW1) as (st' & Hrun & HD' & HW' & Hin & Hweak).
    exists st'. split; [|split; [exact HD'|split; [exact HW'|split]]].
    + rewrite run_trace_outcome_cons, (place_edges_spec tid n st Hn), Hrun1.
      exact Hrun.
    + intros j (m & k & Hm & Hk & ->). rewrite fmap_cons in Hm. simpl in Hm.
      apply elem_of_cons in Hm as [->|Hm].
      * destruct (Hweak (off n + k)) as [Hg|[-> ->]]; [exact Hg|].
        apply Hin1. apply list_elem_of_fmap. exists k. split; [reflexivity|].
        apply elem_of_seq. lia.
      * apply Hin. now exists m, k.
    + intros j. destruct (Hweak j) as [Hg|[-> ->]]; [now left|].
      destruct (decide (j ∈ (fun k => off n + k)
                          <$> seq 0 (length (edges_id_c (cluster_result n)))))
        as [Hj|Hj].
      * left. now apply Hin1.
      * right. now apply Hout1.
Qed.
End Passes.

(** *** Facts: sums *)

Lemma list_sum_elem (f : nat -> nat) (l : list nat) (x : nat) :
  x ∈ l -> f x <= list_sum (map f l).
Proof.
  induction l as [|y l IH]; intros Hx; [inversion Hx|].
  apply elem_of_cons in Hx as [->|Hx]; simpl; [lia|].
  specialize (IH Hx). lia.
Qed.

Lemma list_sum_le (f g : nat -> nat) (l : list nat) :
  (forall x, x ∈ l -> f x <= g x) ->
  list_sum (map f l) <= list_sum (map g l).
Proof.
  induction l as [|y l IH]; intros H; simpl; [lia|].
  pose proof (H y ltac:(constructor)).
  pose proof (IH ltac:(intros x Hx; apply H; now constructor)). lia.
Qed.

Lemma total_lengths {A : Type} (ls : list (list A)) :
  total (map (fun l => Z.of_nat (length l)) ls)
  = Z.of_nat (length (concat ls)).
Proof.
  unfold total. induction ls as [|l ls IH]; simpl; [reflexivity|].
  rewrite IH, length_app. lia.
Qed.

Lemma sum_list_lengths {A : Type} (ls : list (list A)) :
  forall acc,
    foldl Z.add acc (map (fun l => Z.of_nat (length l)) ls)
    = (acc + Z.of_nat (length (concat ls)))%Z.
Proof.
  induction ls as [|l ls IH]; intros acc; simpl; [lia|].
  rewrite IH, length_app. lia.
Qed.

Lemma do_all_items (threads num : nat) (tr : trace nat) :
  do_all_trace threads (seq 0 num) tr ->
  NoDup tr.*2 /\ Forall (fun c => c < num) tr.*2 /\
  (forall c, c < num -> c ∈ tr.*2).
Proof.
  intros [_ Hperm]. split; [|split].
  - rewrite Hperm. apply NoDup_seq.
  - rewrite Hperm. apply Forall_seq. intros; lia.
  - intros c Hc. rewrite Hperm. apply elem_of_seq. lia.
Qed.

(** *** The arrays of the coarsened graph *)

Section Assembly.
Variable comm : list Z.
Variable adj : list (list (nat * Z)).
Variable num : nat.
Variable threads : nat.

(** Every node has a community id; an id is UNASSIGNED or the number of a
    cluster; edges lead to nodes of the graph. *)
Hypothesis comm_length : length comm = length adj.
Hypothesis comm_ok : forall n c,
  comm !! n = Some c ->
  c = Clustering.UNASSIGNED \/ (0 <= c < Z.of_nat num)%Z.
Hypothesis adj_ok : forall n es e,
  adj !! n = Some es -> e ∈ es -> e.1 < length adj.
(** The sizes fit 64 bits. *)
Hypothesis sizes_fit :
  Blocks.in_range (Z.of_nat num) (Z.of_nat threads).
Hypothesis edges_fit :
  (Z.of_nat (list_sum (map (cluster_edge_count comm adj) (seq 0 num)))
   < modulus)%Z.

Lemma num_fits : (Z.of_nat num <= modulus - 1)%Z.
Proof. destruct sizes_fit as (H1 & H2 & H3). lia. Qed.

Lemma cluster_fits (c : nat) :
  c < num -> (Z.of_nat (cluster_edge_count comm adj c) < modulus)%Z.
Proof.
  intros Hc.
  pose proof (list_sum_elem (cluster_edge_count comm adj) (seq 0 num) c
                ltac:(apply elem_of_seq; lia)). lia.
Qed.

Lemma ids_le_edges (c : nat) :
  c < num ->
  length (edges_id_c (cluster_result comm adj c))
  <= cluster_edge_count comm adj c.
Proof.
  intros Hc.
  destruct (cluster_result_tallied comm adj num comm_length adj_ok c
              (cluster_fits c Hc)) as [_ (_ & _ & Hle & _)].
  exact Hle.
Qed.

Lemma total_fits :
  (Z.of_nat (length (concat (ids_all comm adj num))) < modulus)%Z.
Proof.
  unfold ids_all. rewrite length_concat, map_map.
  pose proof (list_sum_le
                (fun c => length (edges_id_c (cluster_result comm adj c)))
                (cluster_edge_count comm adj) (seq 0 num)) as Hle.
  specialize (Hle ltac:(intros c Hc; apply elem_of_seq in Hc;
                        apply ids_le_edges; lia)).
  lia.
Qed.

Lemma sizes_are (P : list Z) :
  length P = num ->
  (forall c, c < num -> P !! c = Some (cluster_size comm adj c)) ->
  P = map (fun l => Z.of_nat (length l)) (ids_all comm adj num).
Proof.
  intros Hlen Hat. apply list_eq. intros c.
  destruct (decide (c < num)) as [Hc|Hc].
  - rewrite (Hat c Hc). unfold ids_all.
    rewrite !list_lookup_fmap, lookup_seq_lt by lia. reflexivity.
  - rewrite !lookup_ge_None_2; [reflexivity| |lia].
    unfold ids_all. rewrite !length_map, length_seq. lia.
Qed.

Lemma prefix_sums (n : nat) :
  n < num ->
  (wrap <$> PartialSum.std_partial_sum Z.add
              (map (fun l => Z.of_nat (length l)) (ids_all comm adj num)))
    !! n
  = Some (Z.of_nat (off comm adj num (S n))).
Proof.
  intros Hn. rewrite list_lookup_fmap.
  rewrite (PartialSum.lookup_std_partial_sum Z.add 0%Z Z.add_0_l).
  2:{ unfold ids_all. rewrite !length_map, length_seq. exact Hn. }
  simpl. f_equal. unfold PartialSum.sum_list.
  rewrite firstn_map, sum_list_lengths. rewrite Z.add_0_l.
  apply wrap_small. unfold off.
  pose proof (concat_take_le (ids_all comm adj num) (S n)).
  pose proof total_fits. lia.
Qed.

(** Whether the build has assertions. With them there is at least one
    cluster (the last assertion reads [prefix_edges_count] at
    [num_unique_clusters - 1]) and no edge leads to a node without a
    community. *)
Variable assertions : bool.
Hypothesis some_cluster : assertions = true -> 0 < num.
Hypothesis dests_assigned :
  assertions = true ->
  forall n es e, adj !! n = Some es -> e ∈ es ->
                 comm !! e.1 <> Some Clustering.UNASSIGNED.

End Assembly.

(** *** No cluster at all *)

Lemma do_all_nothing (threads : nat) (tr : trace nat) :
  do_all_trace threads (seq 0 0) tr -> tr = [].
Proof.
  intros [_ Hperm]. apply Permutation_nil_r in Hperm.
  now apply fmap_nil_inv in Hperm.
Qed.

(** With no cluster, which is what a graph whose nodes are all UNASSIGNED
    has, the last assertion reads [prefix_edges_count] at
    [num_unique_clusters - 1], that is at 2^64 - 1 in an empty array: a
    build with assertions reads outside the array, a build without them
    returns three empty arrays. *)
Theorem GraphCoarsening_no_cluster (comm : list Z)
    (adj : list (list (nat * Z))) (threads : nat)
    (trB trC trD1 trD2 trE : trace nat) :
  length comm = length adj ->
  Forall (fun c => c = Clustering.UNASSIGNED) comm ->
  0 < threads ->
  do_all_trace threads (seq 0 0) trB ->
  do_all_trace threads (seq 0 0) trC ->
  do_all_trace threads (seq 0 0) trE ->
  GraphCoarsening true comm adj 0 threads trB trC trD1 trD2 trE = Undefined /\
  GraphCoarsening false comm adj 0 threads trB trC trD1 trD2 trE
  = Ok ([], [], []).
Proof.
  intros Hlen Hall Hthreads HtrB HtrC HtrE.
  apply do_all_nothing in HtrB, HtrE. subst trB trE.
  pose proof (reduce_sizes threads (seq 0 0) trC (fun _ => 0%Z) Hthreads HtrC)
    as Hsum.
  apply do_all_nothing in HtrC. subst trC.
  change (reduce size_add 0%Z (GAccumulator threads) = 0%Z) in Hsum.
  destruct (fill_bags_spec comm adj 0 Hlen) with
    (nodes := seq 0 (length adj)) (bags := @nil (list nat))
    as (bags & Hbags & Hbags_len & _).
  - intros n c Hc. left. rewrite Forall_forall in Hall.
    apply Hall. now apply list_elem_of_lookup_2 in Hc.
  - unfold modulus. lia.
  - reflexivity.
  - apply Forall_seq. intros; lia.
  - destruct bags; [|discriminate].
    unfold GraphCoarsening. cbn [replicate]. rewrite Hbags.
    cbn [run_trace_outcome]. rewrite !bind_Ok_r.
    cbv zeta. rewrite Hsum. split; reflexivity.
Qed.

(** A graph of four nodes, the last one without a community, and two
    clusters. *)
Definition sample_comm : list Z := [0; 1; 0; Clustering.UNASSIGNED]%Z.

Definition sample_adj : list (list (nat * Z)) :=
  [[(1, 5%Z); (2, 1%Z)]; [(0, 5%Z); (1, 3%Z)]; [(0, 1%Z); (1, 2%Z)];
   [(0, 9%Z)]].

Lemma sample_comm_ok (n : nat) (c : Z) :
  sample_comm !! n = Some c ->
  c = Clustering.UNASSIGNED \/ (0 <= c < Z.of_nat 2)%Z.
Proof.
  destruct n as [|[|[|[|n]]]]; simpl; intros H; try discriminate;
    injection H as <-; (now left) || (right; lia).
Qed.

Lemma sample_adj_ok (n : nat) (es : list (nat * Z)) (e : nat * Z) :
  sample_adj !! n = Some es -> e ∈ es -> e.1 < length sample_adj.
Proof.
  destruct n as [|[|[|[|n]]]]; simpl; intros H; try discriminate;
    injection H as <-; intros He;
    repeat (apply elem_of_cons in He as [->|He]; [simpl; lia|]);
    now apply elem_of_nil in He.
Qed.

Lemma sample_dests_assigned (n : nat) (es : list (nat * Z)) (e : nat * Z) :
  sample_adj !! n = Some es -> e ∈ es ->
  sample_comm !! e.1 <> Some Clustering.UNASSIGNED.
Proof.
  destruct n as [|[|[|[|n]]]]; simpl; intros H; try discriminate;
    injection H as <-; intros He;
    repeat (apply elem_of_cons in He as [->|He]; [simpl; discriminate|]);
    now apply elem_of_nil in He.
Qed.


Lemma GraphCoarsening_no_cluster_witness :
  GraphCoarsening true [Clustering.UNASSIGNED; Clustering.UNASSIGNED]
                  [[(1, 4%Z)]; [(0, 4%Z)]] 0 2 [] [] [] [] [] = Undefined /\
  GraphCoarsening false [Clustering.UNASSIGNED; Clustering.UNASSIGNED]
                  [[(1, 4%Z)]; [(0, 4%Z)]] 0 2 [] [] [] [] []
  = Ok ([], [], []).
Proof.
  apply GraphCoarsening_no_cluster.
  - reflexivity.
  - repeat constructor.
  - lia.
  - split; [constructor|reflexivity].
  - split; [constructor|reflexivity].
  - split; [constructor|reflexivity].
Defined.

End Coarsening.

(** ** Clustering: the degree weights of nodes and clusters *)

Module ClusterWeights.
Import SizeT Partition Runtime ParallelSTL Following.

#[local] Existing Instance result_ret.
#[local] Existing Instance result_bind.

(** [CommunityType], with the edge weight type taken as uint64_t. *)
Record CommunityType : Type := Community {
  size : Z;
  degree_wt : Z;
  internal_edge_wt : Z
}.

Section Weights.
(** For every node its edges, each with destination and weight. *)
Variable adj : list (list (nat * Z)).

(** The loop over the edges of a node that adds up [total_weight]. *)
Definition total_weight (edges : list (nat * Z)) : Z :=
  foldl (fun total_weight e => wrap (total_weight + e.2)) 0%Z edges.

(** Body of the do_all of [SumVertexDegreeWeight]. The state is the node
    property DegreeWeight and [c_info]. *)
Definition sum_vertex (tid : WorkerId) (n : nat)
    (st : list Z * list CommunityType) : result (list Z * list CommunityType) :=
  let '(n_degree_wt, c_info) := st in
  match adj !! n, c_info !! n with
  | Some edges, Some c =>
      if n <? length n_degree_wt then
        Ok (<[n := total_weight edges]> n_degree_wt,
            <[n := Community 1 (total_weight edges) (internal_edge_wt c)]>
              c_info)
      else Undefined
  | _, _ => Undefined
  end.

Definition SumVertexDegreeWeight (tr : trace nat)
    (st : list Z * list CommunityType) : result (list Z * list CommunityType) :=
  run_trace_result sum_vertex tr st.

(** [graph.GetData<NodePropType>(n)] for every node. *)
Variable comm : list Z.

(** Body of the first do_all of [SumClusterWeight]. The state is
    [degree_weight_array] and [c_info]. *)
Definition weigh_node (tid : WorkerId) (n : nat)
    (st : list Z * list CommunityType) : result (list Z * list CommunityType) :=
  let '(degree_weight_array, c_info) := st in
  match adj !! n, c_info !! n with
  | Some edges, Some c =>
      if n <? length degree_weight_array then
        Ok (<[n := total_weight edges]> degree_weight_array,
            <[n := Community (size c) 0 (internal_edge_wt c)]> c_info)
      else Undefined
  | _, _ => Undefined
  end.

(** Body of the second do_all, with its atomicAdd. *)
Definition add_node (tid : WorkerId) (n : nat)
    (st : list Z * list CommunityType) : result (list Z * list CommunityType) :=
  let '(degree_weight_array, c_info) := st in
  match comm !! n with
  | None => Undefined
  | Some n_data_comm_id =>
      if (n_data_comm_id =? Clustering.UNASSIGNED)%Z then Ok st
      else
        match c_info !! Z.to_nat n_data_comm_id, degree_weight_array !! n with
        | Some c, Some w =>
            Ok (degree_weight_array,
                <[Z.to_nat n_data_comm_id :=
                    Community (size c) (wrap (degree_wt c + w))
                              (internal_edge_wt c)]> c_info)
        | _, _ => Undefined
        end
  end.

Definition SumClusterWeight (tr1 tr2 : trace nat)
    (st : list Z * list CommunityType) : result (list Z * list CommunityType) :=
  st ← run_trace_result weigh_node tr1 st;
  run_trace_result add_node tr2 st.

(** The degree weight of node [n]. *)
Definition degree (n : nat) : Z := total_weight (default [] (adj !! n)).

(** The degree weights of the nodes among [nodes] that are in cluster
    [c], added up. *)
Definition cluster_sum (w : nat -> Z) (nodes : list nat) (c : nat) : Z :=
  foldr (fun n acc => if decide (comm !! n = Some (Z.of_nat c))
                      then (w n + acc)%Z else acc) 0%Z nodes.

Definition cluster_weight (c : nat) : Z :=
  wrap (cluster_sum degree (seq 0 (length adj)) c).
End Weights.

(** *** Facts *)

Definition reset (c : CommunityType) : CommunityType :=
  Community (size c) 0 (internal_edge_wt c).

Definition bump (w : Z) (c : CommunityType) : CommunityType :=
  Community (size c) (wrap (degree_wt c + w)) (internal_edge_wt c).

Definition single (w : Z) (c : CommunityType) : CommunityType :=
  Community 1 w (internal_edge_wt c).

Lemma bump_bump (a b : Z) (c : CommunityType) :
  bump a (bump b c) = bump (b + a) c.
Proof.
  unfold bump. cbn [size degree_wt internal_edge_wt]. f_equal.
  rewrite BlockAlgorithms.wrap_add_l. f_equal. lia.
Qed.

Lemma total_weight_range (edges : list (nat * Z)) :
  (0 <= total_weight edges < modulus)%Z.
Proof.
  unfold total_weight.
  assert (H : forall t, (0 <= t < modulus)%Z ->
            (0 <= foldl (fun t e => wrap (t + e.2)) t edges < modulus)%Z).
  { induction edges as [|e edges IH]; intros t Ht; [exact Ht|].
    simpl. apply IH. unfold wrap. apply Z.mod_pos_bound.
    unfold modulus. lia. }
  apply H. unfold modulus. lia.
Qed.

Lemma cluster_sum_perm (comm : list Z) (w : nat -> Z) (l1 l2 : list nat)
    (c : nat) :
  l1 ≡ₚ l2 -> cluster_sum comm w l1 c = cluster_sum comm w l2 c.
Proof.
  unfold cluster_sum.
  induction 1 as [|x l1 l2 _ IH|x y l|l1 l2 l3 _ IH1 _ IH2]; simpl.
  - reflexivity.
  - now rewrite IH.
  - destruct (decide (comm !! x = Some (Z.of_nat c))),
             (decide (comm !! y = Some (Z.of_nat c))); lia.
  - now rewrite IH1.
Qed.

Section NodePasses.
Variable adj : list (list (nat * Z)).

(** A pass that writes the cell of the node it visits. *)
Lemma node_pass (body : WorkerId -> nat -> list Z * list CommunityType ->
                        result (list Z * list CommunityType))
    (f : Z -> CommunityType -> CommunityType) :
  (forall tid n D C, n < length adj -> length D = length adj ->
     length C = length adj ->
     exists c, C !! n = Some c /\
       body tid n (D, C) = Ok (<[n := degree adj n]> D,
                               <[n := f (degree adj n) c]> C)) ->
  (forall w c, f w (f w c) = f w c) ->
  forall (tr : trace nat) (D : list Z) (C : list CommunityType),
  Forall (fun n => n < length adj) tr.*2 ->
  length D = length adj -> length C = length adj ->
  exists D' C',
    run_trace_result body tr (D, C) = Ok (D', C') /\
    length D' = length adj /\ length C' = length adj /\
    (forall n, D' !! n = if decide (n ∈ tr.*2) then Some (degree adj n)
                         else D !! n) /\
    (forall n, C' !! n = if decide (n ∈ tr.*2)
                         then f (degree adj n) <$> C !! n else C !! n).
Proof.
  intros Hbody Hidem tr.
  induction tr as [|[tid x] tr IH]; intros D C Hlt HD HC.
  - exists D, C. split; [reflexivity|]. split; [exact HD|].
    split; [exact HC|]. split; intros n.
    + destruct (decide (n ∈ ([] : trace nat).*2)) as [Hn|_];
        [|reflexivity]. now apply elem_of_nil in Hn.
    + destruct (decide (n ∈ ([] : trace nat).*2)) as [Hn|_];
        [|reflexivity]. now apply elem_of_nil in Hn.
  - rewrite fmap_cons in Hlt. cbn [snd] in Hlt.
    pose proof (Forall_inv Hlt) as Hx.
    pose proof (Forall_inv_tail Hlt) as Hlt'. cbn beta in Hx.
    destruct (Hbody tid x D C Hx HD HC) as (c & Hc & Hstep).
    destruct (IH (<[x := degree adj x]> D) (<[x := f (degree adj x) c]> C)
                Hlt') as (D' & C' & Hrun & HD' & HC' & HatD & HatC).
    { now rewrite length_insert. }
    { now rewrite length_insert. }
    exists D', C'. rewrite run_trace_result_cons, Hstep.
    split; [exact Hrun|]. split; [exact HD'|]. split; [exact HC'|].
    rewrite fmap_cons. cbn [snd].
    split; intros n.
    + rewrite HatD.
      destruct (decide (n ∈ tr.*2)) as [Hn|Hn].
      * rewrite decide_True by (now right). reflexivity.
      * destruct (decide (n = x)) as [->|Hne].
        -- rewrite decide_True by (now left).
           apply list_lookup_insert_eq. lia.
        -- rewrite decide_False.
           ++ now apply list_lookup_insert_ne.
           ++ intros Hin. apply elem_of_cons in Hin as [?|?]; tauto.
    + rewrite HatC.
      destruct (decide (n ∈ tr.*2)) as [Hn|Hn].
      * rewrite decide_True by (now right).
        destruct (decide (n = x)) as [->|Hne].
        -- rewrite list_lookup_insert_eq by lia. rewrite Hc. simpl.
           now rewrite Hidem.
        -- now rewrite list_lookup_insert_ne.
      * destruct (decide (n = x)) as [->|Hne].
        -- rewrite decide_True by (now left).
           rewrite list_lookup_insert_eq by lia. now rewrite Hc.
        -- rewrite decide_False.
           ++ now apply list_lookup_insert_ne.
           ++ intros Hin. apply elem_of_cons in Hin as [?|?]; tauto.
Qed.

Lemma degree_lookup (n : nat) :
  n < length adj ->
  exists edges, adj !! n = Some edges /\ degree adj n = total_weight edges.
Proof.
  intros Hn. destruct (lookup_lt_is_Some_2 adj n Hn) as [edges He].
  exists edges. split; [exact He|]. unfold degree. now rewrite He.
Qed.

Lemma sum_vertex_step (tid n : nat) (D : list Z) (C : list CommunityType) :
  n < length adj -> length D = length adj -> length C = length adj ->
  exists c, C !! n = Some c /\
    sum_vertex adj tid n (D, C)
    = Ok (<[n := degree adj n]> D, <[n := single (degree adj n) c]> C).
Proof.
  intros Hn HD HC.
  destruct (degree_lookup n Hn) as (edges & He & Hdeg).
  destruct (lookup_lt_is_Some_2 C n ltac:(lia)) as [c Hc].
  exists c. split; [exact Hc|]. unfold sum_vertex. rewrite He, Hc.
  assert (Hlt : (n <? length D) = true) by (apply Nat.ltb_lt; lia).
  rewrite Hlt, Hdeg. reflexivity.
Qed.

Lemma weigh_node_step (tid n : nat) (D : list Z) (C : list CommunityType) :
  n < length adj -> length D = length adj -> length C = length adj ->
  exists c, C !! n = Some c /\
    weigh_node adj tid n (D, C)
    = Ok (<[n := degree adj n]> D,
          <[n := (fun _ => reset) (degree adj n) c]> C).
Proof.
  intros Hn HD HC.
  destruct (degree_lookup n Hn) as (edges & He & Hdeg).
  destruct (lookup_lt_is_Some_2 C n ltac:(lia)) as [c Hc].
  exists c. split; [exact Hc|]. unfold weigh_node. rewrite He, Hc.
  assert (Hlt : (n <? length D) = true) by (apply Nat.ltb_lt; lia).
  rewrite Hlt, Hdeg. reflexivity.
Qed.

(** Both numbers of SumVertexDegreeWeight, cell by cell. *)
Lemma vertex_weights_cells (threads : nat) (tr : trace nat)
    (D : list Z) (C : list CommunityType) :
  do_all_trace threads (seq 0 (length adj)) tr ->
  length D = length adj -> length C = length adj ->
  exists D' C',
    SumVertexDegreeWeight adj tr (D, C) = Ok (D', C') /\
    length D' = length adj /\ length C' = length adj /\
    (forall n, n < length adj -> D' !! n = Some (degree adj n)) /\
    (forall n, n < length adj ->
       C' !! n = single (degree adj n) <$> C !! n).
Proof.
  intros Htr HD HC.
  destruct (Coarsening.do_all_items threads _ tr Htr) as (_ & Hlt & Hin).
  destruct (node_pass (sum_vertex adj) single sum_vertex_step
              (fun _ _ => eq_refl) tr D C Hlt HD HC)
    as (D1 & C1 & Hrun1 & HD1 & HC1 & HatD & HatC).
  exists D1, C1. split; [exact Hrun1|]. split; [exact HD1|].
  split; [exact HC1|]. split; intros n Hn.
  - rewrite HatD. now rewrite decide_True by now apply Hin.
  - rewrite HatC. now rewrite decide_True by now apply Hin.
Qed.

Lemma degrees_eq (D : list Z) :
  length D = length adj ->
  (forall n, n < length adj -> D !! n = Some (degree adj n)) ->
  D = map (degree adj) (seq 0 (length adj)).
Proof.
  intros HD Hat. apply list_eq. intros n.
  destruct (decide (n < length adj)) as [Hn|Hn].
  - rewrite (Hat n Hn). change (map ?f ?l) with (f <$> l).
    rewrite list_lookup_fmap, lookup_seq_lt by exact Hn. reflexivity.
  - rewrite !lookup_ge_None_2; [reflexivity| |lia].
    rewrite length_map, length_seq. lia.
Qed.

End NodePasses.

Section Passes.
Variable adj : list (list (nat * Z)).
Variable comm : list Z.

Hypothesis comm_length : length comm = length adj.
Hypothesis comm_ok : forall n c,
  comm !! n = Some c ->
  c = Clustering.UNASSIGNED \/ (0 <= c < Z.of_nat (length adj))%Z.
Hypothesis nodes_fit : (Z.of_nat (length adj) < modulus)%Z.

Lemma add_node_eq (tid n : nat) (D : list Z) (C : list CommunityType) :
  add_node comm tid n (D, C)
  = match comm !! n with
    | None => Undefined
    | Some id =>
        if (id =? Clustering.UNASSIGNED)%Z then Ok (D, C)
        else match C !! Z.to_nat id, D !! n with
             | Some c, Some w => Ok (D, <[Z.to_nat id := bump w c]> C)
             | _, _ => Undefined
             end
    end.
Proof. reflexivity. Qed.

(** The pass that adds the weight of every node to its cluster. *)
Lemma add_pass (D : list Z) (w : nat -> Z) :
  length D = length adj ->
  (forall n, n < length adj -> D !! n = Some (w n)) ->
  forall (tr : trace nat) (C : list CommunityType),
  Forall (fun n => n < length adj) tr.*2 ->
  length C = length adj ->
  Forall (fun c => (0 <= degree_wt c < modulus)%Z) C ->
  exists C',
    run_trace_result (add_node comm) tr (D, C) = Ok (D, C') /\
    length C' = length adj /\
    (forall c, C' !! c = bump (cluster_sum comm w tr.*2 c) <$> C !! c).
Proof.
  intros HD Hw tr.
  induction tr as [|[tid x] tr IH]; intros C Hlt HC Hrange.
  - exists C. split; [reflexivity|]. split; [exact HC|].
    intros c. simpl. destruct (C !! c) as [c0|] eqn:Hc0; [|reflexivity].
    simpl. f_equal. rewrite Forall_forall in Hrange.
    pose proof (Hrange c0 (list_elem_of_lookup_2 _ _ _ Hc0)) as Hr.
    destruct c0 as [s d i]. unfold bump.
    cbn [size degree_wt internal_edge_wt] in *.
    rewrite Z.add_0_r, wrap_small by exact Hr. reflexivity.
  - rewrite fmap_cons in Hlt. cbn [snd] in Hlt.
    pose proof (Forall_inv Hlt) as Hx.
    pose proof (Forall_inv_tail Hlt) as Hlt'. cbn beta in Hx.
    rewrite run_trace_result_cons. rewrite fmap_cons. cbn [snd].
    destruct (lookup_lt_is_Some_2 comm x ltac:(lia)) as [id Hid].
    rewrite add_node_eq, Hid.
    destruct (id =? Clustering.UNASSIGNED)%Z eqn:Hun.
    + apply Z.eqb_eq in Hun.
      destruct (IH C Hlt' HC Hrange) as (C' & Hrun & HC' & Hat).
      exists C'. split; [exact Hrun|]. split; [exact HC'|].
      intros c. rewrite Hat.
      destruct (decide (c < length adj)) as [Hc|Hc].
      * unfold cluster_sum at 2. cbn [foldr].
        rewrite decide_False; [reflexivity|].
        rewrite Hid. intros [= Heq]. subst id.
        unfold Clustering.UNASSIGNED in Heq. lia.
      * rewrite (lookup_ge_None_2 C c) by lia. reflexivity.
    + apply Z.eqb_neq in Hun.
      destruct (comm_ok x id Hid) as [?|Hr]; [contradiction|].
      destruct (lookup_lt_is_Some_2 C (Z.to_nat id) ltac:(lia)) as [cx Hcx].
      rewrite Hcx, (Hw x Hx).
      change (Ok ?a ≫= ?k) with (k a). cbv beta.
      destruct (IH (<[Z.to_nat id := bump (w x) cx]> C) Hlt')
        as (C' & Hrun & HC' & Hat).
      { now rewrite length_insert. }
      { apply Forall_insert; [exact Hrange|].
        unfold bump. cbn [degree_wt]. unfold wrap.
        apply Z.mod_pos_bound. unfold modulus. lia. }
      exists C'. split; [exact Hrun|]. split; [exact HC'|].
      intros c. rewrite Hat. unfold cluster_sum at 2. cbn [foldr].
      fold (cluster_sum comm w tr.*2 c).
      destruct (decide (c = Z.to_nat id)) as [->|Hne].
      * rewrite list_lookup_insert_eq by lia. rewrite Hcx.
        rewrite decide_True by (rewrite Hid; f_equal; lia).
        simpl. now rewrite bump_bump.
      * rewrite list_lookup_insert_ne by congruence.
        rewrite decide_False; [reflexivity|].
        rewrite Hid. intros [= Heq]. apply Hne. lia.
Qed.

(** Both passes of SumClusterWeight, cell by cell. *)
Lemma cluster_weights_cells (threads : nat) (tr1 tr2 : trace nat)
    (D : list Z) (C : list CommunityType) :
  do_all_trace threads (seq 0 (length adj)) tr1 ->
  do_all_trace threads (seq 0 (length adj)) tr2 ->
  length D = length adj -> length C = length adj ->
  exists D' C',
    SumClusterWeight adj comm tr1 tr2 (D, C) = Ok (D', C') /\
    length D' = length adj /\ length C' = length adj /\
    (forall n, n < length adj -> D' !! n = Some (degree adj n)) /\
    (forall c, C' !! c
               = (fun c0 => Community (size c0) (cluster_weight adj comm c)
                                      (internal_edge_wt c0)) <$> C !! c).
Proof.
  intros Htr1 Htr2 HD HC.
  destruct (Coarsening.do_all_items threads _ tr1 Htr1) as (_ & Hlt1 & Hin1).
  destruct (Coarsening.do_all_items threads _ tr2 Htr2) as (_ & Hlt2 & _).
  destruct (node_pass adj (weigh_node adj) (fun _ => reset)
              (weigh_node_step adj)
              (fun _ _ => eq_refl) tr1 D C Hlt1 HD HC)
    as (D1 & C1 & Hrun1 & HD1 & HC1 & HatD & HatC).
  assert (HD1_at : forall n, n < length adj -> D1 !! n = Some (degree adj n)).
  { intros n Hn. rewrite HatD. now rewrite decide_True by now apply Hin1. }
  assert (HC1_at : forall c, C1 !! c = reset <$> C !! c).
  { intros c. rewrite HatC. destruct (decide (c ∈ tr1.*2)) as [_|Hc];
      [reflexivity|].
    rewrite lookup_ge_None_2; [reflexivity|].
    destruct (decide (c < length adj)) as [Hlt|Hge]; [|lia].
    exfalso. apply Hc. now apply Hin1. }
  destruct (add_pass D1 (degree adj) HD1 HD1_at tr2 C1 Hlt2 HC1)
    as (C2 & Hrun2 & HC2 & Hat2).
  { apply Forall_lookup. intros i c Hc. rewrite HC1_at in Hc.
    destruct (C !! i) as [c0|]; [|discriminate]. injection Hc as <-.
    unfold reset. cbn [degree_wt]. unfold modulus. lia. }
  exists D1, C2. unfold SumClusterWeight. rewrite Hrun1.
  change (Ok ?a ≫= ?k) with (k a). cbv beta.
  split; [exact Hrun2|]. split; [exact HD1|]. split; [exact HC2|].
  split; [exact HD1_at|].
  intros c. rewrite Hat2, HC1_at.
  destruct (C !! c) as [c0|]; [|reflexivity]. simpl. f_equal.
  unfold bump, reset, cluster_weight. cbn [size degree_wt internal_edge_wt].
  f_equal. rewrite Z.add_0_l. f_equal.
  apply cluster_sum_perm. apply Htr2.
Qed.

(** SumClusterWeight adds up the degree weights of every cluster. With a
    community id for every node that is UNASSIGNED or the number of a node,
    and [degree_weight_array] and [c_info] as long as the graph has nodes,
    every execution of the two do_all loops ends without a stray access;
    it leaves in [degree_weight_array] the degree weight of every node and
    in [c_info[c].degree_wt] the sum (mod 2^64) of the degree weights of
    the nodes of cluster [c], whatever was there before; [size] and
    [internal_edge_wt] stay. *)
Theorem SumClusterWeight_sums (threads : nat) (tr1 tr2 : trace nat)
    (D : list Z) (C : list CommunityType) :
  do_all_trace threads (seq 0 (length adj)) tr1 ->
  do_all_trace threads (seq 0 (length adj)) tr2 ->
  length D = length adj -> length C = length adj ->
  SumClusterWeight adj comm tr1 tr2 (D, C)
  = Ok (map (degree adj) (seq 0 (length adj)),
        imap (fun c c0 => Community (size c0) (cluster_weight adj comm c)
                                    (internal_edge_wt c0)) C).
Proof.
  intros Htr1 Htr2 HD HC.
  destruct (cluster_weights_cells threads tr1 tr2 D C Htr1 Htr2 HD HC)
    as (D' & C' & Hrun & HD' & HC' & HatD & HatC).
  rewrite Hrun. do 2 f_equal.
  - now apply (degrees_eq adj).
  - apply list_eq. intros c. rewrite HatC, list_lookup_imap. reflexivity.
Qed.
End Passes.

(** *** Every node a cluster of its own *)

Section Singletons.
Variable adj : list (list (nat * Z)).

Definition own_clusters : list Z := Z.of_nat <$> seq 0 (length adj).

Lemma own_clusters_length : length own_clusters = length adj.
Proof. unfold own_clusters. now rewrite length_fmap, length_seq. Qed.

Lemma own_clusters_lookup (n : nat) (c : Z) :
  own_clusters !! n = Some c -> n < length adj /\ c = Z.of_nat n.
Proof.
  intros H. pose proof (lookup_lt_Some _ _ _ H) as Hn.
  rewrite own_clusters_length in Hn. split; [exact Hn|].
  unfold own_clusters in H.
  rewrite list_lookup_fmap, lookup_seq_lt in H by exact Hn.
  now injection H as <-.
Qed.

Lemma own_clusters_ok (n : nat) (c : Z) :
  own_clusters !! n = Some c ->
  c = Clustering.UNASSIGNED \/ (0 <= c < Z.of_nat (length adj))%Z.
Proof. intros H. apply own_clusters_lookup in H as [Hn ->]. right. lia. Qed.

Lemma own_cluster_sum (w : nat -> Z) (c : nat) (l : list nat) :
  NoDup l -> Forall (fun n => n < length adj) l ->
  cluster_sum own_clusters w l c = if decide (c ∈ l) then w c else 0%Z.
Proof.
  induction 1 as [|x l Hx Hnd IH]; intros Hlt.
  - simpl. destruct (decide (c ∈ [])) as [Hc|_]; [|reflexivity].
    now apply elem_of_nil in Hc.
  - pose proof (Forall_inv Hlt) as Hxlt. cbn beta in Hxlt.
    unfold cluster_sum. cbn [foldr]. fold (cluster_sum own_clusters w l c).
    rewrite (IH (Forall_inv_tail Hlt)).
    assert (Hlook : own_clusters !! x = Some (Z.of_nat x)).
    { unfold own_clusters.
      now rewrite list_lookup_fmap, lookup_seq_lt by exact Hxlt. }
    rewrite Hlook.
    destruct (decide (x = c)) as [->|Hne].
    + rewrite decide_True by reflexivity.
      rewrite (decide_True (P := c ∈ c :: l)) by now left.
      rewrite decide_False by exact Hx. lia.
    + rewrite decide_False by (intros [= Heq]; lia).
      destruct (decide (c ∈ l)) as [Hc|Hc].
      * rewrite decide_True by now right. reflexivity.
      * rewrite decide_False; [reflexivity|].
        intros Hin. apply elem_of_cons in Hin as [?|?]; [congruence|tauto].
Qed.

Lemma own_cluster_weight (c : nat) :
  c < length adj -> cluster_weight adj own_clusters c = degree adj c.
Proof.
  intros Hc. unfold cluster_weight. rewrite own_cluster_sum.
  - rewrite decide_True by (apply elem_of_seq; lia).
    apply wrap_small, total_weight_range.
  - apply NoDup_seq.
  - apply Forall_seq. intros; lia.
Qed.

(** SumVertexDegreeWeight gives every node its degree weight, in the node
    property and in [c_info], with size 1, in every execution of its
    do_all; and this is the state SumClusterWeight keeps when every node
    is a cluster of its own: run on it, with any executions of its loops,
    it ends in the same state. *)
Theorem SumVertexDegreeWeight_singletons (threads : nat)
    (tr tr1 tr2 : trace nat) (D : list Z) (C : list CommunityType) :
  (Z.of_nat (length adj) < modulus)%Z ->
  do_all_trace threads (seq 0 (length adj)) tr ->
  do_all_trace threads (seq 0 (length adj)) tr1 ->
  do_all_trace threads (seq 0 (length adj)) tr2 ->
  length D = length adj -> length C = length adj ->
  let st := (map (degree adj) (seq 0 (length adj)),
             imap (fun n c0 => Community 1 (degree adj n)
                                         (internal_edge_wt c0)) C) in
  SumVertexDegreeWeight adj tr (D, C) = Ok st /\
  SumClusterWeight adj own_clusters tr1 tr2 st = Ok st.
Proof.
  intros Hfit Htr Htr1 Htr2 HD HC st.
  destruct (vertex_weights_cells adj threads tr D C Htr HD HC)
    as (D' & C' & Hrun & HD' & HC' & HatD & HatC).
  assert (Hst : (D', C') = st).
  { unfold st. f_equal; [now apply (degrees_eq adj)|].
    apply list_eq. intros n. rewrite list_lookup_imap.
    destruct (decide (n < length adj)) as [Hn|Hn].
    - now rewrite HatC.
    - rewrite !lookup_ge_None_2; [reflexivity|lia|lia]. }
  split; [now rewrite Hrun, Hst|]. rewrite <- Hst.
  destruct (cluster_weights_cells adj own_clusters own_clusters_length
              own_clusters_ok Hfit threads tr1 tr2 D' C' Htr1 Htr2 HD' HC')
    as (D2 & C2 & Hrun2 & HD2 & HC2 & HatD2 & HatC2).
  rewrite Hrun2. do 2 f_equal.
  - rewrite (degrees_eq adj D2 HD2 HatD2). symmetry.
    now apply (degrees_eq adj).
  - apply list_eq. intros c. rewrite HatC2.
    destruct (decide (c < length adj)) as [Hc|Hc].
    + rewrite (HatC c Hc), own_cluster_weight by exact Hc.
      destruct (C !! c) as [c0|]; reflexivity.
    + rewrite !lookup_ge_None_2; [reflexivity|lia].
Qed.
End Singletons.

(** Four nodes; two of them in cluster 2, one in cluster 0, one without a
    community. *)
Definition sample_adj : list (list (nat * Z)) :=
  [[(1, 5%Z); (2, 1%Z)]; [(0, 5%Z)]; [(0, 1%Z)]; []].

Definition sample_comm : list Z := [2; 2; 0; Clustering.UNASSIGNED]%Z.

Definition sample_c_info : list CommunityType :=
  [Community 1 99 7; Community 2 98 0; Community 3 97 0; Community 4 96 1]%Z.

Lemma sample_ids_ok (n : nat) (c : Z) :
  sample_comm !! n = Some c ->
  c = Clustering.UNASSIGNED \/ (0 <= c < Z.of_nat (length sample_adj))%Z.
Proof.
  destruct n as [|[|[|[|n]]]]; simpl; intros H; try discriminate;
    injection H as <-; (now left) || (right; lia).
Qed.

Lemma SumClusterWeight_sums_witness :
  SumClusterWeight sample_adj sample_comm
    [(0, 3); (1, 2); (1, 1); (0, 0)] [(1, 1); (0, 2); (1, 3); (0, 0)]
    ([0; 0; 0; 0]%Z, sample_c_info)
  = Ok ([6; 5; 1; 0]%Z,
        [Community 1 1 7; Community 2 0 0; Community 3 11 0;
         Community 4 0 1]%Z).
Proof.
  refine (SumClusterWeight_sums sample_adj sample_comm eq_refl
            sample_ids_ok _ 2
            [(0, 3); (1, 2); (1, 1); (0, 0)] [(1, 1); (0, 2); (1, 3); (0, 0)]
            [0; 0; 0; 0]%Z sample_c_info _ _ eq_refl eq_refl).
  - unfold modulus. simpl. lia.
  - split; [repeat constructor|].
    change (rev [0; 1; 2; 3] ≡ₚ [0; 1; 2; 3]).
    symmetry. apply Permutation_rev.
  - split; [repeat constructor|].
    symmetry. exact (Permutation_cons_append [1; 2; 3] 0).
Defined.

Lemma SumVertexDegreeWeight_singletons_witness :
  let st := ([6; 5; 1; 0]%Z,
             [Community 1 6 7; Community 1 5 0; Community 1 1 0;
              Community 1 0 1]%Z) in
  SumVertexDegreeWeight sample_adj [(1, 3); (0, 2); (0, 1); (1, 0)]
    ([0; 0; 0; 0]%Z, sample_c_info) = Ok st /\
  SumClusterWeight sample_adj (own_clusters sample_adj)
    [(0, 3); (1, 2); (1, 1); (0, 0)] [(1, 1); (0, 2); (1, 3); (0, 0)] st
  = Ok st.
Proof.
  refine (SumVertexDegreeWeight_singletons sample_adj 2
            [(1, 3); (0, 2); (0, 1); (1, 0)]
            [(0, 3); (1, 2); (1, 1); (0, 0)] [(1, 1); (0, 2); (1, 3); (0, 0)]
            [0; 0; 0; 0]%Z sample_c_info _ _ _ _ eq_refl eq_refl).
  - unfold modulus. simpl. lia.
  - split; [repeat constructor|].
    change (rev [0; 1; 2; 3] ≡ₚ [0; 1; 2; 3]).
    symmetry. apply Permutation_rev.
  - split; [repeat constructor|].
    change (rev [0; 1; 2; 3] ≡ₚ [0; 1; 2; 3]).
    symmetry. apply Permutation_rev.
  - split; [repeat constructor|].
    symmetry. exact (Permutation_cons_append [1; 2; 3] 0).
Defined.

End ClusterWeights.
